(* ===== verification/_CoqProject ===== *)
-Q . S2P
Prelude.v
RaftNode.v
RaftInstances.v
RaftNodeFacts.v
RaftTasks.v
RaftGuarantees.v
RaftCluster.v
RaftClusterFacts.v
RaftNodeProps.v
RaftReplication.v
RaftClusterProps.v
RaftTraces.v
Ring.v
RingInstances.v
RingFacts.v
RingProps.v
RingTokens.v
RingTraces.v
TypeConv.v
TypeConvProps.v
Paths.v
PathsProps.v
FsProto.v
DistfsServer.v
DistfsFacts.v
DistfsMemOs.v
DistfsLocks.v
DistfsFiles.v
DistfsTables.v
DistfsConfined.v
DistfsRequests.v
DistfsClient.v
DistfsEndToEnd.v
IpSd.v
IpSdProps.v
