(* ===== verification/Prelude.v ===== *)
(** * Four distributed programs, verified

    The repository holds the Rust programs of a course on distributed systems:
    [src/raft2], a Raft replicated log over HTTP; [src/ring-rs], a ring of nodes that
    elects a coordinator, over gRPC; [src/distfs], a remote file system, a server over
    gRPC and a FUSE client; and [src/ip-sd], a registry of addresses over UDP.  They are
    four programs: they share no code and do not talk to each other.  This development
    models each from its source, and proves what makes it correct; where the code falls
    short of what its comments say, a theorem exhibits it.

    ** Layout

    [Prelude] (this file): the outcome type and the state monad in which every handler is
    written; [u64] arithmetic under both build profiles; [Vec]'s operations with their
    panics; the rules [wp_...] and [safe_...] with which the components reason; lists.

    Raft, [src/raft2/src/lib.rs] and the routes of [src/raft2/src/main.rs]:
    - [RaftNode]: the types ([State], [SharedState], [Persistent], [Role]), the file of
      the persistent state, and the handlers [append_entries], [request_vote], [get_log];
      [RaftNodeFacts] and [RaftNodeProps]: their specifications on every branch.
    - [RaftTasks]: [open_election] and [send_append_entries], cut where they release the
      lock; [RaftGuarantees]: what one section may do to a node.
    - [RaftCluster]: nodes, running tasks and requests in flight, one event at a time;
      [RaftClusterFacts], [RaftClusterProps]: invariants of every reachable cluster;
      [RaftReplication]: rounds of heartbeats; [RaftTraces]: closed executions.
    - [RaftInstances]: a concrete JSON encoding and addresses for the executions.

    The ring, [src/ring-rs/src/main.rs]:
    - [Ring]: the node's state, its RPC handlers, the spawned tasks as [Job]s, [join],
      recovery, and the loops of [main]; [RingFacts]: runs without losses.
    - [RingProps]: joining, leaving, recovering; [RingTokens]: the election and the
      member list as they travel; [RingTraces], [RingInstances]: closed executions.

    The file system, [src/distfs]:
    - [TypeConv] for [type_conv.rs], [Paths] for [Server::real_path], [FsProto] for
      [protos/fs.proto], each with its properties.
    - [DistfsServer] for [server.rs]: the tables, the locks, every [_impl] and the service
      [serve]; the operating system is the class [Os].
    - [DistfsFacts]: one pass over the handlers for any invariant; [DistfsLocks],
      [DistfsTables], [DistfsConfined], [DistfsFiles], [DistfsRequests]: its uses.
      [DistfsMemOs]: the laws of regular files and a file system in memory that keeps them.
    - [DistfsClient] for [client.rs]; [DistfsEndToEnd]: client, network and server.

    The registry, [src/ip-sd/src/main.rs]: [IpSd] and [IpSdProps].

    ** How code is modelled

    An [async fn] that returns [Result] is a computation of [M]: a function of the state
    to an outcome, [Ok], [Err], panic, or waiting for ever, and the state as it then is.
    What runs under one lock guard runs without interruption and is one computation; what
    gives the guard back is cut there, and the pieces are events of a step relation, in
    any order ([RaftCluster.exec], [Ring.join_step]).  [Vec] is [list], [HashMap] is
    [gmap], [HashSet] is [gset]; [usize] and [u64] are [N] with the overflow of the
    profile written out, and the casts of [distfs] are on [Z].

    Third-party code is a parameter: the JSON and MessagePack encodings, the printing and
    parsing of addresses, the operating system with the file calls of tokio, nix and
    filetime, and the network.  Its laws are classes ([SerdeJsonLaws], [AddrTextLaws],
    [FileLaws], [Respects], [RmpSerdeLaws]) and each has an instance that satisfies it.

    ** What the theorems show

    - Raft, one node: both handlers refine their specifications on every branch when the
      file does its part, reply (a result or an error) whatever the file does, and a
      restart finds what was saved.  A cluster: terms never decrease, a leader only
      appends and has a majority of votes of its term.  Heartbeats leave a follower with
      its own log up to the last position where the terms agree, and the leader's after
      it ([heartbeats_converge]): equal logs exactly if they were equal up to there, as
      Log Matching says.  Log Matching is not an invariant of this code: overlapping
      appends can leave the logs different for ever, with both versions committed
      ([overlapping_appends_diverge]).  Election safety does not hold: a candidate
      forgets its own vote; nor does a commit mean replication: the lock that should keep
      appends apart is dropped at once, and a deposed leader counts its own futures as
      successes.
    - The ring: joins and departures keep the live nodes one cycle, as an abstract list
      says; an election makes the member of the smallest address coordinator, and its turn
      tells everyone the members; a token heals the cycle after crashes.  Two joins
      through one node that overlap break it.
    - The file system: handles are fresh and stay; reads are exact, and writes read back;
      the requests stay below the exported directory if names are plain names, and leave
      it otherwise; the client relays what the server answers.  An [fsync], and a copy
      within a file, wait for themselves, and the requests behind them wait too.
    - The registry: a query gets exactly what was registered.

    ** Bounds and fuel

    The read loop of [DistfsServer.read_impl] has fuel for one turn more than the bytes
    asked for: every turn but the last reads one, so the fuel does not run out
    ([only_self_deadlocks_block], [read_exact]).  Other recursions are structural.  Rounds
    of heartbeats and hops of a token are counted in the theorems.

    ** What is not modelled

    Real time (timers are events that may happen), cancelled requests, logging, argument
    parsing and start-up, the generated stubs and their wire formats; closing is the
    only effect of dropping a file.  [src/distfs/src/mux.rs] leases a request of the
    client the first free of its connections; they all lead to the same server, and the
    client is modelled over one.  The C programs of [src/intro] and [src/ring] are
    separate exercises. *)

From stdpp Require Export base tactics list gmap strings numbers relations.
From Stdlib Require Export NArith ZArith Lia.
From Stdlib Require Import Strings.Byte.

(** ** Outcomes and the state monad *)

(** How an [async fn] ends: it returns [Ok], it returns [Err] through [?], it
    panics, or it waits for ever on a lock that is never released. *)
Inductive outcome (E A : Type) : Type :=
| Done (a : A)
| Fail (e : E)
| Panic
| Blocked.
Arguments Done {E A} a.
Arguments Fail {E A} e.
Arguments Panic {E A}.
Arguments Blocked {E A}.

(** A computation over a mutable state [S]: whatever the outcome, the writes made
    so far stay, as with fields behind a lock guard. *)
Definition M (S E A : Type) : Type := S → outcome E A * S.

Definition ret {S E A} (a : A) : M S E A := λ s, (Done a, s).

Definition bind {S E A B} (m : M S E A) (k : A → M S E B) : M S E B := λ s,
  match m s with
  | (Done a, s') => k a s'
  | (Fail e, s') => (Fail e, s')
  | (Panic, s') => (Panic, s')
  | (Blocked, s') => (Blocked, s')
  end.

Definition fail {S E A} (e : E) : M S E A := λ s, (Fail e, s).
Definition panic {S E A} : M S E A := λ s, (Panic, s).
Definition blocked {S E A} : M S E A := λ s, (Blocked, s).
Definition gets {S E A} (f : S → A) : M S E A := λ s, (Done (f s), s).
Definition modify {S E} (f : S → S) : M S E unit := λ s, (Done tt, f s).

(** Runs [m] and hands its [Result] on as a value: no [?]. *)
Definition attempt {S E A} (m : M S E A) : M S E (A + E) := λ s,
  match m s with
  | (Done a, s') => (Done (inl a), s')
  | (Fail e, s') => (Done (inr e), s')
  | (Panic, s') => (Panic, s')
  | (Blocked, s') => (Blocked, s')
  end.

(** [o.ok_or(e)?] and an indexing that panics on [None]. *)
Definition or_fail {S E A} (e : E) (o : option A) : M S E A :=
  match o with Some a => ret a | None => fail e end.
Definition or_panic {S E A} (o : option A) : M S E A :=
  match o with Some a => ret a | None => panic end.

Declare Scope prog_scope.
Delimit Scope prog_scope with prog.
Notation "'let!' x := m 'in' k" := (bind m (λ x, k))
  (at level 10, x pattern, m at level 100, k at level 200,
   format "'[v' 'let!'  x  :=  m  'in' '/' k ']'") : prog_scope.
Notation "m ;; k" := (bind m (λ _, k))
  (at level 100, k at level 200, right associativity,
   format "'[v' m  ;;  '/' k ']'") : prog_scope.
Notation "'when' b 'do' m" := (if b then m else ret tt)
  (at level 10, b at level 100, m at level 100) : prog_scope.

(** The value an outcome carries, and the test that it is [Ok]. *)
Definition outcome_ok {E A} (o : outcome E A) : option A :=
  match o with Done a => Some a | _ => None end.

(** ** Machine integers

    [u64] and [usize] (on a 64-bit target) are [N] below [2^64].  Whether an
    overflow panics or wraps is the build profile's choice: Cargo's [dev] profile
    checks, its [release] profile wraps. *)
Class Profile := overflow_checks : bool.
Definition dev_profile : Profile := true.
Definition release_profile : Profile := false.

Definition u64_modulus : N := (2 ^ 64)%N.

Definition u64_add {S E} `{Profile} (a b : N) : M S E N :=
  if (a + b <? u64_modulus)%N then ret (a + b)%N
  else if overflow_checks then panic else ret ((a + b) mod u64_modulus)%N.

Definition u64_sub {S E} `{Profile} (a b : N) : M S E N :=
  if (b <=? a)%N then ret (a - b)%N
  else if overflow_checks then panic else ret (a + u64_modulus - b)%N.

(** ** [Vec] and slices, indexed by [usize] *)

Definition len {A} (l : list A) : N := N.of_nat (length l).

(** [v[i]]: [None] is the index panic. *)
Definition vec_index {A} (l : list A) (i : N) : option A :=
  if (i <? len l)%N then l !! N.to_nat i else None.

(** No [Vec] holds more than [isize::MAX] elements: growing beyond that is the
    "capacity overflow" panic (real ones run out of memory earlier). *)
Definition isize_max : N := (2 ^ 63 - 1)%N.

(** [v.insert(i, x)]: shifts the elements from [i] on; panics past the end. *)
Definition vec_insert {A} (i : N) (x : A) (l : list A) : option (list A) :=
  if ((i <=? len l) && (len l <? isize_max))%N
  then Some (take (N.to_nat i) l ++ x :: drop (N.to_nat i) l) else None.

(** [v.append(&mut w)] *)
Definition vec_append {A} (l k : list A) : option (list A) :=
  if (len l + len k <=? isize_max)%N then Some (l ++ k) else None.

(** [v.resize_with(n, || unreachable!())]: growing would call the closure. *)
Definition vec_shrink {A} (n : N) (l : list A) : option (list A) :=
  if (n <=? len l)%N then Some (take (N.to_nat n) l) else None.

(** [v.get(i..)] and [v.get(0..j)]. *)
Definition slice_from {A} (i : N) (l : list A) : option (list A) :=
  if (i <=? len l)%N then Some (drop (N.to_nat i) l) else None.
Definition slice_to {A} (j : N) (l : list A) : option (list A) :=
  if (j <=? len l)%N then Some (take (N.to_nat j) l) else None.

(** ** Byte arrays and files *)

Abbreviation bytes := (list Byte.byte).

(** Writing [b] at offset [p] of [c]: a hole past the end reads as zeroes. *)
Definition splice {A} (zero : A) (c : list A) (p : nat) (b : list A) : list A :=
  take p (c ++ replicate (p - length c) zero) ++ b ++ drop (p + length b) c.

(** The bits of a positive number, least significant first, one byte each: an encoding
    of anything countable, for the concrete instances. *)
Fixpoint bytes_of_pos (p : positive) : bytes :=
  match p with
  | xH => []
  | xO p => Byte.x00 :: bytes_of_pos p
  | xI p => Byte.x01 :: bytes_of_pos p
  end.

Fixpoint pos_of_bytes (b : bytes) : positive :=
  match b with
  | [] => xH
  | Byte.x00 :: b => xO (pos_of_bytes b)
  | _ :: b => xI (pos_of_bytes b)
  end.

Lemma pos_of_bytes_of p : pos_of_bytes (bytes_of_pos p) = p.
Proof. induction p; simpl; congruence. Qed.

(** ** Equality and countability shared by the components *)

(** [std::net::SocketAddr]; the flow label of an IPv6 address is left out, since it
    is always 0 for addresses parsed from text. *)
Inductive SocketAddr :=
| V4 (ip : N) (port : N)
| V6 (ip : N) (port : N) (scope_id : N).

#[export] Instance SocketAddr_eq_dec : EqDecision SocketAddr.
Proof. solve_decision. Defined.

#[export] Instance SocketAddr_countable : Countable SocketAddr.
Proof.
  refine (inj_countable'
    (λ a, match a with
          | V4 i p => inl (i, p)
          | V6 i p s => inr (i, p, s)
          end)
    (λ x, match x with
          | inl (i, p) => V4 i p
          | inr (i, p, s) => V6 i p s
          end) _); by intros [].
Defined.

(** ** Reasoning about computations *)

(** [wp m Q s]: running [m] from [s] ends with an outcome and a state in [Q]. *)
Definition wp {S E A} (m : M S E A) (Q : outcome E A → S → Prop) (s : S) : Prop :=
  Q (m s).1 (m s).2.

Create HintDb prog discriminated.

Section wp.
Context {S E : Type}.

Lemma bind_done {A B} (m : M S E A) (k : A → M S E B) s a s' :
  m s = (Done a, s') → bind m k s = k a s'.
Proof. intros Hm. unfold bind. by rewrite Hm. Qed.
Lemma bind_fail {A B} (m : M S E A) (k : A → M S E B) s e s' :
  m s = (Fail e, s') → bind m k s = (Fail e, s').
Proof. intros Hm. unfold bind. by rewrite Hm. Qed.
Lemma bind_blocked {A B} (m : M S E A) (k : A → M S E B) s s' :
  m s = (Blocked, s') → bind m k s = (Blocked, s').
Proof. intros Hm. unfold bind. by rewrite Hm. Qed.

Lemma wp_bind {A B} (m : M S E A) (k : A → M S E B) Q s :
  wp m (λ o s', match o with
                | Done a => wp (k a) Q s'
                | Fail e => Q (Fail e) s'
                | Panic => Q Panic s'
                | Blocked => Q Blocked s'
                end) s → wp (bind m k) Q s.
Proof. unfold wp, bind. destruct (m s) as [[] ?]; done. Qed.

Lemma wp_mono {A} (m : M S E A) (P Q : outcome E A → S → Prop) s :
  wp m P s → (∀ o s', P o s' → Q o s') → wp m Q s.
Proof. unfold wp. eauto. Qed.

Lemma wp_ret {A} (a : A) (Q : outcome E A → S → Prop) s :
  Q (Done a) s → wp (ret a) Q s.
Proof. done. Qed.
Lemma wp_fail {A} (e : E) (Q : outcome E A → S → Prop) s :
  Q (Fail e) s → wp (fail e) Q s.
Proof. done. Qed.
Lemma wp_gets {A} (f : S → A) (Q : outcome E A → S → Prop) s :
  Q (Done (f s)) s → wp (gets f) Q s.
Proof. done. Qed.
Lemma wp_or_panic {A} (o : option A) (Q : outcome E A → S → Prop) s :
  (∀ a, o = Some a → Q (Done a) s) → (o = None → Q Panic s) → wp (or_panic o) Q s.
Proof. destruct o; unfold wp; simpl; eauto. Qed.
Lemma wp_or_fail {A} (e : E) (o : option A) (Q : outcome E A → S → Prop) s :
  (∀ a, o = Some a → Q (Done a) s) → (o = None → Q (Fail e) s) → wp (or_fail e o) Q s.
Proof. destruct o; unfold wp; simpl; eauto. Qed.
Lemma wp_u64_add_any `{Profile} a b (Q : outcome E N → S → Prop) s :
  (∀ o, (o = Panic ∨ ∃ n, o = Done n) → Q o s) → wp (u64_add a b) Q s.
Proof. intros HQ. unfold wp, u64_add. repeat case_match; simpl; eauto. Qed.
Lemma wp_u64_sub_any `{Profile} a b (Q : outcome E N → S → Prop) s :
  (∀ o, (o = Panic ∨ ∃ n, o = Done n) → Q o s) → wp (u64_sub a b) Q s.
Proof. intros HQ. unfold wp, u64_sub. repeat case_match; simpl; eauto. Qed.

Lemma wp_u64_add `{Profile} a b (Q : outcome E N → S → Prop) s :
  (a + b < u64_modulus)%N → Q (Done (a + b)%N) s → wp (u64_add a b) Q s.
Proof.
  intros Hlt HQ. unfold wp, u64_add.
  by destruct (N.ltb_spec (a + b) u64_modulus); [|lia].
Qed.

Lemma wp_u64_sub `{Profile} a b (Q : outcome E N → S → Prop) s :
  (b ≤ a)%N → Q (Done (a - b)%N) s → wp (u64_sub a b) Q s.
Proof.
  intros Hle HQ. unfold wp, u64_sub. by destruct (N.leb_spec b a); [|lia].
Qed.
End wp.

(** ** Invariants of computations

    [safe J B m Φ]: [m] keeps the invariant [J] however it ends, its value is in [Φ],
    and it waits for ever only if [B]. *)
Definition safe {S E A} (J : S → Prop) (B : Prop) (m : M S E A) (Φ : A → Prop) : Prop :=
  ∀ s, J s → J (m s).2 ∧ ((m s).1 = Blocked → B) ∧ ∀ a, (m s).1 = Done a → Φ a.

Create HintDb safe discriminated.

Section safe.
Context {S E : Type} (J : S → Prop) (B : Prop).

Lemma safe_ret {A} (a : A) (Φ : A → Prop) : Φ a → safe J B (@ret S E A a) Φ.
Proof. intros Ha s Hs. split_and!; [done|done|]. by intros ? [= <-]. Qed.
Lemma safe_fail {A} (e : E) (Φ : A → Prop) : safe J B (@fail S E A e) Φ.
Proof. by intros s Hs. Qed.
Lemma safe_panic {A} (Φ : A → Prop) : safe J B (@panic S E A) Φ.
Proof. by intros s Hs. Qed.
Lemma safe_blocked {A} (Φ : A → Prop) : B → safe J B (@blocked S E A) Φ.
Proof. by intros HB s Hs. Qed.
Lemma safe_gets {A} (f : S → A) (Φ : A → Prop) :
  (∀ s, J s → Φ (f s)) → safe J B (@gets S E A f) Φ.
Proof. intros Hf s Hs. split_and!; [done|done|]. intros a [= <-]. by apply Hf. Qed.
Lemma safe_modify (f : S → S) (Φ : unit → Prop) :
  (∀ s, J s → J (f s)) → Φ tt → safe J B (@modify S E f) Φ.
Proof. intros Hf HΦ s Hs. split_and!; [by apply Hf|done|]. by intros [] _. Qed.
Lemma safe_or_fail {A} (e : E) (o : option A) (Φ : A → Prop) :
  (∀ a, o = Some a → Φ a) → safe J B (@or_fail S E A e o) Φ.
Proof. intros Ho. destruct o; [by apply safe_ret, Ho|apply safe_fail]. Qed.
Lemma safe_or_panic {A} (o : option A) (Φ : A → Prop) :
  (∀ a, o = Some a → Φ a) → safe J B (@or_panic S E A o) Φ.
Proof. intros Ho. destruct o; [by apply safe_ret, Ho|apply safe_panic]. Qed.
Lemma safe_mono {A} (m : M S E A) (Φ Ψ : A → Prop) :
  safe J B m Φ → (∀ a, Φ a → Ψ a) → safe J B m Ψ.
Proof. intros Hm HΦ s Hs. destruct (Hm s Hs) as (? & ? & ?). split_and!; eauto. Qed.
Lemma safe_bind {A C} (m : M S E A) (k : A → M S E C) (Φ : A → Prop) (Ψ : C → Prop) :
  safe J B m Φ → (∀ a, Φ a → safe J B (k a) Ψ) → safe J B (bind m k) Ψ.
Proof.
  intros Hm Hk s Hs. destruct (Hm s Hs) as (HJ & HB & HΦ). unfold bind.
  destruct (m s) as [[a|e| |] s']; simpl in *;
    [by apply Hk; [apply HΦ|]|split_and!; try done..].
  intros _. by apply HB.
Qed.
Lemma safe_attempt {A} (m : M S E A) (Φ : A → Prop) (Ψ : A + E → Prop) :
  safe J B m Φ → (∀ a, Φ a → Ψ (inl a)) → (∀ e, Ψ (inr e)) → safe J B (attempt m) Ψ.
Proof.
  intros Hm Hl Hr s Hs. destruct (Hm s Hs) as (HJ & HB & HΦ). unfold attempt.
  destruct (m s) as [[a|e| |] s']; simpl in *;
    split_and!; try done; intros; simplify_eq; eauto.
Qed.
End safe.

(** ** Lists *)

Lemma len_app {A} (l k : list A) : len (l ++ k) = (len l + len k)%N.
Proof. unfold len. rewrite length_app. lia. Qed.
Lemma len_cons {A} (x : A) l : len (x :: l) = (1 + len l)%N.
Proof. unfold len. simpl. lia. Qed.
Lemma len_nil {A} : len (@nil A) = 0%N.
Proof. done. Qed.
Lemma len_take {A} n (l : list A) : len (take n l) = N.min (N.of_nat n) (len l).
Proof. unfold len. rewrite length_take. lia. Qed.
Lemma len_drop {A} n (l : list A) : len (drop n l) = (len l - N.of_nat n)%N.
Proof. unfold len. rewrite length_drop. lia. Qed.
Create Rewrite HintDb len.
#[export] Hint Rewrite @len_app @len_cons @len_nil @len_take @len_drop : len.

(** Reduces goals on lengths to linear arithmetic. *)
Ltac len_lia := autorewrite with len in *; unfold len in *; lia.

Lemma vec_index_spec {A} (l : list A) i : vec_index l i = l !! N.to_nat i.
Proof.
  unfold vec_index. destruct (N.ltb_spec i (len l)); [done|].
  symmetry. apply lookup_ge_None_2. len_lia.
Qed.

Lemma vec_insert_Some {A} i (x : A) l :
  (i ≤ len l)%N → (len l < isize_max)%N →
  vec_insert i x l = Some (take (N.to_nat i) l ++ x :: drop (N.to_nat i) l).
Proof.
  intros. unfold vec_insert.
  destruct (N.leb_spec i (len l)), (N.ltb_spec (len l) isize_max); simpl; done || lia.
Qed.

Lemma vec_shrink_Some {A} n (l : list A) :
  (n ≤ len l)%N → vec_shrink n l = Some (take (N.to_nat n) l).
Proof. intros. unfold vec_shrink. by destruct (N.leb_spec n (len l)); [|lia]. Qed.
