(* ===== verification/RaftNode.v ===== *)
(** * One Raft node: its state, its persistence and its RPC handlers

    Models [src/raft2/src/lib.rs]: the data types, [save_persistent], [from_file],
    [putoff_timeout], [get_log], [append_entries] and [request_vote], and the reply
    mapping of the HTTP routes in [src/raft2/src/main.rs].  A handler runs from its
    first to its last line under the write half of [State::state]; it is therefore
    one computation over the node.  The two functions that release the lock between
    steps, [open_election] and [send_append_entries], are in [RaftTasks]. *)

From S2P Require Export Prelude.
Open Scope N_scope.
Open Scope prog_scope.

(** ** Data *)

Record Log := mkLog { log_text : string; log_term : N }.

Record Persistent := mkPersistent {
  current_term : N;
  voted_for : option SocketAddr;
  logs : list Log
}.

Inductive Role :=
| Follower
| Candidate
| Leader (next_index match_index : gmap SocketAddr N).

Definition is_follower (r : Role) : bool :=
  match r with Follower => true | _ => false end.
Definition is_candidate (r : Role) : bool :=
  match r with Candidate => true | _ => false end.
Definition is_leader (r : Role) : bool :=
  match r with Leader _ _ => true | _ => false end.

(** [tokio::fs::File]: the bytes of the file and the cursor of the handle. *)
Record File := mkFile { contents : bytes; cursor : N }.

Record VariableState := mkVariableState {
  role : Role;
  file : File;
  persistent : Persistent;
  commit_index : N
}.

(** [tokio::sync::broadcast] of capacity 1024: how many receivers live and how many
    messages have been sent; a receiver is the number it has seen so far. *)
Record Broadcast := mkBroadcast { receivers : N; sent : N }.

Record State := mkState {
  state : VariableState;
  timeout_cancel : Broadcast;
  servers : gset SocketAddr;
  me : SocketAddr
}.

Record AppendEntriesRequest := mkAppendEntriesRequest {
  ae_term : N;
  prev_log_index : N;
  prev_log_term : N;
  entries : list Log;
  leader_commit : N
}.

Record AppendEntriesResponse := mkAppendEntriesResponse { success : bool }.

Record RequestVoteRequest := mkRequestVoteRequest {
  rv_term : N;
  candidate_id : SocketAddr;
  last_log_index : N;
  last_log_term : N
}.

Record RequestVoteResponse := mkRequestVoteResponse {
  rvr_term : N;
  vote_granted : bool
}.

Record GetLogResponse := mkGetLogResponse { commited : list Log; all : list Log }.

Inductive RaftError :=
| EIo
| ESerde
| EChannelClosed
| ENotLeader
| EAddrNotFound (addr : SocketAddr).

#[export] Instance Log_eq_dec : EqDecision Log.
Proof. solve_decision. Defined.
#[export] Instance Persistent_eq_dec : EqDecision Persistent.
Proof. solve_decision. Defined.
#[export] Instance Role_eq_dec : EqDecision Role.
Proof. solve_decision. Defined.

(** ** The world of a handler

    What the operating system answers to the next I/O calls is a script of the
    environment: an exhausted script means that every further call succeeds.  A
    failing [write_all] has written a prefix, the other calls fail without effect. *)
Inductive Fault := IoOk | IoErr (written : N).

Record World := mkWorld { node : State; faults : list Fault }.

Definition set_state (v : VariableState) (s : State) : State :=
  mkState v (timeout_cancel s) (servers s) (me s).
Definition set_role (r : Role) (v : VariableState) : VariableState :=
  mkVariableState r (file v) (persistent v) (commit_index v).
Definition set_file (f : File) (v : VariableState) : VariableState :=
  mkVariableState (role v) f (persistent v) (commit_index v).
Definition set_persistent (p : Persistent) (v : VariableState) : VariableState :=
  mkVariableState (role v) (file v) p (commit_index v).
Definition set_commit_index (c : N) (v : VariableState) : VariableState :=
  mkVariableState (role v) (file v) (persistent v) c.
Definition set_current_term (t : N) (v : VariableState) : VariableState :=
  set_persistent (mkPersistent t (voted_for (persistent v)) (logs (persistent v))) v.
Definition set_voted_for (c : option SocketAddr) (v : VariableState) : VariableState :=
  set_persistent (mkPersistent (current_term (persistent v)) c (logs (persistent v))) v.
Definition set_logs (l : list Log) (v : VariableState) : VariableState :=
  set_persistent (mkPersistent (current_term (persistent v)) (voted_for (persistent v)) l) v.

Definition shared : M World RaftError VariableState := gets (λ w, state (node w)).

Definition update (f : VariableState → VariableState) : M World RaftError unit :=
  modify (λ w, mkWorld (set_state (f (state (node w))) (node w)) (faults w)).

Definition next_fault : M World RaftError Fault := λ w,
  match faults w with
  | [] => (Done IoOk, w)
  | f :: fs => (Done f, mkWorld (node w) fs)
  end.

(** ** Files *)

Definition write_at (f : File) (b : bytes) : File :=
  mkFile (splice Byte.x00 (contents f) (N.to_nat (cursor f)) b) (cursor f + len b).

Definition resize (f : File) (n : N) : File :=
  mkFile (take (N.to_nat n) (contents f) ++
          replicate (N.to_nat n - length (contents f)) Byte.x00) (cursor f).

Definition seek_start (p : N) : M World RaftError unit :=
  let! f := next_fault in
  match f with
  | IoOk => update (λ v, set_file (mkFile (contents (file v)) p) v)
  | IoErr _ => fail EIo
  end.

Definition set_len (n : N) : M World RaftError unit :=
  let! f := next_fault in
  match f with
  | IoOk => update (λ v, set_file (resize (file v) n) v)
  | IoErr _ => fail EIo
  end.

Definition write_all (b : bytes) : M World RaftError unit :=
  let! f := next_fault in
  match f with
  | IoOk => update (λ v, set_file (write_at (file v) b) v)
  | IoErr k => update (λ v, set_file (write_at (file v) (take (N.to_nat k) b)) v) ;; fail EIo
  end.

(** [serde_json], a third-party crate: the serialisers and the parser of
    [Persistent].  [None] is its [Err]; [from_str] includes the UTF-8 check that
    [read_to_string] makes on the bytes read. *)
Class SerdeJson := {
  to_string_pretty : Persistent → option bytes;
  to_vec : Persistent → option bytes;
  from_str : bytes → option Persistent
}.

(** ** HTTP replies: 202 or 200 with the value, 500 with the error; a panic
    closes the connection without one. *)
Inductive Reply (A : Type) := ReplyOk (status : N) (body : A) | ReplyErr (e : RaftError) | NoReply.
Arguments ReplyOk {A}. Arguments ReplyErr {A}. Arguments NoReply {A}.

Definition http_reply {A} (status : N) (o : outcome RaftError A) : Reply A :=
  match o with
  | Done a => ReplyOk status a
  | Fail e => ReplyErr e
  | Panic | Blocked => NoReply
  end.

Section handlers.
Context `{Profile} `{SerdeJson}.

Definition save_persistent : M World RaftError unit :=
  let! v := shared in
  let! s := or_fail ESerde (to_string_pretty (persistent v)) in
  seek_start 0 ;;
  set_len (len s) ;;
  write_all s.

(** ** Starting a node *)

Record Disk := mkDisk { on_disk : option bytes; disk_faults : list Fault }.

Definition disk_fault : M Disk RaftError Fault := λ d,
  match disk_faults d with
  | [] => (Done IoOk, d)
  | f :: fs => (Done f, mkDisk (on_disk d) fs)
  end.

Definition initial_logs : list Log := [mkLog "init" 0].

Definition initial_state (p : Persistent) (f : File) (me : SocketAddr)
    (servers : gset SocketAddr) : State :=
  mkState (mkVariableState Follower f p 0) (mkBroadcast 1 0) servers me.

Definition from_file (me : SocketAddr) (servers : gset SocketAddr) : M Disk RaftError State :=
  let! exists_ := gets on_disk in
  match exists_ with
  | Some content =>
      let! opened := disk_fault in
      match opened with
      | IoErr _ => fail EIo
      | IoOk =>
          let! read := disk_fault in
          match read with
          | IoErr _ => fail EIo
          | IoOk =>
              let! p := or_fail ESerde (from_str content) in
              ret (initial_state p (mkFile content (len content)) me servers)
          end
      end
  | None =>
      let p := mkPersistent 0 None initial_logs in
      let! created := disk_fault in
      match created with
      | IoErr _ => fail EIo
      | IoOk =>
          modify (λ d, mkDisk (Some []) (disk_faults d)) ;;
          let! b := or_fail ESerde (to_vec p) in
          let! written := disk_fault in
          match written with
          | IoErr k =>
              modify (λ d, mkDisk (Some (take (N.to_nat k) b)) (disk_faults d)) ;;
              fail EIo
          | IoOk =>
              modify (λ d, mkDisk (Some b) (disk_faults d)) ;;
              ret (initial_state p (mkFile b (len b)) me servers)
          end
      end
  end.

(** ** The election timer's cancel channel *)

Definition putoff_timeout : M World RaftError unit :=
  let! s := gets node in
  if receivers (timeout_cancel s) =? 0 then fail EChannelClosed
  else modify (λ w,
    mkWorld (mkState (state (node w))
               (mkBroadcast (receivers (timeout_cancel (node w)))
                            (sent (timeout_cancel (node w)) + 1))
               (servers (node w)) (me (node w))) (faults w)).

(** [rx.try_recv().is_ok()]: a receiver that has fallen more than the capacity
    behind gets [Lagged], an error. *)
Definition try_recv_ok (c : Broadcast) (seen : N) : bool :=
  (seen <? sent c) && (sent c - seen <=? 1024).

(** ** Client reads *)

Definition get_log : M World RaftError GetLogResponse :=
  let! v := shared in
  let ls := logs (persistent v) in
  let! upto := u64_add (commit_index v) 1 in
  ret (mkGetLogResponse (default [] (slice_to upto ls)) ls).

(** ** AppendEntries *)

(** [req.prev_log_index + 1 + req.entries.len()] *)
Definition expected_len (req : AppendEntriesRequest) : M World RaftError N :=
  let! n := u64_add (prev_log_index req) 1 in
  u64_add n (len (entries req)).

(** The [for (offset, log) in req.entries.into_iter().enumerate()] loop. *)
Fixpoint insert_entries (prev offset : N) (es : list Log) : M World RaftError unit :=
  match es with
  | [] => ret tt
  | log :: es =>
      let! i := u64_add offset prev in
      let! i := u64_add i 1 in
      let! v := shared in
      let! l := or_panic (vec_insert i log (logs (persistent v))) in
      update (set_logs l) ;;
      insert_entries prev (offset + 1) es
  end.

(** A request of a newer term makes the node a follower of that term. *)
Definition adopt_term (t : N) : M World RaftError unit :=
  let! v := shared in
  when current_term (persistent v) <? t do (
    update (set_role Follower) ;;
    update (set_current_term t) ;;
    update (set_voted_for None) ;;
    save_persistent).

(** Truncates a longer log, then inserts the entries. *)
Definition replace_entries (req : AppendEntriesRequest) (ls : list Log) : M World RaftError unit :=
  let! bound := expected_len req in
  (when bound <? len ls do (
     let! n := expected_len req in
     let! l := or_panic (vec_shrink n ls) in
     update (set_logs l))) ;;
  insert_entries (prev_log_index req) 0 (entries req).

Definition advance_commit (leader_commit : N) : M World RaftError unit :=
  let! v := shared in
  when commit_index v <? leader_commit do (
    let! last := u64_sub (len (logs (persistent v))) 1 in
    update (set_commit_index (N.min leader_commit last))).

(** The [||] of the conflict test: the index is only evaluated in range. *)
Definition conflicting (req : AppendEntriesRequest) (ls : list Log) : M World RaftError bool :=
  if len ls <=? prev_log_index req then ret true
  else
    let! l := or_panic (vec_index ls (prev_log_index req)) in
    ret (negb (log_term l =? prev_log_term req)).

(** [append_entries] from the role test on, once the term is settled. *)
Definition append_as_follower (req : AppendEntriesRequest) :
    M World RaftError AppendEntriesResponse :=
  let! v := shared in
  if negb (is_follower (role v)) then ret (mkAppendEntriesResponse false)
  else
    let ls := logs (persistent v) in
    let! conflict := conflicting req ls in
    if conflict : bool then ret (mkAppendEntriesResponse false)
    else
      replace_entries req ls ;;
      advance_commit (leader_commit req) ;;
      save_persistent ;;
      ret (mkAppendEntriesResponse true).

Definition append_entries (req : AppendEntriesRequest) : M World RaftError AppendEntriesResponse :=
  let! v := shared in
  if ae_term req <? current_term (persistent v) then ret (mkAppendEntriesResponse false)
  else
    putoff_timeout ;;
    adopt_term (ae_term req) ;;
    append_as_follower req.

(** ** RequestVote *)

Definition last_term (ls : list Log) : N := default 0 (log_term <$> last ls).

(** The [||] of the log test: the addition is only evaluated when needed. *)
Definition log_condition (req : RequestVoteRequest) (ls : list Log) : M World RaftError bool :=
  if last_term ls <? last_log_term req then ret true
  else
    let! n := u64_add (last_log_index req) 1 in
    ret (len ls <=? n).

(** [request_vote] from the log test on, once the term is settled. *)
Definition vote_on_log (req : RequestVoteRequest) : M World RaftError RequestVoteResponse :=
  let! v := shared in
  let p := persistent v in
  let! log_cond := log_condition req (logs p) in
  if negb log_cond then
    (when bool_decide (Some (candidate_id req) = voted_for p) do (
       update (set_voted_for None) ;; save_persistent)) ;;
    ret (mkRequestVoteResponse (N.max (rv_term req) (current_term p)) false)
  else
    let granted :=
      match voted_for p with
      | Some candidate => bool_decide (candidate = candidate_id req)
      | None => true
      end in
    (when granted do (
       putoff_timeout ;;
       update (set_voted_for (Some (candidate_id req))) ;;
       save_persistent)) ;;
    ret (mkRequestVoteResponse (N.max (rv_term req) (current_term p)) granted).

Definition request_vote (req : RequestVoteRequest) : M World RaftError RequestVoteResponse :=
  let! v := shared in
  if rv_term req <? current_term (persistent v)
  then ret (mkRequestVoteResponse (rv_term req) false)
  else
    adopt_term (rv_term req) ;;
    vote_on_log req.

(** ** The routes of [main.rs] *)

Definition http_append_entries (req : AppendEntriesRequest) (w : World) :
    Reply AppendEntriesResponse * World :=
  let '(o, w') := append_entries req w in (http_reply 202 o, w').

Definition http_request_vote (req : RequestVoteRequest) (w : World) :
    Reply RequestVoteResponse * World :=
  let '(o, w') := request_vote req w in (http_reply 202 o, w').

End handlers.
