(* ===== verification/RaftInstances.v ===== *)
(** * Concrete parameters for closed executions of the Raft model

    A [SerdeJson] that satisfies the documented round trip, and the servers and
    build profiles the witnesses and traces run with. *)

From S2P Require Export RaftNode.
From Stdlib Require Import Strings.Byte.

#[export] Instance Log_countable : Countable Log.
Proof.
  refine (inj_countable' (λ l, (log_text l, log_term l)) (λ x, mkLog x.1 x.2) _).
  by intros [].
Defined.

#[export] Instance Persistent_countable : Countable Persistent.
Proof.
  refine (inj_countable' (λ p, (current_term p, voted_for p, logs p))
            (λ x, mkPersistent x.1.1 x.1.2 x.2) _).
  by intros [].
Defined.

Definition bits_json : SerdeJson := {|
  to_string_pretty := λ p, Some (bytes_of_pos (encode p));
  to_vec := λ p, Some (bytes_of_pos (encode p));
  from_str := λ b, decode (pos_of_bytes b)
|}.

Lemma bits_json_roundtrip p : decode (pos_of_bytes (bytes_of_pos (encode p))) = Some (p : Persistent).
Proof. rewrite pos_of_bytes_of. apply decode_encode. Qed.


Definition srv_a : SocketAddr := V4 2130706433 50051.
Definition srv_b : SocketAddr := V4 2130706433 50052.
Definition srv_c : SocketAddr := V4 2130706433 50053.
Definition three_servers : list SocketAddr := [srv_a; srv_b; srv_c].

(** A follower of term 2 whose log holds one entry of term 1 and one of term 2. *)
Definition sample_node : State :=
  initial_state (mkPersistent 2 None [mkLog "init" 0; mkLog "x" 1; mkLog "y" 2])
    (mkFile [] 0) srv_a (list_to_set three_servers).

(** A leader's request that replaces the last entry of [sample_node], the heartbeat
    that follows it, and a candidate that lacks the entry of term 2. *)
Definition sample_append : AppendEntriesRequest :=
  mkAppendEntriesRequest 3 1 1 [mkLog "z" 3] 1.
Definition sample_heartbeat : AppendEntriesRequest :=
  mkAppendEntriesRequest 3 2 3 [] 1.
Definition sample_vote : RequestVoteRequest := mkRequestVoteRequest 3 srv_b 2 1.
