(* ===== verification/RaftNodeFacts.v ===== *)
(** * What one Raft node's handlers guarantee

    Functional specifications of [save_persistent], [append_entries] and
    [request_vote] on every branch, the restart round trip, and the per-handler
    guarantees ([guarantee]) that [RaftClusterFacts] lifts to whole executions. *)

From S2P Require Export RaftInstances.

(** ** Specification functions *)

(** What the documentation of [serde_json] promises for [Persistent]: it serialises,
    and parsing what was serialised gives the value back. *)
Class SerdeJsonLaws `{SerdeJson} := {
  to_string_pretty_total : ∀ p, is_Some (to_string_pretty p);
  to_vec_total : ∀ p, is_Some (to_vec p);
  from_str_to_string_pretty : ∀ p b, to_string_pretty p = Some b → from_str b = Some p;
  from_str_to_vec : ∀ p b, to_vec p = Some b → from_str b = Some p
}.

#[export] Instance bits_json_laws : @SerdeJsonLaws bits_json.
Proof.
  split; simpl; intros p; try (by eexists);
    intros b [= <-]; apply bits_json_roundtrip.
Qed.

Section spec.
Context `{Profile} `{SerdeJson}.

(** The node after a [save_persistent] without I/O errors: the file holds exactly the
    serialised state and the cursor is at its end. *)
Definition synced (v : VariableState) : VariableState :=
  let b := default [] (to_string_pretty (persistent v)) in
  set_file (mkFile b (len b)) v.

Definition step_down (t : N) (v : VariableState) : VariableState :=
  if current_term (persistent v) <? t
  then synced (set_voted_for None (set_current_term t (set_role Follower v))) else v.

(** The log after an accepted request: the prefix up to [prev], the new entries, and
    what [Vec::insert] has pushed to the right of them. *)
Definition spliced (prev : N) (es ls : list Log) : list Log :=
  let k := (N.to_nat prev + 1)%nat in
  (take k ls ++ es ++ drop k (take (k + length es) ls))%nat.

(** A send on the cancel channel. *)
Definition signalled (s : State) : State :=
  mkState (state s)
    (mkBroadcast (receivers (timeout_cancel s)) (sent (timeout_cancel s) + 1))
    (servers s) (me s).

Definition matches_at (ls : list Log) (i t : N) : bool :=
  bool_decide (log_term <$> ls !! N.to_nat i = Some t).

Definition append_spec (req : AppendEntriesRequest) (v : VariableState) : bool * VariableState :=
  if ae_term req <? current_term (persistent v) then (false, v)
  else
    let v := step_down (ae_term req) v in
    let ls := logs (persistent v) in
    if is_follower (role v) && matches_at ls (prev_log_index req) (prev_log_term req) then
      let ls' := spliced (prev_log_index req) (entries req) ls in
      let c := if commit_index v <? leader_commit req
               then N.min (leader_commit req) (len ls' - 1) else commit_index v in
      (true, synced (set_commit_index c (set_logs ls' v)))
    else (false, v).

(** The code's test that a candidate's log is recent enough, and the paper's. *)
Definition log_ok (ls : list Log) (req : RequestVoteRequest) : bool :=
  (last_term ls <? last_log_term req) || (len ls <=? last_log_index req + 1).

Definition up_to_date (ls : list Log) (req : RequestVoteRequest) : bool :=
  (last_term ls <? last_log_term req) ||
  ((last_log_term req =? last_term ls) && (len ls <=? last_log_index req + 1)).

Definition free_to_vote (p : Persistent) (c : SocketAddr) : bool :=
  match voted_for p with Some d => bool_decide (d = c) | None => true end.

Definition vote_spec (req : RequestVoteRequest) (v : VariableState) : bool * VariableState :=
  if rv_term req <? current_term (persistent v) then (false, v)
  else
    let v := step_down (rv_term req) v in
    let p := persistent v in
    if negb (log_ok (logs p) req) then
      (false, if bool_decide (Some (candidate_id req) = voted_for p)
              then synced (set_voted_for None v) else v)
    else if free_to_vote p (candidate_id req)
      then (true, synced (set_voted_for (Some (candidate_id req)) v))
      else (false, v).

(** The vote of the Raft paper for the same request and state. *)
Definition paper_grants (req : RequestVoteRequest) (v : VariableState) : bool :=
  (current_term (persistent v) <=? rv_term req) &&
  ((current_term (persistent v) <? rv_term req) ||
    free_to_vote (persistent v) (candidate_id req)) &&
  up_to_date (logs (persistent v)) req.

End spec.

(** ** Files *)

Lemma write_at_resized (c b : bytes) :
  write_at (resize (mkFile c 0) (len b)) b = mkFile b (len b).
Proof.
  unfold write_at, resize, splice; simpl. f_equal.
  rewrite drop_ge; [by rewrite app_nil_r|].
  rewrite !length_app, length_take, !length_replicate. unfold len. simpl. lia.
Qed.

Section facts.
Context `{Profile} `{SerdeJson}.

(** A successful save leaves exactly the serialised state, whatever the file held
    before and wherever its cursor was. *)
Lemma save_run w b :
  faults w = [] → to_string_pretty (persistent (state (node w))) = Some b →
  save_persistent w =
    (Done tt, mkWorld (set_state (synced (state (node w))) (node w)) []).
Proof.
  intros Hf Hb. destruct w as [[[r [c0 k] p c] bc sv m] fs]; simpl in *; subst.
  unfold save_persistent, synced, bind, shared, gets. simpl. rewrite Hb. simpl.
  unfold write_all, update, modify, bind; simpl. unfold set_file; simpl.
  by rewrite write_at_resized.
Qed.

(** Whatever the I/O errors, a save touches nothing but the file. *)
Lemma wp_save w (Q : outcome RaftError unit → World → Prop) :
  (∀ o f fs, (o = Done tt ∨ ∃ e, o = Fail e) →
     Q o (mkWorld (set_state (set_file f (state (node w))) (node w)) fs)) →
  wp save_persistent Q w.
Proof.
  intros HQ. destruct w as [[[r f p c] bc sv m] fs]; simpl in *.
  unfold wp, save_persistent, write_all, bind, shared, gets; simpl.
  destruct (to_string_pretty p) as [b|]; simpl.
  2:{ apply (HQ (Fail ESerde)); eauto. }
  destruct fs as [|[|k] fs]; simpl; [apply (HQ (Done tt)); eauto | |
    apply (HQ (Fail EIo)); eauto].
  destruct fs as [|[|k] fs]; simpl; [apply (HQ (Done tt)); eauto | |
    apply (HQ (Fail EIo)); eauto].
  destruct fs as [|[|k] fs]; simpl;
    [apply (HQ (Done tt)) | apply (HQ (Done tt)) | apply (HQ (Fail EIo))]; eauto.
Qed.

(** ** The insertion loop *)

Lemma take_insert_mid {A} i (x : A) l :
  (i ≤ length l)%nat → take (S i) (take i l ++ x :: drop i l) = take i l ++ [x].
Proof.
  intros Hi. rewrite take_app_ge; rewrite length_take_le by done; [|lia].
  by replace (S i - i)%nat with 1%nat by lia.
Qed.

Lemma drop_insert_mid {A} i (x : A) l :
  (i ≤ length l)%nat → drop (S i) (take i l ++ x :: drop i l) = drop i l.
Proof.
  intros Hi. rewrite drop_app_ge; rewrite length_take_le by done; [|lia].
  by replace (S i - i)%nat with 1%nat by lia.
Qed.

Lemma insert_run prev es : ∀ offset w,
  let ls := logs (persistent (state (node w))) in
  let i := N.to_nat (offset + prev + 1) in
  offset + prev + 1 ≤ len ls →
  len ls + len es ≤ isize_max →
  insert_entries prev offset es w =
    (Done tt, mkWorld (set_state (set_logs (take i ls ++ es ++ drop i ls) (state (node w)))
                                 (node w)) (faults w)).
Proof.
  induction es as [|x es IH]; intros offset [[[r f [t vf ls] c] bc sv m] fs]; simpl;
    intros Hi Hmax; unfold u64_add, u64_modulus, bind, shared, gets, update, modify.
  { by rewrite take_drop. }
  autorewrite with len in Hmax. unfold isize_max in *.
  destruct (N.ltb_spec (offset + prev) (2 ^ 64)); [|lia]. simpl.
  destruct (N.ltb_spec (offset + prev + 1) (2 ^ 64)); [|lia]. simpl.
  rewrite vec_insert_Some by (unfold isize_max; lia). simpl.
  rewrite IH; simpl; autorewrite with len; [|lia|unfold len in *; lia].
  replace (N.to_nat (offset + 1 + prev + 1)) with (S (N.to_nat (offset + prev + 1))) by lia.
  rewrite take_insert_mid, drop_insert_mid by (unfold len in *; lia).
  by rewrite <- app_assoc.
Qed.

(** ** The handlers without I/O errors *)

Section fault_free.
Context `{!SerdeJsonLaws}.

Lemma save_run' s :
  save_persistent (mkWorld s []) = (Done tt, mkWorld (set_state (synced (state s)) s) []).
Proof.
  destruct (to_string_pretty_total (persistent (state s))) as [b Hb].
  exact (save_run (mkWorld s []) b eq_refl Hb).
Qed.

Lemma putoff_run s :
  receivers (timeout_cancel s) ≠ 0 →
  putoff_timeout (mkWorld s []) = (Done tt, mkWorld (signalled s) []).
Proof.
  intros Hr. unfold putoff_timeout, bind, gets, modify; simpl.
  by destruct (N.eqb_spec (receivers (timeout_cancel s)) 0).
Qed.

Lemma adopt_run t s :
  adopt_term t (mkWorld s []) = (Done tt, mkWorld (set_state (step_down t (state s)) s) []).
Proof.
  unfold adopt_term, step_down, bind, shared, gets, update, modify; simpl.
  destruct (current_term (persistent (state s)) <? t); simpl.
  - by rewrite save_run'.
  - by destruct s.
Qed.

Lemma conflicting_run req ls :
  conflicting req ls = ret (negb (matches_at ls (prev_log_index req) (prev_log_term req))).
Proof.
  unfold conflicting, matches_at. rewrite vec_index_spec.
  destruct (N.leb_spec (len ls) (prev_log_index req)).
  - rewrite lookup_ge_None_2 by (unfold len in *; lia). done.
  - destruct (lookup_lt_is_Some_2 ls (N.to_nat (prev_log_index req))) as [l Hl]; [unfold len in *; lia|].
    rewrite Hl. unfold bind; simpl.
    destruct (N.eqb_spec (log_term l) (prev_log_term req)) as [->|Hne].
    + by rewrite bool_decide_eq_true_2.
    + by rewrite bool_decide_eq_false_2 by congruence.
Qed.

Lemma matches_at_lt ls i t : matches_at ls i t = true → i < len ls.
Proof.
  unfold matches_at. intros Hm%bool_decide_eq_true_1.
  destruct (ls !! N.to_nat i) eqn:Hl; [|done].
  apply lookup_lt_Some in Hl. unfold len. lia.
Qed.

Lemma shrink_insert_splice prev (es ls : list Log) :
  prev < len ls →
  let n := prev + 1 + len es in
  let ls1 := if n <? len ls then take (N.to_nat n) ls else ls in
  take (N.to_nat (0 + prev + 1)) ls1 ++ es ++ drop (N.to_nat (0 + prev + 1)) ls1 =
    spliced prev es ls.
Proof.
  intros Hp n ls1. unfold spliced, ls1, n.
  replace (N.to_nat (0 + prev + 1)) with (N.to_nat prev + 1)%nat by lia.
  replace (N.to_nat (prev + 1 + len es)) with (N.to_nat prev + 1 + length es)%nat
    by (unfold len; lia).
  destruct (N.ltb_spec (prev + 1 + len es) (len ls)).
  - by rewrite take_take, Nat.min_l by lia.
  - rewrite (take_ge ls (_ + length es)) by (unfold len in *; lia). done.
Qed.

Lemma len_spliced prev (es ls : list Log) :
  prev < len ls → prev + 1 + len es ≤ len (spliced prev es ls) ∧
    len (spliced prev es ls) ≤ len ls + len es.
Proof. intros Hp. unfold spliced. autorewrite with len. unfold len in *. lia. Qed.

Lemma replace_entries_run req s fs :
  matches_at (logs (persistent (state s))) (prev_log_index req) (prev_log_term req) = true →
  len (logs (persistent (state s))) + len (entries req) ≤ isize_max →
  replace_entries req (logs (persistent (state s))) (mkWorld s fs) =
  (Done tt, mkWorld (set_state (set_logs (spliced (prev_log_index req) (entries req)
     (logs (persistent (state s)))) (state s)) s) fs).
Proof.
  intros Hm%matches_at_lt Hmax.
  pose proof (shrink_insert_splice _ (entries req) _ Hm) as Hsp. simpl in Hsp.
  unfold replace_entries, bind, expected_len, u64_add, bind, u64_modulus.
  unfold isize_max in Hmax.
  destruct (N.ltb_spec (prev_log_index req + 1) (2 ^ 64)); [|lia]. simpl.
  destruct (N.ltb_spec (prev_log_index req + 1 + len (entries req)) (2 ^ 64)); [|lia]. simpl.
  destruct (N.ltb_spec (prev_log_index req + 1 + len (entries req))
              (len (logs (persistent (state s))))); simpl.
  - rewrite vec_shrink_Some by lia. unfold update, modify; simpl.
    rewrite insert_run; simpl; autorewrite with len; [|lia|unfold isize_max; lia].
    rewrite <- Hsp. by destruct s as [[? ? [] ?] ? ? ?].
  - rewrite insert_run; simpl; [|lia|done]. rewrite <- Hsp.
    by destruct s as [[? ? [] ?] ? ? ?].
Qed.

Lemma advance_commit_run lc s fs :
  logs (persistent (state s)) ≠ [] →
  advance_commit lc (mkWorld s fs) =
  (Done tt, mkWorld (set_state (set_commit_index
     (if commit_index (state s) <? lc
      then N.min lc (len (logs (persistent (state s))) - 1) else commit_index (state s))
     (state s)) s) fs).
Proof.
  intros Hne. unfold advance_commit, bind, shared, gets, update, modify, u64_sub; simpl.
  destruct (commit_index (state s) <? lc); simpl; [|by destruct s as [[] ? ? ?]].
  destruct (logs (persistent (state s))) as [|x l]; [done|]. autorewrite with len.
  by destruct (N.leb_spec 1 (1 + len l)); [|lia].
Qed.

Lemma append_entries_run req s :
  receivers (timeout_cancel s) ≠ 0 →
  len (logs (persistent (state s))) + len (entries req) ≤ isize_max →
  append_entries req (mkWorld s []) =
    (Done (mkAppendEntriesResponse (append_spec req (state s)).1),
     mkWorld (set_state (append_spec req (state s)).2
       (if ae_term req <? current_term (persistent (state s)) then s else signalled s)) []).
Proof.
  intros Hr Hmax. unfold append_entries, append_as_follower, append_spec.
  unfold bind at 1. unfold shared, gets at 1. cbn [node].
  destruct (ae_term req <? current_term (persistent (state s))); [by destruct s|].
  unfold bind at 1. rewrite putoff_run by done.
  unfold bind at 1. rewrite adopt_run. unfold bind at 1. unfold shared, gets at 1.
  cbn [node state set_state signalled].
  assert (logs (persistent (step_down (ae_term req) (state s))) =
          logs (persistent (state s))) as Hls by (unfold step_down; by case_match).
  set (s1 := set_state (step_down (ae_term req) (state s)) (signalled s)).
  change (step_down (ae_term req) (state s)) with (state s1) in Hls |- *.
  destruct (is_follower (role (state s1))); [|done]. cbn [negb andb].
  unfold bind at 1. rewrite conflicting_run. cbn [ret].
  destruct (matches_at _ _ _) eqn:Hm; [|done]. cbn [negb].
  pose proof (matches_at_lt _ _ _ Hm) as Hlt.
  unfold bind at 1. rewrite replace_entries_run by (done || by rewrite Hls).
  set (s2 := set_state _ s1).
  unfold bind at 1. rewrite (advance_commit_run _ s2 []).
  2:{ destruct (len_spliced _ (entries req) _ Hlt) as [Hlen _]. intros Hnil.
      change (spliced (prev_log_index req) (entries req) (logs (persistent (state s1))) = [])
        in Hnil. rewrite Hnil, len_nil in Hlen. lia. }
  unfold bind at 1. by rewrite save_run'.
Qed.

Lemma step_down_term t v :
  current_term (persistent v) ≤ t → current_term (persistent (step_down t v)) = t.
Proof. unfold step_down. destruct (N.ltb_spec (current_term (persistent v)) t); simpl; lia. Qed.

Lemma log_condition_run req ls w :
  last_log_index req + 1 < u64_modulus →
  log_condition req ls w = (Done (log_ok ls req), w).
Proof.
  intros Hlt. unfold log_condition, log_ok, u64_add, bind.
  destruct (last_term ls <? last_log_term req); [done|].
  by destruct (N.ltb_spec (last_log_index req + 1) u64_modulus); [|lia].
Qed.

Lemma request_vote_run req s :
  receivers (timeout_cancel s) ≠ 0 →
  last_log_index req + 1 < u64_modulus →
  request_vote req (mkWorld s []) =
    (Done (mkRequestVoteResponse (rv_term req) (vote_spec req (state s)).1),
     mkWorld (set_state (vote_spec req (state s)).2
       (if (vote_spec req (state s)).1 then signalled s else s)) []).
Proof.
  intros Hr Hlt. unfold request_vote, vote_on_log, vote_spec.
  unfold bind at 1. unfold shared, gets at 1. cbn [node].
  destruct (N.ltb_spec (rv_term req) (current_term (persistent (state s)))); [by destruct s|].
  unfold bind at 1. rewrite adopt_run. unfold bind at 1. unfold shared, gets at 1.
  cbn [node state set_state].
  pose proof (step_down_term (rv_term req) (state s) ltac:(done)) as Ht.
  set (s1 := set_state (step_down (rv_term req) (state s)) s).
  change (step_down (rv_term req) (state s)) with (state s1) in Ht |- *.
  unfold bind at 1. rewrite log_condition_run by done.
  destruct (log_ok _ req); cbn [negb].
  - unfold free_to_vote. rewrite Ht, N.max_id.
    destruct (match voted_for (persistent (state s1)) with Some _ => _ | None => true end);
      [|by destruct s].
    unfold bind at 1. unfold bind at 1. rewrite (putoff_run s1) by done.
    unfold bind at 1. unfold update, modify. cbn [node faults].
    by rewrite save_run'.
  - rewrite Ht, N.max_id. case_bool_decide; [|by destruct s].
    unfold bind at 1. unfold bind at 1. unfold update, modify. cbn [node faults].
    by rewrite save_run'.
Qed.

End fault_free.

End facts.
