(* ===== verification/RaftTasks.v ===== *)
(** * The Raft tasks that give the lock back between steps

    Models [open_election] and [send_append_entries] of [src/raft2/src/lib.rs].  Both
    hold [State::state] only for parts of their body, so each is a set of sections: a
    section runs from one lock acquisition to the matching release and is one
    computation over the node.  [RaftCluster] interleaves them. *)

From S2P Require Export RaftNode.

Section tasks.
Context `{Profile} `{SerdeJson}.

(** [count * 2 > state.servers.len()] *)
Definition is_majority (count : N) (srv : gset SocketAddr) : bool :=
  N.of_nat (size srv) <? count * 2.

(** ** [open_election] *)

(** After the random sleep: was the election called off meanwhile? *)
Definition election_cancelled (rx : N) : M World RaftError bool :=
  let! s := gets node in ret (try_recv_ok (timeout_cancel s) rx).

(** From the first [state.state.write()] to its [drop]; [true] when the election
    goes on to collect votes. *)
Definition open_election_begin : M World RaftError bool :=
  let! v := shared in
  if negb (is_follower (role v)) then ret false
  else
    putoff_timeout ;;
    update (set_role Candidate) ;;
    let! v := shared in
    let! t := u64_add (current_term (persistent v)) 1 in
    update (set_current_term t) ;;
    save_persistent ;;
    update (set_voted_for None) ;;
    ret true.

(** What a vote future does under its read guard: the node's own vote is granted
    on the spot, any other server is sent a request. *)
Definition open_election_vote (addr : SocketAddr) :
    M World RaftError (option RequestVoteRequest) :=
  let! s := gets node in
  let p := persistent (state s) in
  if bool_decide (addr = me s) then ret None
  else
    let! last := u64_sub (len (logs p)) 1 in
    ret (Some (mkRequestVoteRequest (current_term p) (me s) last (last_term (logs p)))).

(** From the second [state.state.write()] to the end; [true] when the node has become
    the leader and the heartbeat loop is spawned. *)
Definition open_election_end (vote_result : N) : M World RaftError bool :=
  let! s := gets node in
  let v := state s in
  if negb (is_candidate (role v)) then ret false
  else if is_majority vote_result (servers s) then
    let! next_index_base := u64_sub (len (logs (persistent v))) 1 in
    let next_index := gset_to_gmap next_index_base (servers s) in
    let match_index := gset_to_gmap 0 (servers s) in
    update (set_voted_for None) ;;
    save_persistent ;;
    update (set_role (Leader next_index match_index)) ;;
    ret true
  else
    update (set_voted_for None) ;;
    save_persistent ;;
    update (set_role Follower) ;;
    ret false.

(** ** [send_append_entries] *)

(** Appends the new entries under the write guard.  [append_entries_lock] does not
    appear: [let _ = lock().await] drops its guard at once, so it excludes nobody. *)
Definition send_append_entries_begin (append_logs : list string) : M World RaftError unit :=
  let! v := shared in
  if negb (is_leader (role v)) then fail ENotLeader
  else
    let p := persistent v in
    let new := map (λ text, mkLog text (current_term p)) append_logs in
    let! ls := or_panic (vec_append (logs p) new) in
    update (set_logs ls) ;;
    save_persistent.

(** The replication future of one server up to the request: [inl b] is a future that
    returns [Ok b] at once, [inr req] one that sends [req].  The node sets its own
    [next_index] and [match_index] together: the subtraction between them cannot fail,
    as no log is empty. *)
Definition send_append_entries_request (addr : SocketAddr) :
    M World RaftError (bool + AppendEntriesRequest) :=
  let! s := gets node in
  let v := state s in
  let p := persistent v in
  match role v with
  | Leader next_index match_index =>
      if bool_decide (addr = me s) then
        let! last := u64_sub (len (logs p)) 1 in
        update (set_role (Leader (<[me s := len (logs p)]> next_index)
                                 (<[me s := last]> match_index))) ;;
        ret (inl true)
      else
        let! next := or_fail (EAddrNotFound addr) (next_index !! addr) in
        let prev_log_index := next - 1 in
        let! from := u64_add prev_log_index 1 in
        let send_logs := default [] (slice_from from (logs p)) in
        let prev_log_term := default 0 (log_term <$> vec_index (logs p) prev_log_index) in
        ret (inr (mkAppendEntriesRequest (current_term p) prev_log_index prev_log_term
                    send_logs (commit_index v)))
  | _ => ret (inl true)
  end.

(** The rest of that future, once the reply [res] has come. *)
Definition send_append_entries_response (addr : SocketAddr) (res : bool) :
    M World RaftError bool :=
  let! v := shared in
  let ls := logs (persistent v) in
  match role v with
  | Leader next_index match_index =>
      (if res then
         let! last := u64_sub (len ls) 1 in
         update (set_role (Leader (<[addr := len ls]> next_index)
                                  (<[addr := last]> match_index)))
       else
         update (set_role (Leader (alter (λ n, n - 1) addr next_index) match_index))) ;;
      ret res
  | _ => ret true
  end.

(** After [join_all]: commit when the majority of the futures returned [Ok(true)]. *)
Definition send_append_entries_end (success_count : N) : M World RaftError bool :=
  let! s := gets node in
  if is_majority success_count (servers s) then
    let! v := shared in
    let! last := u64_sub (len (logs (persistent v))) 1 in
    update (set_commit_index last) ;;
    ret true
  else ret false.

End tasks.
