(* ===== verification/RaftGuarantees.v ===== *)
(** * What every section and handler guarantees to the rest of the node

    [guarantee es s s'] bounds what one atomic section may do to a node, whatever the
    I/O errors, early returns and panics on the way; [es] are the log entries that
    came in from outside.  [RaftClusterFacts] only uses these guarantees. *)

From S2P Require Export RaftNodeFacts RaftTasks.

(** ** The guarantee *)

Definition term_of (s : State) : N := current_term (persistent (state s)).
Definition logs_of (s : State) : list Log := logs (persistent (state s)).

(** How a log may change: its first entry stays, its other entries are old ones, [es],
    or new ones of a term up to [t]; it stays within what a [Vec] can hold. *)
Definition log_change (es : list Log) (t : N) (ls ls' : list Log) : Prop :=
  ls ≠ [] → len ls ≤ isize_max →
  head ls' = head ls ∧ len ls' ≤ isize_max ∧
  ∀ l, l ∈ ls' → l ∈ ls ∨ l ∈ es ∨ log_term l ≤ t.

Record guarantee (es : list Log) (s s' : State) : Prop := {
  g_me : me s' = me s;
  g_servers : servers s' = servers s;
  g_term : term_of s ≤ term_of s';
  g_logs : log_change es (term_of s') (logs_of s) (logs_of s');
  g_leader : is_leader (role (state s)) = true → is_leader (role (state s')) = true →
    logs_of s `prefix_of` logs_of s' ∧ term_of s' = term_of s
}.

(** The guarantee of everything but an election: no new leader, no new candidate. *)
Record passive (es : list Log) (s s' : State) : Prop := {
  p_guarantee : guarantee es s s';
  p_leader : is_leader (role (state s')) = true → is_leader (role (state s)) = true;
  p_candidate : is_candidate (role (state s')) = true →
    is_candidate (role (state s)) = true ∧ term_of s' = term_of s
}.

Definition answers {A} (o : outcome RaftError A) : Prop := o ≠ Panic ∧ o ≠ Blocked.

Lemma log_change_refl es t ls : log_change es t ls ls.
Proof. intros ? ?; eauto. Qed.
#[export] Hint Resolve log_change_refl : prog.

Lemma log_change_insert es t x (ls ls' : list Log) i :
  0 < i → x ∈ es → vec_insert i x ls = Some ls' → log_change es t ls ls'.
Proof.
  unfold vec_insert. intros Hi Hx Hins Hne Hmax.
  destruct (N.leb_spec i (len ls)), (N.ltb_spec (len ls) isize_max); simplify_eq/=.
  split_and!.
  - destruct ls; [done|]. by destruct (N.to_nat i) eqn:?; [lia|].
  - autorewrite with len. unfold len in *. lia.
  - intros l [Hl|[->|Hl]%elem_of_cons]%elem_of_app; [| by eauto |].
    + left. by eapply subseteq_take.
    + left. by eapply subseteq_drop.
Qed.

Lemma log_change_trans es t ls1 ls2 ls3 :
  log_change es t ls1 ls2 → log_change es t ls2 ls3 → log_change es t ls1 ls3.
Proof.
  intros H1 H2 Hne Hmax. destruct (H1 Hne Hmax) as (Hh1 & Hl1 & He1).
  assert (ls2 ≠ []) as Hne2 by (destruct ls1, ls2; done).
  destruct (H2 Hne2 Hl1) as (Hh2 & Hl2 & He2).
  split_and!; [congruence | done |].
  intros l Hl. destruct (He2 l Hl) as [?|[?|?]]; auto.
Qed.

Lemma log_change_mono es es' t t' ls ls' :
  es ⊆ es' → t ≤ t' → log_change es t ls ls' → log_change es' t' ls ls'.
Proof.
  intros Hes Ht Hch Hne Hmax. destruct (Hch Hne Hmax) as (? & ? & He). split_and!; [done..|].
  intros l Hl. destruct (He l Hl) as [?|[?|?]]; [by left | right; left; set_solver |
    right; right; lia].
Qed.

Lemma log_change_take es t (ls : list Log) n :
  (0 < n)%nat → log_change es t ls (take n ls).
Proof.
  intros Hn Hne Hmax. split_and!.
  - destruct ls; [done|]. by destruct n; [lia|].
  - autorewrite with len. lia.
  - intros l Hl. left. by eapply subseteq_take.
Qed.

#[export] Instance guarantee_refl es : Reflexive (guarantee es).
Proof. intros s. split; eauto with prog; lia. Qed.

#[export] Instance passive_preorder es : PreOrder (passive es).
Proof.
  split; [intros s; split; [reflexivity | naive_solver..]|].
  intros s1 s2 s3 [[Hm1 Hs1 Ht1 Hl1 Hg1] Hp1 Hc1] [[Hm2 Hs2 Ht2 Hl2 Hg2] Hp2 Hc2].
  split; [split|..]; try congruence; try lia.
  - eapply log_change_trans; [eapply log_change_mono; [| |exact Hl1]; [done | lia] | done].
  - intros HL1 HL3. destruct (Hg2 (Hp2 HL3) HL3), (Hg1 HL1 (Hp2 HL3)).
    split; [by etrans | congruence].
  - eauto.
  - intros HC3. destruct (Hc2 HC3) as [HC2 ?], (Hc1 HC2). split; [done | congruence].
Qed.

(** Reduces the accessors and setters of the node's records. *)
Ltac cbn_state :=
  cbn [node faults state timeout_cancel servers me role file persistent commit_index
       current_term voted_for logs set_state set_role set_file set_persistent
       set_commit_index set_current_term set_voted_for set_logs signalled
       term_of logs_of] in *.

Section guarantees.
Context `{Profile} `{SerdeJson}.

(** ** Rules for the primitive steps *)

Lemma wp_shared (Q : outcome RaftError VariableState → World → Prop) w :
  Q (Done (state (node w))) w → wp shared Q w.
Proof. done. Qed.

Lemma wp_update f (Q : outcome RaftError unit → World → Prop) w :
  Q (Done tt) (mkWorld (set_state (f (state (node w))) (node w)) (faults w)) →
  wp (update f) Q w.
Proof. done. Qed.

Lemma wp_putoff (Q : outcome RaftError unit → World → Prop) w :
  Q (Fail EChannelClosed) w →
  Q (Done tt) (mkWorld (signalled (node w)) (faults w)) →
  wp putoff_timeout Q w.
Proof. unfold wp, putoff_timeout, bind, gets. simpl. by case_match. Qed.

Lemma wp_insert prev es : ∀ offset t w (Q : outcome RaftError unit → World → Prop),
  offset + prev + len es + 1 < u64_modulus →
  (∀ o ls', (o = Done tt ∨ o = Panic) →
     log_change es t (logs_of (node w)) ls' →
     Q o (mkWorld (set_state (set_logs ls' (state (node w))) (node w)) (faults w))) →
  wp (insert_entries prev offset es) Q w.
Proof.
  induction es as [|x es IH]; intros offset t [[[r f [tm vf ls] c] bc sv m] fs] Q Hlt HQ.
  { apply (HQ (Done tt) ls); eauto with prog. }
  autorewrite with len in Hlt. simpl in *.
  apply wp_bind, wp_u64_add; [lia|]. apply wp_bind, wp_u64_add; [lia|].
  apply wp_bind, wp_shared. apply wp_bind. simpl.
  destruct (vec_insert (offset + prev + 1) x ls) as [ls'|] eqn:Hins; simpl.
  2:{ apply (HQ Panic ls); eauto with prog. }
  apply wp_bind, wp_update. simpl. apply (IH _ t); [lia|]. intros o ls'' Ho Hch. simpl.
  apply HQ; [done|]. eapply log_change_trans; [eapply log_change_insert; [|left|done]; lia|].
  eapply log_change_mono; [| |exact Hch]; [set_solver | lia].
Qed.

(** Runs a computation on a node given field by field, splitting on its branches. *)
Ltac wp_run :=
  repeat (cbv beta iota; cbn_state;
  match goal with
  | |- wp (bind _ _) _ _ => apply wp_bind
  | |- wp (ret _) _ _ => apply wp_ret
  | |- wp (fail _) _ _ => apply wp_fail
  | |- wp shared _ _ => apply wp_shared
  | |- wp (gets _) _ _ => apply wp_gets
  | |- wp (update _) _ _ => apply wp_update
  | |- wp putoff_timeout _ _ => apply wp_putoff
  | |- wp save_persistent _ _ => apply wp_save; intros ? ? ? [->|[? ->]]
  | |- wp (or_panic _) _ _ => apply wp_or_panic; [intros ? ?|intros ?]
  | |- wp (or_fail _ _) _ _ => apply wp_or_fail; [intros ? ?|intros ?]
  | |- wp (u64_sub _ _) _ _ => apply wp_u64_sub_any; intros ? [->|[? ->]]
  | |- wp (if ?a <? ?b then _ else _) _ _ => destruct (N.ltb_spec a b)
  | |- wp (if ?a <=? ?b then _ else _) _ _ => destruct (N.leb_spec a b)
  | |- wp (if ?b then _ else _) _ _ => destruct b eqn:?
  end).

Lemma wp_adopt t r f tm vf ls c bc sv m fs (Q : outcome RaftError unit → World → Prop) :
  (t ≤ tm → Q (Done tt)
     (mkWorld (mkState (mkVariableState r f (mkPersistent tm vf ls) c) bc sv m) fs)) →
  (tm < t → ∀ o f fs, (o = Done tt ∨ ∃ e, o = Fail e) → Q o
     (mkWorld (mkState (mkVariableState Follower f (mkPersistent t None ls) c) bc sv m) fs)) →
  wp (adopt_term t) Q
     (mkWorld (mkState (mkVariableState r f (mkPersistent tm vf ls) c) bc sv m) fs).
Proof. intros Hold Hnew. unfold adopt_term. wp_run; eauto. Qed.

Lemma wp_replace req t r f p c bc sv m fs (Q : outcome RaftError unit → World → Prop) :
  prev_log_index req < len (logs p) → len (logs p) ≤ isize_max →
  len (entries req) ≤ isize_max →
  (∀ o ls', (o = Done tt ∨ o = Panic) → log_change (entries req) t (logs p) ls' →
     Q o (mkWorld (mkState (mkVariableState r f
            (mkPersistent (current_term p) (voted_for p) ls') c) bc sv m) fs)) →
  wp (replace_entries req (logs p)) Q
     (mkWorld (mkState (mkVariableState r f p c) bc sv m) fs).
Proof.
  intros Hp Hmax Hes HQ. unfold isize_max in *. destruct p as [tm vf ls]; cbn_state.
  unfold replace_entries, expected_len.
  apply wp_bind, wp_bind, wp_u64_add; [unfold u64_modulus; lia|].
  apply wp_u64_add; [unfold u64_modulus; lia|].
  apply wp_bind. destruct (N.ltb_spec (prev_log_index req + 1 + len (entries req)) (len ls)).
  2:{ apply wp_ret, (wp_insert _ _ _ t); [unfold u64_modulus; lia|]. eauto. }
  apply wp_bind, wp_bind, wp_u64_add; [unfold u64_modulus; lia|].
  apply wp_u64_add; [unfold u64_modulus; lia|].
  apply wp_bind. rewrite vec_shrink_Some by lia. apply wp_ret, wp_update. cbn_state.
  apply (wp_insert _ _ _ t); [unfold u64_modulus; lia|]. intros o ls' Ho Hch.
  apply HQ; [done|]. eapply log_change_trans; [|exact Hch].
  apply log_change_take. lia.
Qed.

(** A section may be cut at any point whose state is already passively related. *)
Lemma wp_passive_trans {A} es s w (m : M World RaftError A) :
  passive es s (node w) → wp m (λ _ w', passive es (node w) (node w')) w →
  wp m (λ _ w', passive es s (node w')) w.
Proof. unfold wp. intros Hs Hm. by etrans. Qed.

(** Two nodes given field by field are related. *)
Ltac passive_solve :=
  lazymatch goal with |- wp _ _ _ => fail | |- _ => idtac end;
  repeat match goal with |- _ ∧ _ => split end;
  lazymatch goal with
  | |- passive _ _ _ => first [reflexivity | split; [split|..]]
  | |- guarantee _ _ _ => first [reflexivity | split]
  | |- _ => idtac
  end;
  cbn_state; cbn [is_leader is_candidate is_follower] in *;
  intros; try done; try lia; eauto with prog.

Lemma append_as_follower_passive req s fs :
  len (entries req) ≤ isize_max → len (logs_of s) ≤ isize_max →
  wp (append_as_follower req) (λ _ w, passive (entries req) s (node w)) (mkWorld s fs).
Proof.
  destruct s as [[r f [tm vf ls] c] bc sv m]. intros Hes Hls.
  unfold append_as_follower, conflicting, advance_commit.
  wp_run; try passive_solve. destruct r; try done.
  apply (wp_replace req tm Follower f (mkPersistent tm vf ls)); [done..|].
  intros o ls' [->| ->] Hch; wp_run; passive_solve.
Qed.

Lemma append_entries_passive req s fs :
  len (entries req) ≤ isize_max → len (logs_of s) ≤ isize_max →
  wp (append_entries req) (λ _ w, passive (entries req) s (node w) ∧
    (logs_of (node w) = logs_of s ∨ ae_term req ≤ term_of (node w))) (mkWorld s fs).
Proof.
  intros Hes Hls. pose proof (append_as_follower_passive req) as Htail.
  destruct s as [[r f [tm vf ls] c] bc sv m]. unfold append_entries.
  wp_run; try passive_solve. apply wp_adopt.
  - intros Hle. cbv beta iota. eapply wp_mono; [by apply Htail|].
    intros o w Hw. split; [etrans; [|exact Hw]; passive_solve|].
    right. apply p_guarantee, g_term in Hw. cbn_state. lia.
  - intros Hlt o f' fs' [->|[e ->]]; cbv beta iota; [|passive_solve].
    eapply wp_mono; [by apply Htail|].
    intros o w Hw. split; [etrans; [|exact Hw]; passive_solve|].
    right. apply p_guarantee, g_term in Hw. cbn_state. lia.
Qed.

Lemma vote_on_log_passive req s fs :
  wp (vote_on_log req) (λ _ w, passive [] s (node w)) (mkWorld s fs).
Proof.
  destruct s as [[r f [tm vf ls] c] bc sv m]. unfold vote_on_log, log_condition.
  wp_run; try passive_solve. apply wp_u64_add_any. intros o [->|[n ->]]; wp_run; passive_solve.
Qed.

Lemma request_vote_passive req s fs :
  wp (request_vote req) (λ _ w, passive [] s (node w)) (mkWorld s fs).
Proof.
  destruct s as [[r f [tm vf ls] c] bc sv m]. unfold request_vote.
  wp_run; try passive_solve. apply wp_adopt.
  - intros _. apply vote_on_log_passive.
  - intros Hlt o f' fs' [->|[e ->]]; cbv beta iota; [|passive_solve].
    apply wp_passive_trans; [passive_solve|]. apply vote_on_log_passive.
Qed.

(** ** The sections of the tasks *)

Lemma election_cancelled_passive rx s fs :
  wp (election_cancelled rx) (λ _ w, passive [] s (node w)) (mkWorld s fs).
Proof. unfold election_cancelled. wp_run. reflexivity. Qed.

Lemma open_election_begin_guarantee s fs :
  term_of s + 1 < u64_modulus →
  wp open_election_begin (λ _ w, guarantee [] s (node w) ∧
    (is_leader (role (state (node w))) = true → is_leader (role (state s)) = true))
    (mkWorld s fs).
Proof.
  destruct s as [[r f [tm vf ls] c] bc sv m]. intros Hlt. cbn_state.
  unfold open_election_begin.
  wp_run; try passive_solve.
  apply wp_u64_add; [done|]. wp_run; passive_solve.
Qed.

Lemma open_election_vote_passive addr s fs :
  wp (open_election_vote addr) (λ _ w, passive [] s (node w)) (mkWorld s fs).
Proof.
  destruct s as [[r f [tm vf ls] c] bc sv m]. unfold open_election_vote.
  wp_run; passive_solve.
Qed.

Lemma open_election_end_guarantee n s fs :
  wp (open_election_end n) (λ _ w, guarantee [] s (node w) ∧
    term_of (node w) = term_of s ∧
    (is_leader (role (state (node w))) = true →
       is_leader (role (state s)) = true ∨ is_candidate (role (state s)) = true) ∧
    (is_candidate (role (state (node w))) = true → is_candidate (role (state s)) = true))
    (mkWorld s fs).
Proof.
  destruct s as [[r f [tm vf ls] c] bc sv m]. unfold open_election_end.
  wp_run; destruct r; try done;
    (split; [passive_solve | cbn_state; split_and!; eauto]).
Qed.

Lemma log_change_append t ls texts ls' :
  vec_append ls (map (λ text, mkLog text t) texts) = Some ls' →
  log_change [] t ls ls' ∧ ls `prefix_of` ls'.
Proof.
  unfold vec_append. intros Happ. case_match eqn:Hle; simplify_eq.
  apply N.leb_le in Hle. split; [|by apply prefix_app_r].
  intros Hne Hmax. split_and!.
  - by destruct ls.
  - by rewrite len_app.
  - intros l [Hl|Hl]%elem_of_app; [by left|]. right; right.
    apply list_elem_of_In, in_map_iff in Hl as (x & <- & _). simpl. lia.
Qed.

Lemma send_append_entries_begin_passive texts s fs :
  wp (send_append_entries_begin texts) (λ _ w, passive [] s (node w)) (mkWorld s fs).
Proof.
  destruct s as [[r f [tm vf ls] c] bc sv m]. unfold send_append_entries_begin.
  wp_run; try passive_solve.
  all: destruct (log_change_append tm ls texts a) as [? ?]; [done|].
  all: passive_solve.
Qed.

(** The request carries the current term and a suffix of the log. *)
Definition request_ok (s : State) (o : outcome RaftError (bool + AppendEntriesRequest)) : Prop :=
  match o with
  | Done (inr req) =>
      ae_term req = term_of s ∧ ∃ i, entries req = drop i (logs_of s)
  | _ => True
  end.

Lemma send_append_entries_request_passive addr s fs :
  wp (send_append_entries_request addr) (λ o w, passive [] s (node w) ∧ request_ok s o)
    (mkWorld s fs).
Proof.
  destruct s as [[r f [tm vf ls] c] bc sv m]. unfold send_append_entries_request.
  wp_run. destruct r as [| |ni mi]; wp_run; try passive_solve.
  apply wp_u64_add_any. intros o [->|[n ->]]; wp_run; passive_solve.
  split; [done|]. unfold slice_from. cbn. case_match; simpl; [by eexists|].
  exists (length ls). by rewrite drop_all.
Qed.

Lemma send_append_entries_response_passive addr res s fs :
  wp (send_append_entries_response addr res) (λ _ w, passive [] s (node w)) (mkWorld s fs).
Proof.
  destruct s as [[r f [tm vf ls] c] bc sv m]. unfold send_append_entries_response.
  wp_run. destruct r as [| |ni mi]; wp_run; passive_solve.
Qed.

Lemma send_append_entries_end_passive n s fs :
  wp (send_append_entries_end n) (λ _ w, passive [] s (node w)) (mkWorld s fs).
Proof.
  destruct s as [[r f [tm vf ls] c] bc sv m]. unfold send_append_entries_end.
  wp_run; passive_solve.
Qed.

(** ** No handler panics

    [answers]: the call returns a value or an error; it neither panics nor hangs. *)

Ltac answered := cbn [negb]; cbv beta iota; try apply wp_ret; split; discriminate.

Lemma append_as_follower_answers req s fs :
  len (logs_of s) + len (entries req) ≤ isize_max →
  wp (append_as_follower req) (λ o _, answers o) (mkWorld s fs).
Proof.
  intros Hmax. unfold append_as_follower.
  apply wp_bind, wp_shared. cbv beta iota. cbn [node].
  destruct (is_follower (role (state s))); [|answered]. cbn [negb]. apply wp_bind. rewrite conflicting_run. apply wp_ret. cbv beta iota.
  destruct (matches_at _ _ _) eqn:Hm; [|answered]. cbn [negb].
  pose proof (matches_at_lt _ _ _ Hm) as Hlt.
  apply wp_bind. unfold wp at 1. rewrite replace_entries_run by done. cbn [fst snd].
  set (s2 := set_state _ s).
  apply wp_bind. unfold wp at 1. rewrite (advance_commit_run _ s2); cbn [fst snd].
  - apply wp_bind, wp_save. intros o f fs' [->|[e ->]]; answered.
  - destruct (len_spliced _ (entries req) _ Hlt) as [Hlen _]. intros Hnil.
    change (spliced (prev_log_index req) (entries req) (logs (persistent (state s))) = [])
      in Hnil. rewrite Hnil, len_nil in Hlen. lia.
Qed.

Lemma append_entries_answers' req s fs :
  len (logs_of s) + len (entries req) ≤ isize_max →
  wp (append_entries req) (λ o _, answers o) (mkWorld s fs).
Proof.
  intros Hmax. pose proof (append_as_follower_answers req) as Htail.
  destruct s as [[r f [tm vf ls] c] bc sv m]. unfold append_entries.
  wp_run; try answered. apply wp_adopt.
  - intros _. by apply Htail.
  - intros _ o f' fs' [->|[e ->]]; [|answered]. by apply Htail.
Qed.

Lemma vote_on_log_answers req s fs :
  last_log_index req + 1 < u64_modulus →
  wp (vote_on_log req) (λ o _, answers o) (mkWorld s fs).
Proof.
  intros Hlt. destruct s as [[r f [tm vf ls] c] bc sv m].
  unfold vote_on_log, log_condition. wp_run; try answered.
  apply wp_u64_add; [done|]. wp_run; answered.
Qed.

Lemma request_vote_answers' req s fs :
  last_log_index req + 1 < u64_modulus →
  wp (request_vote req) (λ o _, answers o) (mkWorld s fs).
Proof.
  intros Hlt. pose proof (vote_on_log_answers req) as Htail.
  destruct s as [[r f [tm vf ls] c] bc sv m]. unfold request_vote.
  wp_run; try answered. apply wp_adopt.
  - intros _. by apply Htail.
  - intros _ o f' fs' [->|[e ->]]; [by apply Htail | answered].
Qed.

End guarantees.
