(* ===== verification/RaftCluster.v ===== *)
(** * A Raft cluster: nodes, tasks, requests in flight

    A cluster is the nodes, the election timer of each ([launch] of
    [src/raft2/src/lib.rs]), the running [send_append_entries] calls and the requests
    in flight.  [exec] runs one event: one section of a task, one handler, a reply,
    or a loss.  An event that is not enabled has no successor; a lock is an enabling
    condition.  A request is handled at most once, in any order, perhaps after its
    sender gave up (the client's timeout); a reply may be lost. *)

From S2P Require Export RaftTasks.

(** ** State *)

Inductive VoteFut :=
| VReady
| VWaiting (pid : N)
| VAnswered (reply : Reply RequestVoteResponse)
| VDone (granted : option bool).

Inductive AppendFut :=
| AReady
| AWaiting (pid : N)
| AAnswered (reply : Reply AppendEntriesResponse)
| ADone (ok : option bool).

(** One call of [open_election]: asleep with the receiver it was given, waiting for
    the write lock, or collecting votes.  The term of [EVoting] is a ghost: it records
    the term the election was opened for, and no event reads it. *)
Inductive Election :=
| ESleep (rx : N)
| ELock
| EVoting (opened : N) (futs : gmap SocketAddr VoteFut).

(** The loop of [launch]; [rx] is its receiver, [rx2] the one for the election. *)
Inductive Timer :=
| TimerWait (rx rx2 : N)
| TimerElect (rx : N) (e : Election)
| TimerDead.

(** The spawned heartbeat loop between two rounds, a call of [send_append_entries]
    about to take the lock, and one whose futures are running.  [client] tells a call
    made by [post_log] from one made by the heartbeat loop. *)
Inductive Task :=
| THeartbeat
| TBegin (client : bool) (texts : list string)
| TAppend (client : bool) (futs : gmap SocketAddr AppendFut)
| TReturned (result : option bool).

Inductive Body := BVote (req : RequestVoteRequest) | BAppend (task : N) (req : AppendEntriesRequest).
Record Packet := mkPacket { p_src : SocketAddr; p_dest : SocketAddr; p_body : Body }.

Record Cluster := mkCluster {
  nodes : gmap SocketAddr State;
  timers : gmap SocketAddr Timer;
  tasks : gmap N (SocketAddr * Task);
  net : gmap N Packet;
  next_id : N
}.

Definition set_nodes f c := mkCluster (f (nodes c)) (timers c) (tasks c) (net c) (next_id c).
Definition set_timers f c := mkCluster (nodes c) (f (timers c)) (tasks c) (net c) (next_id c).
Definition set_tasks f c := mkCluster (nodes c) (timers c) (f (tasks c)) (net c) (next_id c).
Definition set_net f c := mkCluster (nodes c) (timers c) (tasks c) (f (net c)) (next_id c).
Definition bump c := mkCluster (nodes c) (timers c) (tasks c) (net c) (next_id c + 1).

(** ** Events *)

Inductive Event :=
| EvTimerRecv (n : SocketAddr)
| EvTimerFires (n : SocketAddr)
| EvElectionWake (n : SocketAddr)
| EvElectionBegin (n : SocketAddr) (fs : list Fault)
| EvVoteSend (n addr : SocketAddr)
| EvVoteReply (n addr : SocketAddr)
| EvVoteLost (n addr : SocketAddr)
| EvElectionEnd (n : SocketAddr) (fs : list Fault)
| EvPost (n : SocketAddr) (texts : list string)
| EvHeartbeat (t : N)
| EvAppendBegin (t : N) (fs : list Fault)
| EvAppendSend (t : N) (addr : SocketAddr)
| EvAppendReply (t : N) (addr : SocketAddr)
| EvAppendLost (t : N) (addr : SocketAddr)
| EvAppendEnd (t : N)
| EvDeliver (pid : N) (fs : list Fault).

(** A vote future keeps its read guard from its first poll to its result. *)
Definition holds_guard (f : VoteFut) : bool :=
  match f with VWaiting _ | VAnswered _ => true | VReady | VDone _ => false end.

Definition write_free (n : SocketAddr) (c : Cluster) : bool :=
  match timers c !! n with
  | Some (TimerElect _ (EVoting _ futs)) =>
      forallb (λ kf, negb (holds_guard kf.2)) (map_to_list futs)
  | _ => true
  end.

Definition vote_done (f : VoteFut) : option (option bool) :=
  match f with VDone r => Some r | _ => None end.
Definition append_done (f : AppendFut) : option (option bool) :=
  match f with ADone r => Some r | _ => None end.

Definition vote_waits (pid : N) (f : option VoteFut) : bool :=
  match f with Some (VWaiting p) => p =? pid | _ => false end.
Definition append_waits (pid : N) (f : option AppendFut) : bool :=
  match f with Some (AWaiting p) => p =? pid | _ => false end.

(** [join_all]: the results, once every future has one. *)
Definition join_all {F} (done_ : F → option (option bool)) (futs : gmap SocketAddr F) :
    option (list (option bool)) :=
  mapM (λ kf : SocketAddr * F, done_ kf.2) (map_to_list futs).

(** [.filter(|r| matches!(r, Ok(true))).count()] *)
Definition count_true (rs : list (option bool)) : N :=
  len (filter (λ r, r = Some true) rs).

Section exec.
Context `{Profile} `{SerdeJson}.

(** Runs a section or a handler on node [n] and stores the node it leaves. *)
Definition run_on {A} (n : SocketAddr) (fs : list Fault) (m : M World RaftError A)
    (c : Cluster) : option (outcome RaftError A * Cluster) :=
  s ← nodes c !! n;
  let '(o, w) := m (mkWorld s fs) in
  Some (o, set_nodes <[n := node w]> c).

(** [launch]'s loop starts its next iteration: [rx2 = rx.resubscribe()]. *)
Definition restart_timer (n : SocketAddr) (rx : N) (c : Cluster) : option Cluster :=
  s ← nodes c !! n;
  Some (set_timers <[n := TimerWait rx (sent (timeout_cancel s))]> c).

Definition set_vote (n : SocketAddr) (rx opened : N) (futs : gmap SocketAddr VoteFut)
    (addr : SocketAddr) (f : VoteFut) (c : Cluster) : Cluster :=
  set_timers <[n := TimerElect rx (EVoting opened (<[addr := f]> futs))]> c.

Definition set_append (t : N) (n : SocketAddr) (client : bool)
    (futs : gmap SocketAddr AppendFut) (addr : SocketAddr) (f : AppendFut) (c : Cluster) :
    Cluster :=
  set_tasks <[t := (n, TAppend client (<[addr := f]> futs))]> c.

(** The heartbeat loop goes on after a call returns, [post_log] returns to its client. *)
Definition finish_task (t : N) (n : SocketAddr) (client : bool) (r : option bool)
    (c : Cluster) : Cluster :=
  set_tasks <[t := (n, if client then TReturned r else THeartbeat)]> c.

(** A reply reaches the future that waits for it, or nobody. *)
Definition answer_vote (pid : N) (src dest : SocketAddr) (r : Reply RequestVoteResponse)
    (c : Cluster) : Cluster :=
  match timers c !! src with
  | Some (TimerElect rx (EVoting opened futs)) =>
      if vote_waits pid (futs !! dest)
      then set_vote src rx opened futs dest (VAnswered r) c else c
  | _ => c
  end.

Definition answer_append (pid t : N) (dest : SocketAddr) (r : Reply AppendEntriesResponse)
    (c : Cluster) : Cluster :=
  match tasks c !! t with
  | Some (n, TAppend client futs) =>
      if append_waits pid (futs !! dest)
      then set_append t n client futs dest (AAnswered r) c else c
  | _ => c
  end.

Definition voting (n : SocketAddr) (c : Cluster) :
    option (N * N * gmap SocketAddr VoteFut) :=
  match timers c !! n with
  | Some (TimerElect rx (EVoting opened futs)) => Some (rx, opened, futs)
  | _ => None
  end.

Definition appending (t : N) (c : Cluster) :
    option (SocketAddr * bool * gmap SocketAddr AppendFut) :=
  match tasks c !! t with
  | Some (n, TAppend client futs) => Some (n, client, futs)
  | _ => None
  end.

(** *** The election timer and [open_election] *)

(** [rx.recv()]: a receiver too far behind skips to the oldest message kept. *)
Definition exec_timer_recv (n : SocketAddr) (c : Cluster) : option Cluster :=
  s ← nodes c !! n;
  match timers c !! n with
  | Some (TimerWait rx _) =>
      let tail := sent (timeout_cancel s) in
      if rx <? tail
      then restart_timer n (if 1024 <? tail - rx then tail - 1024 else rx + 1) c
      else None
  | _ => None
  end.

Definition exec_timer_fires (n : SocketAddr) (c : Cluster) : option Cluster :=
  match timers c !! n with
  | Some (TimerWait rx rx2) => Some (set_timers <[n := TimerElect rx (ESleep rx2)]> c)
  | _ => None
  end.

Definition exec_election_wake (n : SocketAddr) (c : Cluster) : option Cluster :=
  match timers c !! n with
  | Some (TimerElect rx (ESleep rx2)) =>
      '(o, c) ← run_on n [] (election_cancelled rx2) c;
      match o with
      | Done false => Some (set_timers <[n := TimerElect rx ELock]> c)
      | _ => restart_timer n rx c
      end
  | _ => None
  end.

Definition exec_election_begin (n : SocketAddr) (fs : list Fault) (c : Cluster) : option Cluster :=
  match timers c !! n with
  | Some (TimerElect rx ELock) =>
      '(o, c) ← run_on n fs open_election_begin c;
      s ← nodes c !! n;
      match o with
      | Done true =>
          Some (set_timers <[n := TimerElect rx
            (EVoting (current_term (persistent (state s))) (gset_to_gmap VReady (servers s)))]> c)
      | Panic => Some (set_timers <[n := TimerDead]> c)
      | _ => restart_timer n rx c
      end
  | _ => None
  end.

Definition exec_vote_send (n addr : SocketAddr) (c : Cluster) : option Cluster :=
  '(rx, opened, futs) ← voting n c;
  match futs !! addr with
  | Some VReady =>
      '(o, c) ← run_on n [] (open_election_vote addr) c;
      match o with
      | Done None => Some (set_vote n rx opened futs addr (VDone (Some true)) c)
      | Done (Some req) =>
          let pid := next_id c in
          Some (set_vote n rx opened futs addr (VWaiting pid)
            (set_net <[pid := mkPacket n addr (BVote req)]> (bump c)))
      | Panic => Some (set_timers <[n := TimerDead]> c)
      | _ => Some (set_vote n rx opened futs addr (VDone None) c)
      end
  | _ => None
  end.

Definition exec_vote_reply (n addr : SocketAddr) (c : Cluster) : option Cluster :=
  '(rx, opened, futs) ← voting n c;
  match futs !! addr with
  | Some (VAnswered (ReplyOk _ r)) =>
      Some (set_vote n rx opened futs addr (VDone (Some (vote_granted r))) c)
  | Some (VAnswered _) => Some (set_vote n rx opened futs addr (VDone None) c)
  | _ => None
  end.

Definition exec_vote_lost (n addr : SocketAddr) (c : Cluster) : option Cluster :=
  '(rx, opened, futs) ← voting n c;
  match futs !! addr with
  | Some (VWaiting _) | Some (VAnswered _) => Some (set_vote n rx opened futs addr (VDone None) c)
  | _ => None
  end.

Definition exec_election_end (n : SocketAddr) (fs : list Fault) (c : Cluster) : option Cluster :=
  '(rx, opened, futs) ← voting n c;
  rs ← join_all vote_done futs;
  '(o, c) ← run_on n fs (open_election_end (count_true rs)) c;
  match o with
  | Done true =>
      c ← restart_timer n rx c;
      Some (set_tasks <[next_id c := (n, THeartbeat)]> (bump c))
  | Panic => Some (set_timers <[n := TimerDead]> c)
  | _ => restart_timer n rx c
  end.

(** *** [post_log], the heartbeat loop and [send_append_entries] *)

Definition exec_post (n : SocketAddr) (texts : list string) (c : Cluster) : option Cluster :=
  _ ← nodes c !! n;
  Some (set_tasks <[next_id c := (n, TBegin true texts)]> (bump c)).

Definition exec_heartbeat (t : N) (c : Cluster) : option Cluster :=
  match tasks c !! t with
  | Some (n, THeartbeat) =>
      s ← nodes c !! n;
      if is_leader (role (state s))
      then Some (set_tasks <[t := (n, TBegin false [])]> c)
      else Some (set_tasks (delete t) c)
  | _ => None
  end.

Definition exec_append_begin (t : N) (fs : list Fault) (c : Cluster) : option Cluster :=
  match tasks c !! t with
  | Some (n, TBegin client texts) =>
      if write_free n c then
        '(o, c) ← run_on n fs (send_append_entries_begin texts) c;
        s ← nodes c !! n;
        match o with
        | Done _ =>
            Some (set_tasks <[t := (n, TAppend client (gset_to_gmap AReady (servers s)))]> c)
        | Panic => Some (set_tasks (delete t) c)
        | _ => Some (finish_task t n client None c)
        end
      else None
  | _ => None
  end.

Definition exec_append_send (t : N) (addr : SocketAddr) (c : Cluster) : option Cluster :=
  '(n, client, futs) ← appending t c;
  match futs !! addr with
  | Some AReady =>
      '(o, c) ← run_on n [] (send_append_entries_request addr) c;
      match o with
      | Done (inl b) => Some (set_append t n client futs addr (ADone (Some b)) c)
      | Done (inr req) =>
          let pid := next_id c in
          Some (set_append t n client futs addr (AWaiting pid)
            (set_net <[pid := mkPacket n addr (BAppend t req)]> (bump c)))
      | Panic => Some (set_tasks (delete t) c)
      | _ => Some (set_append t n client futs addr (ADone None) c)
      end
  | _ => None
  end.

Definition exec_append_reply (t : N) (addr : SocketAddr) (c : Cluster) : option Cluster :=
  '(n, client, futs) ← appending t c;
  match futs !! addr with
  | Some (AAnswered (ReplyOk _ r)) =>
      '(o, c) ← run_on n [] (send_append_entries_response addr (success r)) c;
      match o with
      | Panic => Some (set_tasks (delete t) c)
      | o => Some (set_append t n client futs addr (ADone (outcome_ok o)) c)
      end
  | Some (AAnswered _) => Some (set_append t n client futs addr (ADone None) c)
  | _ => None
  end.

Definition exec_append_lost (t : N) (addr : SocketAddr) (c : Cluster) : option Cluster :=
  '(n, client, futs) ← appending t c;
  match futs !! addr with
  | Some (AWaiting _) | Some (AAnswered _) =>
      Some (set_append t n client futs addr (ADone None) c)
  | _ => None
  end.

Definition exec_append_end (t : N) (c : Cluster) : option Cluster :=
  '(n, client, futs) ← appending t c;
  rs ← join_all append_done futs;
  s ← nodes c !! n;
  if is_majority (count_true rs) (servers s) && negb (write_free n c) then None
  else
    '(o, c) ← run_on n [] (send_append_entries_end (count_true rs)) c;
    match o with
    | Panic => Some (set_tasks (delete t) c)
    | o => Some (finish_task t n client (outcome_ok o) c)
    end.

(** *** Requests *)

Definition exec_deliver (pid : N) (fs : list Fault) (c : Cluster) : option Cluster :=
  p ← net c !! pid;
  let n := p_dest p in
  if write_free n c then
    let c := set_net (delete pid) c in
    match p_body p with
    | BVote req =>
        '(o, c) ← run_on n fs (request_vote req) c;
        Some (answer_vote pid (p_src p) n (http_reply 202 o) c)
    | BAppend t req =>
        '(o, c) ← run_on n fs (append_entries req) c;
        Some (answer_append pid t n (http_reply 202 o) c)
    end
  else None.

Definition exec (ev : Event) (c : Cluster) : option Cluster :=
  match ev with
  | EvTimerRecv n => exec_timer_recv n c
  | EvTimerFires n => exec_timer_fires n c
  | EvElectionWake n => exec_election_wake n c
  | EvElectionBegin n fs => exec_election_begin n fs c
  | EvVoteSend n addr => exec_vote_send n addr c
  | EvVoteReply n addr => exec_vote_reply n addr c
  | EvVoteLost n addr => exec_vote_lost n addr c
  | EvElectionEnd n fs => exec_election_end n fs c
  | EvPost n texts => exec_post n texts c
  | EvHeartbeat t => exec_heartbeat t c
  | EvAppendBegin t fs => exec_append_begin t fs c
  | EvAppendSend t addr => exec_append_send t addr c
  | EvAppendReply t addr => exec_append_reply t addr c
  | EvAppendLost t addr => exec_append_lost t addr c
  | EvAppendEnd t => exec_append_end t c
  | EvDeliver pid fs => exec_deliver pid fs c
  end.

Definition step (c c' : Cluster) : Prop := ∃ ev, exec ev c = Some c'.

(** ** Initial clusters *)

(** What [from_file] may find on disk or create: a log that starts with the "init"
    entry and no entry of a future term. *)
Record wf_persistent (p : Persistent) : Prop := {
  wf_init : head (logs p) = Some (mkLog "init" 0);
  wf_len : len (logs p) ≤ isize_max;
  wf_terms : Forall (λ l, log_term l ≤ current_term p) (logs p)
}.

Record is_init (srv : gset SocketAddr) (c : Cluster) : Prop := {
  init_nodes : ∀ n s, nodes c !! n = Some s →
    ∃ p f, s = initial_state p f n srv ∧ wf_persistent p;
  init_timers : ∀ n t, timers c !! n = Some t → t = TimerWait 0 0;
  init_tasks : tasks c = ∅;
  init_net : net c = ∅
}.

(** Executions stay short of [2^64] elections, where [current_term += 1] overflows. *)
Definition no_overflow (c : Cluster) : Prop :=
  map_Forall (λ _ s, current_term (persistent (state s)) + 1 < u64_modulus) (nodes c).

Definition step_in_range (c c' : Cluster) : Prop := no_overflow c ∧ step c c'.

#[export] Instance no_overflow_dec c : Decision (no_overflow c).
Proof. unfold no_overflow. apply _. Defined.

(** A trace, event by event; it stops at an event that is not enabled. *)
Fixpoint exec_all (evs : list Event) (c : Cluster) : option Cluster :=
  match evs with
  | [] => Some c
  | ev :: evs =>
      if decide (no_overflow c) then c ← exec ev c; exec_all evs c else None
  end.

Definition reachable (srv : gset SocketAddr) (c : Cluster) : Prop :=
  ∃ c0, is_init srv c0 ∧ rtc step_in_range c0 c.

(** Every server started on an empty disk. *)
Definition fresh_node (n : SocketAddr) (srv : gset SocketAddr) : State :=
  initial_state (mkPersistent 0 None initial_logs) (mkFile [] 0) n srv.

Definition fresh_cluster (srv : list SocketAddr) : Cluster :=
  mkCluster (list_to_map (map (λ n, (n, fresh_node n (list_to_set srv))) srv))
            (list_to_map (map (λ n, (n, TimerWait 0 0)) srv)) ∅ ∅ 0.

End exec.
