(* ===== verification/RaftClusterFacts.v ===== *)
(** * Invariants of a Raft cluster

    [inv] holds in every reachable cluster, whatever the interleaving, the message
    losses and the I/O errors; [evolves] bounds what one event does to each node. *)

From S2P Require Export RaftGuarantees RaftCluster.

(** ** The invariant *)

Definition init_log : Log := mkLog "init" 0.

Record node_ok (srv : gset SocketAddr) (n : SocketAddr) (s : State) : Prop := {
  ok_me : me s = n;
  ok_servers : servers s = srv;
  ok_init : head (logs_of s) = Some init_log;
  ok_len : len (logs_of s) ≤ isize_max;
  ok_terms : ∀ l, l ∈ logs_of s → log_term l ≤ term_of s
}.

(** A replication request carries no entry of a later term than its own. *)
Definition packet_ok (p : Packet) : Prop :=
  match p_body p with
  | BVote _ => True
  | BAppend _ req =>
      len (entries req) ≤ isize_max ∧ ∀ l, l ∈ entries req → log_term l ≤ ae_term req
  end.

(** A node that is still a candidate when its election is open is a candidate of the
    term the election was opened for. *)
Definition election_ok (t : option Timer) (s : State) : Prop :=
  match t with
  | Some (TimerElect _ (EVoting opened _)) =>
      is_candidate (role (state s)) = true → term_of s = opened
  | _ => True
  end.

Record inv (srv : gset SocketAddr) (c : Cluster) : Prop := {
  inv_nodes : ∀ n s, nodes c !! n = Some s → node_ok srv n s;
  inv_net : ∀ pid p, net c !! pid = Some p → packet_ok p;
  inv_election : ∀ n s, nodes c !! n = Some s → election_ok (timers c !! n) s
}.

(** One event changes every node within its [guarantee] and adds or removes none. *)
Definition evolves (c c' : Cluster) : Prop :=
  ∀ n, option_Forall2 (guarantee []) (nodes c !! n) (nodes c' !! n).

Definition good_step (srv : gset SocketAddr) (c c' : Cluster) : Prop :=
  inv srv c' ∧ evolves c c'.

(** Takes an execution of an event apart, option by option and branch by branch. *)
Ltac exec_cases H :=
  repeat first
    [ progress simplify_eq/=
    | lazymatch type of H with
      | mbind _ _ = Some _ =>
          let x := fresh "x" in let Hx := fresh "Hx" in
          apply bind_Some in H as (x & Hx & H)
      end
    | case_match ].

(** ** Updates that keep it *)

Section invariant.
Context `{Profile} `{SerdeJson} (srv : gset SocketAddr).

Lemma node_ok_guarantee n s s' :
  guarantee [] s s' → node_ok srv n s → node_ok srv n s'.
Proof.
  intros [Hm Hs Ht Hl _] [Hme Hsrv Hinit Hlen Hterms].
  destruct Hl as (Hh & Hlen' & He); [by destruct (logs_of s) | done |].
  split; [congruence..| |done|].
  - congruence.
  - intros l Hl. destruct (He l Hl) as [Hin|[Hin|?]]; [|by apply elem_of_nil in Hin|done].
    specialize (Hterms l Hin). lia.
Qed.

Lemma evolves_refl c c' : nodes c' = nodes c → evolves c c'.
Proof. unfold evolves. intros -> n. destruct (nodes c !! n); constructor. reflexivity. Qed.

Lemma evolves_insert c c' n s s' :
  nodes c !! n = Some s → nodes c' = <[n := s']> (nodes c) → guarantee [] s s' →
  evolves c c'.
Proof.
  unfold evolves. intros Hs -> Hg k. destruct (decide (n = k)) as [->|].
  - rewrite lookup_insert_eq, Hs. by constructor.
  - rewrite lookup_insert_ne by done. destruct (nodes c !! k); constructor. reflexivity.
Qed.

Lemma inv_set_node c n s s' :
  inv srv c → nodes c !! n = Some s → guarantee [] s s' →
  election_ok (timers c !! n) s' →
  good_step srv c (set_nodes <[n := s']> c).
Proof.
  intros [Hn Hp He] Hs Hg Hel. split; [|by eapply evolves_insert].
  split; simpl; [|done|].
  - intros k s0. destruct (decide (n = k)) as [->|].
    + rewrite lookup_insert_eq. intros [= <-]. eapply node_ok_guarantee; eauto.
    + rewrite lookup_insert_ne by done. apply Hn.
  - intros k s0. destruct (decide (n = k)) as [->|].
    + by rewrite lookup_insert_eq; intros [= <-].
    + rewrite lookup_insert_ne by done. apply He.
Qed.

Lemma election_ok_passive t s s' :
  passive [] s s' → election_ok t s → election_ok t s'.
Proof.
  intros [_ _ Hc]. destruct t as [[|? []|]|]; simpl; try done.
  intros Hel Hcand. destruct (Hc Hcand) as [? ->]. auto.
Qed.

Lemma inv_set_timer c n t :
  inv srv c → (∀ s, nodes c !! n = Some s → election_ok (Some t) s) →
  inv srv (set_timers <[n := t]> c).
Proof.
  intros [Hn Hp He] Ht. split; simpl; [done..|]. intros k s Hs.
  destruct (decide (n = k)) as [->|].
  - rewrite lookup_insert_eq. by apply Ht.
  - rewrite lookup_insert_ne by done. by apply He.
Qed.

Lemma inv_set_tasks c f : inv srv c → inv srv (set_tasks f c).
Proof. intros [Hn Hp He]. by split. Qed.

Lemma inv_send c pid p : inv srv c → packet_ok p → inv srv (set_net <[pid := p]> (bump c)).
Proof.
  intros [Hn Hp He] Hok. split; simpl; [done| |done].
  intros k q. destruct (decide (pid = k)) as [->|].
  - by rewrite lookup_insert_eq; intros [= <-].
  - rewrite lookup_insert_ne by done. apply Hp.
Qed.

Lemma inv_receive c pid : inv srv c → inv srv (set_net (delete pid) c).
Proof.
  intros [Hn Hp He]. split; simpl; [done| |done].
  intros k q [_ Hq]%lookup_delete_Some. eauto.
Qed.

(** Votes are collected in the election they were asked for. *)
Lemma inv_set_vote c n rx opened futs addr f :
  inv srv c → voting n c = Some (rx, opened, futs) →
  inv srv (set_vote n rx opened futs addr f c).
Proof.
  intros Hinv Hv. apply inv_set_timer; [done|]. intros s Hs.
  pose proof (inv_election _ _ Hinv n s Hs) as He. unfold voting in Hv.
  repeat case_match; by simplify_eq.
Qed.

Lemma inv_restart_timer c c' n rx :
  inv srv c → restart_timer n rx c = Some c' → inv srv c' ∧ nodes c' = nodes c.
Proof.
  intros Hinv Hr. unfold restart_timer in Hr. destruct (nodes c !! n); simplify_eq/=.
  split; [|done]. by apply inv_set_timer.
Qed.

(** A section run on a node, from what [wp] says about it. *)
Lemma run_on_wp {A} n fs (m : M World RaftError A) c o c' Q :
  run_on n fs m c = Some (o, c') →
  (∀ s, nodes c !! n = Some s → wp m (λ o w, Q s o (node w)) (mkWorld s fs)) →
  ∃ s s', nodes c !! n = Some s ∧ Q s o s' ∧ c' = set_nodes <[n := s']> c.
Proof.
  unfold run_on. destruct (nodes c !! n) as [s|] eqn:Hs; simpl; [|done].
  intros Hrun Hwp. specialize (Hwp s eq_refl). unfold wp in Hwp.
  destruct (m (mkWorld s fs)) as [o' w]; simplify_eq/=. eauto.
Qed.

Lemma run_on_passive {A} n fs (m : M World RaftError A) c o c' :
  inv srv c → run_on n fs m c = Some (o, c') →
  (∀ s, nodes c !! n = Some s → wp m (λ _ w, passive [] s (node w)) (mkWorld s fs)) →
  good_step srv c c' ∧ timers c' = timers c.
Proof.
  intros Hinv Hrun Hwp.
  destruct (run_on_wp n fs m c o c' (λ s _ s', passive [] s s') Hrun Hwp)
    as (s & s' & Hs & Hpass & ->).
  split; [|done]. eapply inv_set_node; [done..|apply Hpass|].
  eapply election_ok_passive; [done|]. by eapply inv_election.
Qed.

Lemma good_then c c1 c2 :
  good_step srv c c1 → nodes c2 = nodes c1 → inv srv c2 → good_step srv c c2.
Proof. intros [_ He] Hn Hinv. split; [done|]. unfold evolves in *. by rewrite Hn. Qed.

Lemma good_same c c' : inv srv c' → nodes c' = nodes c → good_step srv c c'.
Proof. intros ? ?. split; [done|by apply evolves_refl]. Qed.

Lemma inv_bump c c1 : good_step srv c1 c → inv srv (bump c).
Proof. intros [[Hn Hp He] _]. by split. Qed.

Lemma good_restart c c1 c2 n rx :
  good_step srv c c1 → restart_timer n rx c1 = Some c2 → good_step srv c c2.
Proof.
  intros Hg Hr. destruct (inv_restart_timer _ _ _ _ (proj1 Hg) Hr).
  by apply (good_then _ c1).
Qed.

Lemma good_timer c c1 n t :
  good_step srv c c1 → (∀ s, nodes c1 !! n = Some s → election_ok (Some t) s) →
  good_step srv c (set_timers <[n := t]> c1).
Proof. intros Hg Ht. eapply good_then; [done|done|]. apply inv_set_timer; [apply Hg|done]. Qed.

Lemma good_tasks c c1 f : good_step srv c c1 → good_step srv c (set_tasks f c1).
Proof. intros Hg. eapply good_then; [done|done|]. apply inv_set_tasks, Hg. Qed.

Lemma good_vote c c1 n rx opened futs addr f :
  good_step srv c c1 → timers c1 = timers c → voting n c = Some (rx, opened, futs) →
  good_step srv c (set_vote n rx opened futs addr f c1).
Proof.
  intros Hg Ht Hv. eapply good_then; [done|done|]. apply inv_set_vote; [apply Hg|].
  unfold voting in *. by rewrite Ht.
Qed.

#[local] Arguments restart_timer : simpl never.
#[local] Arguments run_on : simpl never.
#[local] Arguments set_vote : simpl never.

Lemma timer_recv_good n c c' : inv srv c → exec_timer_recv n c = Some c' → good_step srv c c'.
Proof.
  intros Hinv Hex. unfold exec_timer_recv in Hex. exec_cases Hex;
    (eapply good_restart; [|done]; by apply good_same).
Qed.

Lemma timer_fires_good n c c' : inv srv c → exec_timer_fires n c = Some c' → good_step srv c c'.
Proof.
  intros Hinv Hex. unfold exec_timer_fires in Hex. exec_cases Hex.
  apply good_timer; [by apply good_same|done].
Qed.

Lemma election_wake_good n c c' :
  inv srv c → exec_election_wake n c = Some c' → good_step srv c c'.
Proof.
  intros Hinv Hex. unfold exec_election_wake in Hex. exec_cases Hex.
  all: match goal with Hr : run_on _ _ _ _ = _ |- _ =>
    apply run_on_passive in Hr as [Hg _]; [|done|intros; apply election_cancelled_passive] end.
  all: try (by eapply good_restart). by apply good_timer.
Qed.

Lemma election_begin_good n fs c c' :
  inv srv c → no_overflow c → exec_election_begin n fs c = Some c' → good_step srv c c'.
Proof.
  intros Hinv Hno Hex. unfold exec_election_begin in Hex.
  destruct (timers c !! n) as [[|rx []|]|] eqn:Ht; try done.
  apply bind_Some in Hex as ([o c1] & Hrun & Hex).
  apply (run_on_wp _ _ _ _ _ _ (λ s _ s', guarantee [] s s')) in Hrun
    as (s & s' & Hs & Hg & ->).
  2:{ intros s Hs. eapply wp_mono; [by apply open_election_begin_guarantee, (Hno n)|].
      by intros ? ? []. }
  assert (good_step srv c (set_nodes <[n:=s']> c)) as Hgood.
  { eapply inv_set_node; [done..|]. by rewrite Ht. }
  apply bind_Some in Hex as (s2 & Hs2 & Hex). simpl in Hs2. rewrite lookup_insert_eq in Hs2.
  exec_cases Hex; try (by eapply good_restart); apply good_timer; try done.
  intros s0. simpl. rewrite lookup_insert_eq. by intros [= <-].
Qed.

Lemma vote_send_good n addr c c' :
  inv srv c → exec_vote_send n addr c = Some c' → good_step srv c c'.
Proof.
  intros Hinv Hex. unfold exec_vote_send in Hex. exec_cases Hex.
  all: match goal with Hr : run_on _ _ _ _ = _ |- _ =>
    apply run_on_passive in Hr as [Hg Ht]; [|done|intros; apply open_election_vote_passive] end.
  all: try (by eapply good_vote); try (by apply good_timer).
  eapply good_vote; [|exact Ht|done].
  eapply good_then; [done|done|]. apply inv_send; [apply Hg|done].
Qed.

Lemma vote_reply_good n addr c c' :
  inv srv c → exec_vote_reply n addr c = Some c' → good_step srv c c'.
Proof.
  intros Hinv Hex. unfold exec_vote_reply in Hex. exec_cases Hex;
    (eapply (good_vote c c); [by apply good_same|done|done]).
Qed.

Lemma vote_lost_good n addr c c' :
  inv srv c → exec_vote_lost n addr c = Some c' → good_step srv c c'.
Proof.
  intros Hinv Hex. unfold exec_vote_lost in Hex. exec_cases Hex;
    (eapply (good_vote c c); [by apply good_same|done|done]).
Qed.

Lemma election_end_good n fs c c' :
  inv srv c → exec_election_end n fs c = Some c' → good_step srv c c'.
Proof.
  intros Hinv Hex. unfold exec_election_end in Hex.
  apply bind_Some in Hex as ([[rx opened] futs] & Hv & Hex).
  apply bind_Some in Hex as (rs & _ & Hex).
  apply bind_Some in Hex as ([o c1] & Hrun & Hex).
  apply (run_on_wp _ _ _ _ _ _ (λ s _ s', guarantee [] s s' ∧ term_of s' = term_of s ∧
      (is_candidate (role (state s')) = true → is_candidate (role (state s)) = true)))
    in Hrun as (s & s' & Hs & (Hg & Hterm & Hcand) & ->).
  2:{ intros s Hs. eapply wp_mono; [by apply open_election_end_guarantee|]. naive_solver. }
  assert (good_step srv c (set_nodes <[n:=s']> c)) as Hgood.
  { eapply inv_set_node; [done..|]. pose proof (inv_election _ _ Hinv n s Hs) as He.
    unfold voting in Hv. destruct (timers c !! n) as [[|? []|]|]; simplify_eq/=.
    intros Hc. rewrite Hterm. auto. }
  exec_cases Hex; try (by eapply good_restart); try (by apply good_timer).
  match goal with Hr : restart_timer _ _ _ = Some _ |- _ =>
    eapply good_restart in Hr; [|exact Hgood] end.
  apply good_tasks. eapply good_then; [done|done|]. by eapply inv_bump.
Qed.

Lemma post_good n texts c c' : inv srv c → exec_post n texts c = Some c' → good_step srv c c'.
Proof. intros Hinv Hex. unfold exec_post in Hex. exec_cases Hex.
  apply good_tasks, good_same; [|done]. eapply inv_bump. by apply good_same.
Qed.

Lemma heartbeat_good t c c' : inv srv c → exec_heartbeat t c = Some c' → good_step srv c c'.
Proof.
  intros Hinv Hex. unfold exec_heartbeat in Hex.
  exec_cases Hex; by apply good_tasks, good_same.
Qed.

Lemma append_begin_good t fs c c' :
  inv srv c → exec_append_begin t fs c = Some c' → good_step srv c c'.
Proof.
  intros Hinv Hex. unfold exec_append_begin in Hex. exec_cases Hex.
  all: match goal with Hr : run_on _ _ _ _ = _ |- _ =>
    apply run_on_passive in Hr as [Hg _];
      [|done|intros; apply send_append_entries_begin_passive] end.
  all: by apply good_tasks.
Qed.

Lemma request_packet_ok n addr t s req :
  node_ok srv n s → request_ok s (Done (inr req)) → packet_ok (mkPacket n addr (BAppend t req)).
Proof.
  intros Hok [Hterm [i Hes]]. unfold packet_ok. simpl. rewrite Hes, Hterm. split.
  - rewrite len_drop. pose proof (ok_len _ _ _ Hok). lia.
  - intros l Hl. apply (ok_terms _ _ _ Hok). by eapply subseteq_drop.
Qed.

Lemma append_send_good t addr c c' :
  inv srv c → exec_append_send t addr c = Some c' → good_step srv c c'.
Proof.
  intros Hinv Hex. unfold exec_append_send in Hex. exec_cases Hex.
  all: match goal with Hr : run_on _ _ _ _ = _ |- _ =>
    apply (run_on_wp _ _ _ _ _ _ (λ s o s', passive [] s s' ∧ request_ok s o)) in Hr
      as (s0 & s' & Hs & (Hp & Hreq) & ->);
      [|intros; apply send_append_entries_request_passive] end.
  all: assert (good_step srv c (set_nodes <[s:=s']> c)) as Hgood by
    (eapply inv_set_node; [done..|apply Hp|];
     eapply election_ok_passive; [done|]; by eapply inv_election).
  all: try (by apply good_tasks).
  apply good_tasks. eapply good_then; [done|done|]. apply inv_send; [apply Hgood|].
  eapply request_packet_ok; [by eapply inv_nodes|done].
Qed.

Lemma append_reply_good t addr c c' :
  inv srv c → exec_append_reply t addr c = Some c' → good_step srv c c'.
Proof.
  intros Hinv Hex. unfold exec_append_reply in Hex. exec_cases Hex.
  all: try match goal with Hr : run_on _ _ _ _ = _ |- _ =>
    apply run_on_passive in Hr as [Hg _];
      [|done|intros; apply send_append_entries_response_passive] end.
  all: try (by apply good_tasks). all: by apply good_tasks, good_same.
Qed.

Lemma append_lost_good t addr c c' :
  inv srv c → exec_append_lost t addr c = Some c' → good_step srv c c'.
Proof.
  intros Hinv Hex. unfold exec_append_lost in Hex.
  exec_cases Hex; by apply good_tasks, good_same.
Qed.

Lemma append_end_good t c c' : inv srv c → exec_append_end t c = Some c' → good_step srv c c'.
Proof.
  intros Hinv Hex. unfold exec_append_end in Hex. exec_cases Hex.
  all: match goal with Hr : run_on _ _ _ _ = _ |- _ =>
    apply run_on_passive in Hr as [Hg _];
      [|done|intros; apply send_append_entries_end_passive] end.
  all: by apply good_tasks.
Qed.

Lemma good_answer_vote c c1 pid src dest r :
  good_step srv c c1 → good_step srv c (answer_vote pid src dest r c1).
Proof.
  intros Hg. unfold answer_vote. repeat case_match; try done.
  eapply good_then; [done|done|]. apply inv_set_vote; [apply Hg|].
  unfold voting. by repeat (case_match; simplify_eq).
Qed.

Lemma good_answer_append c c1 pid t dest r :
  good_step srv c c1 → good_step srv c (answer_append pid t dest r c1).
Proof.
  intros Hg. unfold answer_append. repeat case_match; try done. by apply good_tasks.
Qed.

(** Entries that arrive are of no later term than the node then has. *)
Lemma guarantee_absorb es s s' :
  guarantee es s s' → (∀ l, l ∈ es → log_term l ≤ term_of s') → guarantee [] s s'.
Proof.
  intros [Hm Hs Ht Hl Hg] Hes. split; try done.
  intros Hne Hmax. destruct (Hl Hne Hmax) as (? & ? & He). split_and!; [done..|].
  intros l Hin. destruct (He l Hin) as [?|[?|?]]; auto.
Qed.

Lemma guarantee_same_logs es s s' :
  guarantee es s s' → logs_of s' = logs_of s → guarantee [] s s'.
Proof. intros [Hm Hs Ht Hl Hg] Heq. split; try done. rewrite Heq. apply log_change_refl. Qed.

Lemma deliver_good pid fs c c' :
  inv srv c → exec_deliver pid fs c = Some c' → good_step srv c c'.
Proof.
  intros Hinv Hex. unfold exec_deliver in Hex.
  apply bind_Some in Hex as (p & Hp & Hex).
  pose proof (inv_net _ _ Hinv pid p Hp) as Hok. unfold packet_ok in Hok.
  destruct (write_free (p_dest p) c); [|done].
  assert (inv srv (set_net (delete pid) c)) as Hinv' by by apply inv_receive.
  destruct (p_body p) as [req|t req]; apply bind_Some in Hex as ([o c1] & Hrun & Hex);
    simplify_eq/=.
  - apply good_answer_vote. apply run_on_passive in Hrun as [Hg _];
      [exact Hg|done|intros; apply request_vote_passive].
  - apply good_answer_append. destruct Hok as [Hlen Hterms].
    apply (run_on_wp _ _ _ _ _ _ (λ s _ s', passive (entries req) s s' ∧
      (logs_of s' = logs_of s ∨ ae_term req ≤ term_of s'))) in Hrun
      as (s & s' & Hs & (Hpass & Hor) & ->).
    2:{ intros s Hs. apply append_entries_passive; [done|].
        eapply ok_len, inv_nodes; [exact Hinv|exact Hs]. }
    assert (passive [] s s') as Hpass'.
    { destruct Hpass as [Hg ? ?]. split; [|done..]. destruct Hor as [|Hle].
      - by eapply guarantee_same_logs.
      - eapply guarantee_absorb; [done|]. intros l Hl. specialize (Hterms l Hl). lia. }
    change (good_step srv (set_net (delete pid) c)
              (set_nodes <[p_dest p:=s']> (set_net (delete pid) c))).
    eapply inv_set_node; [done|exact Hs|apply Hpass'|].
    eapply election_ok_passive; [done|]. by eapply inv_election.
Qed.

Lemma exec_good ev c c' :
  inv srv c → no_overflow c → exec ev c = Some c' → good_step srv c c'.
Proof.
  intros Hinv Hno. destruct ev; simpl; intros Hex;
    eauto using timer_recv_good, timer_fires_good, election_wake_good, election_begin_good,
      vote_send_good, vote_reply_good, vote_lost_good, election_end_good, post_good,
      heartbeat_good, append_begin_good, append_send_good, append_reply_good,
      append_lost_good, append_end_good, deliver_good.
Qed.

Lemma inv_init c : is_init srv c → inv srv c.
Proof.
  intros [Hn Ht _ Hnet]. split.
  - intros n s (p & f & -> & [Hi Hl Hterms])%Hn. split; try done.
    intros l Hin. rewrite Forall_forall in Hterms. by apply Hterms.
  - rewrite Hnet. intros pid p Hp. by rewrite lookup_empty in Hp.
  - intros n s Hs. destruct (timers c !! n) as [t|] eqn:Htn; [|done].
    by rewrite (Ht _ _ Htn).
Qed.

Lemma reachable_inv c : reachable srv c → inv srv c.
Proof.
  intros (c0 & Hinit%inv_init & Hsteps).
  induction Hsteps as [|c0 c1 c2 [Hno [ev Hex]] _ IH]; [done|].
  apply IH. by eapply exec_good.
Qed.

End invariant.
