(* ===== verification/RaftNodeProps.v ===== *)
(** * Properties of one Raft node

    The handlers implement their specifications on every branch; the two places where
    the code departs from Raft's own rules (the retransmission of a request, and the
    vote for a candidate with an older log) are stated as the theorems they are. *)

From S2P Require Import RaftGuarantees.

Section properties.
Context `{Profile} `{SerdeJson} `{!SerdeJsonLaws}.

(** C1. The route [PUT /api/log] answers 202 with exactly the verdict of [append_spec]
    and leaves exactly the node [append_spec] describes, on every branch: a stale
    term, a newer term that makes the node step down, a node that is no follower, a
    conflicting log, and an accepted request (log spliced, commit index advanced to
    at most the last entry, state saved).  The election timer is put off unless the
    term is stale. *)
Theorem append_entries_refines req s :
  receivers (timeout_cancel s) ≠ 0 →
  len (logs_of s) + len (entries req) ≤ isize_max →
  http_append_entries req (mkWorld s []) =
    (ReplyOk 202 (mkAppendEntriesResponse (append_spec req (state s)).1),
     mkWorld (set_state (append_spec req (state s)).2
       (if ae_term req <? term_of s then s else signalled s)) []).
Proof.
  intros Hr Hmax. unfold http_append_entries. by rewrite append_entries_run.
Qed.

(** ** Accepted requests *)

Lemma append_spec_accepted req v :
  (append_spec req v).1 = true →
  matches_at (logs (persistent v)) (prev_log_index req) (prev_log_term req) = true ∧
  (append_spec req v).2.(role) = Follower ∧
  current_term (persistent (append_spec req v).2) = ae_term req ∧
  logs (persistent (append_spec req v).2) =
    spliced (prev_log_index req) (entries req) (logs (persistent v)).
Proof.
  unfold append_spec.
  destruct (N.ltb_spec (ae_term req) (current_term (persistent v))); [done|].
  pose proof (step_down_term (ae_term req) v ltac:(done)) as Ht.
  assert (logs (persistent (step_down (ae_term req) v)) = logs (persistent v)) as Hls
    by (unfold step_down; by case_match).
  rewrite Hls. destruct (is_follower _) eqn:Hf; [|done].
  destruct (matches_at _ _ _) eqn:Hm; [|done]. intros _. simpl.
  by destruct (role (step_down (ae_term req) v)).
Qed.

Lemma append_spec_accepts req v :
  role v = Follower → current_term (persistent v) = ae_term req →
  matches_at (logs (persistent v)) (prev_log_index req) (prev_log_term req) = true →
  (append_spec req v).1 = true.
Proof.
  intros Hr Ht Hm. unfold append_spec, step_down. rewrite Ht, N.ltb_irrefl.
  by rewrite Hr, Hm.
Qed.

Lemma spliced_nil prev (ls : list Log) :
  spliced prev [] ls = take (N.to_nat prev + 1) ls.
Proof.
  unfold spliced. simpl. rewrite Nat.add_0_r.
  rewrite drop_ge; [by rewrite app_nil_r|]. rewrite length_take. lia.
Qed.

Lemma take_spliced prev (es ls : list Log) :
  prev < len ls →
  take (N.to_nat (prev + len es) + 1) (spliced prev es ls) =
    take (N.to_nat prev + 1) ls ++ es.
Proof.
  intros Hp. unfold spliced. rewrite app_assoc, take_app_length'; [done|].
  rewrite length_app, length_take. unfold len in *. lia.
Qed.

Lemma spliced_spliced prev (es ls : list Log) :
  prev < len ls →
  spliced prev es (spliced prev es ls) = take (N.to_nat prev + 1) ls ++ es ++ es.
Proof.
  intros Hp. pose proof (take_spliced prev es ls Hp) as Ht.
  unfold spliced at 1. set (l2 := spliced prev es ls) in *.
  replace (N.to_nat (prev + len es) + 1)%nat with (N.to_nat prev + 1 + length es)%nat in Ht
    by (unfold len; lia).
  assert (length (take (N.to_nat prev + 1) ls) = (N.to_nat prev + 1)%nat) as Hlen
    by (rewrite length_take; unfold len in *; lia).
  rewrite Ht, (drop_app_length' _ _ _ (eq_sym Hlen)).
  replace (take (N.to_nat prev + 1) l2) with (take (N.to_nat prev + 1) ls); [done|].
  apply (f_equal (take (N.to_nat prev + 1))) in Ht.
  rewrite take_take, Nat.min_l in Ht by lia.
  by rewrite Ht, (take_app_length' _ _ _ (eq_sym Hlen)).
Qed.

Lemma accepted_reply req s :
  receivers (timeout_cancel s) ≠ 0 →
  len (logs_of s) + len (entries req) ≤ isize_max →
  (append_entries req (mkWorld s [])).1 = Done (mkAppendEntriesResponse true) →
  (append_spec req (state s)).1 = true ∧
  append_entries req (mkWorld s []) =
    (Done (mkAppendEntriesResponse true),
     mkWorld (set_state (append_spec req (state s)).2 (signalled s)) []).
Proof.
  intros Hr Hmax. rewrite append_entries_run by done. simpl. intros [= Hacc].
  rewrite Hacc. split; [done|]. unfold append_spec in Hacc.
  by destruct (ae_term req <? current_term (persistent (state s))).
Qed.

Lemma last_take_lookup {A} (l : list A) n :
  (n < length l)%nat → last (take (S n) l) = l !! n.
Proof.
  intros Hn. rewrite last_lookup, length_take_le by lia. simpl.
  by rewrite lookup_take_lt by lia.
Qed.

(** The position after the entries just spliced in matches what the leader sent. *)
Lemma matches_at_spliced prev (es ls : list Log) t :
  prev < len ls →
  log_term <$> last (take (N.to_nat prev + 1) ls ++ es) = Some t →
  matches_at (spliced prev es ls) (prev + len es) t = true.
Proof.
  intros Hp Hlast. unfold matches_at. apply bool_decide_eq_true_2. rewrite <- Hlast.
  rewrite <- take_spliced by done. rewrite Nat.add_1_r, last_take_lookup; [done|].
  destruct (len_spliced prev es ls Hp). unfold len in *. lia.
Qed.

(** C21. Once a request has been accepted, the leader's next heartbeat of the same
    term, which names the position after those entries, is accepted too and leaves the
    follower with exactly the prefix it agreed on followed by the leader's entries:
    whatever else the follower's log held is gone. *)
Theorem append_then_heartbeat_converges req hb s w1 :
  receivers (timeout_cancel s) ≠ 0 →
  len (logs_of s) + len (entries req) ≤ isize_max →
  append_entries req (mkWorld s []) = (Done (mkAppendEntriesResponse true), w1) →
  ae_term hb = ae_term req → entries hb = [] →
  prev_log_index hb = prev_log_index req + len (entries req) →
  log_term <$> last (take (N.to_nat (prev_log_index req) + 1) (logs_of s) ++ entries req) =
    Some (prev_log_term hb) →
  ∃ w2, append_entries hb w1 = (Done (mkAppendEntriesResponse true), w2) ∧
    logs_of (node w2) =
      take (N.to_nat (prev_log_index req) + 1) (logs_of s) ++ entries req.
Proof.
  intros Hr Hmax Hrun Hterm Hes Hprev Hlast.
  destruct (accepted_reply req s Hr Hmax) as [Hacc Hw]; [by rewrite Hrun|].
  rewrite Hw in Hrun. simplify_eq. clear Hw.
  destruct (append_spec_accepted _ _ Hacc) as (Hm & Hrole & Ht & Hls).
  apply matches_at_lt in Hm. destruct (len_spliced _ (entries req) _ Hm) as [_ Hlen].
  assert ((append_spec hb (append_spec req (state s)).2).1 = true) as Hacc2.
  { apply append_spec_accepts; [done|congruence|]. rewrite Hls, Hprev.
    by apply matches_at_spliced. }
  rewrite append_entries_run; [|done|].
  2:{ cbn. rewrite Hls, Hes, len_nil. unfold logs_of in Hmax. lia. }
  cbn [state set_state]. rewrite Hacc2. eexists. split; [done|].
  destruct (append_spec_accepted _ _ Hacc2) as (_ & _ & _ & Hls2).
  unfold logs_of. cbn [node state set_state]. rewrite Hls2, Hls, Hes, Hprev, spliced_nil.
  by apply take_spliced.
Qed.

(** C36. A request delivered a second time, as a client that timed out and sends again
    makes it, is accepted again; the node then holds the entries twice, because
    [Vec::insert] shifts where Raft overwrites. *)
Theorem append_twice_duplicates req s w1 :
  receivers (timeout_cancel s) ≠ 0 →
  len (logs_of s) + 2 * len (entries req) ≤ isize_max →
  append_entries req (mkWorld s []) = (Done (mkAppendEntriesResponse true), w1) →
  ∃ w2, append_entries req w1 = (Done (mkAppendEntriesResponse true), w2) ∧
    logs_of (node w2) =
      take (N.to_nat (prev_log_index req) + 1) (logs_of s) ++ entries req ++ entries req.
Proof.
  intros Hr Hmax Hrun.
  destruct (accepted_reply req s Hr ltac:(lia)) as [Hacc Hw]; [by rewrite Hrun|].
  rewrite Hw in Hrun. simplify_eq. clear Hw.
  destruct (append_spec_accepted _ _ Hacc) as (Hm & Hrole & Ht & Hls).
  pose proof (matches_at_lt _ _ _ Hm) as Hlt.
  destruct (len_spliced _ (entries req) _ Hlt) as [_ Hlen].
  assert ((append_spec req (append_spec req (state s)).2).1 = true) as Hacc2.
  { apply append_spec_accepts; [done|done|]. rewrite Hls. revert Hm. unfold matches_at.
    intros Hm%bool_decide_eq_true_1. apply bool_decide_eq_true_2. rewrite <- Hm. f_equal.
    unfold spliced. rewrite lookup_app_l by (rewrite length_take; unfold len in *; lia).
    by rewrite lookup_take_lt by lia. }
  rewrite append_entries_run; [|done|].
  2:{ cbn. rewrite Hls. unfold logs_of in Hmax. lia. }
  cbn [state set_state]. rewrite Hacc2. eexists. split; [done|].
  destruct (append_spec_accepted _ _ Hacc2) as (_ & _ & _ & Hls2).
  unfold logs_of. cbn [node state set_state]. rewrite Hls2, Hls.
  by apply spliced_spliced.
Qed.

(** ** Votes *)

(** C8. The route [POST /api/vote] answers 202 with the verdict of [vote_spec] and
    leaves the node [vote_spec] describes, on every branch.  The election timer is put
    off exactly when the vote is granted.  The reply always repeats the term of the
    request, also to a candidate of an old term, which therefore does not learn the
    newer one. *)
Theorem request_vote_refines req s :
  receivers (timeout_cancel s) ≠ 0 →
  last_log_index req + 1 < u64_modulus →
  http_request_vote req (mkWorld s []) =
    (ReplyOk 202 (mkRequestVoteResponse (rv_term req) (vote_spec req (state s)).1),
     mkWorld (set_state (vote_spec req (state s)).2
       (if (vote_spec req (state s)).1 then signalled s else s)) []).
Proof.
  intros Hr Hlt. unfold http_request_vote. by rewrite request_vote_run.
Qed.

Lemma step_down_logs t v : logs (persistent (step_down t v)) = logs (persistent v).
Proof. unfold step_down. by case_match. Qed.

Lemma step_down_free t v c :
  free_to_vote (persistent (step_down t v)) c =
    ((current_term (persistent v) <? t) || free_to_vote (persistent v) c)%bool.
Proof. unfold step_down. by destruct (current_term (persistent v) <? t). Qed.

(** The three tests of a vote. *)
Definition grants (req : RequestVoteRequest) (p : Persistent) : bool :=
  (current_term p <=? rv_term req) &&
  ((current_term p <? rv_term req) || free_to_vote p (candidate_id req)) &&
  log_ok (logs p) req.

Lemma vote_spec_granted req v :
  (vote_spec req v).1 = grants req (persistent v).
Proof.
  unfold grants, vote_spec. rewrite N.leb_antisym.
  destruct (rv_term req <? current_term (persistent v)); [done|]. cbv zeta.
  rewrite step_down_logs, step_down_free. simpl.
  destruct (log_ok _ req); simpl; [|by rewrite andb_false_r].
  rewrite andb_true_r. by case_match.
Qed.





(** C35. Raft forbids the vote for a candidate whose last entry has an older term than
    the node's last entry; this node grants it whenever the candidate's log is at
    least as long, so a candidate that lacks entries of later terms can win. *)
Theorem older_log_is_voted_for req s :
  receivers (timeout_cancel s) ≠ 0 →
  last_log_index req + 1 < u64_modulus →
  term_of s < rv_term req →
  last_log_term req < last_term (logs_of s) →
  len (logs_of s) ≤ last_log_index req + 1 →
  paper_grants req (state s) = false ∧
  (request_vote req (mkWorld s [])).1 = Done (mkRequestVoteResponse (rv_term req) true).
Proof.
  intros Hr Hlt Hterm Hold Hlen. split.
  - unfold paper_grants, up_to_date, logs_of in *.
    destruct (N.ltb_spec (last_term (logs (persistent (state s)))) (last_log_term req)); [lia|].
    destruct (N.eqb_spec (last_log_term req) (last_term (logs (persistent (state s))))); [lia|].
    by rewrite andb_false_r.
  - rewrite request_vote_run, vote_spec_granted by done. simpl.
    unfold grants, term_of, logs_of, log_ok in *.
    destruct (N.leb_spec (current_term (persistent (state s))) (rv_term req)); [|lia].
    destruct (N.ltb_spec (current_term (persistent (state s))) (rv_term req)); [|lia].
    destruct (N.leb_spec (len (logs (persistent (state s)))) (last_log_index req + 1)); [|lia].
    by rewrite orb_true_r.
Qed.

(** ** Persistence *)

(** C20. A node restarted from the file its last save left comes back with the same
    term, vote and log, as a follower that has committed nothing but the "init" entry
    again; and one started without a file leaves a file it can be restarted from. *)
Theorem restart_recovers s m srv :
  let w := (save_persistent (mkWorld s [])).2 in
  (save_persistent (mkWorld s [])).1 = Done tt ∧
  (∃ f, (from_file m srv (mkDisk (Some (contents (file (state (node w))))) [])).1 =
    Done (initial_state (persistent (state s)) f m srv)) ∧
  (∃ f d f', from_file m srv (mkDisk None []) =
      (Done (initial_state (mkPersistent 0 None initial_logs) f m srv), d) ∧
    (from_file m srv d).1 =
      Done (initial_state (mkPersistent 0 None initial_logs) f' m srv)).
Proof.
  cbv zeta. rewrite save_run'. split; [done|]. split.
  - destruct (to_string_pretty_total (persistent (state s))) as [b Hb].
    unfold synced. simpl. rewrite Hb. simpl. eexists.
    unfold from_file, bind, gets, disk_fault; simpl.
    by rewrite (from_str_to_string_pretty _ _ Hb).
  - destruct (to_vec_total (mkPersistent 0 None initial_logs)) as [b Hb].
    unfold from_file, bind, gets, disk_fault, modify; simpl. rewrite Hb. simpl.
    do 3 eexists. split; [done|]. simpl. by rewrite (from_str_to_vec _ _ Hb).
Qed.

(** [GET /log]: the whole log, and as committed entries the first
    [commit_index + 1]; when the log has been cut below the commit index, which an
    accepted request may do, the reader is told that nothing is committed. *)
Theorem get_log_committed w :
  commit_index (state (node w)) + 1 < u64_modulus →
  let ls := logs_of (node w) in
  let c := commit_index (state (node w)) in
  get_log w = (Done (mkGetLogResponse
    (if c <? len ls then take (N.to_nat c + 1) ls else []) ls), w).
Proof.
  intros Hlt. unfold get_log, bind, shared, gets, u64_add; cbv zeta.
  destruct (N.ltb_spec (commit_index (state (node w)) + 1) u64_modulus); [|lia]. simpl.
  unfold slice_to, logs_of.
  destruct (N.leb_spec (commit_index (state (node w)) + 1) (len (logs (persistent (state (node w))))));
    destruct (N.ltb_spec (commit_index (state (node w))) (len (logs (persistent (state (node w))))));
    try lia; [|done].
  simpl. by replace (N.to_nat (commit_index (state (node w)) + 1)) with
    (N.to_nat (commit_index (state (node w))) + 1)%nat by lia.
Qed.

Lemma wp_putoff_live (Q : outcome RaftError unit → World → Prop) w :
  receivers (timeout_cancel (node w)) ≠ 0 →
  Q (Done tt) (mkWorld (signalled (node w)) (faults w)) → wp putoff_timeout Q w.
Proof.
  intros Hr HQ. unfold wp, putoff_timeout, bind, gets.
  by destruct (N.eqb_spec (receivers (timeout_cancel (node w))) 0).
Qed.

Lemma open_election_refuses s fs :
  role (state s) ≠ Follower → open_election_begin (mkWorld s fs) = (Done false, mkWorld s fs).
Proof. intros Hr. unfold open_election_begin, bind; simpl. by destruct (role (state s)). Qed.

(** C33. When the save of a follower that opens an election fails, the node is left a
    candidate of the next term with no election running: the round of its timer ends
    with the error, and every later round ends at the role test, so that the node
    stands for election again only after a request of a newer term. *)
Theorem failed_save_strands_candidate s fs e w :
  role (state s) = Follower →
  receivers (timeout_cancel s) ≠ 0 →
  term_of s + 1 < u64_modulus →
  open_election_begin (mkWorld s fs) = (Fail e, w) →
  role (state (node w)) = Candidate ∧ term_of (node w) = term_of s + 1 ∧
  ∀ fs', open_election_begin (mkWorld (node w) fs') = (Done false, mkWorld (node w) fs').
Proof.
  intros Hrole Hr Hlt Hrun.
  assert (wp open_election_begin (λ o w, (∃ e, o = Fail e) →
    role (state (node w)) = Candidate ∧ term_of (node w) = term_of s + 1) (mkWorld s fs)) as Hwp.
  { destruct s as [[r f [tm vf ls] c] bc sv m]. cbn_state. subst r.
    unfold open_election_begin. apply wp_bind, wp_shared. cbv beta iota. cbn_state.
    cbn [is_follower negb]. apply wp_bind, wp_putoff_live; [done|].
    apply wp_bind, wp_update, wp_bind, wp_shared, wp_bind, wp_u64_add; [done|].
    apply wp_bind, wp_update, wp_bind, wp_save.
    intros o f' fs' [->|[? ->]]; cbn; [by intros []|done]. }
  unfold wp in Hwp. rewrite Hrun in Hwp. simpl in Hwp.
  destruct Hwp as [Hc Ht]; [by eexists|]. split_and!; [done..|].
  intros fs'. apply open_election_refuses. by rewrite Hc.
Qed.

(** C26. Neither handler can be made to panic or hang by a request within what memory
    holds: with I/O errors at any point the sender gets a reply, the verdict or the
    error 500. *)
Theorem handlers_always_reply ae rv w :
  len (logs_of (node w)) + len (entries ae) ≤ isize_max →
  last_log_index rv + 1 < u64_modulus →
  (http_append_entries ae w).1 ≠ NoReply ∧ (http_request_vote rv w).1 ≠ NoReply.
Proof.
  intros Hmax Hlt. destruct w as [s fs]. cbn [node] in Hmax.
  pose proof (append_entries_answers' ae s fs Hmax) as Hae.
  pose proof (request_vote_answers' rv s fs Hlt) as Hrv.
  unfold wp, answers, http_append_entries, http_request_vote in *.
  destruct (append_entries ae _) as [[] ?], (request_vote rv _) as [[] ?]; naive_solver.
Qed.
End properties.

(** ** The theorems at concrete nodes *)

#[local] Existing Instance bits_json.
#[local] Existing Instance dev_profile.

Lemma append_entries_refines_witness :
  ∃ w, http_append_entries sample_append (mkWorld sample_node []) =
    (ReplyOk 202 (mkAppendEntriesResponse true), w).
Proof.
  eexists. apply (append_entries_refines sample_append sample_node); [done|].
  vm_compute; discriminate.
Defined.

Lemma append_then_heartbeat_converges_witness :
  ∃ w1 w2, append_entries sample_append (mkWorld sample_node []) =
      (Done (mkAppendEntriesResponse true), w1) ∧
    append_entries sample_heartbeat w1 = (Done (mkAppendEntriesResponse true), w2) ∧
    logs_of (node w2) = [mkLog "init" 0; mkLog "x" 1; mkLog "z" 3].
Proof.
  eexists. edestruct (append_then_heartbeat_converges sample_append sample_heartbeat
    sample_node) as (w2 & Hw2 & Hls); cycle -1.
  { eexists. split_and!; [|exact Hw2|rewrite Hls; reflexivity].
    vm_compute; reflexivity. }
  all: vm_compute; try done; discriminate.
Defined.

Lemma append_twice_duplicates_witness :
  ∃ w1 w2, append_entries sample_append (mkWorld sample_node []) =
      (Done (mkAppendEntriesResponse true), w1) ∧
    append_entries sample_append w1 = (Done (mkAppendEntriesResponse true), w2) ∧
    logs_of (node w2) = [mkLog "init" 0; mkLog "x" 1; mkLog "z" 3; mkLog "z" 3].
Proof.
  eexists. edestruct (append_twice_duplicates sample_append sample_node)
    as (w2 & Hw2 & Hls); cycle -1.
  { eexists. split_and!; [|exact Hw2|rewrite Hls; reflexivity].
    vm_compute; reflexivity. }
  all: vm_compute; try done; discriminate.
Defined.

Lemma request_vote_refines_witness :
  ∃ w, http_request_vote sample_vote (mkWorld sample_node []) =
    (ReplyOk 202 (mkRequestVoteResponse 3 true), w).
Proof. eexists. by apply (request_vote_refines sample_vote sample_node). Defined.


Lemma older_log_is_voted_for_witness :
  paper_grants sample_vote (state sample_node) = false ∧
  (request_vote sample_vote (mkWorld sample_node [])).1 =
    Done (mkRequestVoteResponse 3 true).
Proof. by apply (older_log_is_voted_for sample_vote sample_node). Defined.

Lemma get_log_committed_witness :
  get_log (mkWorld sample_node []) =
    (Done (mkGetLogResponse [mkLog "init" 0] (logs_of sample_node)), mkWorld sample_node []).
Proof. by apply (get_log_committed (mkWorld sample_node [])). Defined.

Lemma restart_recovers_witness :
  ∃ f d f', from_file srv_a ∅ (mkDisk None []) =
      (Done (initial_state (mkPersistent 0 None initial_logs) f srv_a ∅), d) ∧
    (from_file srv_a ∅ d).1 =
      Done (initial_state (mkPersistent 0 None initial_logs) f' srv_a ∅).
Proof. apply (restart_recovers sample_node srv_a ∅). Defined.

Lemma failed_save_strands_candidate_witness :
  ∃ w, open_election_begin (mkWorld sample_node [IoOk; IoOk; IoErr 1]) = (Fail EIo, w) ∧
    role (state (node w)) = Candidate ∧ term_of (node w) = 3 ∧
    open_election_begin (mkWorld (node w) []) = (Done false, mkWorld (node w) []).
Proof.
  eexists. edestruct (failed_save_strands_candidate sample_node [IoOk; IoOk; IoErr 1] EIo)
    as (Hc & Ht & Hrefuse); cycle -1.
  { split_and!; [|exact Hc|exact Ht|apply (Hrefuse [])]. vm_compute; reflexivity. }
  all: vm_compute; try done; discriminate.
Defined.

Lemma handlers_always_reply_witness :
  (http_append_entries sample_append (mkWorld sample_node [IoErr 0])).1 ≠ NoReply ∧
  (http_request_vote sample_vote (mkWorld sample_node [IoErr 0])).1 ≠ NoReply.
Proof.
  apply (handlers_always_reply sample_append sample_vote (mkWorld sample_node [IoErr 0]));
    vm_compute; done.
Defined.

(** A candidate whose [last_log_index] is [usize::MAX] overflows the log test: the
    handler panics in a build with overflow checks. *)
Lemma vote_index_overflow_panics :
  (http_request_vote (mkRequestVoteRequest 3 srv_b (u64_modulus - 1) 1)
    (mkWorld sample_node [])).1 = NoReply.
Proof. vm_compute. reflexivity. Qed.
