(* ===== verification/RaftReplication.v ===== *)
(** * Replication from one leader to one follower

    The requests of [send_append_entries] meet [append_entries] of another node: one
    round of the heartbeat loop without losses, and its repetition.  The round is not a
    function of the source: it puts the sections of one call and one handler together,
    in the order they have when nothing else runs. *)

From S2P Require Import RaftGuarantees RaftNodeProps.

Section replication.
Context `{Profile} `{SerdeJson} `{!SerdeJsonLaws}.

(** One heartbeat towards [addr] that neither times out nor loses its reply: the leader
    appends nothing and saves, builds the request, the follower handles it, the leader
    takes note of the answer. *)
Definition heartbeat_round (addr : SocketAddr) (p : State * State) : option (State * State) :=
  let '(l, f) := p in
  match send_append_entries_begin [] (mkWorld l []) with
  | (Done tt, w) =>
      match send_append_entries_request addr w with
      | (Done (inr req), wl) =>
          match append_entries req (mkWorld f []) with
          | (Done r, wf) =>
              match send_append_entries_response addr (success r) wl with
              | (Done _, wl') => Some (node wl', node wf)
              | _ => None
              end
          | _ => None
          end
      | _ => None
      end
  | _ => None
  end.

Fixpoint heartbeat_rounds (k : nat) (addr : SocketAddr) (p : State * State) :
    option (State * State) :=
  match k with
  | O => Some p
  | S k => p' ← heartbeat_round addr p; heartbeat_rounds k addr p'
  end.

(** What the leader sends when it believes the follower has [next] entries. *)
Definition request_for (l : State) (next : N) : AppendEntriesRequest :=
  let ls := logs_of l in
  mkAppendEntriesRequest (term_of l) (next - 1)
    (default 0 (log_term <$> ls !! N.to_nat (next - 1)))
    (drop (N.to_nat (next - 1) + 1) ls) (commit_index (state l)).

(** A leader ready to send to [addr], which it believes to have [next] entries. *)
Record leads (l : State) (addr : SocketAddr) (next : N) : Prop := {
  l_role : ∃ ni mi, role (state l) = Leader ni mi ∧ ni !! addr = Some next;
  l_addr : addr ≠ me l;
  l_next : next ≤ len (logs_of l);
  l_init : head (logs_of l) = Some (mkLog "init" 0);
  l_len : len (logs_of l) ≤ isize_max
}.

(** A node that will take that leader's requests. *)
Record follows (l f : State) : Prop := {
  f_receivers : receivers (timeout_cancel f) ≠ 0;
  f_term : term_of f < term_of l ∨ term_of f = term_of l ∧ role (state f) = Follower;
  f_init : head (logs_of f) = Some (mkLog "init" 0)
}.

(** Raft's Log Matching property between a leader's log and a follower's. *)
Definition log_matching (ls lf : list Log) : Prop :=
  ∀ i x y, ls !! i = Some x → lf !! i = Some y → log_term x = log_term y →
    take (S i) lf = take (S i) ls.

Lemma head_init_lookup (ls : list Log) x : head ls = Some x → ls !! 0%nat = Some x ∧ 1 ≤ len ls.
Proof. destruct ls; [done|]. intros [= ->]. split; [done|]. len_lia. Qed.

(** The appending section of a heartbeat only saves. *)
Lemma send_begin_run l addr next :
  leads l addr next →
  ∃ l', send_append_entries_begin [] (mkWorld l []) = (Done tt, mkWorld l' []) ∧
    leads l' addr next ∧ logs_of l' = logs_of l ∧ term_of l' = term_of l.
Proof.
  intros [(ni & mi & Hrole & Hni) Haddr Hnext Hinit Hlen].
  unfold send_append_entries_begin, bind, shared, gets, logs_of in *. simpl. rewrite Hrole. simpl.
  unfold vec_append. rewrite len_nil, N.add_0_r.
  destruct (N.leb_spec (len (logs (persistent (state l)))) isize_max); [|lia]. simpl.
  rewrite app_nil_r, save_run'. eexists. split; [done|].
  split; [|done]. split; try done. by exists ni, mi.
Qed.

Lemma send_request_run l addr next :
  leads l addr next →
  send_append_entries_request addr (mkWorld l []) =
    (Done (inr (request_for l next)), mkWorld l []).
Proof.
  intros [(ni & mi & Hrole & Hni) Haddr Hnext [_ Hpos]%head_init_lookup Hlen].
  unfold isize_max in *.
  unfold send_append_entries_request, request_for, bind, gets. simpl. rewrite Hrole.
  rewrite bool_decide_eq_false_2 by done. rewrite Hni. simpl.
  unfold u64_add, u64_modulus. destruct (N.ltb_spec (next - 1 + 1) (2 ^ 64)); [|lia]. simpl.
  rewrite vec_index_spec. unfold logs_of. repeat f_equal.
  unfold slice_from, logs_of in *.
  destruct (N.leb_spec (next - 1 + 1) (len (logs (persistent (state l))))); [|lia].
  simpl. by replace (N.to_nat (next - 1 + 1)) with (N.to_nat (next - 1) + 1)%nat by lia.
Qed.

(** The leader after an answer. *)
Lemma send_response_run l addr next (res : bool) :
  leads l addr next →
  ∃ l', send_append_entries_response addr res (mkWorld l []) = (Done res, mkWorld l' []) ∧
    leads l' addr (if res then len (logs_of l) else next - 1) ∧
    logs_of l' = logs_of l ∧ term_of l' = term_of l.
Proof.
  intros [(ni & mi & Hrole & Hni) Haddr Hnext Hinit Hlen].
  pose proof (head_init_lookup _ _ Hinit) as [_ Hpos].
  unfold send_append_entries_response, bind, shared, gets, u64_sub, logs_of in *. simpl.
  rewrite Hrole. destruct res; simpl.
  - destruct (N.leb_spec 1 (len (logs (persistent (state l))))); [|lia]. simpl.
    eexists. split; [done|]. split; [|done]. split; unfold logs_of; simpl; try done; try lia.
    do 2 eexists. split; [done|]. by rewrite lookup_insert_eq.
  - eexists. split; [done|]. split; [|done]. split; unfold logs_of; simpl; try done; try lia.
    do 2 eexists. split; [done|]. by rewrite lookup_alter_eq, Hni.
Qed.

(** Does the follower agree with the leader at the entry before position [next]? *)
Definition agree_at (l f : State) (i : nat) : bool :=
  bool_decide (log_term <$> logs_of f !! i = log_term <$> logs_of l !! i).

Lemma follows_step_down l f :
  follows l f →
  term_of f ≤ term_of l ∧
  role (step_down (term_of l) (state f)) = Follower ∧
  current_term (persistent (step_down (term_of l) (state f))) = term_of l.
Proof.
  intros [_ Hterm _]. assert (term_of f ≤ term_of l) as Hle by lia.
  split; [done|]. split; [|by apply step_down_term].
  unfold step_down, term_of in *.
  destruct (N.ltb_spec (current_term (persistent (state f)))
    (current_term (persistent (state l)))); [done|].
  by destruct Hterm as [|[_ ->]]; [lia|].
Qed.

Lemma agree_at_spec l f addr next :
  leads l addr next →
  matches_at (logs_of f) (next - 1) (prev_log_term (request_for l next)) =
    agree_at l f (N.to_nat (next - 1)).
Proof.
  intros Hl. unfold matches_at, agree_at, request_for. cbn.
  destruct (lookup_lt_is_Some_2 (logs_of l) (N.to_nat (next - 1))) as [x ->]; [|done].
  pose proof (l_next _ _ _ Hl). destruct (head_init_lookup _ _ (l_init _ _ _ Hl)).
  unfold len in *. lia.
Qed.

(** The log of the follower after a round. *)
Definition replicated (l f : State) (next : N) : list Log :=
  let i := N.to_nat (next - 1) in
  if agree_at l f i then spliced (next - 1) (drop (i + 1) (logs_of l)) (logs_of f)
  else logs_of f.

Lemma follower_answer l f addr next :
  leads l addr next → follows l f →
  len (logs_of f) + len (drop (N.to_nat (next - 1) + 1) (logs_of l)) ≤ isize_max →
  ∃ f', append_entries (request_for l next) (mkWorld f []) =
      (Done (mkAppendEntriesResponse (agree_at l f (N.to_nat (next - 1)))), mkWorld f' []) ∧
    receivers (timeout_cancel f') ≠ 0 ∧ term_of f' = term_of l ∧
    role (state f') = Follower ∧ logs_of f' = replicated l f next.
Proof.
  intros Hl Hf Hmax. destruct (follows_step_down l f Hf) as (Hle & Hrole & Hterm).
  rewrite append_entries_run; [|apply Hf|done].
  unfold append_spec, replicated. change (ae_term (request_for l next)) with (term_of l).
  change (current_term (persistent (state f))) with (term_of f).
  change (logs (persistent (state f))) with (logs_of f) in *.
  destruct (N.ltb_spec (term_of l) (term_of f)); [lia|]. cbv zeta.
  rewrite Hrole, step_down_logs. cbn [is_follower andb].
  change (prev_log_index (request_for l next)) with (next - 1).
  change (logs (persistent (state f))) with (logs_of f).
  rewrite (agree_at_spec l f addr next Hl).
  destruct (agree_at l f _); (eexists; split; [reflexivity|]); cbn; split_and!; try done;
    try apply Hf. by apply step_down_logs.
Qed.

Lemma heartbeat_round_run l f addr next :
  leads l addr next → follows l f →
  len (logs_of f) + len (drop (N.to_nat (next - 1) + 1) (logs_of l)) ≤ isize_max →
  ∃ l' f', heartbeat_round addr (l, f) = Some (l', f') ∧
    leads l' addr (if agree_at l f (N.to_nat (next - 1)) then len (logs_of l) else next - 1) ∧
    follows l' f' ∧ logs_of l' = logs_of l ∧ logs_of f' = replicated l f next.
Proof.
  intros Hl0 Hf0 Hmax0. unfold heartbeat_round.
  destruct (send_begin_run l addr next Hl0) as (l0 & -> & Hl & Hls0 & Ht0).
  assert (follows l0 f) as Hf by (destruct Hf0; split; rewrite ?Ht0; done).
  unfold agree_at, replicated, agree_at in *. rewrite <- Hls0 in *. fold (agree_at l0 f (N.to_nat (next - 1))).
  fold (replicated l0 f next). rewrite (send_request_run l0 addr next Hl).
  destruct (follower_answer l0 f addr next Hl Hf Hmax0) as (f' & -> & Hr & Ht & Hrole & Hls).
  cbn [success]. set (res := agree_at l0 f _).
  destruct (send_response_run l0 addr next res Hl) as (l' & -> & Hl' & Hls' & Ht').
  cbn [node]. eexists l', f'. split_and!; [done..| |done|done].
  split; [done|right; split; [congruence|done]|]. rewrite Hls. unfold replicated. fold res.
  destruct res; [|apply Hf]. unfold spliced.
  pose proof (f_init _ _ Hf) as Hi. destruct (logs_of f); [done|].
  by rewrite Nat.add_1_r.
Qed.

(** ** What the rounds come to *)

(** The last position up to [i] at which two logs have entries of one term; the "init"
    entries always do. *)
Fixpoint last_agreed (ll lf : list Log) (i : nat) : nat :=
  if bool_decide (log_term <$> lf !! i = log_term <$> ll !! i) then i
  else match i with O => O | S i => last_agreed ll lf i end.

(** The follower's log up to there, and the leader's after it. *)
Definition healed (ll lf : list Log) (i : nat) : list Log := take (S i) lf ++ drop (S i) ll.

Lemma agree_at_lookup l f i :
  agree_at l f i = true → (i < length (logs_of l))%nat → (i < length (logs_of f))%nat.
Proof.
  unfold agree_at. intros Hag%bool_decide_eq_true_1 Hi. apply lookup_lt_is_Some_1.
  destruct (lookup_lt_is_Some_2 _ _ Hi) as [x Hx]. rewrite Hx in Hag.
  by destruct (logs_of f !! i).
Qed.

(** A round in which the logs agree at the entry before [next] leaves the follower with
    the healed log and, beyond the leader's length, what was pushed to the right. *)
Lemma replicated_agreed l f next :
  let i := N.to_nat (next - 1) in
  (i < length (logs_of l))%nat → agree_at l f i = true →
  take (length (logs_of l)) (replicated l f next) = healed (logs_of l) (logs_of f) i.
Proof.
  intros i Hi Hag. pose proof (agree_at_lookup l f i Hag Hi) as Hf.
  unfold replicated. fold i. rewrite Hag. unfold healed. rewrite Nat.add_1_r.
  rewrite <- (Nat.add_1_r i). rewrite <- (take_spliced (next - 1)) by (unfold len, i in *; lia).
  f_equal. unfold len, i in *. rewrite length_drop. lia.
Qed.

Lemma length_healed ll lf i :
  (i < length ll)%nat → (i < length lf)%nat → length (healed ll lf i) = length ll.
Proof. intros. unfold healed. rewrite length_app, length_take, length_drop. lia. Qed.

(** The healed log and the leader's agree in their last entry. *)
Lemma healed_last ll lf i :
  (i < length ll)%nat → log_term <$> lf !! i = log_term <$> ll !! i →
  log_term <$> healed ll lf i !! (length ll - 1)%nat = log_term <$> ll !! (length ll - 1)%nat.
Proof.
  intros Hi Hag. assert (i < length lf)%nat as Hlf.
  { apply lookup_lt_is_Some_1. destruct (lookup_lt_is_Some_2 _ _ Hi) as [x Hx].
    rewrite Hx in Hag. by destruct (lf !! i). }
  unfold healed. destruct (decide (S i = length ll)) as [Heq|Hne].
  - rewrite lookup_app_l by (rewrite length_take; lia).
    rewrite lookup_take_lt by lia. by replace (length ll - 1)%nat with i by lia.
  - rewrite lookup_app_r by (rewrite length_take; lia). rewrite length_take, lookup_drop.
    by replace (S i + (length ll - 1 - S i `min` length lf))%nat with (length ll - 1)%nat by lia.
Qed.

Lemma len_replicated l f next :
  agree_at l f (N.to_nat (next - 1)) = true → (N.to_nat (next - 1) < length (logs_of l))%nat →
  len (replicated l f next) ≤
    len (logs_of f) + len (drop (N.to_nat (next - 1) + 1) (logs_of l)).
Proof.
  intros Hag Hi. pose proof (agree_at_lookup _ _ _ Hag Hi).
  unfold replicated. rewrite Hag. apply len_spliced. unfold len. lia.
Qed.

Lemma leads_last l addr next : leads l addr next → (N.to_nat (next - 1) < length (logs_of l))%nat.
Proof.
  intros Hl. pose proof (l_next _ _ _ Hl). destruct (head_init_lookup _ _ (l_init _ _ _ Hl)).
  unfold len in *. lia.
Qed.

(** Once the leader believes the follower to have all, a round cuts what is beyond. *)
Lemma last_round l f addr :
  leads l addr (len (logs_of l)) → follows l f →
  len (logs_of f) ≤ isize_max →
  agree_at l f (length (logs_of l) - 1) = true →
  ∃ l' f', heartbeat_round addr (l, f) = Some (l', f') ∧
    leads l' addr (len (logs_of l)) ∧ follows l' f' ∧
    logs_of l' = logs_of l ∧ logs_of f' = take (length (logs_of l)) (logs_of f).
Proof.
  intros Hl Hf Hmax Hag. pose proof (leads_last _ _ _ Hl) as Hpos.
  assert (N.to_nat (len (logs_of l) - 1) = (length (logs_of l) - 1)%nat) as Hlast
    by (unfold len; lia).
  assert (drop (N.to_nat (len (logs_of l) - 1) + 1) (logs_of l) = []) as Hnil
    by (apply drop_ge; lia).
  destruct (heartbeat_round_run l f addr (len (logs_of l)) Hl Hf)
    as (l' & f' & Hrun & Hl' & Hf' & Hls & Hls'); [by rewrite Hnil, len_nil, N.add_0_r|].
  rewrite Hlast, Hag in Hl'. exists l', f'. split_and!; [done..|].
  rewrite Hls'. unfold replicated. rewrite Hlast, Hag, <- Hlast, Hnil, spliced_nil.
  f_equal. lia.
Qed.

(** Logs of one length that agree in their last entry: nothing changes any more. *)
Record settled (l f : State) (addr : SocketAddr) : Prop := {
  se_leads : leads l addr (len (logs_of l));
  se_follows : follows l f;
  se_len : length (logs_of f) = length (logs_of l);
  se_agree : agree_at l f (length (logs_of l) - 1) = true
}.

Lemma settled_rounds k addr : ∀ l f, settled l f addr →
  ∃ l' f', heartbeat_rounds k addr (l, f) = Some (l', f') ∧
    logs_of l' = logs_of l ∧ logs_of f' = logs_of f.
Proof.
  induction k as [|k IH]; intros l f Hs; [by exists l, f|]. destruct Hs as [Hl Hf Hlen Hag].
  destruct (last_round l f addr Hl Hf) as (l1 & f1 & Hrun & Hl1 & Hf1 & Hll & Hlf); [|done|].
  { pose proof (l_len _ _ _ Hl). unfold len in *. lia. }
  rewrite <- Hlen, firstn_all in Hlf.
  destruct (IH l1 f1) as (l2 & f2 & Hrun2 & Hll2 & Hlf2).
  { split; [by rewrite Hll|done|congruence|]. unfold agree_at in *. by rewrite Hll, Hlf. }
  exists l2, f2. split_and!; [|congruence..]. cbn [heartbeat_rounds]. by rewrite Hrun.
Qed.

(** The position found holds entries of one term. *)
Lemma last_agreed_spec l f addr next :
  leads l addr next → follows l f →
  let i := last_agreed (logs_of l) (logs_of f) (N.to_nat (next - 1)) in
  ∃ x y, logs_of l !! i = Some x ∧ logs_of f !! i = Some y ∧ log_term x = log_term y.
Proof.
  intros Hl Hf. pose proof (leads_last _ _ _ Hl) as Hi. revert Hi.
  destruct (head_init_lookup _ _ (l_init _ _ _ Hl)) as [Hl0 _].
  destruct (head_init_lookup _ _ (f_init _ _ Hf)) as [Hf0 _].
  induction (N.to_nat (next - 1)) as [|i IH]; cbn [last_agreed]; intros Hi.
  - case_bool_decide; by eexists _, _.
  - case_bool_decide as Hag; [|apply IH; lia].
    destruct (lookup_lt_is_Some_2 _ _ Hi) as [x Hx]. rewrite Hx in Hag |- *.
    destruct (logs_of f !! S i) as [y|]; simplify_eq/=. by eexists _, _.
Qed.

(** From any start, a settled pair with the healed log. *)
Lemma rounds_settle n : ∀ next l f addr,
  n = N.to_nat next → leads l addr next → follows l f →
  len (logs_of f) + len (logs_of l) ≤ isize_max →
  ∃ k l' f', (k ≤ n + 2)%nat ∧ heartbeat_rounds k addr (l, f) = Some (l', f') ∧
    logs_of l' = logs_of l ∧
    logs_of f' = healed (logs_of l) (logs_of f)
      (last_agreed (logs_of l) (logs_of f) (N.to_nat (next - 1))) ∧
    settled l' f' addr.
Proof.
  induction n as [n IH] using lt_wf_ind. intros next l f addr -> Hl Hf Hmax.
  pose proof (leads_last _ _ _ Hl) as Hi.
  destruct (heartbeat_round_run l f addr next Hl Hf)
    as (l1 & f1 & Hrun & Hl1 & Hf1 & Hll1 & Hlf1); [autorewrite with len; lia|].
  destruct (agree_at l f (N.to_nat (next - 1))) eqn:Hag.
  - pose proof (replicated_agreed l f next Hi Hag) as Htake.
    pose proof (agree_at_lookup _ _ _ Hag Hi) as Hlt.
    unfold agree_at in Hag. pose proof (bool_decide_eq_true_1 _ Hag) as Hterm.
    pose proof (healed_last _ _ _ Hi Hterm) as Hlast.
    assert (agree_at l1 f1 (length (logs_of l1) - 1) = true) as Hag1.
    { unfold agree_at. rewrite Hll1. apply bool_decide_eq_true_2. rewrite <- Hlast, <- Htake, Hlf1.
      by rewrite lookup_take_lt by lia. }
    destruct (last_round l1 f1 addr) as (l2 & f2 & Hrun2 & Hl2 & Hf2 & Hll2 & Hlf2);
      rewrite ?Hll1 in *; try done.
    { pose proof (len_replicated l f next Hag Hi) as Hle. rewrite Hlf1.
      autorewrite with len in Hle. lia. }
    rewrite Hlf1, Htake in Hlf2.
    exists 2%nat, l2, f2. split; [lia|]. split.
    { cbn [heartbeat_rounds]. rewrite Hrun. cbn [mbind option_bind]. by rewrite Hrun2. }
    split; [congruence|]. split.
    { rewrite Hlf2. unfold last_agreed. by destruct (N.to_nat (next - 1)); rewrite Hag. }
    split; [by rewrite Hll2|done|rewrite Hlf2, Hll2; by apply length_healed|].
    unfold agree_at. rewrite Hll2, Hlf2. by apply bool_decide_eq_true_2.
  - assert (next - 1 ≠ 0) as Hne.
    { intros Hz. rewrite Hz in Hag. apply bool_decide_eq_false_1 in Hag. apply Hag.
      change (N.to_nat 0) with 0%nat.
      destruct (head_init_lookup _ _ (f_init _ _ Hf)) as [-> _].
      by destruct (head_init_lookup _ _ (l_init _ _ _ Hl)) as [-> _]. }
    assert (logs_of f1 = logs_of f) as Hlf by (rewrite Hlf1; unfold replicated; by rewrite Hag).
    destruct (IH (N.to_nat (next - 1)) ltac:(lia) (next - 1) l1 f1 addr eq_refl Hl1 Hf1)
      as (k & l2 & f2 & Hk & Hrun2 & Hll2 & Hlf2 & Hs); [by rewrite Hll1, Hlf|].
    exists (S k), l2, f2. split; [lia|]. split; [cbn [heartbeat_rounds]; by rewrite Hrun|].
    split; [congruence|]. split; [|done]. rewrite Hlf2, Hll1, Hlf. f_equal.
    unfold agree_at in Hag. destruct (N.to_nat (next - 1)) as [|i] eqn:Hn; [lia|].
    cbn [last_agreed]. rewrite Hag. f_equal. lia.
Qed.

(** C4. What heartbeats achieve, from any leader and any follower it may lead, whatever
    the follower's log and however wrong [next_index].  Within [next_index + 2] rounds
    the follower holds its own log up to the last position, below [next_index], whose
    terms agree, and the leader's log after it; no further round changes either log.
    The logs are then equal exactly when the entries up to that position were, as Log
    Matching would have it; where they were not, no heartbeat ever repairs them. *)
Theorem heartbeats_converge l f addr next :
  leads l addr next → follows l f →
  len (logs_of f) + len (logs_of l) ≤ isize_max →
  let i := last_agreed (logs_of l) (logs_of f) (N.to_nat (next - 1)) in
  ∃ k l' f', (k ≤ N.to_nat next + 2)%nat ∧
    heartbeat_rounds k addr (l, f) = Some (l', f') ∧
    logs_of l' = logs_of l ∧
    logs_of f' = take (S i) (logs_of f) ++ drop (S i) (logs_of l) ∧
    leads l' addr (len (logs_of l)) ∧
    (logs_of f' = logs_of l ↔ take (S i) (logs_of f) = take (S i) (logs_of l)) ∧
    (log_matching (logs_of l) (logs_of f) → logs_of f' = logs_of l) ∧
    ∀ j, ∃ l'' f'', heartbeat_rounds j addr (l', f') = Some (l'', f'') ∧
      logs_of l'' = logs_of l' ∧ logs_of f'' = logs_of f'.
Proof.
  intros Hl Hf Hmax i.
  destruct (rounds_settle _ next l f addr eq_refl Hl Hf Hmax)
    as (k & l' & f' & Hk & Hrun & Hll & Hlf & Hs).
  assert (logs_of f' = logs_of l ↔ take (S i) (logs_of f) = take (S i) (logs_of l)) as Hiff.
  { fold i in Hlf. rewrite Hlf. unfold healed.
    rewrite <- (take_drop (S i) (logs_of l)) at 2. split; [|by intros ->].
    intros Heq. by apply app_inv_tail in Heq. }
  exists k, l', f'. split_and!; try done.
  - rewrite <- Hll. apply Hs.
  - intros Hlm. apply Hiff. destruct (last_agreed_spec l f addr next Hl Hf) as (x & y & Hx & Hy & Heq).
    by eapply Hlm.
  - intros j. by apply settled_rounds.
Qed.

End replication.

#[local] Existing Instance bits_json.
#[local] Existing Instance dev_profile.

(** A leader of term 3 that wrongly believes [sample_node] to hold its whole log. *)
Definition sample_leader : State :=
  mkState (mkVariableState
      (Leader {[srv_a := 5]} {[srv_a := 0]}) (mkFile [] 0)
      (mkPersistent 3 None
        [mkLog "init" 0; mkLog "x" 1; mkLog "z" 3; mkLog "v" 3; mkLog "w" 3]) 0)
    (mkBroadcast 1 0) (list_to_set three_servers) srv_b.

Lemma sample_log_matching : log_matching (logs_of sample_leader) (logs_of sample_node).
Proof.
  intros i x y Hx Hy Heq.
  destruct i as [|[|[|[|[|i]]]]]; simpl in *; by simplify_eq/=.
Qed.

Lemma heartbeats_converge_witness :
  ∃ k l' f', (k ≤ 7)%nat ∧
    heartbeat_rounds k srv_a (sample_leader, sample_node) = Some (l', f') ∧
    logs_of f' = logs_of sample_leader.
Proof.
  destruct (heartbeats_converge sample_leader sample_node srv_a 5)
    as (k & l' & f' & Hk & Hrun & _ & _ & _ & _ & Hlf & _).
  - split; try done. by do 2 eexists.
  - split; try done. by left.
  - vm_compute; discriminate.
  - exists k, l', f'. split_and!; [done|done|]. apply Hlf, sample_log_matching.
Defined.
