(* ===== verification/RaftClusterProps.v ===== *)
(** * Properties of a Raft cluster

    What holds in every reachable cluster and along every execution, and closed
    executions that reach states Raft excludes. *)

From S2P Require Import RaftClusterFacts.

Section properties.
Context `{Profile} `{SerdeJson} (srv : gset SocketAddr).

(** C11. In every reachable cluster every node knows who it is and which servers there
    are, its log starts with the "init" entry, fits a [Vec], and holds no entry of a
    term the node has not reached. *)
Theorem reachable_nodes_ok c n s :
  reachable srv c → nodes c !! n = Some s → node_ok srv n s.
Proof. intros Hc. by apply (inv_nodes _ _ (reachable_inv _ _ Hc)). Qed.

Lemma reachable_step c c' : reachable srv c → step_in_range c c' → reachable srv c'.
Proof. intros (c0 & Hi & Hr) Hs. exists c0. split; [done|]. by eapply rtc_r. Qed.

Lemma step_evolves c c' : reachable srv c → step_in_range c c' → evolves c c'.
Proof.
  intros Hc [Hno [ev Hex]]. eapply (exec_good srv); [by apply reachable_inv|done|done].
Qed.

Lemma evolves_node c c' n s :
  evolves c c' → nodes c !! n = Some s → ∃ s', nodes c' !! n = Some s' ∧ guarantee [] s s'.
Proof. intros He Hs. specialize (He n). rewrite Hs in He. inversion He. eauto. Qed.

(** C18. Terms never decrease, whatever the node goes through: elections won or lost,
    requests in any order, failed saves. *)
Theorem term_monotone c c' n s :
  reachable srv c → rtc step_in_range c c' → nodes c !! n = Some s →
  ∃ s', nodes c' !! n = Some s' ∧ term_of s ≤ term_of s'.
Proof.
  intros Hc Hsteps. revert s. induction Hsteps as [|c0 c1 c2 Hstep _ IH]; intros s Hs.
  { exists s. split; [done|lia]. }
  destruct (evolves_node c0 c1 n s (step_evolves _ _ Hc Hstep) Hs) as (s1 & Hs1 & Hg).
  destruct (IH (reachable_step _ _ Hc Hstep) s1 Hs1) as (s2 & Hs2 & Hle).
  exists s2. split; [done|]. pose proof (g_term _ _ _ Hg). lia.
Qed.

(** C10. Leader Append-Only: while a node stays leader an event only extends its log,
    and the term does not change. *)
Theorem leader_append_only c c' n s s' :
  reachable srv c → step_in_range c c' →
  nodes c !! n = Some s → nodes c' !! n = Some s' →
  is_leader (role (state s)) = true → is_leader (role (state s')) = true →
  logs_of s `prefix_of` logs_of s' ∧ term_of s' = term_of s.
Proof.
  intros Hc Hstep Hs Hs' HL HL'.
  destruct (evolves_node c c' n s (step_evolves _ _ Hc Hstep) Hs) as (s1 & Hs1 & Hg).
  simplify_eq. by apply (g_leader _ _ _ Hg).
Qed.

(** ** Leaders come from elections *)

Definition no_new_leader (c c' : Cluster) : Prop :=
  ∀ n s', nodes c' !! n = Some s' → is_leader (role (state s')) = true →
    ∃ s, nodes c !! n = Some s ∧ is_leader (role (state s)) = true.

Lemma no_new_leader_same c c' : nodes c' = nodes c → no_new_leader c c'.
Proof. intros Hn n s'. rewrite Hn. eauto. Qed.

Lemma no_new_leader_then c c1 c2 :
  no_new_leader c c1 → nodes c2 = nodes c1 → no_new_leader c c2.
Proof. intros Hn Heq n s'. rewrite Heq. apply Hn. Qed.

Lemma run_on_no_new_leader {A} n fs (m : M World RaftError A) c o c' :
  run_on n fs m c = Some (o, c') →
  (∀ s, nodes c !! n = Some s → wp m (λ _ w,
     is_leader (role (state (node w))) = true → is_leader (role (state s)) = true)
     (mkWorld s fs)) →
  no_new_leader c c'.
Proof.
  intros Hrun Hwp.
  destruct (run_on_wp n fs m c o c' (λ s _ s',
    is_leader (role (state s')) = true → is_leader (role (state s)) = true) Hrun Hwp)
    as (s & s' & Hs & Hl & ->).
  intros k s2. simpl. destruct (decide (n = k)) as [->|].
  - rewrite lookup_insert_eq. intros [= <-]. eauto.
  - rewrite lookup_insert_ne by done. eauto.
Qed.

Lemma wp_passive_leader {A} es s fs (m : M World RaftError A) :
  wp m (λ _ w, passive es s (node w)) (mkWorld s fs) →
  wp m (λ _ w, is_leader (role (state (node w))) = true → is_leader (role (state s)) = true)
     (mkWorld s fs).
Proof. intros Hm. eapply wp_mono; [exact Hm|]. intros o w. apply p_leader. Qed.

Lemma restart_timer_nodes n rx c c' : restart_timer n rx c = Some c' → nodes c' = nodes c.
Proof. unfold restart_timer. destruct (nodes c !! n); naive_solver. Qed.

Lemma answer_vote_nodes pid src dest r c : nodes (answer_vote pid src dest r c) = nodes c.
Proof. unfold answer_vote. by repeat case_match. Qed.

Lemma answer_append_nodes pid t dest r c : nodes (answer_append pid t dest r c) = nodes c.
Proof. unfold answer_append. by repeat case_match. Qed.

Lemma election_cancelled_leader rx s fs :
  wp (election_cancelled rx) (λ _ w,
    is_leader (role (state (node w))) = true → is_leader (role (state s)) = true) (mkWorld s fs).
Proof. apply (wp_passive_leader []), election_cancelled_passive. Qed.

Lemma open_election_begin_leader s fs :
  wp open_election_begin (λ _ w,
    is_leader (role (state (node w))) = true → is_leader (role (state s)) = true) (mkWorld s fs).
Proof.
  destruct s as [[r f [tm vf ls] c] bc sv m]. unfold open_election_begin.
  apply wp_bind, wp_shared. cbv beta iota. cbn_state.
  destruct r; cbn [is_follower negb]; [|by apply wp_ret..].
  apply wp_bind, wp_putoff; [done|]. apply wp_bind, wp_update, wp_bind, wp_shared, wp_bind.
  apply wp_u64_add_any. intros o [->|[k ->]]; [done|].
  apply wp_bind, wp_update, wp_bind, wp_save. by intros o f' fs' [->|[e ->]].
Qed.

Lemma open_election_end_minority votes s fs :
  is_majority votes (servers s) = false →
  wp (open_election_end votes) (λ _ w,
    is_leader (role (state (node w))) = true → is_leader (role (state s)) = true) (mkWorld s fs).
Proof.
  destruct s as [[r f [tm vf ls] c] bc sv m]. cbn_state. intros Hm. unfold open_election_end.
  apply wp_bind, wp_gets. cbv beta iota. cbn_state.
  destruct r; cbn [is_candidate negb]; [by apply wp_ret| |by apply wp_ret].
  rewrite Hm. apply wp_bind, wp_update, wp_bind, wp_save.
  by intros o f' fs' [->|[e ->]].
Qed.

#[local] Arguments restart_timer : simpl never.
#[local] Arguments run_on : simpl never.
#[local] Arguments set_vote : simpl never.

(** Follows an event to the section it runs. *)
Ltac no_leader_from lem :=
  match goal with Hr : run_on _ _ _ _ = _ |- _ =>
    eapply run_on_no_new_leader in Hr;
      [eapply no_new_leader_then; [exact Hr|]; by eauto using restart_timer_nodes
      |intros; first [by apply lem | by apply (wp_passive_leader []), lem]] end.

Lemma exec_no_new_leader ev c c' :
  inv srv c → exec ev c = Some c' → (∀ n fs, ev ≠ EvElectionEnd n fs) → no_new_leader c c'.
Proof.
  intros Hinv. destruct ev; simpl; intros Hex Hne.
  - unfold exec_timer_recv in Hex. exec_cases Hex;
      apply no_new_leader_same; by eauto using restart_timer_nodes.
  - unfold exec_timer_fires in Hex. exec_cases Hex. by apply no_new_leader_same.
  - unfold exec_election_wake in Hex. exec_cases Hex; no_leader_from election_cancelled_leader.
  - unfold exec_election_begin in Hex.
    exec_cases Hex; no_leader_from open_election_begin_leader.
  - unfold exec_vote_send in Hex. exec_cases Hex; no_leader_from open_election_vote_passive.
  - unfold exec_vote_reply in Hex. exec_cases Hex; by apply no_new_leader_same.
  - unfold exec_vote_lost in Hex. exec_cases Hex; by apply no_new_leader_same.
  - by destruct (Hne n fs).
  - unfold exec_post in Hex. exec_cases Hex; by apply no_new_leader_same.
  - unfold exec_heartbeat in Hex. exec_cases Hex; by apply no_new_leader_same.
  - unfold exec_append_begin in Hex.
    exec_cases Hex; no_leader_from send_append_entries_begin_passive.
  - unfold exec_append_send in Hex. exec_cases Hex.
    all: match goal with Hr : run_on _ _ _ _ = _ |- _ =>
      eapply run_on_no_new_leader in Hr; [by eapply no_new_leader_then|] end.
    all: intros; eapply wp_mono; [apply send_append_entries_request_passive|].
    all: by intros ? ? [? _]; eapply p_leader.
  - unfold exec_append_reply in Hex.
    exec_cases Hex; try (by apply no_new_leader_same);
      no_leader_from send_append_entries_response_passive.
  - unfold exec_append_lost in Hex. exec_cases Hex; by apply no_new_leader_same.
  - unfold exec_append_end in Hex. exec_cases Hex; no_leader_from send_append_entries_end_passive.
  - unfold exec_deliver in Hex. apply bind_Some in Hex as (p & Hp & Hex).
    pose proof (inv_net _ _ Hinv _ p Hp) as Hok. unfold packet_ok in Hok.
    destruct (write_free (p_dest p) c); [|done].
    destruct (p_body p) as [req|t req]; apply bind_Some in Hex as ([o c1] & Hrun & Hex);
      simplify_eq/=; eapply run_on_no_new_leader in Hrun.
    + by eapply no_new_leader_then; [exact Hrun|apply answer_vote_nodes].
    + intros. by apply (wp_passive_leader []), request_vote_passive.
    + by eapply no_new_leader_then; [exact Hrun|apply answer_append_nodes].
    + intros s Hs. eapply wp_mono; [apply append_entries_passive|].
      * apply Hok.
      * eapply ok_len, inv_nodes; [exact Hinv|exact Hs].
      * by intros o' w [? _]; eapply p_leader.
Qed.

(** C3. A node becomes leader only at the end of an election it has opened itself, as
    a candidate still of the term of that election, with the votes of a majority of
    the servers; so the code's claim that no term change can slip in between holds. *)
Theorem leader_by_majority_of_its_term c c' n s s' :
  reachable srv c → step c c' →
  nodes c !! n = Some s → is_leader (role (state s)) = false →
  nodes c' !! n = Some s' → is_leader (role (state s')) = true →
  ∃ rx opened futs rs, voting n c = Some (rx, opened, futs) ∧
    role (state s) = Candidate ∧ term_of s' = opened ∧
    join_all vote_done futs = Some rs ∧ is_majority (count_true rs) srv = true.
Proof.
  intros Hc%reachable_inv [ev Hex] Hs HL Hs' HL'.
  assert ((∀ n fs, ev ≠ EvElectionEnd n fs) → False) as Hend.
  { intros Hne. destruct (exec_no_new_leader _ _ _ Hc Hex Hne n s' Hs' HL') as (? & ? & ?).
    congruence. }
  destruct ev as [| | | | | | |k fs| | | | | | | |]; try (exfalso; by apply Hend). clear Hend.
  simpl in Hex. unfold exec_election_end in Hex.
  apply bind_Some in Hex as ([[rx opened] futs] & Hv & Hex).
  apply bind_Some in Hex as (rs & Hrs & Hex).
  apply bind_Some in Hex as ([o c1] & Hrun & Hex).
  assert (nodes c' = nodes c1) as Hn.
  { destruct o as [[]| | |]; simplify_eq/=; try (by eapply restart_timer_nodes); [|done].
    by apply bind_Some in Hex as (c2 & Hr%restart_timer_nodes & [= <-]). }
  unfold run_on in Hrun. apply bind_Some in Hrun as (s0 & Hs0 & Hrun).
  destruct (open_election_end (count_true rs) (mkWorld s0 fs)) as [o' w] eqn:Hend.
  simplify_eq/=. rewrite Hn in Hs'. simpl in Hs'.
  destruct (decide (k = n)) as [->|Hkn].
  2:{ rewrite lookup_insert_ne in Hs' by done. congruence. }
  rewrite lookup_insert_eq in Hs'. injection Hs' as <-.
  assert (s0 = s) as -> by congruence.
  pose proof (open_election_end_guarantee (count_true rs) s fs) as Hg. unfold wp in Hg.
  rewrite Hend in Hg. destruct Hg as (_ & Hterm & Hor & _). simpl in *.
  assert (is_candidate (role (state s)) = true) as Hcand
    by (destruct (Hor HL'); congruence).
  exists rx, opened, futs, rs. split_and!; try done.
  - by destruct (role (state s)).
  - rewrite Hterm. pose proof (inv_election _ _ Hc n s Hs) as He. unfold voting in Hv.
    destruct (timers c !! n) as [[|? []|]|]; simplify_eq/=. by apply He.
  - pose proof (ok_servers _ _ _ (inv_nodes _ _ Hc n s Hs)) as Hsrv.
    rewrite <- Hsrv. destruct (is_majority (count_true rs) (servers s)) eqn:Hm; [done|].
    pose proof (open_election_end_minority (count_true rs) s fs Hm) as Hw.
    unfold wp in Hw. rewrite Hend in Hw. specialize (Hw HL'). congruence.
Qed.

(** ** The timer *)

Definition timers_alive (c : Cluster) : Prop := map_Forall (λ _ t, t ≠ TimerDead) (timers c).

Lemma alive_set n t c : timers_alive c → t ≠ TimerDead → timers_alive (set_timers <[n := t]> c).
Proof. intros Hc Ht. by apply map_Forall_insert_2. Qed.

Lemma alive_restart n rx c c' :
  timers_alive c → restart_timer n rx c = Some c' → timers_alive c'.
Proof.
  intros Hc. unfold restart_timer. destruct (nodes c !! n); simpl; [|done].
  intros [= <-]. by apply alive_set.
Qed.

Lemma alive_answer_vote pid src dest r c :
  timers_alive c → timers_alive (answer_vote pid src dest r c).
Proof. intros Hc. unfold answer_vote. repeat case_match; try done. by apply alive_set. Qed.

Lemma run_on_timers {A} n fs (m : M World RaftError A) c o c' :
  run_on n fs m c = Some (o, c') → timers c' = timers c.
Proof.
  unfold run_on. destruct (nodes c !! n); simpl; [|done].
  destruct (m _). by intros [= _ <-].
Qed.

Lemma alive_run {A} n fs (m : M World RaftError A) c o c' :
  timers_alive c → run_on n fs m c = Some (o, c') → timers_alive c'.
Proof. unfold timers_alive. intros Hc Hrun%run_on_timers. by rewrite Hrun. Qed.

Lemma run_on_no_panic {A} n fs (m : M World RaftError A) c c' :
  run_on n fs m c = Some (Panic, c') →
  (∀ s, nodes c !! n = Some s → wp m (λ o _, o ≠ Panic) (mkWorld s fs)) → False.
Proof.
  intros Hrun Hwp.
  by destruct (run_on_wp n fs m c Panic c' (λ _ o _, o ≠ Panic) Hrun Hwp) as (? & ? & _ & ? & _).
Qed.

Lemma open_election_begin_no_panic s fs :
  term_of s + 1 < u64_modulus → wp open_election_begin (λ o _, o ≠ Panic) (mkWorld s fs).
Proof.
  intros Hlt. destruct s as [[r f [tm vf ls] c] bc sv m]. cbn_state. unfold open_election_begin.
  apply wp_bind, wp_shared. cbv beta iota. cbn_state.
  destruct r; cbn [is_follower negb]; [|by apply wp_ret..].
  apply wp_bind, wp_putoff; [done|]. apply wp_bind, wp_update, wp_bind, wp_shared, wp_bind.
  apply wp_u64_add; [done|].
  apply wp_bind, wp_update, wp_bind, wp_save. by intros o f' fs' [->|[e ->]].
Qed.

Lemma open_election_vote_no_panic addr s fs :
  1 ≤ len (logs_of s) → wp (open_election_vote addr) (λ o _, o ≠ Panic) (mkWorld s fs).
Proof.
  intros Hlen. unfold open_election_vote. apply wp_bind, wp_gets. cbv beta iota zeta.
  case_bool_decide; [by apply wp_ret|]. by apply wp_bind, wp_u64_sub.
Qed.

Lemma open_election_end_no_panic votes s fs :
  1 ≤ len (logs_of s) → wp (open_election_end votes) (λ o _, o ≠ Panic) (mkWorld s fs).
Proof.
  destruct s as [[r f [tm vf ls] c] bc sv m]. cbn_state. intros Hlen. unfold open_election_end.
  apply wp_bind, wp_gets. cbv beta iota zeta. cbn_state.
  destruct r; cbn [is_candidate negb]; [by apply wp_ret| |by apply wp_ret].
  destruct (is_majority votes sv).
  - apply wp_bind, wp_u64_sub; [done|]. apply wp_bind, wp_update, wp_bind, wp_save.
    by intros o f' fs' [->|[e ->]].
  - apply wp_bind, wp_update, wp_bind, wp_save. by intros o f' fs' [->|[e ->]].
Qed.

Lemma inv_log_pos c n s : inv srv c → nodes c !! n = Some s → 1 ≤ len (logs_of s).
Proof.
  intros Hinv Hs. pose proof (ok_init _ _ _ (inv_nodes _ _ Hinv n s Hs)) as Hi.
  destruct (logs_of s); [done|]. len_lia.
Qed.

(** Follows an event to the section it runs, whose panic [lem] excludes. *)
Ltac alive_from lem :=
  match goal with
  | Hr : run_on _ _ _ _ = Some (Panic, _) |- _ =>
      exfalso; eapply run_on_no_panic; [exact Hr|]; intros; apply lem;
      solve [by eapply inv_log_pos | by eauto]
  | Hr : run_on _ _ _ _ = _ |- _ =>
      eapply alive_run in Hr; [|eassumption];
      first [exact Hr | by apply alive_set |
             match goal with Hq : restart_timer _ _ _ = Some _ |- _ =>
               exact (alive_restart _ _ _ _ Hr Hq) end]
  end.

Ltac alive_by_run :=
  match goal with Hr : run_on _ _ _ _ = Some _, Hal : timers_alive _ |- _ =>
    refine (alive_run _ _ _ _ _ _ _ Hr); exact Hal end.

Lemma exec_timers_alive ev c c' :
  inv srv c → no_overflow c → timers_alive c → exec ev c = Some c' → timers_alive c'.
Proof.
  intros Hinv Hno Hal. destruct ev; simpl; intros Hex.
  - unfold exec_timer_recv in Hex. exec_cases Hex; by eapply alive_restart.
  - unfold exec_timer_fires in Hex. exec_cases Hex. by apply alive_set.
  - unfold exec_election_wake in Hex. exec_cases Hex; alive_from open_election_vote_no_panic.
  - unfold exec_election_begin in Hex. exec_cases Hex; alive_from open_election_begin_no_panic.
  - unfold exec_vote_send in Hex. exec_cases Hex; alive_from open_election_vote_no_panic.
  - unfold exec_vote_reply in Hex. exec_cases Hex; by apply alive_set.
  - unfold exec_vote_lost in Hex. exec_cases Hex; by apply alive_set.
  - unfold exec_election_end in Hex. exec_cases Hex; alive_from open_election_end_no_panic.
  - unfold exec_post in Hex. by exec_cases Hex.
  - unfold exec_heartbeat in Hex. by exec_cases Hex.
  - unfold exec_append_begin in Hex. exec_cases Hex; alive_by_run.
  - unfold exec_append_send in Hex. exec_cases Hex; alive_by_run.
  - unfold exec_append_reply in Hex. exec_cases Hex; try exact Hal; alive_by_run.
  - unfold exec_append_lost in Hex. by exec_cases Hex.
  - unfold exec_append_end in Hex. exec_cases Hex; alive_by_run.
  - unfold exec_deliver in Hex. exec_cases Hex.
    + apply alive_answer_vote. alive_by_run.
    + assert (∀ pid t dest r c, timers (answer_append pid t dest r c) = timers c) as Ht
        by (intros; unfold answer_append; by repeat case_match).
      unfold timers_alive. rewrite Ht. alive_by_run.
Qed.

(** The election timer never dies: no section [launch]'s task runs panics, whatever
    the interleaving, the losses and the I/O errors, until a term reaches [2^64 - 1]. *)
Theorem election_timer_survives c n :
  reachable srv c → timers c !! n ≠ Some TimerDead.
Proof.
  intros (c0 & Hinit & Hsteps) Hn.
  assert (timers_alive c) as Hal; [|by apply (Hal n TimerDead)]. clear Hn.
  assert (timers_alive c0) as Hal by (intros k t Ht; by rewrite (init_timers _ _ Hinit k t Ht)).
  apply (inv_init srv) in Hinit.
  induction Hsteps as [|c0 c1 c2 [Hno [ev Hex]] _ IH]; [done|].
  apply IH; [by eapply exec_good|by eapply exec_timers_alive].
Qed.

(** ** Client requests *)

(** C17. How [send_append_entries] ends: with [true] and everything in the log committed
    when a majority of its futures returned [true], else with [false] and the node
    untouched; the log is not changed either way. *)
Theorem post_log_result c c' t n futs s :
  reachable srv c → exec (EvAppendEnd t) c = Some c' →
  tasks c !! t = Some (n, TAppend true futs) → nodes c !! n = Some s →
  ∃ rs s', join_all append_done futs = Some rs ∧ nodes c' !! n = Some s' ∧
    logs_of s' = logs_of s ∧
    tasks c' !! t = Some (n, TReturned (Some (is_majority (count_true rs) srv))) ∧
    commit_index (state s') = (if is_majority (count_true rs) srv
      then len (logs_of s) - 1 else commit_index (state s)).
Proof.
  intros Hc%reachable_inv Hex Ht Hs. simpl in Hex. unfold exec_append_end, appending in Hex.
  rewrite Ht in Hex. simpl in Hex. apply bind_Some in Hex as (rs & Hrs & Hex).
  unfold run_on in Hex. rewrite Hs in Hex. simpl in Hex.
  pose proof (inv_log_pos _ _ _ Hc Hs) as Hpos. unfold logs_of in Hpos.
  rewrite (ok_servers _ _ _ (inv_nodes _ _ Hc n s Hs)) in Hex.
  exists rs. unfold send_append_entries_end, bind, gets, shared, u64_sub in Hex. simpl in Hex.
  rewrite (ok_servers _ _ _ (inv_nodes _ _ Hc n s Hs)) in Hex.
  destruct (is_majority (count_true rs) srv); simpl in Hex.
  - destruct (write_free n c); simpl in Hex; [|done].
    destruct (N.leb_spec 1 (len (logs (persistent (state s))))); [|lia].
    simplify_eq/=. rewrite !lookup_insert_eq. eexists. split_and!; done.
  - simplify_eq/=. rewrite !lookup_insert_eq. eexists. split_and!; done.
Qed.

End properties.
