(* ===== verification/RaftTraces.v ===== *)
(** * Executions of a three-node Raft cluster

    Closed executions of [RaftCluster], each a list of events run by [exec_all] from
    three servers on empty disks: the normal replication of a client's entry, and
    four that reach states the comments of the code rule out. *)

From S2P Require Import RaftInstances RaftClusterFacts RaftClusterProps RaftReplication.

#[local] Existing Instance bits_json.
#[local] Existing Instance dev_profile.

Definition the_servers : gset SocketAddr := list_to_set three_servers.

Definition after (tr : list Event) : option Cluster := exec_all tr (fresh_cluster three_servers).

(** Node [n] opens an election and wins it with its own vote and that of [v]. *)
Definition election (n v other : SocketAddr) (pid : N) : list Event :=
  [EvTimerFires n; EvElectionWake n; EvElectionBegin n [];
   EvVoteSend n n; EvVoteSend n v; EvVoteSend n other;
   EvDeliver pid []; EvVoteReply n v; EvDeliver (pid + 1) []; EvVoteLost n other;
   EvElectionEnd n []].

Definition a_leads : list Event := election srv_a srv_b srv_c 0.

(** A client posts an entry to A; B and C get it. *)
Definition replicate_one : list Event :=
  a_leads ++
  [EvPost srv_a ["x"]; EvAppendBegin 3 [];
   EvAppendSend 3 srv_a; EvAppendSend 3 srv_b; EvAppendSend 3 srv_c;
   EvDeliver 4 []; EvDeliver 5 []; EvAppendReply 3 srv_b; EvAppendReply 3 srv_c;
   EvAppendEnd 3].

(** A and B open elections at once; a candidate has not recorded its vote for itself
    ([voted_for] is set to [None]) and so may give it to the other. *)
Definition double_election : list Event :=
  [EvTimerFires srv_a; EvElectionWake srv_a; EvTimerFires srv_b; EvElectionWake srv_b;
   EvElectionBegin srv_a []; EvElectionBegin srv_b [];
   EvVoteSend srv_b srv_c; EvVoteSend srv_b srv_a; EvVoteSend srv_b srv_b;
   EvVoteSend srv_a srv_a; EvVoteSend srv_a srv_b; EvVoteSend srv_a srv_c;
   EvDeliver 0 []; EvVoteReply srv_b srv_c; EvVoteLost srv_b srv_a;
   EvDeliver 2 []; EvVoteReply srv_a srv_b; EvVoteLost srv_a srv_c;
   EvElectionEnd srv_a []; EvElectionEnd srv_b []].

(** While A waits for C, a second client appends to A's log: [append_entries_lock] is
    released as soon as it is taken.  The first call then commits all of the log. *)
Definition commit_race : list Event :=
  a_leads ++
  [EvPost srv_a ["x"]; EvAppendBegin 3 []; EvAppendSend 3 srv_a; EvAppendSend 3 srv_b;
   EvDeliver 4 []; EvPost srv_a ["y"]; EvAppendBegin 5 []; EvAppendReply 3 srv_b;
   EvAppendSend 3 srv_c; EvAppendLost 3 srv_c; EvAppendEnd 3].

(** A is deposed by B's election between appending and sending: every future finds A
    no longer leader and returns [Ok(true)]. *)
Definition demoted : list Event :=
  a_leads ++
  [EvPost srv_a ["x"]; EvAppendBegin 3 [];
   EvTimerFires srv_b; EvElectionWake srv_b; EvTimerFires srv_b; EvElectionWake srv_b;
   EvElectionBegin srv_b []; EvVoteSend srv_b srv_a; EvDeliver 4 [];
   EvAppendSend 3 srv_a; EvAppendSend 3 srv_b; EvAppendSend 3 srv_c; EvAppendEnd 3].

(** With all three servers up and every message delivered: a heartbeat starts while the
    call that appended "x" collects its replies, so B and C are sent "x" twice, and
    insert it twice; a second client's "y" is appended to A's log before the replies
    come, and A then believes B and C to have three entries. *)
Definition overlapping_appends : list Event :=
  [EvTimerFires srv_a; EvElectionWake srv_a; EvElectionBegin srv_a [];
   EvVoteSend srv_a srv_a; EvVoteSend srv_a srv_b; EvVoteSend srv_a srv_c;
   EvDeliver 0 []; EvDeliver 1 []; EvVoteReply srv_a srv_b; EvVoteReply srv_a srv_c;
   EvElectionEnd srv_a [];
   EvPost srv_a ["x"]; EvAppendBegin 3 [];
   EvAppendSend 3 srv_a; EvAppendSend 3 srv_b; EvAppendSend 3 srv_c;
   EvHeartbeat 2; EvAppendBegin 2 [];
   EvAppendSend 2 srv_a; EvAppendSend 2 srv_b; EvAppendSend 2 srv_c;
   EvDeliver 4 []; EvDeliver 5 []; EvDeliver 6 []; EvDeliver 7 [];
   EvPost srv_a ["y"]; EvAppendBegin 8 [];
   EvAppendReply 3 srv_b; EvAppendReply 3 srv_c; EvAppendEnd 3;
   EvAppendReply 2 srv_b; EvAppendReply 2 srv_c; EvAppendEnd 2;
   EvAppendSend 8 srv_a; EvAppendSend 8 srv_b; EvAppendSend 8 srv_c;
   EvDeliver 9 []; EvDeliver 10 []; EvAppendReply 8 srv_b; EvAppendReply 8 srv_c;
   EvAppendEnd 8].

(** Events of an execution without I/O errors and without losses. *)
Definition undisturbed (ev : Event) : bool :=
  match ev with
  | EvElectionBegin _ fl | EvElectionEnd _ fl | EvAppendBegin _ fl | EvDeliver _ fl =>
      bool_decide (fl = [])
  | EvVoteLost _ _ | EvAppendLost _ _ => false
  | _ => true
  end.

Lemma exec_all_steps tr c c' : exec_all tr c = Some c' → rtc step_in_range c c'.
Proof.
  revert c. induction tr as [|ev tr IH]; intros c; simpl.
  { intros [= ->]. reflexivity. }
  case_decide; [|done]. intros (c1 & Hex & Hrest)%bind_Some.
  eapply rtc_l; [|by apply IH]. split; [done|by exists ev].
Qed.

Lemma wf_fresh : wf_persistent (mkPersistent 0 None initial_logs).
Proof.
  split; [done|vm_compute; discriminate|].
  repeat constructor; vm_compute; discriminate.
Qed.

Lemma fresh_is_init : is_init the_servers (fresh_cluster three_servers).
Proof.
  split; [| |done|done].
  - intros n s Hs. exists (mkPersistent 0 None initial_logs), (mkFile [] 0).
    split; [|apply wf_fresh]. unfold fresh_cluster in Hs; simpl in Hs.
    rewrite !lookup_insert_Some, lookup_empty in Hs. naive_solver.
  - intros n t Ht. unfold fresh_cluster in Ht; simpl in Ht.
    rewrite !lookup_insert_Some, lookup_empty in Ht. naive_solver.
Qed.

Lemma after_reachable tr c : after tr = Some c → reachable the_servers c.
Proof.
  intros Htr%exec_all_steps. exists (fresh_cluster three_servers).
  split; [apply fresh_is_init|done].
Qed.

(** What a reader of the traces wants to know of a node and of a call. *)
Definition role_of (n : SocketAddr) (c : Cluster) : option (bool * N) :=
  s ← nodes c !! n; Some (is_leader (role (state s)), term_of s).
Definition log_of (n : SocketAddr) (c : Cluster) : list Log :=
  default [] (s ← nodes c !! n; Some (logs_of s)).
Definition commit_of (n : SocketAddr) (c : Cluster) : option N :=
  s ← nodes c !! n; Some (commit_index (state s)).
Definition result_of (t : N) (c : Cluster) : option (option bool) :=
  match tasks c !! t with Some (_, TReturned r) => Some r | _ => None end.

(** A reachable cluster with a property decided by running the trace. *)
Lemma by_trace tr (P : Cluster → bool) :
  match after tr with Some c => P c | None => false end = true →
  ∃ c, reachable the_servers c ∧ P c = true.
Proof.
  destruct (after tr) as [c|] eqn:Htr; [|done]. intros HP. exists c.
  split; [by eapply after_reachable|done].
Qed.

(** A client's entry posted to a leader reaches every node, is committed by the leader
    and reported as a success. *)
Theorem post_reaches_all :
  ∃ c, reachable the_servers c ∧
    bool_decide (result_of 3 c = Some (Some true) ∧ commit_of srv_a c = Some 1 ∧
      Forall (λ n, log_of n c = [mkLog "init" 0; mkLog "x" 1]) three_servers) = true.
Proof. apply (by_trace replicate_one). vm_compute. reflexivity. Qed.

(** C29. Election Safety fails: two nodes can be leaders of the same term, because a
    candidate clears [voted_for] instead of recording its own vote. *)
Theorem two_leaders_in_one_term :
  ∃ c, reachable the_servers c ∧
    bool_decide (role_of srv_a c = Some (true, 1) ∧ role_of srv_b c = Some (true, 1)) = true.
Proof. apply (by_trace double_election). vm_compute. reflexivity. Qed.

(** C30. An entry can be committed and its log position reported to readers while no
    other node holds it: two overlapping [send_append_entries] are not serialised. *)
Theorem unreplicated_entry_committed :
  ∃ c, reachable the_servers c ∧
    bool_decide (result_of 3 c = Some (Some true) ∧ commit_of srv_a c = Some 2 ∧
      log_of srv_a c !! 2%nat = Some (mkLog "y" 1) ∧
      log_of srv_b c !! 2%nat = None ∧ log_of srv_c c !! 2%nat = None) = true.
Proof. apply (by_trace commit_race). vm_compute. reflexivity. Qed.

(** C31. A node deposed between appending and sending reports success to its client and
    commits the entry, which no other node holds. *)
Theorem demoted_leader_reports_success :
  ∃ c, reachable the_servers c ∧
    bool_decide (result_of 3 c = Some (Some true) ∧ role_of srv_a c = Some (false, 2) ∧
      commit_of srv_a c = Some 1 ∧ log_of srv_a c !! 1%nat = Some (mkLog "x" 1) ∧
      log_of srv_b c !! 1%nat = None ∧ log_of srv_c c !! 1%nat = None) = true.
Proof. apply (by_trace demoted). vm_compute. reflexivity. Qed.

(** ** The theorems of [RaftClusterProps] along these executions *)

(** The cluster after a trace whose events are all enabled. *)
Definition cluster_after (tr : list Event) : Cluster :=
  default (fresh_cluster three_servers) (after tr).
Definition node_after (tr : list Event) (n : SocketAddr) : State :=
  default (fresh_node n the_servers) (nodes (cluster_after tr) !! n).
Definition enabled (tr : list Event) : bool :=
  match after tr with Some _ => true | None => false end.

Lemma cluster_after_enabled tr : enabled tr = true → after tr = Some (cluster_after tr).
Proof. unfold enabled, cluster_after. by destruct (after tr). Qed.

Lemma cluster_after_reachable tr : enabled tr = true → reachable the_servers (cluster_after tr).
Proof.
  unfold enabled, cluster_after. destruct (after tr) eqn:Htr; [|done].
  intros _. by eapply after_reachable.
Qed.

Lemma cluster_after_steps tr :
  enabled tr = true → rtc step_in_range (fresh_cluster three_servers) (cluster_after tr).
Proof.
  unfold enabled, cluster_after. destruct (after tr) eqn:Htr; [|done].
  intros _. by eapply exec_all_steps.
Qed.

Lemma exec_all_snoc tr ev c :
  exec_all (tr ++ [ev]) c =
    (c' ← exec_all tr c; if decide (no_overflow c') then exec ev c' else None).
Proof.
  revert c. induction tr as [|e tr IH]; intros c; simpl.
  - case_decide; [|done]. by destruct (exec ev c).
  - case_decide; [|done]. destruct (exec e c); [apply IH|done].
Qed.

Lemma cluster_after_event tr ev :
  enabled (tr ++ [ev]) = true →
  exec ev (cluster_after tr) = Some (cluster_after (tr ++ [ev])) ∧
  step_in_range (cluster_after tr) (cluster_after (tr ++ [ev])).
Proof.
  unfold enabled, cluster_after, after. rewrite exec_all_snoc.
  destruct (exec_all tr _) as [c|]; simpl; [|done]. case_decide; [|done].
  destruct (exec ev c) eqn:Hex; [|done]. intros _. split; [done|]. split; [done|by exists ev].
Qed.

Lemma overlapping_enabled : enabled overlapping_appends = true.
Proof. vm_compute. reflexivity. Qed.

Lemma overlapping_nodes :
  nodes (cluster_after overlapping_appends) !! srv_a =
    Some (node_after overlapping_appends srv_a) ∧
  nodes (cluster_after overlapping_appends) !! srv_b =
    Some (node_after overlapping_appends srv_b).
Proof. split; vm_compute; reflexivity. Qed.

Lemma overlapping_settled :
  settled (node_after overlapping_appends srv_a) (node_after overlapping_appends srv_b) srv_b.
Proof.
  split; [split|split| |]; try by vm_compute.
  - do 2 eexists. split; vm_compute; reflexivity.
  - right. split; vm_compute; reflexivity.
Qed.

(** C40. State Machine Safety fails, for ever, with every server up, no I/O error and no
    message lost: overlapping appends leave the leader and its follower with different
    entries of one term at a position both have committed, both clients were told of
    success, and however many more heartbeats are sent, neither log changes. *)
Theorem overlapping_appends_diverge :
  let x := mkLog "x" 1 in
  let y := mkLog "y" 1 in
  ∃ tr c a b, forallb undisturbed tr = true ∧ after tr = Some c ∧ reachable the_servers c ∧
    nodes c !! srv_a = Some a ∧ nodes c !! srv_b = Some b ∧
    is_leader (role (state a)) = true ∧ term_of a = term_of b ∧
    result_of 3 c = Some (Some true) ∧ result_of 8 c = Some (Some true) ∧
    commit_index (state a) = 2 ∧ commit_index (state b) = 2 ∧
    logs_of a = [mkLog "init" 0; x; y] ∧ logs_of b = [mkLog "init" 0; x; x] ∧
    ∀ k, ∃ a' b', heartbeat_rounds k srv_b (a, b) = Some (a', b') ∧
      logs_of a' = logs_of a ∧ logs_of b' = logs_of b.
Proof.
  intros x y. exists overlapping_appends, (cluster_after overlapping_appends),
    (node_after overlapping_appends srv_a), (node_after overlapping_appends srv_b).
  destruct overlapping_nodes as [Ha Hb].
  split; [reflexivity|]. split; [by apply cluster_after_enabled, overlapping_enabled|].
  split; [by apply cluster_after_reachable, overlapping_enabled|].
  do 2 (split; [done|]). do 8 (split; [vm_compute; reflexivity|]).
  intros k. apply settled_rounds, overlapping_settled.
Qed.

Lemma reachable_nodes_ok_witness : node_ok the_servers srv_b (node_after replicate_one srv_b).
Proof.
  apply (reachable_nodes_ok the_servers (cluster_after replicate_one)).
  - apply cluster_after_reachable. vm_compute. reflexivity.
  - vm_compute. reflexivity.
Defined.

Lemma term_monotone_witness :
  ∃ s', nodes (cluster_after replicate_one) !! srv_b = Some s' ∧
    term_of (fresh_node srv_b the_servers) ≤ term_of s'.
Proof.
  apply (term_monotone the_servers (fresh_cluster three_servers)).
  - apply (cluster_after_reachable []). reflexivity.
  - apply cluster_after_steps. vm_compute. reflexivity.
  - vm_compute. reflexivity.
Defined.

Lemma leader_append_only_witness :
  let tr := a_leads ++ [EvPost srv_a ["x"]] in
  let tr' := tr ++ [EvAppendBegin 3 []] in
  logs_of (node_after tr srv_a) `prefix_of` logs_of (node_after tr' srv_a) ∧
  term_of (node_after tr' srv_a) = term_of (node_after tr srv_a).
Proof.
  intros tr tr'.
  apply (leader_append_only the_servers (cluster_after tr) (cluster_after tr') srv_a).
  - apply cluster_after_reachable. vm_compute. reflexivity.
  - apply cluster_after_event. vm_compute. reflexivity.
  - vm_compute. reflexivity.
  - vm_compute. reflexivity.
  - vm_compute. reflexivity.
  - vm_compute. reflexivity.
Defined.

Definition a_wins : list Event := take 10 a_leads.

Lemma leader_by_majority_witness :
  ∃ rx opened futs rs, voting srv_a (cluster_after a_wins) = Some (rx, opened, futs) ∧
    role (state (node_after a_wins srv_a)) = Candidate ∧
    term_of (node_after (a_wins ++ [EvElectionEnd srv_a []]) srv_a) = opened ∧
    join_all vote_done futs = Some rs ∧ is_majority (count_true rs) the_servers = true.
Proof.
  apply (leader_by_majority_of_its_term the_servers (cluster_after a_wins)
           (cluster_after (a_wins ++ [EvElectionEnd srv_a []])) srv_a
           (node_after a_wins srv_a)).
  - apply cluster_after_reachable. vm_compute. reflexivity.
  - apply cluster_after_event. vm_compute. reflexivity.
  - vm_compute. reflexivity.
  - vm_compute. reflexivity.
  - vm_compute. reflexivity.
  - vm_compute. reflexivity.
Defined.

Lemma election_timer_survives_witness :
  timers (cluster_after replicate_one) !! srv_a ≠ Some TimerDead.
Proof.
  apply (election_timer_survives the_servers).
  apply cluster_after_reachable. vm_compute. reflexivity.
Defined.

Definition a_replicates : list Event := take 20 replicate_one.

Lemma post_log_result_witness :
  ∃ rs s', join_all append_done (gset_to_gmap (ADone (Some true)) the_servers) = Some rs ∧
    nodes (cluster_after (a_replicates ++ [EvAppendEnd 3])) !! srv_a = Some s' ∧
    logs_of s' = logs_of (node_after a_replicates srv_a) ∧
    tasks (cluster_after (a_replicates ++ [EvAppendEnd 3])) !! 3 =
      Some (srv_a, TReturned (Some (is_majority (count_true rs) the_servers))) ∧
    commit_index (state s') = (if is_majority (count_true rs) the_servers
      then len (logs_of (node_after a_replicates srv_a)) - 1
      else commit_index (state (node_after a_replicates srv_a))).
Proof.
  apply (post_log_result the_servers (cluster_after a_replicates)).
  - apply cluster_after_reachable. vm_compute. reflexivity.
  - apply cluster_after_event. vm_compute. reflexivity.
  - vm_compute. reflexivity.
  - vm_compute. reflexivity.
Defined.
