(* ===== verification/Ring.v ===== *)
(** * The ring of nodes of [ring-rs]

    Models [src/ring-rs/src/main.rs]: the state of a node, its RPC handlers, the
    background tasks they spawn, joining, leaving and recovering, and the watcher tasks
    of [main].  A handler runs over its own node ([Local]); what calls other nodes runs
    over the whole network ([Net]), a spawned task without interruption.  The one
    handler whose interleaving matters, [join], is also cut into its sections. *)

From S2P Require Export Prelude.
Open Scope N_scope.
Open Scope prog_scope.

(** [ToString] and [FromStr] of [SocketAddr]: what is printed parses back. *)
Class AddrText := {
  addr_to_string : SocketAddr → string;
  addr_parse : string → option SocketAddr
}.
Class AddrTextLaws `{AddrText} := {
  addr_parse_to_string : ∀ a, addr_parse (addr_to_string a) = Some a
}.

(** ** Data *)

Record Connection := mkConnection { prev : SocketAddr; next : SocketAddr }.

(** [join_lock] does not appear: [let _ = lock().await] drops its guard at once.
    [health_checks] counts what waits in [notify_recieved_list_rpc]. *)
Record Ring := mkRing {
  me : SocketAddr;
  am_i_coordinator : bool;
  connection : Connection;
  ring_cache : list string;
  health_checks : N
}.

Record SetAddressResponse := mkSetAddressResponse { err_msg : option string }.

Inductive RingError :=
| ETransport
| EAddrParse
| EErrMsg (msg : string)
| EJoin (e : RingError).

Inductive JoinResponse := Prev (addr : string) | ErrMsg (e : RingError).

(** The tasks handlers spawn, with what they have captured. *)
Inductive Job :=
| RelayList (owner : SocketAddr) (member_cache addresses : list string)
| RelayElection (owner : SocketAddr) (member_cache addresses : list string)
| RelayCoordinate (owner : SocketAddr) (member_cache addresses read : list string)
| Announce (owner : SocketAddr) (addresses : list string).

#[export] Instance Connection_eq_dec : EqDecision Connection.
Proof. solve_decision. Defined.
#[export] Instance Ring_eq_dec : EqDecision Ring.
Proof. solve_decision. Defined.

(** ** Worlds *)

Record Local := mkLocal { ring : Ring; spawned : list Job }.

(** What becomes of the next RPC attempts: an exhausted script means that they all get
    through.  [Refused]: the connection or the request fails; [ReplyLost]: the callee
    has handled the request, the caller gets an error. *)
Inductive Link := Up | Refused | ReplyLost.

Record Net := mkNet {
  rings : gmap SocketAddr Ring;
  jobs : list Job;
  links : list Link
}.

Definition Handler (A : Type) : Type := M Local RingError A.
Definition Run (A : Type) : Type := M Net RingError A.

Definition set_ring (r : Ring) (l : Local) : Local := mkLocal r (spawned l).
Definition set_connection (c : Connection) (r : Ring) : Ring :=
  mkRing (me r) (am_i_coordinator r) c (ring_cache r) (health_checks r).
Definition with_prev (a : SocketAddr) (r : Ring) : Ring :=
  set_connection (mkConnection a (next (connection r))) r.
Definition with_next (a : SocketAddr) (r : Ring) : Ring :=
  set_connection (mkConnection (prev (connection r)) a) r.
Definition with_coordinator (b : bool) (r : Ring) : Ring :=
  mkRing (me r) b (connection r) (ring_cache r) (health_checks r).
Definition with_cache (c : list string) (r : Ring) : Ring :=
  mkRing (me r) (am_i_coordinator r) (connection r) c (health_checks r).
Definition with_health_checks (k : N) (r : Ring) : Ring :=
  mkRing (me r) (am_i_coordinator r) (connection r) (ring_cache r) k.

Definition self : Handler Ring := gets ring.
Definition change (f : Ring → Ring) : Handler unit := modify (λ l, set_ring (f (ring l)) l).
Definition spawn (j : Job) : Handler unit := modify (λ l, mkLocal (ring l) (spawned l ++ [j])).

(** Runs [h] on node [a], if it lives. *)
Definition serve {A} (a : SocketAddr) (h : Handler A) : Run A := λ w,
  match rings w !! a with
  | None => (Fail ETransport, w)
  | Some r =>
      let '(o, l) := h (mkLocal r []) in
      (o, mkNet (<[a := ring l]> (rings w)) (jobs w ++ spawned l) (links w))
  end.

Definition next_link : Run Link := λ w,
  match links w with
  | [] => (Done Up, w)
  | l :: ls => (Done l, mkNet (rings w) (jobs w) ls)
  end.

Definition alive (a : SocketAddr) : Run bool :=
  gets (λ w, bool_decide (is_Some (rings w !! a))).

(** [RingClient::connect(dest).await?.method(..).await?] *)
Definition rpc {A} (dest : SocketAddr) (body : Run A) : Run A :=
  let! l := next_link in
  let! up := alive dest in
  if negb up then fail ETransport
  else match l with
       | Up => body
       | Refused => fail ETransport
       | ReplyLost => body ;; fail ETransport
       end.

Section ring.
Context `{AddrText}.

(** ** Handlers *)

Definition parse_error : string := "invalid socket address syntax".

Definition set_next (address : string) : Handler SetAddressResponse :=
  match addr_parse address with
  | Some next_addr =>
      change (with_next next_addr) ;; ret (mkSetAddressResponse None)
  | None => ret (mkSetAddressResponse (Some parse_error))
  end.

Definition set_prev (address : string) : Handler SetAddressResponse :=
  match addr_parse address with
  | Some prev_addr =>
      change (with_prev prev_addr) ;; ret (mkSetAddressResponse None)
  | None => ret (mkSetAddressResponse (Some parse_error))
  end.

(** The node's address is no greater than any of [addresses], bytewise. *)
Definition check_am_i_coordinator (addresses : list string) (me : string) : bool :=
  forallb (λ address, String.leb me address) addresses.

Definition relay_list_rpc_in_background (addresses : list string) : Handler unit :=
  let! r := self in
  (when negb (check_am_i_coordinator addresses (addr_to_string (me r))) do
     change (with_coordinator false)) ;;
  spawn (RelayList (me r) (ring_cache r) addresses).

Definition relay_election_rpc_in_background (addresses : list string) : Handler unit :=
  let! r := self in spawn (RelayElection (me r) (ring_cache r) addresses).

Definition relay_coordinate_rpc_in_background (addresses read : list string) : Handler unit :=
  let! r := self in spawn (RelayCoordinate (me r) (ring_cache r) addresses read).

Definition announce_in_background (addresses : list string) : Handler unit :=
  let! r := self in spawn (Announce (me r) addresses).

(** [Sender::send] of a channel of capacity 1024 waits while it is full.  The process
    exit on a closed channel is left out: the receiver lives as long as [main]. *)
Definition notify : Handler unit :=
  let! r := self in
  if health_checks r <? 1024 then change (with_health_checks (health_checks r + 1))
  else blocked.

Definition list_rpc (addresses : list string) : Handler unit :=
  notify ;;
  let! r := self in
  if negb (bool_decide (addr_to_string (me r) ∈ addresses))
  then relay_list_rpc_in_background addresses
  else announce_in_background addresses.

Definition coordinate (addresses read : list string) : Handler unit :=
  let! r := self in
  change (with_coordinator (check_am_i_coordinator addresses (addr_to_string (me r)))) ;;
  when negb (bool_decide (addr_to_string (me r) ∈ read)) do
    relay_coordinate_rpc_in_background addresses read.

Definition election (addresses : list string) : Handler unit :=
  let! r := self in
  if negb (bool_decide (addr_to_string (me r) ∈ addresses))
  then relay_election_rpc_in_background addresses
  else relay_coordinate_rpc_in_background addresses [].

Definition connection_announce (addresses : list string) : Handler unit :=
  change (with_cache addresses).

(** ** Calls to other nodes *)

Definition set_next_wrapper (me dest : SocketAddr) : Run unit :=
  let! response := rpc dest (serve dest (set_next (addr_to_string me))) in
  match err_msg response with
  | Some msg => fail (EErrMsg msg)
  | None => ret tt
  end.

Definition set_prev_wrapper (me dest : SocketAddr) : Run unit :=
  let! response := rpc dest (serve dest (set_prev (addr_to_string me))) in
  match err_msg response with
  | Some msg => fail (EErrMsg msg)
  | None => ret tt
  end.

(** *** [join], section by section *)

Definition join_old_prev (d : SocketAddr) : Run SocketAddr :=
  serve d (let! r := self in ret (prev (connection r))).

(** Under the write guard: the node that was [prev], replaced. *)
Definition join_swap_prev (d new_prev : SocketAddr) : Run SocketAddr :=
  serve d (let! r := self in change (with_prev new_prev) ;; ret (prev (connection r))).

Definition join_impl_no_rollback (d : SocketAddr) (new_prev : string) : Run unit :=
  let! new_prev := or_fail EAddrParse (addr_parse new_prev) in
  let! old_prev := join_swap_prev d new_prev in
  set_next_wrapper new_prev old_prev.

Definition join_impl (d : SocketAddr) (new_prev : string) : Run string :=
  let! old_prev := join_old_prev d in
  let! r := attempt (join_impl_no_rollback d new_prev) in
  match r with
  | inl _ => ret (addr_to_string old_prev)
  | inr e => serve d (change (with_prev old_prev)) ;; fail e
  end.

Definition join (d : SocketAddr) (new_prev : string) : Run JoinResponse :=
  let! r := attempt (join_impl d new_prev) in
  match r with
  | inl old_prev => ret (Prev old_prev)
  | inr e => ret (ErrMsg e)
  end.

(** *** Recovery *)

(** The body of [for i in 0..member_cache.len()], for the indices of a list. *)
Fixpoint recovery_loop (me : SocketAddr) (member_cache : list string) (my_idx : nat)
    (idxs : list nat) : Run unit :=
  match idxs with
  | [] => ret tt
  | i :: idxs =>
      let prev_idx := ((my_idx + i + 1) mod length member_cache)%nat in
      match member_cache !! prev_idx ≫= addr_parse with
      | Some prev =>
          let! r := attempt (set_next_wrapper me prev) in
          match r with
          | inr _ => recovery_loop me member_cache my_idx idxs
          | inl _ => serve me (change (with_prev prev))
          end
      | None => recovery_loop me member_cache my_idx idxs
      end
  end.

Definition recovery_prev (member_cache : list string) (me : SocketAddr) : Run unit :=
  match list_find (λ address, address = addr_to_string me) member_cache with
  | Some (my_idx, _) => recovery_loop me member_cache my_idx (seq 0 (length member_cache))
  | None => ret tt
  end.

(** *** The spawned tasks *)

Definition prev_of (a : SocketAddr) : Run SocketAddr :=
  serve a (let! r := self in ret (prev (connection r))).

(** Calls [prev]; when that fails, looks for another [prev]. *)
Definition relay (owner : SocketAddr) (member_cache : list string)
    (h : Handler unit) : Run unit :=
  let! p := prev_of owner in
  let! r := attempt (rpc p (serve p h)) in
  match r with
  | inl _ => ret tt
  | inr _ => recovery_prev member_cache owner
  end.

(** A member is reached at its address; one whose text is not a socket address (a host
    name, which [connect] could still resolve) is skipped, as one that does not answer. *)
Fixpoint announce (addresses remaining : list string) : Run unit :=
  match remaining with
  | [] => ret tt
  | address :: remaining =>
      (match addr_parse address with
       | Some a => attempt (rpc a (serve a (connection_announce addresses))) ;; ret tt
       | None => ret tt
       end) ;;
      announce addresses remaining
  end.

Definition run_job (j : Job) : Run unit :=
  match j with
  | RelayList owner cache addresses =>
      relay owner cache (list_rpc (addresses ++ [addr_to_string owner]))
  | RelayElection owner cache addresses =>
      relay owner cache (election (addresses ++ [addr_to_string owner]))
  | RelayCoordinate owner cache addresses read =>
      relay owner cache (coordinate addresses (read ++ [addr_to_string owner]))
  | Announce owner addresses =>
      let! up := alive owner in when up do announce addresses addresses
  end.

(** ** [main] *)

Definition fresh_ring (a : SocketAddr) : Ring := mkRing a false (mkConnection a a) [] 0.

(** What the newcomer does with the answer; [connection.next] is set before [prev] is
    parsed. *)
Definition main_joined (a nx : SocketAddr) (response : JoinResponse) : Run unit :=
  match response with
  | ErrMsg e => fail (EJoin e)
  | Prev p =>
      serve a (change (with_next nx)) ;;
      let! p := or_fail EAddrParse (addr_parse p) in
      serve a (change (with_prev p))
  end.

(** The [join] of the command line. *)
Definition main_join (a nx : SocketAddr) : Run unit :=
  let! response := rpc nx (join nx (addr_to_string a)) in
  main_joined a nx response.

Definition exit (a : SocketAddr) : Run unit :=
  modify (λ w, mkNet (delete a (rings w)) (jobs w) (links w)).

Definition main_start (a : SocketAddr) (nx : option SocketAddr) : Run unit :=
  modify (λ w, mkNet (<[a := fresh_ring a]> (rings w)) (jobs w) (links w)) ;;
  match nx with
  | None => ret tt
  | Some nx =>
      let! r := attempt (main_join a nx) in
      match r with
      | inl _ => ret tt
      | inr e => exit a ;; fail e
      end
  end.

(** The future that ends the server: both neighbours are told, whatever fails. *)
Definition shutdown (a : SocketAddr) : Run unit :=
  let! r := serve a self in
  let p := prev (connection r) in
  let n := next (connection r) in
  attempt (set_prev_wrapper p n) ;;
  attempt (set_next_wrapper n p) ;;
  exit a.

(** [coordinator_watcher]: no [list] for three seconds, or one came. *)
Definition watcher_timeout (a : SocketAddr) : Run unit :=
  let! p := prev_of a in
  attempt (rpc p (serve p (election [addr_to_string a]))) ;;
  ret tt.

Definition watcher_recv (a : SocketAddr) : Run unit :=
  serve a (change (λ r, with_health_checks (health_checks r - 1) r)).

(** One turn of the [coordinate] task; [elapsed] is what [now.elapsed()] says in
    milliseconds.  [Duration - Duration] panics below zero, and [main] ends with it. *)
Definition coordinate_turn (a : SocketAddr) (elapsed : N) : Run unit :=
  let! r := serve a self in
  (when am_i_coordinator r do (
     let! p := prev_of a in
     attempt (rpc p (serve p (list_rpc [addr_to_string a]))) ;;
     ret tt)) ;;
  when 2000 <? elapsed do exit a.

(** ** The network *)

Inductive NetEvent :=
| EvStart (a : SocketAddr) (nx : option SocketAddr)
| EvShutdown (a : SocketAddr)
| EvCrash (a : SocketAddr)
| EvTimeout (a : SocketAddr)
| EvRecv (a : SocketAddr)
| EvTurn (a : SocketAddr) (elapsed : N)
| EvJob.

(** The oldest spawned task. *)
Definition next_job : Run unit := λ w,
  match jobs w with
  | [] => (Done tt, w)
  | j :: js => run_job j (mkNet (rings w) js (links w))
  end.

Definition run_event (ev : NetEvent) : Run unit :=
  match ev with
  | EvStart a nx => main_start a nx
  | EvShutdown a => shutdown a
  | EvCrash a => exit a
  | EvTimeout a => watcher_timeout a
  | EvRecv a => watcher_recv a
  | EvTurn a elapsed => coordinate_turn a elapsed
  | EvJob => next_job
  end.

Definition after_event (ev : NetEvent) (w : Net) : Net := (run_event ev w).2.
Definition after_events (evs : list NetEvent) (w : Net) : Net :=
  fold_left (λ w ev, after_event ev w) evs w.

(** ** Overlapping joins

    A call of [join] on node [d], suspended between its sections. *)
Inductive JoinPc :=
| JRead (d : SocketAddr) (new_prev : string)
| JSwap (d : SocketAddr) (new_prev : string) (old_prev : SocketAddr)
| JTell (d new_prev old_prev told : SocketAddr)
| JRollback (d old_prev : SocketAddr) (e : RingError)
| JDone (response : JoinResponse).

Definition join_step (pc : JoinPc) : Run JoinPc :=
  match pc with
  | JRead d new_prev =>
      let! old_prev := join_old_prev d in ret (JSwap d new_prev old_prev)
  | JSwap d new_prev old_prev =>
      match addr_parse new_prev with
      | None => ret (JRollback d old_prev EAddrParse)
      | Some a => let! told := join_swap_prev d a in ret (JTell d a old_prev told)
      end
  | JTell d new_prev old_prev told =>
      let! r := attempt (set_next_wrapper new_prev told) in
      match r with
      | inl _ => ret (JDone (Prev (addr_to_string old_prev)))
      | inr e => ret (JRollback d old_prev e)
      end
  | JRollback d old_prev e =>
      serve d (change (with_prev old_prev)) ;; ret (JDone (ErrMsg e))
  | JDone response => ret (JDone response)
  end.

End ring.
