(* ===== verification/RingInstances.v ===== *)
(** * Addresses as text, concretely

    A printer and a parser of addresses that satisfy [AddrTextLaws]: the dotted form
    for IPv4, a schematic bracketed form for IPv6. *)

From Stdlib Require Import Ascii DecimalString DecimalN.
From S2P Require Import Ring.

Definition dec (n : N) : string := NilEmpty.string_of_uint (N.to_uint n).
Definition undec (s : string) : option N := N.of_uint <$> NilEmpty.uint_of_string s.

Lemma undec_dec n : undec (dec n) = Some n.
Proof. unfold undec, dec. rewrite NilEmpty.usu. simpl. by rewrite Unsigned.of_to. Qed.

Definition is_digit (c : Ascii.ascii) : bool :=
  let n := Ascii.N_of_ascii c in (48 <=? n) && (n <=? 57).

Fixpoint has (c : Ascii.ascii) (s : string) : bool :=
  match s with
  | EmptyString => false
  | String d s => Ascii.eqb c d || has c s
  end.

(** The text before and after the first [c]. *)
Fixpoint split_at (c : Ascii.ascii) (s : string) : option (string * string) :=
  match s with
  | EmptyString => None
  | String d s =>
      if Ascii.eqb c d then Some (EmptyString, s)
      else '(a, b) ← split_at c s; Some (String d a, b)
  end.

Lemma split_at_app c a b : has c a = false → split_at c (a +:+ String c b) = Some (a, b).
Proof.
  induction a as [|d a IH]; simpl; [by rewrite Ascii.eqb_refl|].
  intros [Hd Ha]%orb_false_iff. by rewrite Hd, IH.
Qed.

Lemma dec_no c n : is_digit c = false → has c (dec n) = false.
Proof.
  intros Hc. unfold dec. induction (N.to_uint n) as [|u IH|u IH|u IH|u IH|u IH|u IH|u IH|u IH|u IH|u IH];
    cbn [NilEmpty.string_of_uint has]; [done|rewrite IH, orb_false_r..];
    by match goal with |- Ascii.eqb c ?d = false => destruct (Ascii.eqb_spec c d) as [->|] end.
Qed.

Definition dot : Ascii.ascii := "."%char.
Definition colon : Ascii.ascii := ":"%char.
Definition percent : Ascii.ascii := "%"%char.
Definition bracket : Ascii.ascii := "["%char.

Definition show_addr (a : SocketAddr) : string :=
  match a with
  | V4 ip port =>
      dec (ip / 2 ^ 24) +:+ String dot (dec (ip / 2 ^ 16 mod 256) +:+
      String dot (dec (ip / 2 ^ 8 mod 256) +:+ String dot (dec (ip mod 256) +:+
      String colon (dec port))))
  | V6 ip port scope =>
      String bracket (dec ip +:+ String percent (dec scope +:+ String colon (dec port)))
  end.

Definition parse_v4 (s : string) : option SocketAddr :=
  '(a, s) ← split_at dot s; '(b, s) ← split_at dot s;
  '(c, s) ← split_at dot s; '(d, s) ← split_at colon s;
  a ← undec a; b ← undec b; c ← undec c; d ← undec d; port ← undec s;
  Some (V4 (a * 2 ^ 24 + b * 2 ^ 16 + c * 2 ^ 8 + d) port).

Definition parse_v6 (s : string) : option SocketAddr :=
  '(ip, s) ← split_at percent s; '(scope, s) ← split_at colon s;
  ip ← undec ip; scope ← undec scope; port ← undec s; Some (V6 ip port scope).

Definition read_addr (s : string) : option SocketAddr :=
  match s with
  | String c s' => if Ascii.eqb c bracket then parse_v6 s' else parse_v4 s
  | EmptyString => None
  end.

Lemma bytes_of_ip ip :
  ip / 2 ^ 24 * 2 ^ 24 + ip / 2 ^ 16 mod 256 * 2 ^ 16 + ip / 2 ^ 8 mod 256 * 2 ^ 8 + ip mod 256 = ip.
Proof.
  pose proof (N.div_mod ip 256 ltac:(done)).
  pose proof (N.div_mod (ip / 256) 256 ltac:(done)).
  pose proof (N.div_mod (ip / 256 / 256) 256 ltac:(done)).
  change (2 ^ 24) with (256 * (256 * 256)). change (2 ^ 16) with (256 * 256). change (2 ^ 8) with 256.
  rewrite <- !N.Div0.div_div. rewrite N.Div0.div_div in *. rewrite <- !N.Div0.div_div in *. lia.
Qed.

Lemma parse_v4_show ip port : parse_v4 (show_addr (V4 ip port)) = Some (V4 ip port).
Proof.
  unfold parse_v4, show_addr.
  do 3 (rewrite split_at_app by (by apply dec_no); cbn [mbind option_bind]).
  rewrite split_at_app by (by apply dec_no); cbn [mbind option_bind].
  rewrite !undec_dec. cbn [mbind option_bind]. by rewrite bytes_of_ip.
Qed.

Lemma dec_not_bracket n s : ∃ c s', dec n +:+ s = String c s' ∧ Ascii.eqb c bracket = false.
Proof.
  unfold dec. assert (N.to_uint n ≠ Decimal.Nil) as Hn.
  { intros Hn. pose proof (Unsigned.of_to n) as Ho. rewrite Hn in Ho. simpl in Ho. subst n. done. }
  destruct (N.to_uint n); [done|..]; by do 2 eexists.
Qed.

Lemma read_show a : read_addr (show_addr a) = Some a.
Proof.
  destruct a as [ip port|ip port scope].
  - pose proof (parse_v4_show ip port) as Hp. unfold show_addr in Hp |- *.
    destruct (dec_not_bracket (ip / 2 ^ 24) (String dot (dec (ip / 2 ^ 16 mod 256) +:+
      String dot (dec (ip / 2 ^ 8 mod 256) +:+ String dot (dec (ip mod 256) +:+
      String colon (dec port)))))) as (c & s' & Heq & Hc).
    rewrite Heq in Hp |- *. unfold read_addr. by rewrite Hc.
  - unfold read_addr, show_addr. rewrite Ascii.eqb_refl. unfold parse_v6.
    rewrite split_at_app by (by apply dec_no); cbn [mbind option_bind].
    rewrite split_at_app by (by apply dec_no); cbn [mbind option_bind].
    by rewrite !undec_dec.
Qed.

Definition addr_text : AddrText := {| addr_to_string := show_addr; addr_parse := read_addr |}.

#[export] Instance addr_text_laws : @AddrTextLaws addr_text.
Proof. split. apply read_show. Qed.

(** Four nodes on one host. *)
Definition node_1 : SocketAddr := V4 2130706433 8001.
Definition node_2 : SocketAddr := V4 2130706433 8002.
Definition node_3 : SocketAddr := V4 2130706433 8003.
Definition node_4 : SocketAddr := V4 2130706433 8004.

Example node_1_text : show_addr node_1 = "127.0.0.1:8001".
Proof. vm_compute. reflexivity. Qed.
