(* ===== verification/RingFacts.v ===== *)
(** * Runs of the ring's operations without lost messages, and the ring as a cycle *)

From S2P Require Export Ring.

(** ** Networks *)

Definition calm (w : Net) : Prop := links w = [].
Definition lives (w : Net) (a : SocketAddr) : Prop := is_Some (rings w !! a).

#[export] Instance lives_dec w a : Decision (lives w a).
Proof. unfold lives. apply _. Defined.

Definition upd (a : SocketAddr) (f : Ring → Ring) (w : Net) : Net :=
  mkNet (alter f a (rings w)) (jobs w) (links w).
Definition push (js : list Job) (w : Net) : Net := mkNet (rings w) (jobs w ++ js) (links w).
Definition leave (a : SocketAddr) (w : Net) : Net :=
  mkNet (delete a (rings w)) (jobs w) (links w).

Definition next_of (w : Net) (a : SocketAddr) : option SocketAddr :=
  (λ r, next (connection r)) <$> rings w !! a.
Definition prev_at (w : Net) (a : SocketAddr) : option SocketAddr :=
  (λ r, prev (connection r)) <$> rings w !! a.

(** [b] comes after [a], and both know. *)
Definition edge (w : Net) (a b : SocketAddr) : Prop :=
  next_of w a = Some b ∧ prev_at w b = Some a.

Fixpoint linked (w : Net) (l : list SocketAddr) : Prop :=
  match l with
  | a :: (b :: _) as l' => edge w a b ∧ linked w l'
  | _ => True
  end.

(** Every node knows its own address. *)
Definition named (w : Net) : Prop := map_Forall (λ a r, me r = a) (rings w).

(** The live nodes are [l], and they form one ring in that order. *)
Record ring_ok (l : list SocketAddr) (w : Net) : Prop := {
  ring_nonempty : l ≠ [];
  ring_nodup : NoDup l;
  ring_live : ∀ a, lives w a ↔ a ∈ l;
  ring_named : named w;
  ring_linked : ∀ d rest, l = d :: rest → linked w (l ++ [d])
}.

Lemma alter_insert_eq {A} (f : A → A) (a : SocketAddr) (m : gmap SocketAddr A) x :
  m !! a = Some x → <[a := f x]> m = alter f a m.
Proof.
  intros Hx. apply map_eq. intros b. destruct (decide (a = b)) as [->|].
  - by rewrite lookup_insert_eq, lookup_alter_eq, Hx.
  - by rewrite lookup_insert_ne, lookup_alter_ne.
Qed.

Lemma lives_upd a f w b : lives (upd a f w) b ↔ lives w b.
Proof.
  unfold lives, upd. simpl. destruct (decide (a = b)) as [->|].
  - rewrite lookup_alter_eq. apply fmap_is_Some.
  - by rewrite lookup_alter_ne.
Qed.

Lemma lives_upd_2 a f w b : lives w b → lives (upd a f w) b.
Proof. apply lives_upd. Qed.

Lemma calm_upd a f w : calm w → calm (upd a f w).
Proof. done. Qed.

Lemma named_upd a f w : (∀ r, me (f r) = me r) → named w → named (upd a f w).
Proof.
  intros Hf Hw b r. unfold upd; simpl. rewrite lookup_alter_Some.
  intros [(<- & r0 & Hr & ->)|[_ Hr]]; [rewrite Hf|]; by apply Hw.
Qed.

Lemma named_leave a w : named w → named (leave a w).
Proof.
  intros Hw b r. unfold leave; simpl. intros [_ Hr]%lookup_delete_Some. by apply Hw.
Qed.
#[export] Hint Resolve lives_upd_2 calm_upd : prog.

Section runs.
Context `{AddrText} `{!AddrTextLaws}.

Lemma addr_to_string_inj a b : addr_to_string a = addr_to_string b → a = b.
Proof.
  intros Heq. pose proof (addr_parse_to_string a) as Ha.
  rewrite Heq, addr_parse_to_string in Ha. by injection Ha.
Qed.

Lemma serve_change a f w :
  lives w a → serve a (change f) w = (Done tt, upd a f w).
Proof.
  intros [r Hr]. unfold serve. rewrite Hr. unfold change, modify, set_ring, upd. simpl.
  by rewrite app_nil_r, (alter_insert_eq f a _ r).
Qed.

Lemma rpc_up {A} a (body : Run A) w : calm w → lives w a → rpc a body w = body w.
Proof.
  intros Hc Ha. unfold rpc, next_link, bind, alive, gets. rewrite Hc.
  by rewrite (bool_decide_eq_true_2 _ Ha).
Qed.

Lemma rpc_dead {A} a (body : Run A) w : calm w → ¬ lives w a → rpc a body w = (Fail ETransport, w).
Proof.
  intros Hc Ha. unfold rpc, next_link, bind, alive, gets. rewrite Hc.
  by rewrite (bool_decide_eq_false_2 _ Ha).
Qed.

Lemma serve_then {A} a f (x : A) w :
  lives w a → serve a (change f ;; ret x) w = (Done x, upd a f w).
Proof.
  intros [r Hr]. unfold serve. rewrite Hr. unfold bind, change, modify, set_ring, upd. simpl.
  by rewrite app_nil_r, (alter_insert_eq f a _ r).
Qed.

Lemma set_next_wrapper_run a dest w :
  calm w → lives w dest →
  set_next_wrapper a dest w = (Done tt, upd dest (with_next a) w).
Proof.
  intros Hc Hl. unfold set_next_wrapper. unfold bind at 1. rewrite rpc_up by done.
  unfold set_next. rewrite addr_parse_to_string. by rewrite serve_then.
Qed.

Lemma set_prev_wrapper_run a dest w :
  calm w → lives w dest →
  set_prev_wrapper a dest w = (Done tt, upd dest (with_prev a) w).
Proof.
  intros Hc Hl. unfold set_prev_wrapper. unfold bind at 1. rewrite rpc_up by done.
  unfold set_prev. rewrite addr_parse_to_string. by rewrite serve_then.
Qed.

Lemma set_next_wrapper_dead a dest w :
  calm w → ¬ lives w dest → set_next_wrapper a dest w = (Fail ETransport, w).
Proof. intros Hc Hl. unfold set_next_wrapper, bind. by rewrite rpc_dead. Qed.

Lemma upd_id a w r : rings w !! a = Some r → mkNet (<[a := r]> (rings w)) (jobs w) (links w) = w.
Proof. intros Hr. rewrite insert_id by done. by destruct w. Qed.

Lemma serve_self a w r : rings w !! a = Some r → serve a self w = (Done r, w).
Proof.
  intros Hr. unfold serve. rewrite Hr. unfold self, gets. simpl. rewrite app_nil_r.
  by rewrite upd_id.
Qed.

Lemma prev_of_run a p w : prev_at w a = Some p → prev_of a w = (Done p, w).
Proof.
  unfold prev_at, prev_of, serve. destruct (rings w !! a) as [r|] eqn:Hr; [|done].
  intros [= Hp]. unfold bind, self, gets, ret. simpl. rewrite app_nil_r, Hp.
  by rewrite upd_id.
Qed.

Lemma join_old_prev_run d p w : prev_at w d = Some p → join_old_prev d w = (Done p, w).
Proof. apply prev_of_run. Qed.

Lemma join_swap_prev_run d p a w :
  prev_at w d = Some p → join_swap_prev d a w = (Done p, upd d (with_prev a) w).
Proof.
  unfold prev_at, join_swap_prev, serve. destruct (rings w !! d) as [r|] eqn:Hr; [|done].
  intros [= Hp]. unfold bind, self, gets, ret, change, modify, set_ring, upd. simpl.
  by rewrite app_nil_r, Hp, (alter_insert_eq (with_prev a) d _ r).
Qed.

Lemma prev_at_lives w a p : prev_at w a = Some p → lives w a.
Proof. unfold prev_at, lives. destruct (rings w !! a); [by eexists|done]. Qed.
Lemma next_of_lives w a p : next_of w a = Some p → lives w a.
Proof. unfold next_of, lives. destruct (rings w !! a); [by eexists|done]. Qed.

(** The network once [a] has joined before [d], whose predecessor was [p]. *)
Definition spliced_in (d p a : SocketAddr) (w : Net) : Net :=
  upd p (with_next a) (upd d (with_prev a) w).

Lemma join_run d p a w :
  calm w → prev_at w d = Some p → lives w p →
  join d (addr_to_string a) w = (Done (Prev (addr_to_string p)), spliced_in d p a w).
Proof.
  intros Hc Hp Hl. unfold join, attempt, join_impl. unfold bind at 1. unfold bind at 1.
  rewrite (join_old_prev_run d p) by done. unfold bind at 1, attempt, join_impl_no_rollback.
  rewrite addr_parse_to_string. unfold bind at 1. cbn [or_fail ret].
  unfold bind at 1. rewrite (join_swap_prev_run d p) by done.
  rewrite set_next_wrapper_run by eauto with prog. done.
Qed.

Lemma main_join_run a nx p w :
  calm w → lives w a → prev_at w nx = Some p → lives w p →
  main_join a nx w = (Done tt, upd a (with_prev p) (upd a (with_next nx) (spliced_in nx p a w))).
Proof.
  intros Hc Ha Hp Hl. unfold main_join. unfold bind at 1.
  rewrite rpc_up by eauto using prev_at_lives.
  rewrite (join_run nx p) by done. cbn [main_joined]. unfold bind at 1.
  rewrite serve_change by (unfold spliced_in; eauto with prog).
  unfold bind at 1. rewrite addr_parse_to_string. cbn [or_fail ret].
  apply serve_change. unfold spliced_in. eauto with prog.
Qed.

Lemma shutdown_run a p n w :
  calm w → prev_at w a = Some p → next_of w a = Some n → lives w p → lives w n →
  shutdown a w = (Done tt, leave a (upd p (with_next n) (upd n (with_prev p) w))).
Proof.
  unfold prev_at, next_of. destruct (rings w !! a) as [r|] eqn:Hr; [|done]. simpl.
  intros Hc [= Hp] [= Hn] Hlp Hln. unfold shutdown. unfold bind at 1.
  rewrite (serve_self a w r Hr). rewrite Hp, Hn. unfold bind at 1, attempt at 1.
  rewrite set_prev_wrapper_run by done. unfold bind at 1, attempt at 1.
  by rewrite set_next_wrapper_run by eauto with prog.
Qed.

End runs.

(** ** Pointers after an update *)

Lemma next_of_with_next a b w x :
  lives w b → next_of (upd b (with_next a) w) x = if decide (b = x) then Some a else next_of w x.
Proof.
  intros [r Hr]. unfold next_of, upd; simpl. case_decide as Hd; [subst|].
  - by rewrite lookup_alter_eq, Hr.
  - by rewrite lookup_alter_ne.
Qed.

Lemma prev_at_with_prev a b w x :
  lives w b → prev_at (upd b (with_prev a) w) x = if decide (b = x) then Some a else prev_at w x.
Proof.
  intros [r Hr]. unfold prev_at, upd; simpl. case_decide as Hd; [subst|].
  - by rewrite lookup_alter_eq, Hr.
  - by rewrite lookup_alter_ne.
Qed.

Lemma next_of_with_prev a b w x : next_of (upd b (with_prev a) w) x = next_of w x.
Proof.
  unfold next_of, upd; simpl. destruct (decide (b = x)) as [->|].
  - rewrite lookup_alter_eq. by destruct (rings w !! x).
  - by rewrite lookup_alter_ne.
Qed.

Lemma prev_at_with_next a b w x : prev_at (upd b (with_next a) w) x = prev_at w x.
Proof.
  unfold prev_at, upd; simpl. destruct (decide (b = x)) as [->|].
  - rewrite lookup_alter_eq. by destruct (rings w !! x).
  - by rewrite lookup_alter_ne.
Qed.

Lemma next_of_leave a w x : a ≠ x → next_of (leave a w) x = next_of w x.
Proof. intros. unfold next_of, leave; simpl. by rewrite lookup_delete_ne. Qed.
Lemma prev_at_leave a w x : a ≠ x → prev_at (leave a w) x = prev_at w x.
Proof. intros. unfold prev_at, leave; simpl. by rewrite lookup_delete_ne. Qed.

(** ** Cycles *)

Lemma linked_app w l1 x l2 :
  linked w (l1 ++ x :: l2) ↔ linked w (l1 ++ [x]) ∧ linked w (x :: l2).
Proof.
  induction l1 as [|a l1 IH]; [simpl; tauto|].
  destruct l1 as [|b l1]; [simpl; tauto|].
  change ((a :: b :: l1) ++ x :: l2) with (a :: b :: (l1 ++ x :: l2)).
  change ((a :: b :: l1) ++ [x]) with (a :: b :: (l1 ++ [x])).
  cbn [linked]. cbn [app] in IH. rewrite IH. tauto.
Qed.

Lemma linked_mono w w' l :
  linked w l →
  (∀ l1 a b l2, l = l1 ++ a :: b :: l2 → edge w a b → edge w' a b) →
  linked w' l.
Proof.
  induction l as [|a [|b l] IH]; [done..|]. intros [He Hl] Hmono. split.
  - by apply (Hmono [] a b l).
  - apply IH; [done|]. intros l1 x y l2 Heq. apply (Hmono (a :: l1) x y l2).
    by rewrite Heq.
Qed.

(** The cycle may be read from any of its nodes. *)
Lemma ring_ok_rotate l1 l2 w : ring_ok (l1 ++ l2) w → ring_ok (l2 ++ l1) w.
Proof.
  intros [Hne Hnd Hlive Hme Hl]. split; [| | |done|].
  - intros Hnil. apply Hne. apply app_nil in Hnil as [-> ->]. done.
  - by rewrite (Permutation_app_comm l2 l1).
  - intros a. rewrite Hlive. set_solver.
  - intros d rest Heq. destruct l1 as [|x l1].
    { rewrite app_nil_r in *. by eapply Hl. }
    destruct l2 as [|y l2]; simplify_eq/=.
    { specialize (Hl d rest). rewrite app_nil_r in Hl. by apply Hl. }
    specialize (Hl x (l1 ++ d :: l2) eq_refl). rewrite <- app_assoc in Hl.
    apply (linked_app w (x :: l1) d (l2 ++ [x])) in Hl as [H1 H2].
    rewrite <- app_assoc. by apply (linked_app w (d :: l2) x (l1 ++ [d])).
Qed.

(** The closing edge and the inner path of a ring read from [d]. *)
Lemma ring_ok_path d rest w :
  ring_ok (d :: rest) w →
  linked w (d :: rest) ∧ edge w (List.last rest d) d.
Proof.
  intros [_ _ _ _ Hl]. specialize (Hl d rest eq_refl).
  destruct rest as [|x rest _] using rev_ind; [simpl in *; tauto|].
  rewrite List.last_last.
  rewrite app_comm_cons, <- app_assoc in Hl.
  apply (linked_app w (d :: rest) x [d]) in Hl as [H1 [H2 _]]. done.
Qed.

Lemma ring_ok_intro d rest w :
  NoDup (d :: rest) → (∀ a, lives w a ↔ a ∈ d :: rest) → named w →
  linked w (d :: rest) → edge w (List.last rest d) d → ring_ok (d :: rest) w.
Proof.
  intros Hnd Hlive Hme Hp He. split; [done..|]. intros d' rest' [= <- <-].
  destruct rest as [|x rest _] using rev_ind; [by split|].
  rewrite List.last_last in He.
  rewrite app_comm_cons, <- app_assoc.
  apply (linked_app w (d :: rest) x [d]). by split.
Qed.

Lemma last_in {A} (d : A) rest : List.last rest d ∈ d :: rest.
Proof.
  destruct rest as [|x rest _] using rev_ind; [by left|].
  rewrite List.last_last. set_solver.
Qed.

Lemma head_last_split {A} (d : A) rest : ∃ l, d :: rest = l ++ [List.last rest d].
Proof.
  destruct rest as [|x rest _] using rev_ind; [by exists []|].
  rewrite List.last_last. by exists (d :: rest).
Qed.

(** Inside a path without repetitions no edge leaves its end or enters its start. *)
Lemma adjacent_inner {A} (d : A) rest l1 x y l2 :
  NoDup (d :: rest) → d :: rest = l1 ++ x :: y :: l2 →
  x ∈ d :: rest ∧ y ∈ d :: rest ∧ x ≠ List.last rest d ∧ y ≠ d.
Proof.
  intros Hnd Heq. split_and!; [rewrite Heq; set_solver..| |].
  - destruct (head_last_split d rest) as [l Hl]. rewrite Hl in Hnd. intros ->.
    rewrite Hl in Heq. destruct l2 as [|z l2 _] using rev_ind.
    + change (List.last rest d :: [y]) with ([List.last rest d] ++ [y]) in Heq.
      rewrite app_assoc in Heq. apply app_inj_tail in Heq as [-> Heq].
      apply NoDup_app in Hnd as (_ & Hd & _). apply (Hd (List.last rest d)); set_solver.
    + change (List.last rest d :: y :: l2 ++ [z]) with ((List.last rest d :: y :: l2) ++ [z]) in Heq.
      rewrite app_assoc in Heq. apply app_inj_tail in Heq as [-> Heq].
      apply NoDup_app in Hnd as (_ & Hd & _). apply (Hd (List.last rest d)); set_solver.
  - intros ->. destruct l1 as [|z l1]; simplify_eq/=;
      apply NoDup_cons in Hnd as [Hnin _]; apply Hnin; set_solver.
Qed.

(** A path keeps when only the ends' outer pointers change. *)
Lemma linked_inner w w' d rest :
  NoDup (d :: rest) → linked w (d :: rest) →
  (∀ x, x ∈ d :: rest → x ≠ List.last rest d → next_of w' x = next_of w x) →
  (∀ x, x ∈ d :: rest → x ≠ d → prev_at w' x = prev_at w x) →
  linked w' (d :: rest).
Proof.
  intros Hnd Hl Hn Hp. eapply linked_mono; [exact Hl|].
  intros l1 x y l2 Heq [He1 He2].
  destruct (adjacent_inner d rest l1 x y l2 Hnd Heq) as (Hx & Hy & Hxl & Hyd).
  split; [by rewrite Hn|by rewrite Hp].
Qed.

(** Only the pointers matter. *)
Record same_pointers (w w' : Net) : Prop := {
  sp_next : ∀ a, next_of w' a = next_of w a;
  sp_prev : ∀ a, prev_at w' a = prev_at w a;
  sp_lives : ∀ a, lives w' a ↔ lives w a;
  sp_named : named w → named w'
}.

#[export] Instance same_pointers_preorder : PreOrder same_pointers.
Proof.
  split; [by intros w|]. intros w1 w2 w3 [Hn1 Hp1 Hl1 Hm1] [Hn2 Hp2 Hl2 Hm2].
  split; [congruence|congruence| |auto]. intros a. by rewrite Hl2.
Qed.

Lemma same_pointers_upd a f w :
  (∀ r, connection (f r) = connection r) → (∀ r, me (f r) = me r) →
  same_pointers w (upd a f w).
Proof.
  intros Hf Hm. split; [| |apply lives_upd|by apply named_upd].
  - intros x. unfold next_of, upd; simpl. destruct (decide (a = x)) as [->|].
    + rewrite lookup_alter_eq. destruct (rings w !! x); simpl; [by rewrite Hf|done].
    + by rewrite lookup_alter_ne.
  - intros x. unfold prev_at, upd; simpl. destruct (decide (a = x)) as [->|].
    + rewrite lookup_alter_eq. destruct (rings w !! x); simpl; [by rewrite Hf|done].
    + by rewrite lookup_alter_ne.
Qed.

Lemma ring_ok_same l w w' : same_pointers w w' → ring_ok l w → ring_ok l w'.
Proof.
  intros [Hn Hp Hl Hm] [Hne Hnd Hlive Hme Hlink]. split; [done..| | |].
  - intros a. by rewrite Hl.
  - by apply Hm.
  - intros d rest Heq. eapply linked_mono; [by eapply Hlink|].
    intros l1 a b l2 _ [He1 He2]. split; [by rewrite Hn|by rewrite Hp].
Qed.

(** In a ring a node's predecessor points back at it. *)
Lemma ring_ok_back l w a :
  ring_ok l w → lives w a → ∃ p, prev_at w a = Some p ∧ next_of w p = Some a.
Proof.
  intros Hok Ha. apply (ring_live _ _ Hok) in Ha.
  apply list_elem_of_split in Ha as (l1 & l2 & ->). apply ring_ok_rotate in Hok.
  apply ring_ok_path in Hok as [_ [Hn Hp]]. by eexists.
Qed.

(** ** Deciding it *)

#[export] Instance edge_dec w a b : Decision (edge w a b).
Proof. unfold edge. apply _. Defined.
#[export] Instance named_dec w : Decision (named w).
Proof. unfold named. apply _. Defined.
#[export] Instance linked_dec w l : Decision (linked w l).
Proof.
  induction l as [|a [|b l] IH]; [left; exact I..|].
  change (Decision (edge w a b ∧ linked w (b :: l))). apply _.
Defined.

Definition ring_check (d : SocketAddr) (rest : list SocketAddr) (w : Net) : bool :=
  bool_decide (NoDup (d :: rest)) &&
  bool_decide (dom (rings w) = list_to_set (d :: rest)) &&
  bool_decide (named w) && bool_decide (linked w (d :: rest)) &&
  bool_decide (edge w (List.last rest d) d).

Lemma ring_check_ok d rest w : ring_check d rest w = true → ring_ok (d :: rest) w.
Proof.
  unfold ring_check. rewrite !andb_true_iff, !bool_decide_eq_true.
  intros [[[[Hnd Hdom] Hme] Hl] He]. apply ring_ok_intro; try done.
  intros a. unfold lives. by rewrite <- elem_of_dom, Hdom, elem_of_list_to_set.
Qed.
