(* ===== verification/RingProps.v ===== *)
(** * Joining, leaving and recovering

    What the ring's operations do to the cycle of live nodes. *)

From S2P Require Import RingFacts.

Section membership.
Context `{AddrText} `{!AddrTextLaws}.

(** ** Joining *)

Definition arrive (a : SocketAddr) (w : Net) : Net :=
  mkNet (<[a := fresh_ring a]> (rings w)) (jobs w) (links w).

Lemma ring_last_live d rest w : ring_ok (d :: rest) w → lives w (List.last rest d).
Proof.
  intros Hok. destruct (ring_ok_path _ _ _ Hok) as [_ [He _]]. by eapply next_of_lives.
Qed.

Lemma lives_arrive a w b : lives (arrive a w) b ↔ a = b ∨ lives w b.
Proof.
  unfold lives, arrive; simpl. destruct (decide (a = b)) as [->|].
  - rewrite lookup_insert_eq. naive_solver.
  - rewrite lookup_insert_ne by done. tauto.
Qed.

Lemma next_of_arrive a w x : a ≠ x → next_of (arrive a w) x = next_of w x.
Proof. intros. unfold next_of, arrive; simpl. by rewrite lookup_insert_ne. Qed.
Lemma prev_at_arrive a w x : a ≠ x → prev_at (arrive a w) x = prev_at w x.
Proof. intros. unfold prev_at, arrive; simpl. by rewrite lookup_insert_ne. Qed.

Lemma linked_snoc w l x y :
  linked w (l ++ [x]) → edge w x y → linked w (l ++ [x; y]).
Proof. intros Hl He. apply (linked_app w l x [y]). by split. Qed.

(** The network once [a] has started and joined before [d], whose predecessor was [p]. *)
Definition joined (a d p : SocketAddr) (w : Net) : Net :=
  upd a (with_prev p) (upd a (with_next d) (spliced_in d p a (arrive a w))).

Lemma next_of_joined a d p w x :
  lives w p → a ≠ p →
  next_of (joined a d p w) x =
    if decide (a = x) then Some d else if decide (p = x) then Some a else next_of w x.
Proof.
  intros Hp Hne. unfold joined, spliced_in.
  assert (lives (arrive a w) a) by (apply lives_arrive; by left).
  assert (lives (arrive a w) p) by (apply lives_arrive; by right).
  rewrite next_of_with_prev, next_of_with_next by eauto with prog.
  destruct (decide (a = x)); [done|]. rewrite next_of_with_next by eauto with prog.
  destruct (decide (p = x)); [done|]. by rewrite next_of_with_prev, next_of_arrive.
Qed.

Lemma prev_at_joined a d p w x :
  lives w d → a ≠ d →
  prev_at (joined a d p w) x =
    if decide (a = x) then Some p else if decide (d = x) then Some a else prev_at w x.
Proof.
  intros Hd Hne. unfold joined, spliced_in.
  assert (lives (arrive a w) a) by (apply lives_arrive; by left).
  assert (lives (arrive a w) d) by (apply lives_arrive; by right).
  rewrite prev_at_with_prev by eauto with prog. destruct (decide (a = x)); [done|].
  rewrite prev_at_with_next, prev_at_with_next, prev_at_with_prev by eauto with prog.
  destruct (decide (d = x)); [done|]. by rewrite prev_at_arrive.
Qed.

Lemma named_joined a d p w : named w → named (joined a d p w).
Proof.
  intros Hw. do 4 (apply named_upd; [done|]). intros b r. unfold arrive; simpl.
  rewrite lookup_insert_Some. intros [[<- <-]|[_ Hr]]; [done|by apply Hw].
Qed.

Lemma ring_insert a d rest w :
  ring_ok (d :: rest) w → a ∉ d :: rest →
  ring_ok (d :: rest ++ [a]) (joined a d (List.last rest d) w).
Proof.
  intros Hok Ha. pose proof (ring_live _ _ Hok) as Hlive.
  pose proof (ring_nodup _ _ Hok) as Hnd.
  destruct (ring_ok_path _ _ _ Hok) as [Hpath [He1 He2]].
  set (p := List.last rest d) in *.
  assert (lives w p) as Hlp by by eapply next_of_lives.
  assert (lives w d) as Hld by by eapply prev_at_lives.
  assert (∀ x, x ∈ d :: rest → a ≠ x) as Hax by (intros x Hx ->; done).
  pose proof (Hax p (last_in d rest)) as Hap. pose proof (Hax d ltac:(by left)) as Had.
  apply ring_ok_intro.
  - rewrite app_comm_cons. apply NoDup_app. split; [done|].
    split; [set_solver|]. apply NoDup_singleton.
  - intros x. unfold joined, spliced_in. rewrite !lives_upd, lives_arrive, Hlive. set_solver.
  - by apply named_joined, Hok.
  - destruct (head_last_split d rest) as [l Hl]. rewrite app_comm_cons.
    assert (linked (joined a d p w) (d :: rest)) as Hpath'.
    { eapply linked_inner; [done|exact Hpath|..]; intros x Hx Hxne.
      - rewrite next_of_joined, decide_False, decide_False; auto.
      - rewrite prev_at_joined, decide_False, decide_False; auto. }
    rewrite Hl in Hpath' |- *. rewrite <- app_assoc. apply linked_snoc; [done|]. fold p. split.
    + rewrite next_of_joined, decide_False, decide_True; auto.
    + rewrite prev_at_joined, decide_True; auto.
  - rewrite List.last_last. split.
    + rewrite next_of_joined, decide_True; auto.
    + rewrite prev_at_joined, decide_False, decide_True; auto.
Qed.

Lemma main_start_run a d rest w :
  calm w → ring_ok (d :: rest) w → a ∉ d :: rest →
  main_start a (Some d) w = (Done tt, joined a d (List.last rest d) w).
Proof.
  intros Hc Hok Ha. destruct (ring_ok_path _ _ _ Hok) as [_ [He1 He2]].
  assert (a ≠ d) by (intros ->; apply Ha; by left).
  unfold main_start. unfold bind at 1, modify. fold (arrive a w).
  unfold bind at 1, attempt.
  rewrite (main_join_run a d (List.last rest d)); [done|done|..].
  - apply lives_arrive. by left.
  - by rewrite prev_at_arrive.
  - apply lives_arrive. right. by eapply next_of_lives.
Qed.

(** ** Leaving *)

Definition left_ring (a p n : SocketAddr) (w : Net) : Net :=
  leave a (upd p (with_next n) (upd n (with_prev p) w)).

Lemma next_of_left a p n w x :
  lives w p → a ≠ x →
  next_of (left_ring a p n w) x = if decide (p = x) then Some n else next_of w x.
Proof.
  intros Hp Hx. unfold left_ring. rewrite next_of_leave by done.
  rewrite next_of_with_next by eauto with prog. case_decide; [done|].
  by rewrite next_of_with_prev.
Qed.

Lemma prev_at_left a p n w x :
  lives w n → a ≠ x →
  prev_at (left_ring a p n w) x = if decide (n = x) then Some p else prev_at w x.
Proof.
  intros Hn Hx. unfold left_ring. rewrite prev_at_leave by done.
  rewrite prev_at_with_next. by rewrite prev_at_with_prev.
Qed.

Lemma lives_leave a w b : lives (leave a w) b ↔ a ≠ b ∧ lives w b.
Proof.
  unfold lives, leave; simpl. destruct (decide (a = b)) as [->|].
  - rewrite lookup_delete_eq. split; [by intros []|tauto].
  - rewrite lookup_delete_ne by done. tauto.
Qed.

Lemma ring_remove a n rest w :
  ring_ok (a :: n :: rest) w →
  ring_ok (n :: rest) (left_ring a (List.last rest n) n w).
Proof.
  intros Hok. pose proof (ring_live _ _ Hok) as Hlive.
  pose proof (ring_nodup _ _ Hok) as [Ha Hnd]%NoDup_cons.
  destruct (ring_ok_path _ _ _ Hok) as [[_ Hpath] _].
  set (p := List.last rest n) in *.
  assert (∀ x, x ∈ n :: rest → a ≠ x) as Hax by (intros x Hx ->; done).
  assert (lives w p) as Hlp by (apply Hlive; right; apply last_in).
  assert (lives w n) as Hln by (apply Hlive; right; by left).
  apply ring_ok_intro; [done|..].
  - intros x. unfold left_ring. rewrite lives_leave, !lives_upd, Hlive. set_solver.
  - apply named_leave. do 2 (apply named_upd; [done|]). apply Hok.
  - eapply linked_inner; [done|exact Hpath|..]; intros x Hx Hxne.
    + rewrite next_of_left, decide_False; auto.
    + rewrite prev_at_left, decide_False; auto.
  - split.
    + rewrite next_of_left, decide_True; auto. apply Hax, last_in.
    + rewrite prev_at_left, decide_True; auto. apply Hax. by left.
Qed.

Lemma shutdown_ring_run a n rest w :
  calm w → ring_ok (a :: n :: rest) w →
  shutdown a w = (Done tt, left_ring a (List.last rest n) n w).
Proof.
  intros Hc Hok. pose proof (ring_live _ _ Hok) as Hlive.
  destruct (ring_ok_path _ _ _ Hok) as [[[He1 _] _] [_ He2]].
  assert (List.last (n :: rest) a = List.last rest n) as Hlast.
  { destruct rest as [|x rest _] using rev_ind; [done|].
    rewrite app_comm_cons, !List.last_last. done. }
  apply shutdown_run; [done|by rewrite Hlast in He2|done|..];
    apply Hlive; right; [apply last_in|by left].
Qed.

(** ** Membership *)

Fixpoint insert_before (a d : SocketAddr) (l : list SocketAddr) : list SocketAddr :=
  match l with
  | [] => []
  | x :: l => if decide (x = d) then a :: x :: l else x :: insert_before a d l
  end.

(** What joining and leaving mean for the sequence of members; [None] where the
    specification does not say. *)
Definition member_spec (ev : NetEvent) (l : list SocketAddr) : option (list SocketAddr) :=
  match ev with
  | EvStart a (Some d) =>
      if decide ((a ∉ l) ∧ d ∈ l) then Some (insert_before a d l) else None
  | EvShutdown a =>
      if decide (a ∈ l ∧ (1 < length l)%nat)
      then Some (filter (λ x, x ≠ a) l) else None
  | EvRecv _ => Some l
  | _ => None
  end.

Fixpoint member_specs (evs : list NetEvent) (l : list SocketAddr) : option (list SocketAddr) :=
  match evs with
  | [] => Some l
  | ev :: evs => l' ← member_spec ev l; member_specs evs l'
  end.

Lemma insert_before_split a d l1 l2 :
  d ∉ l1 → insert_before a d (l1 ++ d :: l2) = l1 ++ a :: d :: l2.
Proof.
  induction l1 as [|x l1 IH]; intros Hd; simpl; [by rewrite decide_True|].
  apply not_elem_of_cons in Hd as [Hx Hd]. rewrite decide_False by done. by rewrite IH.
Qed.

Lemma start_refines a d l w :
  calm w → ring_ok l w → a ∉ l → d ∈ l →
  ring_ok (insert_before a d l) (after_event (EvStart a (Some d)) w) ∧
  calm (after_event (EvStart a (Some d)) w).
Proof.
  intros Hc Hok Ha Hd. apply list_elem_of_split in Hd as (l1 & l2 & ->).
  pose proof (ring_nodup _ _ Hok) as Hnd.
  assert (d ∉ l1) as Hd1.
  { apply NoDup_app in Hnd as (_ & Hdis & _). intros Hd1. apply (Hdis d Hd1). by left. }
  rewrite insert_before_split by done. apply ring_ok_rotate in Hok.
  unfold after_event. cbn [run_event].
  rewrite (main_start_run a d (l2 ++ l1)); [|done|done|set_solver]. simpl.
  split; [|done]. apply (ring_insert a) in Hok; [|set_solver].
  cbn [app] in Hok. rewrite <- app_assoc in Hok. rewrite app_comm_cons in Hok.
  apply ring_ok_rotate in Hok. by rewrite <- app_assoc in Hok.
Qed.

Lemma recv_refines a l w :
  calm w → ring_ok l w →
  ring_ok l (after_event (EvRecv a) w) ∧ calm (after_event (EvRecv a) w).
Proof.
  intros Hc Hok. unfold after_event. cbn [run_event]. unfold watcher_recv.
  destruct (rings w !! a) as [r|] eqn:Hr.
  - unfold serve at 1 2. rewrite Hr. unfold change, modify. simpl. split; [|done].
    rewrite app_nil_r. set (f := λ r, with_health_checks (health_checks r - 1) r).
    change (with_health_checks (health_checks r - 1) r) with (f r).
    rewrite (alter_insert_eq f a _ r Hr).
    eapply (ring_ok_same l w (upd a f w)); [by apply same_pointers_upd|done].
  - unfold serve. by rewrite Hr.
Qed.

Lemma filter_other (a : SocketAddr) (l : list SocketAddr) : a ∉ l → filter (λ x, x ≠ a) l = l.
Proof.
  induction l as [|x l IH]; intros Ha; [done|]. apply not_elem_of_cons in Ha as [Hx Ha].
  rewrite filter_cons_True by done. by rewrite IH.
Qed.

Lemma shutdown_refines a l w :
  calm w → ring_ok l w → a ∈ l → (1 < length l)%nat →
  ring_ok (filter (λ x, x ≠ a) l) (after_event (EvShutdown a) w) ∧
  calm (after_event (EvShutdown a) w).
Proof.
  intros Hc Hok Ha Hlen. apply list_elem_of_split in Ha as (l1 & l2 & ->).
  pose proof (ring_nodup _ _ Hok) as Hnd.
  apply NoDup_app in Hnd as (_ & Hdis & [Ha2 _]%NoDup_cons).
  assert (a ∉ l1) as Ha1 by (intros Ha1; apply (Hdis a Ha1); by left).
  rewrite filter_app, filter_cons_False, !filter_other by naive_solver.
  apply ring_ok_rotate in Hok. cbn [app] in Hok. rewrite length_app in Hlen. simpl in Hlen.
  unfold after_event. cbn [run_event].
  destruct (l2 ++ l1) as [|n rest] eqn:Hl.
  { apply app_nil in Hl as [-> ->]. simpl in Hlen. lia. }
  rewrite (shutdown_ring_run a n rest) by done. simpl. split; [|done].
  apply ring_remove in Hok. rewrite <- Hl in Hok. by apply ring_ok_rotate.
Qed.

(** C2. Membership.  As long as messages get through and one thing happens at a time, any
    sequence of joins through any member and of graceful shutdowns keeps the live
    nodes one ring, in the order in which [member_spec] inserts and removes them. *)
Theorem membership_refines evs l l' w :
  calm w → ring_ok l w → member_specs evs l = Some l' →
  ring_ok l' (after_events evs w).
Proof.
  revert l w. induction evs as [|ev evs IH]; intros l w Hc Hok; simpl; [by intros [= <-]|].
  intros (l1 & Hev & Hevs)%bind_Some.
  assert (ring_ok l1 (after_event ev w) ∧ calm (after_event ev w)) as [Hok1 Hc1].
  { destruct ev as [a [d|]|a|a|a|a|a el|]; simpl in Hev; try done; try case_decide; simplify_eq.
    - by apply start_refines; [| |tauto..].
    - by apply shutdown_refines; [| |tauto..].
    - by apply recv_refines. }
  by apply (IH l1).
Qed.

(** ** Failing joins *)

Lemma upd_prev_restored d p a w :
  prev_at w d = Some p → rings (upd d (with_prev p) (upd d (with_prev a) w)) = rings w.
Proof.
  intros Hp. unfold upd; simpl. apply map_eq. intros x.
  destruct (decide (d = x)) as [->|]; [|by rewrite !lookup_alter_ne].
  rewrite !lookup_alter_eq. unfold prev_at in Hp.
  destruct (rings w !! x) as [[? ? [] ? ?]|]; [|done]. simpl in *. by simplify_eq.
Qed.

Lemma upd_prev_same d p w : prev_at w d = Some p → rings (upd d (with_prev p) w) = rings w.
Proof.
  intros Hp. unfold upd; simpl. apply map_eq. intros x.
  destruct (decide (d = x)) as [->|]; [|by rewrite lookup_alter_ne].
  rewrite lookup_alter_eq. unfold prev_at in Hp.
  destruct (rings w !! x) as [[? ? [] ? ?]|]; [|done]. simpl in *. by simplify_eq.
Qed.

Definition spend (w : Net) : Net := mkNet (rings w) (jobs w) (tail (links w)).

Lemma upd_spend a f w : upd a f (spend w) = spend (upd a f w).
Proof. done. Qed.

(** Whether an RPC to [dest] gets an answer, and whether it is carried out. *)
Definition answered (dest : SocketAddr) (w : Net) : bool :=
  bool_decide (lives w dest) && match links w with [] | Up :: _ => true | _ => false end.
Definition carried_out (dest : SocketAddr) (w : Net) : bool :=
  bool_decide (lives w dest) && match links w with Refused :: _ => false | _ => true end.

Lemma rpc_any {A} dest (body : Run A) w :
  rpc dest body w =
    if bool_decide (lives w dest) then
      match links w with
      | [] | Up :: _ => body (spend w)
      | Refused :: _ => (Fail ETransport, spend w)
      | ReplyLost :: _ => (body ;; fail ETransport) (spend w)
      end
    else (Fail ETransport, spend w).
Proof.
  destruct w as [rs js ls]. unfold rpc, next_link, alive, gets, bind at 1, lives, spend. simpl.
  destruct ls as [|[] ls]; unfold bind at 1; simpl; repeat case_bool_decide; done.
Qed.

Lemma set_next_wrapper_any a dest w :
  set_next_wrapper a dest w =
    ((if answered dest w then Done tt else Fail ETransport),
     (if carried_out dest w then upd dest (with_next a) (spend w) else spend w)).
Proof.
  unfold set_next_wrapper, answered, carried_out. unfold bind at 1. rewrite rpc_any.
  unfold set_next. rewrite addr_parse_to_string.
  destruct (bool_decide_reflect (lives w dest)) as [Hl|]; [|done].
  change (lives (spend w) dest) in Hl.
  pose proof (serve_then dest (with_next a) (mkSetAddressResponse None) _ Hl) as Hs.
  set (h := change _ ;; ret _) in *.
  destruct (links w) as [|[] ls]; simpl; unfold bind; by rewrite ?Hs.
Qed.

(** [join] whatever becomes of its call to the predecessor. *)
Definition told (d p a : SocketAddr) (w : Net) : Net :=
  let w1 := upd d (with_prev a) w in
  if carried_out p w1 then upd p (with_next a) (spend w1) else spend w1.

Lemma join_any d p a text w :
  prev_at w d = Some p → addr_parse text = Some a →
  join d text w =
    if answered p (upd d (with_prev a) w)
    then (Done (Prev (addr_to_string p)), told d p a w)
    else (Done (ErrMsg ETransport), upd d (with_prev p) (told d p a w)).
Proof.
  intros Hp Ha. unfold join, attempt, join_impl. unfold bind at 1, bind at 1.
  rewrite (join_old_prev_run d p) by done.
  unfold bind at 1, attempt, join_impl_no_rollback. rewrite Ha.
  unfold bind at 1; cbn [or_fail ret]. unfold bind at 1.
  rewrite (join_swap_prev_run d p) by done. rewrite set_next_wrapper_any.
  assert (lives (told d p a w) d) as Hl.
  { unfold told. apply prev_at_lives in Hp.
    destruct (carried_out _ _); [apply lives_upd|]; by apply (lives_upd d). }
  unfold told in *. destruct (answered p _); [done|].
  unfold bind at 1. by rewrite serve_change.
Qed.

Lemma join_unparsed d p text w :
  prev_at w d = Some p → addr_parse text = None →
  join d text w = (Done (ErrMsg EAddrParse), upd d (with_prev p) w).
Proof.
  intros Hp Ha. unfold join, attempt, join_impl. unfold bind at 1, bind at 1.
  rewrite (join_old_prev_run d p) by done.
  unfold bind at 1, attempt, join_impl_no_rollback. rewrite Ha.
  unfold bind at 1; cbn [or_fail fail]. unfold bind at 1.
  rewrite serve_change; [done|by eapply prev_at_lives].
Qed.

Lemma prev_at_told d p a w x :
  lives w d → prev_at (upd d (with_prev p) (told d p a w)) x =
    if decide (d = x) then Some p else prev_at w x.
Proof.
  intros Hd. rewrite prev_at_with_prev.
  2:{ unfold told. destruct (carried_out _ _); [apply lives_upd|]; by apply (lives_upd d). }
  case_decide; [done|]. unfold told. destruct (carried_out _ _).
  - rewrite prev_at_with_next. change (prev_at (upd d (with_prev a) w) x = prev_at w x).
    by rewrite prev_at_with_prev, decide_False.
  - change (prev_at (upd d (with_prev a) w) x = prev_at w x).
    by rewrite prev_at_with_prev, decide_False.
Qed.

(** C25. A join that fails, because its text is no address or because the predecessor
    cannot be told, gives the node its old [prev] back and so leaves every node as it
    was; but when the predecessor has been told and only its reply is lost, it keeps
    pointing at the node that was refused. *)
Theorem join_error_restores d text e w w' :
  join d text w = (Done (ErrMsg e), w') → lives w d →
  (∀ x, prev_at w' x = prev_at w x) ∧
  (rings w' = rings w ∨
   ∃ a p, addr_parse text = Some a ∧ prev_at w d = Some p ∧ head (links w) = Some ReplyLost ∧
     next_of w' p = Some a).
Proof.
  intros Hj Hd. destruct (prev_at w d) as [p|] eqn:Hp.
  2:{ destruct Hd as [r Hr]. unfold prev_at in Hp. by rewrite Hr in Hp. }
  destruct (addr_parse text) as [a|] eqn:Ha.
  - rewrite (join_any d p a) in Hj by done.
    destruct (answered p _) eqn:Hans; [done|]. injection Hj as <- <-. split.
    { intros x. rewrite prev_at_told by done. case_decide; congruence. }
    unfold told. unfold answered in Hans. destruct (carried_out p _) eqn:Hcar.
    + right. exists a, p. unfold carried_out in Hcar.
      apply andb_true_iff in Hcar as [Hlp Hlk]. rewrite Hlp in Hans.
      apply bool_decide_eq_true_1 in Hlp. split_and!; try done.
      * by destruct (links w) as [|[] ls] eqn:Hls; simpl in *; rewrite Hls in *.
      * rewrite next_of_with_prev, next_of_with_next by done. by rewrite decide_True.
    + left. exact (upd_prev_restored d p a w Hp).
  - rewrite (join_unparsed d p) in Hj by done. injection Hj as <- <-.
    pose proof (upd_prev_same d p w Hp) as Hrings.
    split; [|by left]. intros x. unfold prev_at. by rewrite Hrings.
Qed.

(** ** Joins section by section *)

Fixpoint join_steps (k : nat) (pc : JoinPc) : Run JoinPc :=
  match k with
  | O => ret pc
  | S k => let! pc := join_step pc in join_steps k pc
  end.

(** The two renderings of a [join] agree: four uninterrupted sections are exactly the
    call, whatever becomes of its messages. *)
Lemma join_steps_are_join d text w :
  lives w d → join_steps 4 (JRead d text) w = (let! r := join d text in ret (JDone r)) w.
Proof.
  intros Hd. destruct (prev_at w d) as [p|] eqn:Hp.
  2:{ destruct Hd as [r Hr]. unfold prev_at in Hp. by rewrite Hr in Hp. }
  set (whole := bind (join d text) _ w).
  cbn [join_steps join_step]. unfold bind at 1, bind at 1.
  rewrite (join_old_prev_run d p) by done. cbn [ret join_step].
  unfold bind at 1. destruct (addr_parse text) as [a|] eqn:Ha.
  - unfold bind at 1. rewrite (join_swap_prev_run d p) by done. cbn [ret join_step].
    unfold bind at 1, bind at 1, attempt. rewrite set_next_wrapper_any.
    fold (told d p a w). unfold whole. clear whole.
    replace (bind (join d text) _ w) with
      (if answered p (upd d (with_prev a) w)
       then (Done (JDone (Prev (addr_to_string p))), told d p a w) : outcome RingError JoinPc * Net
       else (Done (JDone (ErrMsg ETransport)), upd d (with_prev p) (told d p a w)))
      by (unfold bind; rewrite (join_any d p a) by done; by destruct (answered p _)).
    destruct (answered p _); [done|]. cbn [ret join_step]. unfold bind at 1, bind at 1.
    rewrite serve_change; [done|]. unfold told.
    destruct (carried_out _ _); [apply lives_upd|]; by apply (lives_upd d).
  - cbn [ret join_step]. unfold bind at 1, bind at 1. rewrite serve_change by done.
    unfold whole. clear whole.
    replace (bind (join d text) _ w) with
      (Done (JDone (ErrMsg EAddrParse)) : outcome RingError JoinPc, upd d (with_prev p) w)
      by (unfold bind; by rewrite (join_unparsed d p)).
    done.
Qed.

(** ** Recovery *)

Lemma recovery_loop_skips a cache my_idx pre post w :
  calm w →
  (∀ i, i ∈ pre → ∀ x, cache !! ((my_idx + i + 1) mod length cache)%nat ≫= addr_parse = Some x →
     ¬ lives w x) →
  recovery_loop a cache my_idx (pre ++ post) w = recovery_loop a cache my_idx post w.
Proof.
  intros Hc. induction pre as [|i pre IH]; intros Hdead; [done|]. cbn [app recovery_loop].
  assert (recovery_loop a cache my_idx (pre ++ post) w = recovery_loop a cache my_idx post w)
    as Hpre by (apply IH; intros; eapply Hdead; [by right|done]).
  destruct (_ ≫= addr_parse) as [x|] eqn:Hx; [|done].
  unfold bind at 1, attempt. rewrite set_next_wrapper_dead; [done|done|].
  eapply Hdead; [by left|done].
Qed.

Lemma recovery_loop_finds a cache my_idx i p post w :
  calm w → lives w a → lives w p →
  cache !! ((my_idx + i + 1) mod length cache)%nat ≫= addr_parse = Some p →
  recovery_loop a cache my_idx (i :: post) w = (Done tt, upd a (with_prev p) (upd p (with_next a) w)).
Proof.
  intros Hc Ha Hp Hi. cbn [recovery_loop]. rewrite Hi. unfold bind at 1, attempt.
  rewrite set_next_wrapper_run by done. apply serve_change. by apply lives_upd.
Qed.

(** The cache read cyclically from the entry after the node's own. *)
Lemma lookup_cyclic {A} (m1 m2 : list A) a i :
  (i < length (m1 ++ a :: m2))%nat →
  (m1 ++ a :: m2) !! ((length m1 + i + 1) mod length (m1 ++ a :: m2))%nat =
    (m2 ++ m1 ++ [a]) !! i.
Proof.
  rewrite length_app. simpl. intros Hi.
  destruct (decide (i < length m2)%nat).
  - rewrite Nat.mod_small by lia. rewrite (lookup_app_l m2) by done.
    rewrite lookup_app_r by lia.
    by replace (length m1 + i + 1 - length m1)%nat with (S i) by lia.
  - replace (length m1 + i + 1)%nat with
      (i - length m2 + 1 * (length m1 + S (length m2)))%nat by lia.
    rewrite Nat.Div0.mod_add, Nat.mod_small by lia. rewrite (lookup_app_r m2) by lia.
    destruct (decide (i - length m2 < length m1)%nat).
    + by rewrite !lookup_app_l.
    + rewrite !lookup_app_r by lia.
      by replace (i - length m2 - length m1)%nat with 0%nat by lia.
Qed.

Lemma lookup_show (l : list SocketAddr) i :
  map addr_to_string l !! i ≫= addr_parse = l !! i.
Proof.
  rewrite list_lookup_fmap. destruct (l !! i); [apply addr_parse_to_string|done].
Qed.

Lemma find_me m1 a m2 :
  a ∉ m1 →
  list_find (λ address, address = addr_to_string a) (map addr_to_string (m1 ++ a :: m2)) =
    Some (length m1, addr_to_string a).
Proof.
  intros Ha. apply list_find_Some. rewrite list_lookup_fmap, list_lookup_middle by done.
  split_and!; [done..|]. intros j y Hj Hlt ->.
  rewrite list_lookup_fmap, lookup_app_l in Hj by done.
  destruct (m1 !! j) as [x|] eqn:Hx; [|done]. injection Hj as Heq.
  apply addr_to_string_inj in Heq as ->. apply Ha. by eapply list_elem_of_lookup_2.
Qed.

(** The first live node of the cycle read backwards from [a]. *)
Lemma recovery_prev_run a m1 m2 dead p rest w :
  calm w → lives w a → lives w p → a ∉ m1 →
  m2 ++ m1 ++ [a] = dead ++ p :: rest → (∀ x, x ∈ dead → ¬ lives w x) →
  recovery_prev (map addr_to_string (m1 ++ a :: m2)) a w =
    (Done tt, upd a (with_prev p) (upd p (with_next a) w)).
Proof.
  intros Hc Hla Hlp Ha Hcyc Hdead. unfold recovery_prev. rewrite find_me by done.
  rewrite length_map. set (n := length (m1 ++ a :: m2)).
  assert (n = length dead + S (length rest))%nat as Hn.
  { unfold n. apply (f_equal length) in Hcyc. rewrite !length_app in *. simpl in *. lia. }
  rewrite Hn, seq_app. rewrite recovery_loop_skips; [|done|].
  - cbn [seq]. apply recovery_loop_finds; [done..|]. rewrite length_map, lookup_show.
    rewrite lookup_cyclic by (fold n; lia). rewrite Hcyc.
    rewrite lookup_app_r by lia. by rewrite Nat.add_0_l, Nat.sub_diag.
  - intros i [_ Hi]%elem_of_seq x. rewrite length_map, lookup_show.
    rewrite lookup_cyclic by (fold n; lia). rewrite Hcyc, lookup_app_l by lia.
    intros Hx. apply Hdead. by eapply list_elem_of_lookup_2.
Qed.

(** C19. [recovery_prev] makes the nearest live node before the caller, in the order of the
    announced member list, its new [prev] and has it told, whatever number of nodes in
    between are dead; the caller itself is its own last resort. *)
Theorem recovery_finds_nearest a m1 m2 dead p rest w :
  calm w → lives w a → lives w p → a ∉ m1 →
  m2 ++ m1 ++ [a] = dead ++ p :: rest → (∀ x, x ∈ dead → ¬ lives w x) →
  recovery_prev (map addr_to_string (m1 ++ a :: m2)) a w =
    (Done tt, upd a (with_prev p) (upd p (with_next a) w)).
Proof. apply recovery_prev_run. Qed.

Definition crash (gone : list SocketAddr) (w : Net) : Net := foldr leave w gone.

Lemma crash_spec gone w :
  calm w →
  calm (crash gone w) ∧ (named w → named (crash gone w)) ∧
  (∀ x, lives (crash gone w) x ↔ lives w x ∧ x ∉ gone) ∧
  (∀ x, x ∉ gone → next_of (crash gone w) x = next_of w x ∧ prev_at (crash gone w) x = prev_at w x).
Proof.
  intros Hc. induction gone as [|a gone (Hc' & Hm & Hl & Hp)]; simpl.
  { split_and!; try done. intros x. set_solver. }
  split_and!; [done| |..].
  - intros Hw. by apply named_leave, Hm.
  - intros x. rewrite lives_leave, Hl. set_solver.
  - intros x [Hx Hin]%not_elem_of_cons.
    rewrite next_of_leave, prev_at_leave by done. by apply Hp.
Qed.

(** Closing the ring over the survivors: [a] and the last of [keep] point at each other. *)
Lemma crash_closes a keep gone w :
  calm w → ring_ok (a :: keep ++ gone) w → gone ≠ [] →
  ring_ok (a :: keep) (upd a (with_prev (List.last keep a))
    (upd (List.last keep a) (with_next a) (crash gone w))).
Proof.
  intros Hc Hok Hgone. destruct (crash_spec gone w Hc) as (Hc' & Hme & Hl & Hptr).
  pose proof (ring_nodup _ _ Hok) as Hnd. rewrite app_comm_cons in Hnd.
  apply NoDup_app in Hnd as (Hnd & Hkeep & _).
  destruct (ring_ok_path _ _ _ Hok) as [Hpath _].
  assert (∀ x, x ∈ a :: keep → lives (crash gone w) x) as Hlive.
  { intros x Hx. apply Hl. split; [|by apply Hkeep]. apply (ring_live _ _ Hok). set_solver. }
  set (p := List.last keep a). set (w1 := crash gone w) in *.
  assert (p ∈ a :: keep) as Hp by apply last_in.
  assert (lives w1 p) as Hlp by by apply Hlive.
  assert (lives w1 a) as Hla by (apply Hlive; by left).
  apply ring_ok_intro; [done|..].
  - intros x. rewrite !lives_upd, Hl, (ring_live _ _ Hok).
    rewrite app_comm_cons, elem_of_app. specialize (Hkeep x). naive_solver.
  - do 2 (apply named_upd; [done|]). apply Hme, Hok.
  - assert (linked w (a :: keep)) as Hpath'.
    { clear -Hpath. rewrite app_comm_cons in Hpath.
      destruct (head_last_split a keep) as [l Hs]. rewrite Hs in *.
      rewrite <- (app_assoc l) in Hpath.
      by apply (linked_app w l (List.last keep a)) in Hpath as [? _]. }
    eapply linked_inner; [done|exact Hpath'|..]; intros x Hx Hxne.
    + rewrite next_of_with_prev, next_of_with_next, decide_False by auto.
      by apply Hptr, Hkeep.
    + rewrite prev_at_with_prev, decide_False by (auto with prog).
      rewrite prev_at_with_next. by apply Hptr, Hkeep.
  - fold p. split.
    + by rewrite next_of_with_prev, next_of_with_next, decide_True.
    + rewrite prev_at_with_prev, decide_True; auto with prog.
Qed.

(** C14. When the nodes before [a] crash, however many, the next token [a] relays finds
    its [prev] dead and closes the ring over the survivors, provided the announced list
    [a] holds is the ring as it was; the token itself is lost. *)
Theorem relay_heals_ring a keep gone m1 m2 h w :
  calm w → ring_ok (a :: keep ++ gone) w → gone ≠ [] →
  m2 ++ m1 = rev (keep ++ gone) → a ∉ m1 →
  ∃ w', relay a (map addr_to_string (m1 ++ a :: m2)) h (crash gone w) = (Done tt, w') ∧
    ring_ok (a :: keep) w'.
Proof.
  intros Hc Hok Hgone Hm Ha. destruct (crash_spec gone w Hc) as (Hc' & _ & Hl & Hptr).
  pose proof (ring_nodup _ _ Hok) as Hnd. rewrite app_comm_cons in Hnd.
  apply NoDup_app in Hnd as (_ & Hkeep & _).
  destruct (ring_ok_path _ _ _ Hok) as [_ [_ Hprev]].
  assert (∀ x, x ∈ a :: keep → lives (crash gone w) x) as Hlive.
  { intros x Hx. apply Hl. split; [|by apply Hkeep]. apply (ring_live _ _ Hok). set_solver. }
  pose proof (crash_closes a keep gone w Hc Hok Hgone) as Hclosed.
  destruct (exists_last Hgone) as (gone' & q & ->).
  unfold relay. unfold bind at 1. rewrite (prev_of_run a q).
  2:{ rewrite (proj2 (Hptr a (Hkeep a ltac:(by left)))), Hprev.
      by rewrite app_assoc, List.last_last. }
  unfold bind at 1, attempt. rewrite rpc_dead; [|done|].
  2:{ rewrite Hl. intros [_ Hq]. apply Hq. set_solver. }
  eexists. split; [|exact Hclosed].
  apply (recovery_prev_run a m1 m2 (rev (gone' ++ [q])) (List.last keep a)
           (tail (rev keep ++ [a]))); [done|by apply Hlive; left|apply Hlive, last_in|done|..].
  - rewrite app_assoc, Hm, rev_app_distr, <- app_assoc. f_equal.
    destruct keep as [|x l _] using rev_ind; [done|].
    by rewrite rev_app_distr, List.last_last.
  - intros x Hx. rewrite Hl. intros [_ Hx']. apply Hx'.
    apply list_elem_of_In, in_rev, list_elem_of_In, Hx.
Qed.

End membership.
