(* ===== verification/RingTokens.v ===== *)
(** * The tokens that go round the ring: election and member list

    Both travel from [prev] to [prev], one spawned task per hop. *)

From S2P Require Import RingFacts.

(** ** The order of addresses as text *)

Lemma string_leb_refl s : String.leb s s = true.
Proof. by destruct (String.leb_total s s). Qed.

Lemma string_leb_cons c s d t :
  String.leb (String c s) (String d t) =
    match Ascii.compare c d with Lt => true | Eq => String.leb s t | Gt => false end.
Proof. unfold String.leb. simpl. by destruct (Ascii.compare c d). Qed.

Lemma string_leb_trans s t u :
  String.leb s t = true → String.leb t u = true → String.leb s u = true.
Proof.
  revert t u. induction s as [|c s IH]; intros [|d t] [|e u]; try done.
  rewrite !string_leb_cons. unfold Ascii.compare.
  destruct (N.compare_spec (Ascii.N_of_ascii c) (Ascii.N_of_ascii d)); try done;
    destruct (N.compare_spec (Ascii.N_of_ascii d) (Ascii.N_of_ascii e)); try done;
    destruct (N.compare_spec (Ascii.N_of_ascii c) (Ascii.N_of_ascii e)); try done; try lia.
  apply IH.
Qed.

Section tokens.
Context `{AddrText} `{!AddrTextLaws}.

(** The member every other one is at least as great as. *)
Definition smallest (l : list SocketAddr) (c : SocketAddr) : Prop :=
  c ∈ l ∧ ∀ b, b ∈ l → String.leb (addr_to_string c) (addr_to_string b) = true.

Lemma smallest_exists d l : ∃ c, smallest (d :: l) c.
Proof.
  revert d. induction l as [|x l IH]; intros d.
  { exists d. split; [by left|]. intros b ->%list_elem_of_singleton. apply string_leb_refl. }
  destruct (IH x) as (c & Hc & Hmin).
  destruct (String.leb_total (addr_to_string d) (addr_to_string c)) as [Hle|Hle].
  - exists d. split; [by left|]. intros b [->|Hb]%elem_of_cons; [apply string_leb_refl|].
    eapply string_leb_trans; [exact Hle|by apply Hmin].
  - exists c. split; [by right|]. intros b [->|Hb]%elem_of_cons; [done|by apply Hmin].
Qed.

Lemma smallest_unique l c c' : smallest l c → smallest l c' → c = c'.
Proof.
  intros [Hc Hmin] [Hc' Hmin']. apply addr_to_string_inj, String.leb_antisym; auto.
Qed.

Lemma check_smallest l a :
  a ∈ l →
  check_am_i_coordinator (map addr_to_string l) (addr_to_string a) = true ↔ smallest l a.
Proof.
  intros Ha. unfold check_am_i_coordinator, smallest. rewrite forallb_forall. split.
  - intros Hall. split; [done|]. intros b Hb. apply Hall, in_map, list_elem_of_In, Hb.
  - intros [_ Hmin] x (b & <- & Hb)%in_map_iff. apply Hmin, list_elem_of_In, Hb.
Qed.

(** ** The way round *)

Fixpoint prev_path (w : Net) (l : list SocketAddr) : Prop :=
  match l with
  | a :: (b :: _) as l' => prev_at w a = Some b ∧ prev_path w l'
  | _ => True
  end.

Lemma prev_path_snoc w l a b :
  prev_path w (l ++ [a]) → prev_at w a = Some b → prev_path w (l ++ [a; b]).
Proof.
  induction l as [|x [|y l] IH]; simpl; [done|tauto|]. intros [Hx Hl] Hb.
  split; [done|]. by apply IH.
Qed.

Lemma linked_prev_path w l : linked w l → prev_path w (rev l).
Proof.
  induction l as [|a [|b l] IH]; [done..|]. intros [[_ Hp] Hl].
  specialize (IH Hl). simpl in *. rewrite <- app_assoc. by apply prev_path_snoc.
Qed.

Lemma ring_prev_path t rest w : ring_ok (t :: rest) w → prev_path w (t :: rev rest ++ [t]).
Proof.
  intros Hok. pose proof (linked_prev_path _ _ (ring_linked _ _ Hok t rest eq_refl)) as Hp.
  by rewrite rev_app_distr in Hp.
Qed.

Lemma prev_path_same w w' l : same_pointers w w' → prev_path w l → prev_path w' l.
Proof.
  intros Hs. induction l as [|a [|b l] IH]; [done..|]. intros [Hp Hl].
  split; [by rewrite (sp_prev _ _ Hs)|by apply IH].
Qed.

Lemma prev_path_rings w w' l : rings w' = rings w → prev_path w l → prev_path w' l.
Proof.
  intros Hr. apply prev_path_same. unfold named, next_of, prev_at, lives.
  split; unfold named, next_of, prev_at, lives; by rewrite Hr.
Qed.

Lemma relay_run o p cache h w w' :
  calm w → prev_at w o = Some p → serve p h w = (Done tt, w') →
  relay o cache h w = (Done tt, w').
Proof.
  intros Hc Hp Hs. unfold relay. unfold bind at 1. rewrite (prev_of_run o p) by done.
  unfold bind at 1, attempt. rewrite rpc_up; [by rewrite Hs|done|].
  unfold serve in Hs. unfold lives. by destruct (rings w !! p).
Qed.

Lemma after_job j js w w' :
  jobs w = j :: js → run_job j (mkNet (rings w) js (links w)) = (Done tt, w') →
  after_event EvJob w = w'.
Proof. intros Hj Hr. unfold after_event. simpl. unfold next_job. rewrite Hj. by rewrite Hr. Qed.

(** ** Election *)

Lemma serve_election p r A w :
  rings w !! p = Some r → me r = p →
  serve p (election A) w =
    (Done tt, push [if bool_decide (addr_to_string p ∈ A)
                    then RelayCoordinate p (ring_cache r) A []
                    else RelayElection p (ring_cache r) A] w).
Proof.
  intros Hr Hme. unfold serve. rewrite Hr. unfold election, bind at 1, self, gets. cbn [ring].
  rewrite Hme. destruct (bool_decide _); cbn [negb];
    unfold relay_coordinate_rpc_in_background, relay_election_rpc_in_background, bind, self, gets;
    cbn [ring]; rewrite Hme; unfold spawn, modify; cbn [ring spawned app];
    unfold push; by rewrite insert_id.
Qed.

Lemma calm_net w js : calm w → mkNet (rings w) js (links w) = mkNet (rings w) js [].
Proof. by intros ->. Qed.

Lemma election_hop o p cache A w :
  calm w → named w → jobs w = [RelayElection o cache A] →
  prev_at w o = Some p → lives w p →
  let A' := A ++ [addr_to_string o] in
  ∃ cache', after_event EvJob w = mkNet (rings w)
    [if bool_decide (addr_to_string p ∈ A') then RelayCoordinate p cache' A' []
     else RelayElection p cache' A'] [].
Proof.
  intros Hc Hme Hj Hp [r Hr] A'. exists (ring_cache r). eapply after_job; [done|].
  rewrite calm_net by done. cbn [run_job]. eapply (relay_run o p); [done|done|].
  by rewrite (serve_election p r) by (done || by apply Hme).
Qed.

(** The token collects every member before it is back. *)
Lemma election_walk t more : ∀ o cache A w,
  calm w → named w → jobs w = [RelayElection o cache A] →
  prev_path w (o :: more ++ [t]) → lives w t →
  addr_to_string t ∈ A → NoDup (o :: more) → (∀ x, x ∈ more → addr_to_string x ∉ A) →
  ∃ cache', after_events (replicate (S (length more)) EvJob) w =
    mkNet (rings w) [RelayCoordinate t cache' (A ++ map addr_to_string (o :: more)) []] [].
Proof.
  induction more as [|x more IH]; intros o cache A w Hc Hme Hj Hp Ht HtA Hnd Hnin.
  - destruct Hp as [Hp _].
    destruct (election_hop o t cache A w Hc Hme Hj Hp Ht) as [cache' Hhop].
    exists cache'. cbn [length replicate after_events fold_left]. rewrite Hhop.
    rewrite bool_decide_eq_true_2; [done|]. set_solver.
  - destruct Hp as [Hp Hpath]. apply NoDup_cons in Hnd as [Ho Hnd].
    assert (lives w x) as Hx.
    { destruct more; destruct Hpath as [Hx _]; by eapply prev_at_lives. }
    destruct (election_hop o x cache A w Hc Hme Hj Hp Hx) as [cache' Hhop].
    rewrite bool_decide_eq_false_2 in Hhop.
    2:{ intros [HxA|Hxo%list_elem_of_singleton]%elem_of_app; [by apply (Hnin x); [left|]|].
        apply addr_to_string_inj in Hxo as ->. apply Ho. by left. }
    assert (addr_to_string t ∈ A ++ [addr_to_string o]) as HtA' by set_solver.
    assert (∀ y, y ∈ more → addr_to_string y ∉ A ++ [addr_to_string o]) as Hnin'.
    { intros y Hy [HyA|Hyo%list_elem_of_singleton]%elem_of_app; [by apply (Hnin y); [right|]|].
      apply addr_to_string_inj in Hyo as ->. apply Ho. by right. }
    destruct (IH x cache' (A ++ [addr_to_string o])
      (mkNet (rings w) [RelayElection x cache' (A ++ [addr_to_string o])] [])
      eq_refl Hme eq_refl (prev_path_rings w (mkNet (rings w) _ []) _ eq_refl Hpath) Ht HtA' Hnd Hnin')
      as [cache'' Hwalk].
    exists cache''. unfold after_events in Hwalk |- *.
    cbn [length replicate fold_left] in Hwalk |- *. rewrite Hhop, Hwalk.
    cbn [rings map]. by rewrite <- app_assoc.
Qed.

(** ** Coordination *)

Definition crowned (A : list string) (l : list SocketAddr) (w : Net) : Net :=
  fold_left (λ w x,
    upd x (with_coordinator (check_am_i_coordinator A (addr_to_string x))) w) l w.

Lemma same_pointers_crowned A l : ∀ w, same_pointers w (crowned A l w).
Proof.
  induction l as [|x l IH]; intros w; [reflexivity|]. cbn [crowned fold_left].
  etrans; [|apply IH]. by apply same_pointers_upd.
Qed.

Lemma crowned_rings A l : ∀ w w',
  rings w = rings w' → rings (crowned A l w) = rings (crowned A l w').
Proof.
  induction l as [|x l IH]; intros w w' Heq; [done|]. apply IH. unfold upd; simpl. by rewrite Heq.
Qed.

Lemma crowned_lookup A l : ∀ w a r',
  rings (crowned A l w) !! a = Some r' →
  ∃ r, rings w !! a = Some r ∧
    r' = if decide (a ∈ l)
         then with_coordinator (check_am_i_coordinator A (addr_to_string a)) r else r.
Proof.
  induction l as [|x l IH]; intros w a r'.
  { intros Hr. exists r'. split; [done|]. rewrite decide_False; [done|set_solver]. }
  intros (r & Hr & ->)%IH. unfold upd in Hr; simpl in Hr.
  destruct (decide (x = a)) as [->|Hne].
  - rewrite lookup_alter_eq in Hr. destruct (rings w !! a) as [r0|]; [|done]. simplify_eq/=.
    exists r0. split; [done|]. rewrite (decide_True (P := a ∈ a :: l)) by by left.
    by case_decide.
  - rewrite lookup_alter_ne in Hr by done. exists r. split; [done|].
    destruct (decide (a ∈ l)); destruct (decide (a ∈ x :: l)); set_solver.
Qed.

Lemma serve_coordinate p r A R w :
  rings w !! p = Some r → me r = p →
  serve p (coordinate A R) w =
    (Done tt, push (if bool_decide (addr_to_string p ∈ R) then []
                    else [RelayCoordinate p (ring_cache r) A R]) (crowned A [p] w)).
Proof.
  intros Hr Hme. unfold serve. rewrite Hr. unfold coordinate, bind at 1, self, gets. cbn [ring].
  unfold bind at 1, change, modify. cbn [ring set_ring]. rewrite Hme.
  unfold crowned, push, upd. cbn [fold_left rings jobs links].
  rewrite <- (alter_insert_eq (with_coordinator _) p _ r Hr).
  destruct (bool_decide _); cbn [negb].
  - done.
  - unfold relay_coordinate_rpc_in_background, bind, self, gets, spawn, modify.
    cbn [ring spawned set_ring app with_coordinator me ring_cache]. by rewrite Hme.
Qed.

Lemma coordinate_hop o p cache A R w :
  calm w → named w → jobs w = [RelayCoordinate o cache A R] →
  prev_at w o = Some p → lives w p →
  let R' := R ++ [addr_to_string o] in
  ∃ cache', after_event EvJob w = mkNet (rings (crowned A [p] w))
    (if bool_decide (addr_to_string p ∈ R') then [] else [RelayCoordinate p cache' A R']) [].
Proof.
  intros Hc Hme Hj Hp [r Hr] R'. exists (ring_cache r). eapply after_job; [done|].
  rewrite calm_net by done. cbn [run_job]. eapply (relay_run o p); [done|done|].
  by rewrite (serve_coordinate p r) by (done || by apply Hme).
Qed.

Lemma coordinate_walk t A more : ∀ o cache R w,
  calm w → named w → jobs w = [RelayCoordinate o cache A R] →
  prev_path w (o :: more ++ [t]) → lives w t →
  addr_to_string t ∈ R ++ [addr_to_string o] → NoDup (o :: more) →
  (∀ x, x ∈ more → addr_to_string x ∉ R) →
  after_events (replicate (S (length more)) EvJob) w =
    mkNet (rings (crowned A (more ++ [t]) w)) [] [].
Proof.
  induction more as [|x more IH]; intros o cache R w Hc Hme Hj Hp Ht HtR Hnd Hnin.
  - destruct Hp as [Hp _].
    destruct (coordinate_hop o t cache A R w Hc Hme Hj Hp Ht) as [cache' Hhop].
    cbn [length replicate after_events fold_left]. rewrite Hhop.
    by rewrite bool_decide_eq_true_2.
  - destruct Hp as [Hp Hpath]. apply NoDup_cons in Hnd as [Ho Hnd].
    assert (lives w x) as Hx.
    { destruct more; destruct Hpath as [Hx _]; by eapply prev_at_lives. }
    destruct (coordinate_hop o x cache A R w Hc Hme Hj Hp Hx) as [cache' Hhop].
    rewrite bool_decide_eq_false_2 in Hhop.
    2:{ intros [HxA|Hxo%list_elem_of_singleton]%elem_of_app; [by apply (Hnin x); [left|]|].
        apply addr_to_string_inj in Hxo as ->. apply Ho. by left. }
    pose proof (same_pointers_crowned A [x] w) as Hsame.
    set (w1 := mkNet (rings (crowned A [x] w))
                 [RelayCoordinate x cache' A (R ++ [addr_to_string o])] []) in *.
    assert (same_pointers w w1) as Hsame1 by (destruct Hsame; by split).
    pose proof (IH x cache' (R ++ [addr_to_string o]) w1 eq_refl (sp_named _ _ Hsame1 Hme)
      eq_refl (prev_path_same _ _ _ Hsame1 Hpath)) as Hwalk.
    unfold after_events in Hwalk |- *. cbn [length replicate fold_left] in Hwalk |- *.
    rewrite Hhop. fold w1. rewrite Hwalk; clear Hwalk.
    + f_equal. exact (crowned_rings A (more ++ [t]) w1 (crowned A [x] w) eq_refl).
    + by apply (sp_lives _ _ Hsame1).
    + set_solver.
    + done.
    + intros y Hy [HyA|Hyo%list_elem_of_singleton]%elem_of_app; [by apply (Hnin y); [right|]|].
      apply addr_to_string_inj in Hyo as ->. apply Ho. by right.
Qed.

Lemma after_events_app evs1 evs2 w :
  after_events (evs1 ++ evs2) w = after_events evs2 (after_events evs1 w).
Proof. apply fold_left_app. Qed.

Lemma timeout_run t p w :
  calm w → named w → jobs w = [] → prev_at w t = Some p → lives w p →
  ∃ cache, after_event (EvTimeout t) w = mkNet (rings w)
    [if bool_decide (addr_to_string p ∈ [addr_to_string t])
     then RelayCoordinate p cache [addr_to_string t] []
     else RelayElection p cache [addr_to_string t]] [].
Proof.
  intros Hc Hme Hj Hp [r Hr]. exists (ring_cache r). unfold after_event. cbn [run_event].
  unfold watcher_timeout. unfold bind at 1. rewrite (prev_of_run t p) by done.
  unfold bind at 1, attempt. rewrite rpc_up; [|done|by eexists].
  rewrite (serve_election p r) by (done || by apply Hme). simpl.
  unfold push. by rewrite Hj, calm_net.
Qed.

Lemma election_collects t rest w :
  calm w → ring_ok (t :: rest) w → jobs w = [] →
  ∃ cache, after_events (EvTimeout t :: replicate (length rest) EvJob) w =
    mkNet (rings w) [RelayCoordinate t cache (map addr_to_string (t :: rev rest)) []] [].
Proof.
  intros Hc Hok Hj. pose proof (ring_prev_path _ _ _ Hok) as Hpath.
  pose proof (ring_nodup _ _ Hok) as [Ht Hnd]%NoDup_cons.
  rewrite <- (length_rev rest).
  pose proof (ring_named _ _ Hok) as Hme.
  assert (lives w t) as Hlt by (apply (ring_live _ _ Hok); by left).
  assert (∀ x, x ∈ rev rest → x ∈ rest) as Hin
    by (intros x; by rewrite !list_elem_of_In, <- in_rev).
  assert (NoDup (rev rest)) as Hnd' by (by rewrite <- (Permutation_rev rest)).
  destruct (rev rest) as [|x more] eqn:Hrev.
  - destruct Hpath as [Hp _].
    destruct (timeout_run t t w Hc Hme Hj Hp Hlt) as [cache Htm].
    exists cache. unfold after_events. cbn [length replicate fold_left]. rewrite Htm.
    by rewrite bool_decide_eq_true_2 by by left.
  - destruct Hpath as [Hp Hpath].
    assert (lives w x) as Hx by (apply (ring_live _ _ Hok); right; apply Hin; by left).
    destruct (timeout_run t x w Hc Hme Hj Hp Hx) as [cache Htm].
    rewrite bool_decide_eq_false_2 in Htm.
    2:{ intros Hxt%list_elem_of_singleton%addr_to_string_inj. subst. apply Ht, Hin. by left. }
    destruct (election_walk t more x cache [addr_to_string t]
      (mkNet (rings w) [RelayElection x cache [addr_to_string t]] [])
      eq_refl Hme eq_refl (prev_path_rings w (mkNet (rings w) _ []) _ eq_refl Hpath) Hlt
      ltac:(by left) Hnd') as [cache' Hwalk].
    { intros y Hy Hyt%list_elem_of_singleton%addr_to_string_inj. subst.
      apply Ht, Hin. by right. }
    exists cache'. unfold after_events in Hwalk |- *.
    cbn [length replicate fold_left] in Hwalk |- *. by rewrite Htm, Hwalk.
Qed.

(** C6. An election.  When the member [t] of a ring hears from no coordinator, its
    election makes a coordinator of the member whose address is the smallest as text,
    and of no other, after two rounds of messages; no token is left over. *)
Theorem election_elects_smallest t rest w :
  calm w → ring_ok (t :: rest) w → jobs w = [] →
  let w' := after_events (EvTimeout t :: replicate (2 * length rest + 1) EvJob) w in
  jobs w' = [] ∧ same_pointers w w' ∧
  ∃ c, smallest (t :: rest) c ∧
    ∀ a r, rings w' !! a = Some r → am_i_coordinator r = true ↔ a = c.
Proof.
  intros Hc Hok Hj w'. set (A := map addr_to_string (t :: rev rest)).
  assert (w' = mkNet (rings (crowned A (rev rest ++ [t]) w)) [] []) as Hw'.
  { unfold w'. destruct (election_collects t rest w Hc Hok Hj) as [cache Hcol].
    replace (2 * length rest + 1)%nat with (length rest + S (length (rev rest)))%nat
      by (rewrite length_rev; lia).
    rewrite replicate_add, app_comm_cons, after_events_app, Hcol.
    pose proof (ring_nodup _ _ Hok) as [Ht Hnd]%NoDup_cons.
    rewrite (coordinate_walk t A (rev rest) t cache []); try done.
    - f_equal. by apply crowned_rings.
    - apply (ring_named _ _ Hok).
    - eapply prev_path_rings; [|by apply ring_prev_path]. done.
    - apply (ring_live _ _ Hok). by left.
    - by left.
    - rewrite <- (Permutation_rev rest). by apply NoDup_cons.
    - intros x _. apply not_elem_of_nil. }
  pose proof (same_pointers_crowned A (rev rest ++ [t]) w) as Hsame.
  rewrite Hw'. split; [done|]. split; [by destruct Hsame; split|].
  destruct (smallest_exists t rest) as [c Hc']. exists c. split; [done|].
  intros a r Hr. apply crowned_lookup in Hr as (r0 & Hr0 & ->).
  assert (a ∈ t :: rest) as Ha by (apply (ring_live _ _ Hok); by exists r0).
  assert (∀ x, x ∈ t :: rev rest ↔ x ∈ t :: rest) as Hrev
    by (intros x; by rewrite (Permutation_rev rest) at 2).
  rewrite decide_True.
  2:{ apply Hrev in Ha. set_solver. }
  cbn [with_coordinator am_i_coordinator]. unfold A.
  rewrite check_smallest by by apply Hrev.
  assert (smallest (t :: rev rest) a ↔ smallest (t :: rest) a) as ->.
  { unfold smallest. rewrite Hrev. by setoid_rewrite Hrev. }
  split; [intros Ha'; by eapply smallest_unique|by intros ->].
Qed.

(** ** The member list *)

(** What a node that takes the token with the members [A] does to itself. *)
Definition heard (A : list string) (p : SocketAddr) (r : Ring) : Ring :=
  let r' := with_health_checks (health_checks r + 1) r in
  if bool_decide (addr_to_string p ∈ A) || check_am_i_coordinator A (addr_to_string p)
  then r' else with_coordinator false r'.

Lemma serve_list p r A w :
  rings w !! p = Some r → me r = p → health_checks r < 1024 →
  serve p (list_rpc A) w =
    (Done tt, push [if bool_decide (addr_to_string p ∈ A) then Announce p A
                    else RelayList p (ring_cache r) A] (upd p (heard A p) w)).
Proof.
  intros Hr Hme Hhc. unfold serve. rewrite Hr. unfold list_rpc, notify.
  unfold bind at 1, bind at 1, self at 1, gets at 1. cbn [ring].
  destruct (N.ltb_spec (health_checks r) 1024); [|lia].
  unfold change at 1, modify. unfold bind at 1, self at 1, gets. cbn [ring set_ring].
  change (me (with_health_checks (health_checks r + 1) r)) with (me r). rewrite Hme.
  unfold push, upd. cbn [rings jobs links].
  rewrite <- (alter_insert_eq (heard A p) p _ r Hr). unfold heard.
  destruct (bool_decide (addr_to_string p ∈ A)); cbn [negb orb].
  - unfold announce_in_background, bind, self, gets, spawn, modify.
    cbn [ring spawned set_ring app with_health_checks me]. by rewrite Hme.
  - unfold relay_list_rpc_in_background. unfold bind at 1, self, gets.
    cbn [ring set_ring with_health_checks me]. rewrite Hme. unfold bind.
    destruct (check_am_i_coordinator A (addr_to_string p)); cbn [negb];
      unfold change, modify, spawn, modify; cbn; by rewrite ?Hme.
Qed.

(** A node that has taken the token of [t] is a coordinator afterwards only if its
    address is no greater than that of [t]; it keeps everything else. *)
Lemma heard_coordinator t A p r :
  addr_to_string t ∈ A → addr_to_string p ∉ A →
  am_i_coordinator (heard A p r) = true →
  String.leb (addr_to_string p) (addr_to_string t) = true.
Proof.
  intros HtA Hp. unfold heard. rewrite bool_decide_eq_false_2 by done. cbn [orb].
  destruct (check_am_i_coordinator A (addr_to_string p)) eqn:Hck; [|done]. intros _.
  unfold check_am_i_coordinator in Hck. rewrite forallb_forall in Hck.
  by apply Hck, list_elem_of_In.
Qed.

Lemma same_pointers_heard A p w : same_pointers w (upd p (heard A p) w).
Proof. apply same_pointers_upd; intros r; unfold heard; by case_match. Qed.

(** What a round of the token leaves: the pointers, the nodes it has not reached, and
    among those it has passed on no coordinator greater than [t]. *)
Record round_from (t : SocketAddr) (passed : list SocketAddr) (w w' : Net) : Prop := {
  rf_pointers : same_pointers w w';
  rf_others : ∀ x, x ∉ passed → x ≠ t → rings w' !! x = rings w !! x;
  rf_starter : ∀ r', rings w' !! t = Some r' →
    ∃ r, rings w !! t = Some r ∧ am_i_coordinator r' = am_i_coordinator r;
  rf_demoted : ∀ x r', x ∈ passed → rings w' !! x = Some r' → am_i_coordinator r' = true →
    String.leb (addr_to_string x) (addr_to_string t) = true
}.

Lemma round_from_start t A js w :
  addr_to_string t ∈ A →
  round_from t [] w (mkNet (rings (upd t (heard A t) w)) js []).
Proof.
  intros HtA. split.
  - destruct (same_pointers_heard A t w). by split.
  - intros y _ Hyt. unfold upd; simpl. by rewrite lookup_alter_ne.
  - intros r'. unfold upd; simpl. rewrite lookup_alter_eq.
    destruct (rings w !! t) as [r|]; [|done]. intros [= <-].
    exists r. split; [done|]. unfold heard. by rewrite bool_decide_eq_true_2.
  - intros y r' Hy. by apply elem_of_nil in Hy.
Qed.

Lemma round_from_hop t x more A js w w' :
  addr_to_string t ∈ A → addr_to_string x ∉ A → x ∉ more →
  round_from t more (mkNet (rings (upd x (heard A x) w)) js []) w' →
  round_from t (x :: more) w w'.
Proof.
  intros HtA HxA Hx [Hsp Hoth Hst Hdem]. assert (x ≠ t) as Hxt by congruence.
  assert (∀ y, x ≠ y → rings (upd x (heard A x) w) !! y = rings w !! y) as Hw1
    by (intros y Hy; unfold upd; simpl; by rewrite lookup_alter_ne).
  split.
  - etrans; [|exact Hsp]. destruct (same_pointers_heard A x w). by split.
  - intros y [Hyx Hy]%not_elem_of_cons Hyt. rewrite Hoth by done. by apply Hw1.
  - intros r' Hr'. destruct (Hst r' Hr') as (r0 & Hr0 & Heq). rewrite Hw1 in Hr0 by done.
    by exists r0.
  - intros y r' [->|Hy]%elem_of_cons; [|by apply Hdem]. rewrite Hoth by done.
    unfold upd; simpl. rewrite lookup_alter_eq. destruct (rings w !! x); [|done].
    intros [= <-]. by apply heard_coordinator.
Qed.

Lemma list_hop o p cache A w r :
  calm w → named w → jobs w = [RelayList o cache A] →
  prev_at w o = Some p → rings w !! p = Some r → health_checks r < 1024 →
  let A' := A ++ [addr_to_string o] in
  ∃ cache', after_event EvJob w = mkNet (rings (upd p (heard A' p) w))
    [if bool_decide (addr_to_string p ∈ A') then Announce p A' else RelayList p cache' A'] [].
Proof.
  intros Hc Hme Hj Hp Hr Hhc A'. exists (ring_cache r). eapply after_job; [done|].
  rewrite calm_net by done. cbn [run_job]. eapply (relay_run o p); [done|done|].
  by rewrite (serve_list p r) by (done || by apply Hme).
Qed.

Lemma list_walk t more : ∀ o cache A w,
  calm w → named w → jobs w = [RelayList o cache A] →
  prev_path w (o :: more ++ [t]) →
  (∀ x, x ∈ more ++ [t] → ∃ r, rings w !! x = Some r ∧ health_checks r < 1024) →
  addr_to_string t ∈ A → t ∉ more → NoDup (o :: more) →
  (∀ x, x ∈ more → addr_to_string x ∉ A) →
  ∃ w', after_events (replicate (S (length more)) EvJob) w = w' ∧ calm w' ∧
    jobs w' = [Announce t (A ++ map addr_to_string (o :: more))] ∧
    round_from t more w w'.
Proof.
  induction more as [|x more IH]; intros o cache A w Hc Hme Hj Hp Hhc HtA Htm Hnd Hnin.
  - destruct Hp as [Hp _]. destruct (Hhc t ltac:(by left)) as (r & Hr & Hlt).
    destruct (list_hop o t cache A w r Hc Hme Hj Hp Hr Hlt) as [cache' Hhop].
    assert (addr_to_string t ∈ A ++ [addr_to_string o]) as HtA' by set_solver.
    rewrite bool_decide_eq_true_2 in Hhop by done.
    eexists. split; [unfold after_events; cbn [length replicate fold_left]; exact Hhop|].
    split_and!; [done..|]. by apply round_from_start.
  - destruct Hp as [Hp Hpath]. apply NoDup_cons in Hnd as [Ho Hnd].
    apply not_elem_of_cons in Htm as [Htx Htm].
    destruct (Hhc x ltac:(by left)) as (r & Hr & Hlt).
    destruct (list_hop o x cache A w r Hc Hme Hj Hp Hr Hlt) as [cache' Hhop].
    set (A' := A ++ [addr_to_string o]) in *.
    assert (∀ y, y ∈ x :: more → addr_to_string y ∉ A') as Hnin'.
    { intros y Hy [HyA|Hyo%list_elem_of_singleton]%elem_of_app; [by apply (Hnin y)|].
      apply addr_to_string_inj in Hyo as ->. by apply Ho. }
    rewrite bool_decide_eq_false_2 in Hhop by (apply Hnin'; by left).
    set (w1 := mkNet (rings (upd x (heard A' x) w)) [RelayList x cache' A'] []) in *.
    assert (same_pointers w w1) as Hs by (destruct (same_pointers_heard A' x w); by split).
    destruct (IH x cache' A' w1 eq_refl (sp_named _ _ Hs Hme) eq_refl
      (prev_path_same _ _ _ Hs Hpath)) as (w' & Hrun & Hc' & Hj' & Hrf); try done.
    { intros y Hy. unfold w1, upd; simpl. destruct (decide (x = y)) as [<-|].
      - apply NoDup_cons in Hnd as [Hx _].
        apply elem_of_app in Hy as [?|Hy%list_elem_of_singleton]; congruence.
      - rewrite lookup_alter_ne by done. apply Hhc. by right. }
    { unfold A'. set_solver. }
    { intros y Hy. apply Hnin'. by right. }
    exists w'. split.
    { unfold after_events in Hrun |- *. cbn [length replicate fold_left] in Hrun |- *.
      by rewrite Hhop. }
    split; [done|]. split.
    { rewrite Hj'. unfold A'. cbn [map]. by rewrite <- app_assoc. }
    apply NoDup_cons in Hnd as [Hx _].
    eapply round_from_hop; [| |exact Hx|exact Hrf]; [unfold A'; set_solver|by apply Hnin'; left].
Qed.

Lemma turn_run t p elapsed w rt rp :
  calm w → named w → jobs w = [] → elapsed ≤ 2000 →
  rings w !! t = Some rt → am_i_coordinator rt = true → prev_at w t = Some p →
  rings w !! p = Some rp → health_checks rp < 1024 →
  ∃ cache, after_event (EvTurn t elapsed) w =
    mkNet (rings (upd p (heard [addr_to_string t] p) w))
      [if bool_decide (addr_to_string p ∈ [addr_to_string t])
       then Announce p [addr_to_string t]
       else RelayList p cache [addr_to_string t]] [].
Proof.
  intros Hc Hme Hj Hel Ht Hco Hp Hrp Hhc. exists (ring_cache rp). unfold after_event.
  cbn [run_event]. unfold coordinate_turn. unfold bind at 1. rewrite (serve_self t w rt) by done.
  rewrite Hco. unfold bind at 1, bind at 1. rewrite (prev_of_run t p) by done.
  unfold bind at 1, attempt. rewrite rpc_up; [|done|by eexists].
  rewrite (serve_list p rp) by (done || by apply Hme). cbn [ret].
  destruct (N.ltb_spec 2000 elapsed); [lia|]. cbn [snd ret]. unfold push.
  cbn [jobs links upd]. by rewrite Hj, Hc.
Qed.

Definition informed (A : list string) (l : list SocketAddr) (w : Net) : Net :=
  fold_left (λ w x, upd x (with_cache A) w) l w.

Lemma announce_run A l : ∀ w,
  calm w → (∀ x, x ∈ l → lives w x) →
  announce A (map addr_to_string l) w = (Done tt, informed A l w).
Proof.
  induction l as [|x l IH]; intros w Hc Hl; [done|]. cbn [map announce].
  unfold bind at 1. rewrite addr_parse_to_string. unfold bind at 1, attempt.
  rewrite rpc_up by (done || apply Hl; by left). unfold connection_announce.
  rewrite serve_change by (apply Hl; by left). cbn [ret]. apply IH; [done|].
  intros y Hy. apply lives_upd, Hl. by right.
Qed.

Lemma informed_spec A l : ∀ w,
  same_pointers w (informed A l w) ∧ jobs (informed A l w) = jobs w ∧
  ∀ a r', rings (informed A l w) !! a = Some r' →
    ∃ r, rings w !! a = Some r ∧ am_i_coordinator r' = am_i_coordinator r ∧
      (a ∈ l → ring_cache r' = A) ∧ (ring_cache r = A → ring_cache r' = A).
Proof.
  induction l as [|x l IH]; intros w; cbn [informed fold_left].
  { split_and!; [done..|]. intros a r' Hr. exists r'. split_and!; try done.
    intros Ha. by apply elem_of_nil in Ha. }
  destruct (IH (upd x (with_cache A) w)) as (Hs & Hj & Hr). split_and!; [|done|].
  { etrans; [by apply (same_pointers_upd x (with_cache A))|done]. }
  intros a r' Hr'. destruct (Hr a r' Hr') as (r1 & Hr1 & Hco & Hin & Hsame).
  unfold upd in Hr1; simpl in Hr1. destruct (decide (x = a)) as [->|].
  - rewrite lookup_alter_eq in Hr1. destruct (rings w !! a) as [r|]; [|done]. simplify_eq/=.
    exists r. split_and!; [done..| |]; intros _; by apply Hsame.
  - rewrite lookup_alter_ne in Hr1 by done. exists r1. split_and!; try done.
    intros [->|Ha]%elem_of_cons; [done|by apply Hin].
Qed.

(** The token is back at the coordinator that sent it. *)
Lemma list_collects t rest elapsed w rt :
  calm w → ring_ok (t :: rest) w → jobs w = [] → elapsed ≤ 2000 →
  rings w !! t = Some rt → am_i_coordinator rt = true →
  (∀ x r, rings w !! x = Some r → health_checks r < 1024) →
  ∃ w', after_events (EvTurn t elapsed :: replicate (length rest) EvJob) w = w' ∧ calm w' ∧
    jobs w' = [Announce t (map addr_to_string (t :: rev rest))] ∧
    round_from t (rev rest) w w'.
Proof.
  intros Hc Hok Hj Hel Hrt Hco Hhc. pose proof (ring_prev_path _ _ _ Hok) as Hpath.
  pose proof (ring_nodup _ _ Hok) as [Ht Hnd]%NoDup_cons.
  rewrite <- (length_rev rest). pose proof (ring_named _ _ Hok) as Hme.
  assert (∀ x, x ∈ rev rest → x ∈ rest) as Hin
    by (intros x; by rewrite !list_elem_of_In, <- in_rev).
  assert (NoDup (rev rest)) as Hnd' by (by rewrite <- (Permutation_rev rest)).
  assert (∀ x, x = t ∨ x ∈ rev rest → ∃ r, rings w !! x = Some r ∧ health_checks r < 1024) as Hlt.
  { intros x Hx. assert (lives w x) as [r Hr].
    { apply (ring_live _ _ Hok). destruct Hx as [->|Hx]; [by left|right; by apply Hin]. }
    exists r. split; [done|by eapply Hhc]. }
  destruct (rev rest) as [|x more] eqn:Hrev.
  - destruct Hpath as [Hp _].
    destruct (turn_run t t elapsed w rt rt Hc Hme Hj Hel Hrt Hco Hp Hrt (Hhc _ _ Hrt))
      as [cache Htn].
    rewrite bool_decide_eq_true_2 in Htn by by left.
    eexists. split; [unfold after_events; cbn [length replicate fold_left]; exact Htn|].
    split_and!; [done..|]. apply round_from_start. by left.
  - destruct Hpath as [Hp Hpath].
    destruct (Hlt x ltac:(right; by left)) as (rx & Hrx & Hhx).
    destruct (turn_run t x elapsed w rt rx Hc Hme Hj Hel Hrt Hco Hp Hrx Hhx) as [cache Htn].
    assert (x ≠ t) as Hxt by (intros ->; apply Ht, Hin; by left).
    assert (t ∉ more) as Htm by (intros Htm; apply Ht, Hin; by right).
    assert (∀ y, y ∈ x :: more → addr_to_string y ∉ [addr_to_string t]) as Hnin.
    { intros y Hy Hyt%list_elem_of_singleton%addr_to_string_inj. subst. by apply Ht, Hin. }
    rewrite bool_decide_eq_false_2 in Htn by (apply Hnin; by left).
    set (w1 := mkNet (rings (upd x (heard [addr_to_string t] x) w))
                 [RelayList x cache [addr_to_string t]] []) in *.
    assert (same_pointers w w1) as Hs
      by (destruct (same_pointers_heard [addr_to_string t] x w); by split).
    assert (∀ y, x ≠ y → rings w1 !! y = rings w !! y) as Hw1
      by (intros y Hy; unfold w1, upd; simpl; by rewrite lookup_alter_ne).
    pose proof Hnd' as [Hx _]%NoDup_cons.
    destruct (list_walk t more x cache [addr_to_string t] w1 eq_refl (sp_named _ _ Hs Hme)
      eq_refl (prev_path_same _ _ _ Hs Hpath)) as (w' & Hrun & Hc' & Hj' & Hrf); try done.
    { intros y [Hy|Hy%list_elem_of_singleton]%elem_of_app; (rewrite Hw1; [|congruence]);
        apply Hlt; [right; by right|by left]. }
    { by left. }
    { intros y Hy. apply Hnin. by right. }
    exists w'. split.
    { unfold after_events in Hrun |- *. cbn [length replicate fold_left] in Hrun |- *.
      by rewrite Htn. }
    split_and!; [done..|].
    eapply round_from_hop; [| |exact Hx|exact Hrf]; [by left|by apply Hnin; left].
Qed.

(** C12. The coordinator's round.  Each turn of the coordinator ends with every member
    holding the same list, the members in the order of [prev] from the coordinator,
    and with no coordinator left that is greater than it; the sender stays one. *)
Theorem list_round_informs t rest elapsed w rt :
  calm w → ring_ok (t :: rest) w → jobs w = [] → elapsed ≤ 2000 →
  rings w !! t = Some rt → am_i_coordinator rt = true →
  (∀ x r, rings w !! x = Some r → health_checks r < 1024) →
  let w' := after_events (EvTurn t elapsed :: replicate (length rest + 1) EvJob) w in
  jobs w' = [] ∧ same_pointers w w' ∧
  ∀ a r, rings w' !! a = Some r →
    ring_cache r = map addr_to_string (t :: rev rest) ∧
    (a = t → am_i_coordinator r = true) ∧
    (am_i_coordinator r = true → String.leb (addr_to_string a) (addr_to_string t) = true).
Proof.
  intros Hc Hok Hj Hel Hrt Hco Hhc w'.
  destruct (list_collects t rest elapsed w rt) as (w1 & Hcol & Hc1 & Hj1 & [Hsp Hoth Hst Hdem]);
    try done. set (A := map addr_to_string (t :: rev rest)) in *.
  assert (∀ x, x ∈ t :: rev rest ↔ x ∈ t :: rest) as Hrev
    by (intros x; by rewrite (Permutation_rev rest) at 2).
  assert (w' = informed A (t :: rev rest) (mkNet (rings w1) [] [])) as Hw'.
  { unfold w'. rewrite replicate_add, app_comm_cons, after_events_app, Hcol.
    unfold after_events. cbn [replicate fold_left]. eapply after_job; [done|].
    rewrite calm_net by done. cbn [run_job]. unfold bind at 1, alive, gets.
    rewrite bool_decide_eq_true_2.
    2:{ apply (sp_lives _ _ Hsp), (ring_live _ _ Hok). by left. }
    apply announce_run; [done|]. intros x Hx. apply (sp_lives _ _ Hsp), (ring_live _ _ Hok).
    by apply Hrev. }
  destruct (informed_spec A (t :: rev rest) (mkNet (rings w1) [] [])) as (Hs & Hjs & Hr).
  rewrite Hw'. split; [done|]. split.
  { etrans; [|exact Hs]. etrans; [exact Hsp|]. by split. }
  intros a r' Hr'. destruct (Hr a r' Hr') as (r & Hr1 & Hcr & Hin & _). cbn [rings] in Hr1.
  assert (a ∈ t :: rev rest) as Ha.
  { apply Hrev, (ring_live _ _ Hok), (sp_lives _ _ Hsp). by exists r. }
  split; [by apply Hin|]. rewrite Hcr. split.
  - intros ->. destruct (Hst r Hr1) as (r0 & Hr0 & ->). congruence.
  - intros Htrue. apply elem_of_cons in Ha as [->|Ha]; [apply string_leb_refl|].
    by eapply Hdem.
Qed.

End tokens.
