(* ===== verification/RingTraces.v ===== *)
(** * The ring on concrete networks

    Closed executions, among them two joins that overlap, and the theorems on the ring
    at concrete networks. *)

From S2P Require Import RingFacts RingProps RingTokens RingInstances.

#[local] Existing Instance addr_text.

(** ** Rings of one and of three *)

Definition alone : Net := mkNet {[node_1 := fresh_ring node_1]} [] [].

Lemma alone_ok : ring_ok [node_1] alone.
Proof. apply ring_check_ok. vm_compute. reflexivity. Qed.

Definition build : list NetEvent :=
  [EvStart node_3 (Some node_1); EvStart node_2 (Some node_3)].
Definition trio : Net := after_events build alone.

Lemma trio_ok : ring_ok [node_2; node_3; node_1] trio.
Proof. apply ring_check_ok. vm_compute. reflexivity. Qed.

Lemma trio_ok_1 : ring_ok [node_1; node_2; node_3] trio.
Proof. apply ring_check_ok. vm_compute. reflexivity. Qed.

(** The [next] pointers: 1 to 2 to 3 to 1. *)
Example trio_pointers :
  (next_of trio node_1, next_of trio node_2, next_of trio node_3) =
    (Some node_2, Some node_3, Some node_1).
Proof. vm_compute. reflexivity. Qed.

Lemma membership_refines_witness : ring_ok [node_2; node_3; node_1] trio.
Proof.
  apply (membership_refines build [node_1]).
  - reflexivity.
  - apply alone_ok.
  - vm_compute. reflexivity.
Defined.

Lemma join_error_restores_witness :
  prev_at (join node_1 "nonsense" trio).2 node_1 = prev_at trio node_1 ∧
  prev_at (join node_1 "nonsense" trio).2 node_2 = prev_at trio node_2.
Proof.
  split; apply (join_error_restores node_1 "nonsense" EAddrParse);
    first [vm_compute; reflexivity | vm_compute; by eexists].
Defined.

Lemma recovery_finds_nearest_witness :
  recovery_prev (map addr_to_string [node_1; node_3; node_2]) node_1 (leave node_3 trio) =
    (Done tt, upd node_1 (with_prev node_2) (upd node_2 (with_next node_1) (leave node_3 trio))).
Proof.
  apply (recovery_finds_nearest node_1 [] [node_3; node_2] [node_3] node_2 [node_1]).
  - reflexivity.
  - vm_compute. by eexists.
  - vm_compute. by eexists.
  - apply not_elem_of_nil.
  - reflexivity.
  - intros x ->%list_elem_of_singleton. vm_compute. by intros [].
Defined.

Lemma relay_heals_ring_witness :
  ∃ w', relay node_1 (map addr_to_string [node_1; node_3; node_2])
      (election [addr_to_string node_1]) (crash [node_3] trio) = (Done tt, w') ∧
    ring_ok [node_1; node_2] w'.
Proof.
  apply (relay_heals_ring node_1 [node_2] [node_3] [] [node_3; node_2]).
  - reflexivity.
  - apply trio_ok_1.
  - discriminate.
  - reflexivity.
  - apply not_elem_of_nil.
Defined.

Lemma election_elects_smallest_witness :
  let w' := after_events (EvTimeout node_2 :: replicate 5 EvJob) trio in
  jobs w' = [] ∧ same_pointers trio w' ∧
  ∃ c, smallest [node_2; node_3; node_1] c ∧
    ∀ a r, rings w' !! a = Some r → am_i_coordinator r = true ↔ a = c.
Proof.
  apply (election_elects_smallest node_2 [node_3; node_1] trio).
  - reflexivity.
  - apply trio_ok.
  - reflexivity.
Defined.

(** The same ring with node 2 for its coordinator. *)
Definition led_trio : Net := upd node_2 (with_coordinator true) trio.

Lemma list_round_informs_witness :
  let w' := after_events (EvTurn node_2 10 :: replicate 3 EvJob) led_trio in
  jobs w' = [] ∧ same_pointers led_trio w' ∧
  ∀ a r, rings w' !! a = Some r →
    ring_cache r = map addr_to_string [node_2; node_1; node_3] ∧
    (a = node_2 → am_i_coordinator r = true) ∧
    (am_i_coordinator r = true → String.leb (addr_to_string a) (addr_to_string node_2) = true).
Proof.
  apply (list_round_informs node_2 [node_3; node_1] 10 led_trio
           (default (fresh_ring node_2) (rings led_trio !! node_2))).
  - reflexivity.
  - eapply ring_ok_same; [|apply trio_ok]. by apply same_pointers_upd.
  - reflexivity.
  - vm_compute. discriminate.
  - vm_compute. reflexivity.
  - vm_compute. reflexivity.
  - assert (map_Forall (λ _ r, health_checks r < 1024) (rings led_trio)) as Hall.
    { apply (bool_decide_eq_true_1 _). vm_compute. reflexivity. }
    intros x r. apply Hall.
Defined.

(** ** Overlapping joins *)

(** [true] runs the next section of the first call, [false] of the second. *)
Fixpoint run_schedule (sched : list bool) (w : Net) (p q : JoinPc) : Net * JoinPc * JoinPc :=
  match sched with
  | [] => (w, p, q)
  | b :: sched =>
      match join_step (if b then p else q) w with
      | (Done pc, w') => run_schedule sched w' (if b then pc else p) (if b then q else pc)
      | (_, w') => (w', p, q)
      end
  end.

Definition pair_ring : Net := after_event (EvStart node_2 (Some node_1)) alone.
Definition newcomers (w : Net) : Net := arrive node_4 (arrive node_3 w).

(** Nodes 3 and 4 join the ring of 1 and 2 through node 1 at the same time; each is
    told where it belongs and takes its place. *)
Definition overlap (sched : list bool) : Net * JoinPc * JoinPc :=
  run_schedule sched (newcomers pair_ring)
    (JRead node_1 (addr_to_string node_3)) (JRead node_1 (addr_to_string node_4)).

Definition settle (x : Net * JoinPc * JoinPc) : Net :=
  match x with
  | (w, JDone r3, JDone r4) =>
      (main_joined node_4 node_1 r4 (main_joined node_3 node_1 r3 w).2).2
  | (w, _, _) => w
  end.

(** C32. Two joins through the same node that overlap both succeed and break the ring:
    [join_lock] is released as soon as it is taken.  A lock that excluded the other call
    would not be enough: the same happens when the calls do not overlap but the first
    newcomer takes its place only after the second call, for it then overwrites the
    [next] that call has given it. *)
Theorem overlapping_joins_break_ring sched :
  sched = [true; false; true; false; true; false] ∨
  sched = [true; true; true; false; false; false] →
  ∃ w r3 r4, overlap sched = (w, JDone (Prev r3), JDone (Prev r4)) ∧
    ∀ l, ¬ ring_ok l (settle (overlap sched)).
Proof.
  assert (∀ w l, lives w node_4 → prev_at w node_4 ≫= next_of w ≠ Some node_4 → ¬ ring_ok l w)
    as Hbroken.
  { intros w l Hl Hn Hok. destruct (ring_ok_back _ _ node_4 Hok Hl) as (p & Hp & Hnp).
    apply Hn. by rewrite Hp. }
  intros [->| ->]; do 3 eexists; (split; [vm_compute; reflexivity|]);
    intros l; apply Hbroken; vm_compute; [by eexists|discriminate|by eexists|discriminate].
Qed.

Lemma overlapping_joins_break_ring_witness :
  ∃ w r3 r4, overlap [true; false; true; false; true; false] =
      (w, JDone (Prev r3), JDone (Prev r4)) ∧
    ∀ l, ¬ ring_ok l (settle (overlap [true; false; true; false; true; false])).
Proof. apply overlapping_joins_break_ring. by left. Defined.
