(* ===== verification/TypeConv.v ===== *)
(** * Attributes and times between the file system, the wire and FUSE

    Models [src/distfs/src/type_conv.rs].  A value that travels from the server to the
    kernel of the client is converted twice, [Metadata] to the message and the message
    to [fuse3]'s type; the widths of the integers on the way are kept. *)

From S2P Require Export Prelude.
Open Scope Z_scope.
Open Scope prog_scope.

(** ** Casts *)

Definition to_u16 (z : Z) : Z := z mod 2 ^ 16.
Definition to_u32 (z : Z) : Z := z mod 2 ^ 32.
Definition to_u64 (z : Z) : Z := z mod 2 ^ 64.
Definition to_i32 (z : Z) : Z := (z + 2 ^ 31) mod 2 ^ 32 - 2 ^ 31.
Definition to_i64 (z : Z) : Z := (z + 2 ^ 63) mod 2 ^ 64 - 2 ^ 63.

(** ** File types *)

Inductive Filetype :=
| NamedPipe | CharDevice | BlockDevice | Directory | RegularFile | Symlink | Socket.

#[export] Instance Filetype_eq_dec : EqDecision Filetype.
Proof. solve_decision. Defined.

(** The enumeration on the wire; an unknown number reads as the default, 0. *)
Definition filetype_to_i32 (f : Filetype) : Z :=
  match f with
  | NamedPipe => 0 | CharDevice => 1 | BlockDevice => 2 | Directory => 3
  | RegularFile => 4 | Symlink => 5 | Socket => 6
  end.
Definition filetype_of_i32 (k : Z) : Filetype :=
  match k with
  | 1 => CharDevice | 2 => BlockDevice | 3 => Directory
  | 4 => RegularFile | 5 => Symlink | 6 => Socket
  | _ => NamedPipe
  end.

(** [std::fs::FileType] is the [S_IFMT] part of the mode. *)
Definition S_IFMT : Z := 0xF000.
Definition has_type (mode ty : Z) : bool := Z.land mode S_IFMT =? ty.

Inductive Fuse3FileType :=
| FNamedPipe | FCharDevice | FBlockDevice | FDirectory | FRegularFile | FSymlink | FSocket.

Definition filetype_grpc_to_fuse3 (f : Filetype) : Fuse3FileType :=
  match f with
  | BlockDevice => FBlockDevice
  | CharDevice => FCharDevice
  | Directory => FDirectory
  | RegularFile => FRegularFile
  | Socket => FSocket
  | Symlink => FSymlink
  | NamedPipe => FNamedPipe
  end.

(** [None] is the [unreachable!()]. *)
Definition std_to_grpc (mode : Z) : option Filetype :=
  if has_type mode 0x4000 then Some Directory
  else if has_type mode 0x8000 then Some RegularFile
  else if has_type mode 0xA000 then Some Symlink
  else if has_type mode 0xC000 then Some Socket
  else if has_type mode 0x6000 then Some BlockDevice
  else if has_type mode 0x2000 then Some CharDevice
  else if has_type mode 0x1000 then Some NamedPipe
  else None.

(** ** Times *)

Record Timestamp := mkTimestamp { seconds : Z; nanos : Z }.

(** A [SystemTime] after the epoch, in seconds and nanoseconds. *)
Record SystemTime := mkSystemTime { st_secs : Z; st_nanos : Z }.

Inductive ConvError := ConvErrno (e : Z).

Definition billion : Z := 10 ^ 9.

(** [SystemTime + Duration] panics when the seconds leave [i64]. *)
Definition add_duration {S} (t : SystemTime) (secs nsecs : Z) : M S ConvError SystemTime :=
  let n := st_nanos t + nsecs in
  let s := st_secs t + secs + n / billion in
  if s <? 2 ^ 63 then ret (mkSystemTime s (n mod billion)) else panic.

(** [Duration::from_secs(seconds as u64)], then [Duration::from_nanos(nanos as u64)]. *)
Definition grpc_to_system {S} (ts : Timestamp) : M S ConvError SystemTime :=
  let! t := add_duration (mkSystemTime 0 0) (to_u64 (seconds ts)) 0 in
  let ns := to_u64 (nanos ts) in
  add_duration t (ns / billion) (ns mod billion).

(** ** Attributes *)

(** What [std::fs::Metadata] reports. *)
Record Metadata := mkMetadata {
  m_len : Z; m_blocks : Z; m_atime : Z; m_mtime : Z; m_ctime : Z;
  m_mode : Z; m_nlink : Z; m_uid : Z; m_gid : Z; m_rdev : Z; m_blksize : Z
}.

Record Attr := mkAttr {
  size : Z; blocks : Z;
  atime : option Timestamp; mtime : option Timestamp; ctime : option Timestamp;
  kind : Z; perm : Z; nlink : Z; uid : Z; gid : Z; rdev : Z; flag : Z; blksize : Z
}.

Record FileAttr := mkFileAttr {
  f_size : Z; f_blocks : Z; f_atime : SystemTime; f_mtime : SystemTime; f_ctime : SystemTime;
  f_kind : Fuse3FileType; f_perm : Z; f_nlink : Z; f_uid : Z; f_gid : Z; f_rdev : Z; f_blksize : Z
}.

Definition EACCES : Z := 13.

Definition time_to_system {S} (t : option Timestamp) : M S ConvError SystemTime :=
  let! ts := or_fail (ConvErrno EACCES) t in grpc_to_system ts.

Definition attr_grpc_to_fuse3 {S} (a : Attr) : M S ConvError FileAttr :=
  let! at_ := time_to_system (atime a) in
  let! mt := time_to_system (mtime a) in
  let! ct := time_to_system (ctime a) in
  ret (mkFileAttr (size a) (blocks a) at_ mt ct
         (filetype_grpc_to_fuse3 (filetype_of_i32 (kind a)))
         (to_u16 (perm a)) (nlink a) (uid a) (gid a) (rdev a) (blksize a)).

(** [None] is the panic of [std_to_grpc]. *)
Definition metadata_to_grpc (m : Metadata) : option Attr :=
  ty ← std_to_grpc (m_mode m);
  Some (mkAttr (m_len m) (m_blocks m)
          (Some (mkTimestamp (m_atime m) 0)) (Some (mkTimestamp (m_mtime m) 0))
          (Some (mkTimestamp (m_ctime m) 0))
          (filetype_to_i32 ty) (Z.land (m_mode m) 0x1FF)
          (to_u32 (m_nlink m)) (m_uid m) (m_gid m) (to_u32 (m_rdev m)) 0 (to_u32 (m_blksize m))).

(** ** Attributes to set *)

Record SettableAttr := mkSettableAttr {
  s_mode : option Z; s_uid : option Z; s_gid : option Z; s_size : option Z;
  s_lock_owner : option Z;
  s_atime : option Timestamp; s_mtime : option Timestamp; s_ctime : option Timestamp
}.

(** [fuse3::Timestamp]: [sec] is an [i64], [nsec] a [u32]. *)
Record Fuse3Timestamp := mkFuse3Timestamp { sec : Z; nsec : Z }.

Record SetAttr := mkSetAttr {
  x_mode : option Z; x_uid : option Z; x_gid : option Z; x_size : option Z;
  x_lock_owner : option Z;
  x_atime : option Fuse3Timestamp; x_mtime : option Fuse3Timestamp;
  x_ctime : option Fuse3Timestamp
}.

Definition timestamp_of_grpc (ts : Timestamp) : Fuse3Timestamp :=
  mkFuse3Timestamp (seconds ts) (to_u32 (nanos ts)).
Definition timestamp_of_fuse3 (ts : Fuse3Timestamp) : Timestamp :=
  mkTimestamp (sec ts) (to_i32 (nsec ts)).

Definition set_attr_grpc_to_fuse3 (a : SettableAttr) : SetAttr :=
  mkSetAttr (s_mode a) (s_uid a) (s_gid a) (s_size a) (s_lock_owner a)
    (timestamp_of_grpc <$> s_atime a) (timestamp_of_grpc <$> s_mtime a)
    (timestamp_of_grpc <$> s_ctime a).

Definition set_attr_fuse3_to_grpc (a : SetAttr) : SettableAttr :=
  mkSettableAttr (x_mode a) (x_uid a) (x_gid a) (x_size a) (x_lock_owner a)
    (timestamp_of_fuse3 <$> x_atime a) (timestamp_of_fuse3 <$> x_mtime a)
    (timestamp_of_fuse3 <$> x_ctime a).

(** ** Times that survive *)

Lemma to_u64_id z : 0 ≤ z < 2 ^ 64 → to_u64 z = z.
Proof. intros. by apply Z.mod_small. Qed.

Lemma to_u64_neg z : - 2 ^ 63 ≤ z < 0 → to_u64 z = 2 ^ 64 + z.
Proof.
  intros. unfold to_u64. symmetry. apply (Z.mod_unique_pos _ _ (-1)); lia.
Qed.

Lemma add_duration_run {S} t secs nsecs (w : S) :
  add_duration t secs nsecs w =
    let s := st_secs t + secs + (st_nanos t + nsecs) / billion in
    if s <? 2 ^ 63 then (Done (mkSystemTime s ((st_nanos t + nsecs) mod billion)), w)
    else (Panic, w).
Proof. unfold add_duration. cbv zeta. by case_match. Qed.

Lemma grpc_to_system_secs {S} s (w : S) :
  - 2 ^ 63 ≤ s < 2 ^ 63 →
  grpc_to_system (mkTimestamp s 0) w =
    if 0 <=? s then (Done (mkSystemTime s 0), w) else (Panic, w).
Proof.
  intros Hs. unfold grpc_to_system, bind. rewrite add_duration_run.
  cbn [seconds nanos st_secs st_nanos]. cbv zeta.
  change ((0 + 0) / billion) with 0. change ((0 + 0) mod billion) with 0.
  rewrite Z.add_0_r, Z.add_0_l. destruct (Z.leb_spec 0 s).
  - rewrite to_u64_id by lia. destruct (Z.ltb_spec s (2 ^ 63)); [|lia].
    rewrite add_duration_run. cbn [st_secs st_nanos]. cbv zeta.
    change (to_u64 0 / billion) with 0. change ((0 + to_u64 0 mod billion) / billion) with 0.
    change ((0 + to_u64 0 mod billion) mod billion) with 0. rewrite !Z.add_0_r.
    by destruct (Z.ltb_spec s (2 ^ 63)); [|lia].
  - rewrite to_u64_neg by lia. by destruct (Z.ltb_spec (2 ^ 64 + s) (2 ^ 63)); [lia|].
Qed.

Lemma to_i32_u32 n : 0 ≤ n < 2 ^ 32 → to_u32 (to_i32 n) = n.
Proof.
  intros Hn. unfold to_u32, to_i32.
  destruct (Z.ltb_spec n (2 ^ 31)).
  - rewrite (Z.mod_small (n + 2 ^ 31)) by lia. replace (n + 2 ^ 31 - 2 ^ 31) with n by lia.
    by apply Z.mod_small.
  - replace ((n + 2 ^ 31) mod 2 ^ 32) with (n - 2 ^ 31)
      by (apply (Z.mod_unique_pos _ _ 1); lia).
    symmetry. apply (Z.mod_unique_pos _ _ (-1)); lia.
Qed.
