(* ===== verification/TypeConvProps.v ===== *)
(** * Properties of the conversions *)

From S2P Require Import TypeConv.
Open Scope Z_scope.

(** A metadata record the kernel may return, in the widths of [stat]. *)
Record wf_metadata (m : Metadata) : Prop := {
  wf_times : Forall (λ t, - 2 ^ 63 ≤ t < 2 ^ 63) [m_atime m; m_mtime m; m_ctime m];
  wf_kind : std_to_grpc (m_mode m) ≠ None;
  wf_mode : 0 ≤ m_mode m < 2 ^ 32
}.

(** What the client's kernel is told about a file: the server's metadata, times cut to
    seconds and [nlink], [rdev] and [blksize] to 32 bits. *)
Definition attr_view (m : Metadata) (ty : Filetype) : FileAttr :=
  mkFileAttr (m_len m) (m_blocks m)
    (mkSystemTime (m_atime m) 0) (mkSystemTime (m_mtime m) 0) (mkSystemTime (m_ctime m) 0)
    (filetype_grpc_to_fuse3 ty) (Z.land (m_mode m) 0x1FF)
    (to_u32 (m_nlink m)) (m_uid m) (m_gid m) (to_u32 (m_rdev m)) (to_u32 (m_blksize m)).

Lemma filetype_roundtrip f : filetype_of_i32 (filetype_to_i32 f) = f.
Proof. by destruct f. Qed.

Lemma perm_fits mode : 0 ≤ mode → to_u16 (Z.land mode 0x1FF) = Z.land mode 0x1FF.
Proof.
  intros Hm. apply Z.mod_small.
  change 0x1FF with (Z.ones 9). rewrite Z.land_ones by done.
  pose proof (Z.mod_pos_bound mode (2 ^ 9) ltac:(done)). lia.
Qed.

(** C23. From the server's [stat] to the client's kernel: a file whose times are after
    1970 arrives as it is, but for the widths of [attr_view]; one with a time before
    1970 makes the client panic. *)
Theorem attr_end_to_end {S} m a (w : S) :
  wf_metadata m → metadata_to_grpc m = Some a →
  ∃ ty, std_to_grpc (m_mode m) = Some ty ∧
    attr_grpc_to_fuse3 a w =
      if (0 <=? m_atime m) && (0 <=? m_mtime m) && (0 <=? m_ctime m)
      then (Done (attr_view m ty), w) else (Panic, w).
Proof.
  intros [Ht Hk Hm] Ha. unfold metadata_to_grpc in Ha.
  destruct (std_to_grpc (m_mode m)) as [ty|]; [|done]. simplify_eq/=.
  exists ty. split; [done|]. unfold attr_grpc_to_fuse3, time_to_system. cbn.
  rewrite !Forall_cons in Ht. destruct Ht as (Hat & Hmt & Hct & _).
  unfold bind at 1, bind at 1. cbn [or_fail ret].
  rewrite grpc_to_system_secs by done. destruct (0 <=? m_atime m); [|done]. cbn [andb].
  unfold bind at 1, bind at 1. cbn [or_fail ret].
  rewrite grpc_to_system_secs by done. destruct (0 <=? m_mtime m); [|done]. cbn [andb].
  unfold bind at 1, bind at 1. cbn [or_fail ret].
  rewrite grpc_to_system_secs by done. destruct (0 <=? m_ctime m); [|done].
  unfold ret, attr_view. by rewrite filetype_roundtrip, perm_fits by lia.
Qed.

Definition sample_metadata : Metadata :=
  mkMetadata 5 8 1700000000 1700000000 1700000000 0x81A4 1 1000 1000 0 4096.

Lemma attr_end_to_end_witness :
  attr_grpc_to_fuse3 (default (mkAttr 0 0 None None None 0 0 0 0 0 0 0 0)
    (metadata_to_grpc sample_metadata)) tt = (Done (attr_view sample_metadata RegularFile), tt).
Proof.
  destruct (attr_end_to_end sample_metadata
    (default (mkAttr 0 0 None None None 0 0 0 0 0 0 0 0) (metadata_to_grpc sample_metadata)) tt)
    as (ty & Hty & ->).
  - split; [repeat constructor; vm_compute; done|done|vm_compute; done].
  - reflexivity.
  - vm_compute in Hty. injection Hty as <-. reflexivity.
Defined.

Definition wf_timestamp (t : option Fuse3Timestamp) : Prop :=
  match t with Some ts => 0 ≤ nsec ts < 2 ^ 32 | None => True end.

Lemma timestamp_roundtrip t :
  wf_timestamp t → timestamp_of_grpc <$> (timestamp_of_fuse3 <$> t) = t.
Proof.
  destruct t as [[s n]|]; [|done]. intros Hn. simpl in *.
  unfold timestamp_of_grpc, timestamp_of_fuse3. simpl. by rewrite to_i32_u32.
Qed.

(** What the kernel asks to set arrives unchanged: the conversion to the wire and back
    is the identity for every nanosecond count of 32 bits, also those that are negative
    numbers on the wire. *)
Theorem set_attr_roundtrip a :
  Forall wf_timestamp [x_atime a; x_mtime a; x_ctime a] →
  set_attr_grpc_to_fuse3 (set_attr_fuse3_to_grpc a) = a.
Proof.
  rewrite !Forall_cons. intros (Ha & Hm & Hc & _). destruct a; simpl in *.
  unfold set_attr_grpc_to_fuse3. simpl. by rewrite !timestamp_roundtrip.
Qed.

Lemma set_attr_roundtrip_witness :
  let a := mkSetAttr (Some 0x1A4) None None (Some 10) None
             (Some (mkFuse3Timestamp 5 4000000000)) None None in
  set_attr_grpc_to_fuse3 (set_attr_fuse3_to_grpc a) = a.
Proof. apply set_attr_roundtrip. by repeat constructor. Defined.
