(* ===== verification/Paths.v ===== *)
(** * Paths: from the request's text to a path of the server

    Models [Server::real_path] of [src/distfs/src/server.rs] over
    [std::path::Path] on Unix, and what the requests join to it. *)

From S2P Require Export Prelude.
From Stdlib Require Import Ascii.

(** ** [std::path] *)

Inductive Component := RootDir | CurDir | ParentDir | Normal (name : string).

#[export] Instance Component_eq_dec : EqDecision Component.
Proof. solve_decision. Defined.

(** A [PathBuf] as its [components()]. *)
Definition PathBuf : Type := list Component.
#[export] Instance PathBuf_eq_dec : EqDecision PathBuf := list_eq_dec.

Definition slash : ascii := "/"%char.

(** The pieces of a text between its slashes. *)
Fixpoint split_slash (s : string) : list string :=
  match s with
  | EmptyString => [EmptyString]
  | String c s =>
      if Ascii.eqb c slash then EmptyString :: split_slash s
      else match split_slash s with
           | p :: ps => String c p :: ps
           | [] => [String c EmptyString]
           end
  end.

(** Empty pieces and dots vanish, but for a leading dot. *)
Definition piece (s : string) : list Component :=
  if decide (s = "" ∨ s = ".") then [] else if decide (s = "..") then [ParentDir] else [Normal s].

Definition components (s : string) : PathBuf :=
  match split_slash s with
  | "" :: (_ :: _) as ps => RootDir :: concat (map piece ps)
  | "." :: ps => CurDir :: concat (map piece ps)
  | ps => concat (map piece ps)
  end.

(** [p.join(q)]: an absolute [q] replaces [p]; a leading dot of [q] is in the middle of
    the result and vanishes.  A trailing slash, which the text of the path would keep,
    is no component. *)
Definition join (p q : PathBuf) : PathBuf :=
  match q with
  | RootDir :: _ => q
  | CurDir :: q => p ++ q
  | _ => p ++ q
  end.

(** [p.parent()] *)
Definition parent (p : PathBuf) : option PathBuf :=
  match last p with
  | None | Some RootDir => None
  | Some _ => Some (removelast p)
  end.

(** ** [Server::real_path] *)

Definition real_path_step (root_path parent_ : PathBuf) (component : Component) : PathBuf :=
  match component with
  | RootDir => root_path
  | ParentDir =>
      if decide (parent_ = root_path) then parent_ else default root_path (parent parent_)
  | CurDir => parent_
  | Normal component => join parent_ [Normal component]
  end.

Definition real_path (root_path path : PathBuf) : PathBuf :=
  fold_left (real_path_step root_path) path root_path.

(** [self.real_path(parent).join(name)], the target of the requests that name an entry
    of a directory. *)
Definition entry_path (root_path : PathBuf) (parent_ name : string) : PathBuf :=
  join (real_path root_path (components parent_)) (components name).

(** ** Where a path leads

    Its meaning on a file system without symbolic links: dots dropped, [..] up one. *)
Definition resolve_step (p : PathBuf) (c : Component) : PathBuf :=
  match c with
  | RootDir => [RootDir]
  | CurDir => p
  | ParentDir => default p (parent p)
  | Normal _ => p ++ [c]
  end.
Definition resolve (p : PathBuf) : PathBuf := fold_left resolve_step p [].

(** What [canonicalize] returns: absolute, without dots. *)
Definition normalized (p : PathBuf) : Prop :=
  ∃ names, p = RootDir :: map Normal names.

(** [p] is [root] or below it. *)
Definition under (root p : PathBuf) : Prop := ∃ names, p = root ++ map Normal names.
