(* ===== verification/PathsProps.v ===== *)
(** * Where the server's paths lead *)

From S2P Require Export Paths.

Lemma join_normal p name : join p [Normal name] = p ++ [Normal name].
Proof. done. Qed.

Lemma removelast_snoc {A} (l : list A) x : removelast (l ++ [x]) = l.
Proof. apply List.removelast_last. Qed.

Lemma parent_snoc p name : parent (p ++ [Normal name]) = Some p.
Proof. unfold parent. by rewrite last_snoc, removelast_snoc. Qed.

Lemma under_refl root : under root root.
Proof. exists []. by rewrite app_nil_r. Qed.

Lemma under_snoc root p name : under root p → under root (p ++ [Normal name]).
Proof. intros [names ->]. exists (names ++ [name]). by rewrite map_app, app_assoc. Qed.

Lemma under_parent root p :
  under root p → p ≠ root → ∃ q, parent p = Some q ∧ under root q.
Proof.
  intros [names ->] Hne. destruct names as [|n names _] using rev_ind.
  { by rewrite app_nil_r in Hne. }
  rewrite map_app, app_assoc. eexists. split; [apply parent_snoc|by exists names].
Qed.

Lemma real_path_step_under root p c : under root p → under root (real_path_step root p c).
Proof.
  intros Hp. destruct c; simpl; [apply under_refl|done| |by apply under_snoc].
  case_decide; [done|]. by destruct (under_parent root p) as (q & -> & Hq).
Qed.

Lemma fold_under root path : ∀ p,
  under root p → under root (fold_left (real_path_step root) path p).
Proof.
  induction path as [|c path IH]; intros p Hp; [done|].
  by apply IH, real_path_step_under.
Qed.

Lemma real_path_under root path : under root (real_path root path).
Proof. apply fold_under, under_refl. Qed.

(** ** Resolution *)

Lemma fold_resolve_normals l : ∀ p, fold_left resolve_step (map Normal l) p = p ++ map Normal l.
Proof.
  induction l as [|x l IH]; intros p; simpl; [by rewrite app_nil_r|].
  rewrite IH. by rewrite <- app_assoc.
Qed.

Lemma resolve_normals root names :
  normalized root → resolve (root ++ map Normal names) = root ++ map Normal names.
Proof.
  intros [rnames ->]. unfold resolve. simpl.
  by rewrite <- map_app, fold_resolve_normals.
Qed.

(** C16. Confinement.  Whatever the text of a request's path, with dots, parents and
    slashes anywhere, [real_path] stays at the exported directory or below it: no
    [..] leads out, and what it returns holds no dots that could later. *)
Theorem real_path_confined root text :
  normalized root →
  under root (real_path root (components text)) ∧
  resolve (real_path root (components text)) = real_path root (components text).
Proof.
  intros Hroot. destruct (real_path_under root (components text)) as [names Hp].
  rewrite Hp. split; [by exists names|by apply resolve_normals].
Qed.

Lemma real_path_confined_witness :
  under [RootDir; Normal "srv"] (real_path [RootDir; Normal "srv"] (components "/a/../../../etc")) ∧
  real_path [RootDir; Normal "srv"] (components "/a/../../../etc") =
    [RootDir; Normal "srv"; Normal "etc"].
Proof.
  split; [|vm_compute; reflexivity].
  apply (real_path_confined [RootDir; Normal "srv"] "/a/../../../etc").
  by exists ["srv"].
Defined.

(** ** Names *)

(** C38. The name of a directory entry is joined without that care.  A plain name stays
    below the exported directory; an absolute name is used as it is, wherever the
    server's root is, and [..] in the exported directory itself is its parent. *)
Theorem entry_path_escapes root text name :
  normalized root → root ≠ [RootDir] →
  (∀ n, components name = [Normal n] →
     under root (entry_path root text name)) ∧
  (∀ rest, components name = RootDir :: rest → entry_path root text name = RootDir :: rest) ∧
  (components name = [ParentDir] → components text = [RootDir] →
     ∃ dir n, root = dir ++ [Normal n] ∧ resolve (entry_path root text name) = dir).
Proof.
  intros Hroot Hne. unfold entry_path. split_and!.
  - intros n ->. apply under_snoc, real_path_under.
  - by intros rest ->.
  - intros -> ->. destruct Hroot as [names ->].
    destruct names as [|n names _] using rev_ind; [done|].
    exists (RootDir :: map Normal names), n. split; [by rewrite map_app|].
    unfold resolve. simpl. rewrite map_app, fold_left_app. simpl.
    rewrite fold_left_app, fold_resolve_normals. simpl. rewrite app_comm_cons.
    by rewrite parent_snoc.
Qed.

Lemma entry_path_escapes_witness :
  entry_path [RootDir; Normal "srv"] "/" "/etc/passwd" = [RootDir; Normal "etc"; Normal "passwd"] ∧
  (∃ dir n, [RootDir; Normal "srv"] = dir ++ [Normal n] ∧
     resolve (entry_path [RootDir; Normal "srv"] "/" "..") = dir).
Proof.
  split.
  - apply (entry_path_escapes [RootDir; Normal "srv"] "/" "/etc/passwd");
      [by exists ["srv"]|done|vm_compute; reflexivity].
  - apply (entry_path_escapes [RootDir; Normal "srv"] "/" "..");
      [by exists ["srv"]|done|vm_compute; reflexivity|vm_compute; reflexivity].
Defined.

(** The tests of [test_real_path]. *)
Example real_path_tests :
  let root := [RootDir; Normal "src"] in
  map (λ t, real_path root (components t)) ["/"; "."; "../"; "../foo"; "hoge/bar"] =
    [root; root; root; root ++ [Normal "foo"]; root ++ [Normal "hoge"; Normal "bar"]].
Proof. vm_compute. reflexivity. Qed.

(** The path of an open file is taken below the root once more. *)
Lemma real_path_twice root names :
  normalized root →
  real_path root (root ++ map Normal names) = root ++ tail root ++ map Normal names.
Proof.
  intros [rnames ->]. unfold real_path. simpl.
  assert (∀ l p, fold_left (real_path_step (RootDir :: map Normal rnames)) (map Normal l) p =
    p ++ map Normal l) as Hfold.
  { induction l as [|x l IH]; intros p; simpl; [by rewrite app_nil_r|].
    rewrite IH. unfold join. by rewrite <- app_assoc. }
  rewrite <- map_app, Hfold. by rewrite map_app.
Qed.
