(* ===== verification/FsProto.v ===== *)
(** * The messages of [distfs]

    The requests and responses of [src/distfs/protos/fs.proto], as the structures its
    generated code hands to the server and the client.  Attributes are in [TypeConv]. *)

From S2P Require Export TypeConv.

(** A [uint64] that names an open file, or a position, is an [N]; the other numbers,
    which the code casts, are [Z]. *)
Inductive Request :=
| LookupRequest (parent name : string)
| GetAttrRequest (path : option string) (fh : option N) (flags : Z)
| SetAttrRequest (path : option string) (fh : option N) (attr : option SettableAttr)
| MkdirRequest (parent name : string) (mode umask : Z)
| UnlinkRequest (parent name : string)
| SymlinkRequest (parent name link_path : string)
| RmdirRequest (parent name : string)
| RenameRequest (origin_parent origin_name parent name : string) (flag : Z)
| OpendirRequest (path : string) (flags : Z)
| ReleasedirRequest (fh : N) (flag : Z) (path : string)
| ReaddirRequest (parent : string) (fh offset lock_owner : N)
| OpenRequest (path : string) (flags : Z)
| ReadRequest (fh : N) (offset : Z) (size : N)
| WriteRequest (fh : N) (offset : Z) (data : bytes) (flags : Z)
| ReleaseRequest (fh : N) (flags : Z) (lock_owner : N) (flush : bool)
| FsyncRequest (fh : N) (datasync : bool)
| AccessRequest (path : string) (mask : Z)
| FlushRequest (fh lock_owner : N)
| CreateRequest (parent name : string) (mode flags : Z)
| FallocateRequest (fh : N) (offset length mode : Z)
| LseekRequest (fh : N) (offset whence : Z)
| ReadlinkRequest (path : string)
| CopyFileRangeRequest (fh_in : N) (offset_in : Z) (fh_out : N) (offset_out length flags : Z).

Record DirEntry := mkDirEntry {
  d_kind : Z; d_name : string; d_offset : Z; d_attr : option Attr;
  entry_ttl_ms : N; attr_ttl_ms : N
}.

(** [readdir_response::entry::Inner] and [readdir_response::Entry]. *)
Inductive Inner := EntryInner (e : DirEntry) | ErrnoInner (e : Z).
Definition Entry : Type := option Inner.

Record AttrOk := mkAttrOk { ttl_ms : N; attr : option Attr }.
Record HandleOk := mkHandleOk { h_fh : N; h_flag : Z }.
Record CreateOk := mkCreateOk {
  c_ttl_ms : N; c_attr : option Attr; c_generation : N; c_fh : N; c_flags : Z
}.

(** The [result] of a response: absent, [Ok], or [Errno]. *)
Definition oneof (A : Type) : Type := option (A + Z).

Inductive Response :=
| AttrResponse (r : oneof AttrOk)
| UnitResponse (r : oneof unit)
| HandleResponse (r : oneof HandleOk)
| ReaddirResponse (r : oneof (list Entry))
| ReadResponse (r : oneof bytes)
| WriteResponse (r : oneof Z)
| CreateResponse (r : oneof CreateOk)
| LseekResponse (r : oneof Z)
| ReadlinkResponse (r : oneof string)
| CopyFileRangeResponse (r : oneof Z).
