(* ===== verification/DistfsServer.v ===== *)
(** * The file server of [distfs]

    Models [src/distfs/src/server.rs]: the tables of open files and directories, the
    locks around them, and every [_impl] function.  The operating system is a
    parameter, [Os]: its state and its calls.  A request runs alone, but one that waits
    for ever keeps what it has locked, and the requests after it meet those locks. *)

From S2P Require Export FsProto Paths.
Open Scope Z_scope.
Open Scope prog_scope.

(** ** The operating system *)

(** [std::io::Error], of which the server only uses [raw_os_error()]; [Errno] of [nix]
    always is a number. *)
Definition IoError : Type := option Z.

(** The error of the [file_owner] crate, and [file_owner_error_to_io_error]: an error
    made from a kind has no number. *)
Inductive FileOwnerError :=
| OwnerIoError (e : IoError) | OwnerNixError (e : Z) | GroupNotFound | UserNotFound.

Definition file_owner_error_to_io_error (e : FileOwnerError) : IoError :=
  match e with
  | OwnerIoError e => e
  | OwnerNixError e => Some e
  | GroupNotFound | UserNotFound => None
  end.

Record OpenFlags := mkOpenFlags {
  o_create : bool; o_mode : option Z; o_append : bool; o_write : bool; o_read : bool
}.

(** An entry of [read_dir]: its name, the type and the metadata it reports. *)
Record OsDirEntry := mkOsDirEntry {
  e_name : string; e_file_type : Z + IoError; e_metadata : Metadata + IoError
}.

Inductive Seek := SeekStart (n : Z) | SeekCurrent (n : Z) | SeekEnd (n : Z).

Record AccessMask := mkAccessMask { a_x : bool; a_r : bool; a_w : bool }.

Class Os := {
  os : Type;
  fd : Type;
  fd_close : fd → os → os;
  os_canonicalize : string → os → (PathBuf + IoError) * os;
  os_metadata : PathBuf → os → (Metadata + IoError) * os;
  os_set_owner : PathBuf → Z → os → (unit + FileOwnerError) * os;
  os_set_group : PathBuf → Z → os → (unit + FileOwnerError) * os;
  os_set_mtime : PathBuf → Timestamp → os → (unit + IoError) * os;
  os_set_atime : PathBuf → Timestamp → os → (unit + IoError) * os;
  os_set_permissions : PathBuf → Z → os → (unit + IoError) * os;
  mode_bits : Z;
  os_mkdir : PathBuf → Z → os → (unit + Z) * os;
  os_unlink : PathBuf → os → (unit + Z) * os;
  os_symlink : PathBuf → PathBuf → os → (unit + IoError) * os;
  os_remove_dir : PathBuf → os → (unit + IoError) * os;
  os_rename : PathBuf → PathBuf → os → (unit + IoError) * os;
  os_read_dir : PathBuf → os → (list (OsDirEntry + IoError) + IoError) * os;
  os_read_link : PathBuf → os → (string + IoError) * os;
  os_access : PathBuf → AccessMask → os → (unit + Z) * os;
  os_open : PathBuf → OpenFlags → os → (fd + IoError) * os;
  fd_metadata : fd → os → (Metadata + IoError) * os;
  fd_set_len : fd → Z → os → (unit + IoError) * os;
  fd_seek : fd → Seek → os → (Z + IoError) * os;
  fd_read : fd → N → os → (bytes + IoError) * os;
  fd_write : fd → bytes → os → (N + IoError) * os;
  fd_flush : fd → os → (unit + IoError) * os;
  fd_fsync : fd → os → (unit + Z) * os;
  fallocate_bits : Z;
  fd_fallocate : fd → Z → Z → Z → os → (unit + Z) * os;
  fd_copy_range : fd → Z → fd → Z → Z → os → (Z + Z) * os
}.

(** ** The server's state *)

(** What requests that never end keep locked: [stuck] handles by a write guard, [fh]
    itself by a read guard, and whether a write request waits at [fh], behind which
    every later one queues. *)
Record Locks := mkLocks { stuck : gset N; fh_held : bool; fh_queued : bool }.

Record Server `{Os} := mkServer {
  root_path : PathBuf;
  fh : gmap N (fd * PathBuf);
  dh : gmap N (list Entry * PathBuf);
  fh_src : N;
  locks : Locks
}.

Record World `{Os} := mkWorld { server : Server; sys : os }.
Arguments mkServer {_} root_path fh dh fh_src locks.
Arguments mkWorld {_} server sys.

Definition no_locks : Locks := mkLocks ∅ false false.

(** [Server::new] *)
Definition new `{Os} (target : string) (o : os) : (Server + IoError) * os :=
  match os_canonicalize target o with
  | (inl root, o) => (inl (mkServer root ∅ ∅ 0 no_locks), o)
  | (inr e, o) => (inr e, o)
  end.

Definition EEXIST : Z := 17.
Definition EINVAL : Z := 22.
Definition ENOSYS : Z := 38.

Section server.
Context `{Os} `{Profile}.

Definition Run (A : Type) : Type := M World Z A.

Definition set_server (f : Server → Server) : Run unit :=
  modify (λ w, mkWorld (f (server w)) (sys w)).
Definition with_fh (t : gmap N (fd * PathBuf)) (s : Server) : Server :=
  mkServer (root_path s) t (dh s) (fh_src s) (locks s).
Definition with_dh (t : gmap N (list Entry * PathBuf)) (s : Server) : Server :=
  mkServer (root_path s) (fh s) t (fh_src s) (locks s).
Definition with_fh_src (n : N) (s : Server) : Server :=
  mkServer (root_path s) (fh s) (dh s) n (locks s).
Definition with_locks (l : Locks) (s : Server) : Server :=
  mkServer (root_path s) (fh s) (dh s) (fh_src s) l.

(** [e.raw_os_error().unwrap_or(libc::EACCES)] *)
Definition errno_of (e : IoError) : Z := default EACCES e.

(** A call of the operating system whose error becomes the reply's. *)
Definition call {A} (f : os → (A + IoError) * os) : Run A := λ w,
  match f (sys w) with
  | (inl a, o) => (Done a, mkWorld (server w) o)
  | (inr e, o) => (Fail (errno_of e), mkWorld (server w) o)
  end.
Definition call_nix {A} (f : os → (A + Z) * os) : Run A := λ w,
  match f (sys w) with
  | (inl a, o) => (Done a, mkWorld (server w) o)
  | (inr e, o) => (Fail e, mkWorld (server w) o)
  end.

Definition call_owner {A} (f : os → (A + FileOwnerError) * os) : Run A := λ w,
  match f (sys w) with
  | (inl a, o) => (Done a, mkWorld (server w) o)
  | (inr e, o) => (Fail (errno_of (file_owner_error_to_io_error e)), mkWorld (server w) o)
  end.

(** A file that is dropped is closed, also when its request panics; a request that
    waits for ever still owns it. *)
Definition close (f : fd) : Run unit := modify (λ w, mkWorld (server w) (fd_close f (sys w))).
Definition owning {A} (f : fd) (m : Run A) : Run A := λ w,
  match m w with
  | (Blocked, w) => (Blocked, w)
  | (o, w) => (o, (close f w).2)
  end.

(** ** Locks *)

(** [self.fh.read()] for the length of a request that ends. *)
Definition fh_read : Run unit :=
  let! l := gets (λ w, locks (server w)) in
  if fh_queued l then blocked else ret tt.

(** [self.fh.write()] *)
Definition fh_write : Run unit :=
  let! l := gets (λ w, locks (server w)) in
  if fh_queued l then blocked
  else if fh_held l then
    set_server (with_locks (mkLocks (stuck l) true true)) ;; blocked
  else ret tt.

(** The lock of an open file, taken under [fh.read()]: waiting for it keeps that. *)
Definition handle_lock (h : N) : Run unit :=
  let! l := gets (λ w, locks (server w)) in
  if decide (h ∈ stuck l) then
    set_server (with_locks (mkLocks (stuck l) true (fh_queued l))) ;; blocked
  else ret tt.

(** A second request for the write guard one already holds. *)
Definition lock_again (h : N) : Run unit :=
  let! l := gets (λ w, locks (server w)) in
  set_server (with_locks (mkLocks ({[h]} ∪ stuck l) true (fh_queued l))) ;; blocked.

(** The same for a handle while [h_in]'s guard is held: that one is kept as well. *)
Definition handle_lock_in (h_in h : N) : Run unit :=
  let! l := gets (λ w, locks (server w)) in
  if decide (h ∈ stuck l) then lock_again h_in else ret tt.

(** [lock.get(&fh).ok_or(libc::EEXIST)?] and the file's own lock. *)
Definition with_handle (h : N) : Run (fd * PathBuf) :=
  fh_read ;;
  let! t := gets (λ w, fh (server w)) in
  let! f := or_fail EEXIST (t !! h) in
  handle_lock h ;;
  ret f.

(** ** Helpers *)

Definition real (path : PathBuf) : Run PathBuf :=
  gets (λ w, real_path (root_path (server w)) path).
Definition entry (parent name : string) : Run PathBuf :=
  gets (λ w, entry_path (root_path (server w)) parent name).

(** [fetch_add] wraps. *)
Definition alloc_fh : Run N :=
  let! n := gets (λ w, fh_src (server w)) in
  set_server (with_fh_src ((n + 1) mod u64_modulus)%N) ;; ret n.

Definition to_attr (m : Metadata) : Run Attr := or_panic (metadata_to_grpc m).

Definition get_attr_from_path (path : PathBuf) : Run Attr :=
  let! m := call (os_metadata path) in to_attr m.

(** [if let Some(x) = o { m(x)? }] *)
Definition if_some {A} (o : option A) (m : A → Run unit) : Run unit :=
  match o with Some x => m x | None => ret tt end.

Definition file_time (t : Timestamp) : Timestamp := mkTimestamp (seconds t) (to_u32 (nanos t)).

(** [size] is set through a file opened for reading only. *)
Definition set_attr_by_path (path : PathBuf) (attr : SettableAttr) : Run unit :=
  if_some (s_uid attr) (λ u, call_owner (os_set_owner path u)) ;;
  if_some (s_gid attr) (λ g, call_owner (os_set_group path g)) ;;
  if_some (s_size attr) (λ n,
    let! f := call (os_open path (mkOpenFlags false None false false true)) in
    owning f (call (fd_set_len f n))) ;;
  if_some (s_mtime attr) (λ t, call (os_set_mtime path (file_time t))) ;;
  if_some (s_atime attr) (λ t, call (os_set_atime path (file_time t))) ;;
  if_some (s_mode attr) (λ m, call (os_set_permissions path m)).

(** ** The requests on names *)

Definition lookup_impl (parent name : string) : Run Attr :=
  let! path := entry parent name in get_attr_from_path path.

Definition get_attr_impl (path : option string) (h : option N) : Run Attr :=
  match path, h with
  | _, Some h =>
      let! f := with_handle h in
      let! m := call (fd_metadata f.1) in to_attr m
  | Some path, None => let! p := real (components path) in get_attr_from_path p
  | None, None => fail EACCES
  end.

(** The path kept with an open file is a real path already; it is mapped again. *)
Definition set_attr_impl (path : option string) (h : option N) (attr : option SettableAttr) :
    Run Attr :=
  let! attr := or_fail EACCES attr in
  match path, h with
  | _, Some h =>
      let! f := with_handle h in
      let! p := real f.2 in
      set_attr_by_path p attr ;;
      let! m := call (fd_metadata f.1) in to_attr m
  | Some path, None =>
      let! p := real (components path) in
      set_attr_by_path p attr ;;
      get_attr_from_path p
  | None, None => fail EACCES
  end.

(** [Mode::from_bits_truncate] keeps the bits it knows. *)
Definition mkdir_impl (parent name : string) (mode : Z) : Run Attr :=
  let! path := entry parent name in
  call_nix (os_mkdir path (Z.land mode mode_bits)) ;;
  get_attr_from_path path.

Definition unlink_impl (parent name : string) : Run unit :=
  let! path := entry parent name in call_nix (os_unlink path).

Definition symlink_impl (parent name link_path : string) : Run Attr :=
  let! target := entry parent name in
  let! source := real (components link_path) in
  call (os_symlink source target) ;;
  get_attr_from_path target.

Definition rmdir_impl (parent name : string) : Run unit :=
  let! path := entry parent name in call (os_remove_dir path).

Definition rename_impl (origin_parent origin_name parent name : string) : Run unit :=
  let! origin_path := entry origin_parent origin_name in
  let! path := entry parent name in
  call (os_rename origin_path path).

Definition readlink_impl (path : string) : Run string := call (os_read_link (components path)).

(** ** Directories *)

(** The [then] and [map] of the stream: the entry at [offset]. *)
Definition dir_entry (offset : Z) (e : OsDirEntry + IoError) : Run Entry :=
  match e with
  | inr e => ret (Some (ErrnoInner (errno_of e)))
  | inl e =>
      match e_file_type e with
      | inr err => ret (Some (ErrnoInner (errno_of err)))
      | inl ty =>
          let! kind := or_panic (std_to_grpc ty) in
          match e_metadata e with
          | inr err => ret (Some (ErrnoInner (errno_of err)))
          | inl m =>
              let! attr := to_attr m in
              ret (Some (EntryInner (mkDirEntry (filetype_to_i32 kind) (e_name e) (1 + offset)
                                       (Some attr) 1000 1000)))
          end
      end
  end.

Fixpoint dir_entries (offset : Z) (es : list (OsDirEntry + IoError)) : Run (list Entry) :=
  match es with
  | [] => ret []
  | e :: es =>
      let! x := dir_entry offset e in
      let! xs := dir_entries (offset + 1) es in
      ret (x :: xs)
  end.

Definition shift_entry (e : Entry) : Entry :=
  match e with
  | Some (EntryInner e) =>
      Some (EntryInner (mkDirEntry (d_kind e) (d_name e) (d_offset e + 2) (d_attr e)
                          (entry_ttl_ms e) (attr_ttl_ms e)))
  | _ => e
  end.

(** The dots of a directory whose path is not "/": both carry the offset 1. *)
Definition dot_entry (name : string) (a : Attr) : Entry :=
  Some (EntryInner (mkDirEntry (filetype_to_i32 Directory) name 1 (Some a) 1000 1000)).

Definition with_specials (self_attr parent_attr : Attr) (inner : list Entry) : list Entry :=
  dot_entry "." self_attr :: dot_entry ".." parent_attr :: map shift_entry inner.

(** The entries an [opendir] keeps, and the path they are of. *)
Definition dir_listing (path : string) : Run (list Entry * PathBuf) :=
  let! p := real (components path) in
  let! es := call (os_read_dir p) in
  let! inner := dir_entries 0 es in
  if decide (path = "/") then ret (inner, p)
  else
    let! self_attr := get_attr_from_path p in
    let! up := or_panic (parent p) in
    let! parent_attr := get_attr_from_path up in
    ret (with_specials self_attr parent_attr inner, p).

(** [self.dh] is never locked for longer than a request. *)
Definition opendir_impl (path : string) (flags : Z) : Run HandleOk :=
  let! h := alloc_fh in
  let! d := dir_listing path in
  let! t := gets (λ w, dh (server w)) in
  set_server (with_dh (<[h := d]> t)) ;;
  ret (mkHandleOk h flags).

Definition releasedir_impl (h : N) : Run unit :=
  let! t := gets (λ w, dh (server w)) in set_server (with_dh (delete h t)).

Definition readdir_impl (h : N) (offset : N) : Run (list Entry) :=
  let! t := gets (λ w, dh (server w)) in
  let! d := or_fail EEXIST (t !! h) in
  ret (drop (N.to_nat offset) d.1).

(** ** Open files *)

Definition O_CREAT : Z := 64.
Definition O_APPEND : Z := 1024.
Definition O_WRONLY : Z := 1.
Definition O_RDONLY : Z := 0.
Definition O_RDWR : Z := 2.

(** The [OpenOptions] of an open and of a create; the flags are a [u32] read as [i32]. *)
Definition open_options (flags : Z) : OpenFlags :=
  let acc := Z.land (to_i32 flags) 3 in
  mkOpenFlags (negb (Z.land (to_i32 flags) O_CREAT =? 0)) None
    (negb (Z.land (to_i32 flags) O_APPEND =? 0))
    ((acc =? O_RDWR) || (acc =? O_WRONLY)) ((acc =? O_RDWR) || (acc =? O_RDONLY)).

Definition create_options (flags mode : Z) : OpenFlags :=
  let o := open_options flags in mkOpenFlags true (Some mode) (o_append o) (o_write o) (o_read o).

Definition insert_handle (h : N) (f : fd * PathBuf) : Run unit :=
  fh_write ;;
  let! t := gets (λ w, fh (server w)) in
  set_server (with_fh (<[h := f]> t)) ;;
  if_some (t !! h) (λ old, close old.1).

Definition open_impl (path : string) (flags : Z) : Run HandleOk :=
  let! p := real (components path) in
  let! f := call (os_open p (open_options flags)) in
  let! h := alloc_fh in
  insert_handle h (f, p) ;;
  ret (mkHandleOk h flags).

Definition create_impl (parent name : string) (mode flags : Z) : Run CreateOk :=
  let! p := entry parent name in
  let! f := call (os_open p (create_options flags mode)) in
  let! h := alloc_fh in
  let! m := attempt (call (fd_metadata f)) in
  let! m := match m with inl m => ret m | inr e => close f ;; fail e end in
  insert_handle h (f, p) ;;
  let! attr := to_attr m in
  ret (mkCreateOk 1000 (Some attr) 0 h flags).

(** The [loop]: [room] bytes of the buffer are left.  Every turn but the last fills at
    least one of them. *)
Fixpoint read_loop (fuel : nat) (f : fd) (room : N) (data : bytes) : Run bytes :=
  match fuel with
  | O => blocked
  | S fuel =>
      let! b := call (fd_read f room) in
      if decide (b = []) then ret data
      else read_loop fuel f (room - len b) (data ++ b)
  end.

Definition read_impl (h : N) (offset : Z) (size : N) : Run bytes :=
  let! f := with_handle h in
  call (fd_seek f.1 (SeekStart offset)) ;;
  let! data := read_loop (S (N.to_nat size)) f.1 size [] in
  call (fd_metadata f.1) ;;
  ret data.

Definition write_impl (h : N) (offset : Z) (data : bytes) : Run Z :=
  let! f := with_handle h in
  call (fd_seek f.1 (SeekStart offset)) ;;
  let! written := call (fd_write f.1 data) in
  ret (to_u32 (Z.of_N written)).

Definition release_impl (h : N) (flush : bool) : Run unit :=
  fh_write ;;
  let! t := gets (λ w, fh (server w)) in
  set_server (with_fh (delete h t)) ;;
  if_some (t !! h) (λ f, owning f.1 (when flush do call (fd_flush f.1))).

Definition flush_impl (h : N) : Run unit :=
  let! f := with_handle h in call (fd_flush f.1).

(** The file's write guard is taken, and then asked for once more. *)
Definition fsync_impl (h : N) : Run unit :=
  let! f := with_handle h in
  lock_again h ;;
  call (fd_flush f.1) ;;
  call_nix (fd_fsync f.1).

(** [FallocateFlags::from_bits] refuses bits it does not know. *)
Definition fallocate_impl (h : N) (mode offset length : Z) : Run unit :=
  let! f := with_handle h in
  if negb (Z.land (to_i32 mode) (Z.lnot fallocate_bits) =? 0) then fail EINVAL
  else call_nix (fd_fallocate f.1 (to_i32 mode) (to_i64 offset) (to_i64 length)).

Definition lseek_impl (h : N) (whence offset : Z) : Run Z :=
  let! f := with_handle h in
  match to_i32 whence with
  | 0 => call (fd_seek f.1 (SeekStart offset))
  | 1 => call (fd_seek f.1 (SeekCurrent (to_i64 offset)))
  | 2 => call (fd_seek f.1 (SeekEnd (to_i64 offset)))
  | _ => fail ENOSYS
  end.

(** [fh_out] is flushed twice, [fh_in] not at all. *)
Definition copy_file_range_impl (h_in h_out : N) (offset_in offset_out length : Z) : Run Z :=
  let! file_in := with_handle h_in in
  let! t := gets (λ w, fh (server w)) in
  let! file_out := or_fail EEXIST (t !! h_out) in
  (if decide (h_in = h_out) then lock_again h_out else handle_lock_in h_in h_out) ;;
  call (fd_flush file_out.1) ;;
  call (fd_flush file_out.1) ;;
  call_nix (fd_copy_range file_in.1 (to_i64 offset_in) file_out.1 (to_i64 offset_out) length).

(** [K >> mask != 0] *)
Definition shifted (k mask : Z) : Run bool :=
  if (0 <=? mask) && (mask <? 32) then ret (negb (Z.shiftr k mask =? 0))
  else if overflow_checks then panic
  else ret (negb (Z.shiftr k (Z.land mask 31) =? 0)).

Definition X_OK : Z := 1.
Definition W_OK : Z := 2.
Definition R_OK : Z := 4.

Definition access_impl (path : string) (mask : Z) : Run unit :=
  let! x := shifted X_OK (to_i32 mask) in
  let! r := shifted R_OK (to_i32 mask) in
  let! w := shifted W_OK (to_i32 mask) in
  let! p := real (components path) in
  call_nix (os_access p (mkAccessMask x r w)).

(** ** The service *)

(** The response of an [_impl]'s result; an RPC of the server itself never fails. *)
Definition respond {A B} (wrap : oneof B → Response) (ok : A → B) (m : Run A) :
    M World Empty_set Response := λ w,
  match m w with
  | (Done a, w) => (Done (wrap (Some (inl (ok a)))), w)
  | (Fail e, w) => (Done (wrap (Some (inr e))), w)
  | (Panic, w) => (Panic, w)
  | (Blocked, w) => (Blocked, w)
  end.

Definition attr_ok (a : Attr) : AttrOk := mkAttrOk 1000 (Some a).

(** [impl Filesystem for Server] *)
Definition serve (r : Request) : M World Empty_set Response :=
  match r with
  | LookupRequest parent name => respond AttrResponse attr_ok (lookup_impl parent name)
  | GetAttrRequest path fh _ => respond AttrResponse attr_ok (get_attr_impl path fh)
  | SetAttrRequest path fh attr => respond AttrResponse attr_ok (set_attr_impl path fh attr)
  | MkdirRequest parent name mode _ => respond AttrResponse attr_ok (mkdir_impl parent name mode)
  | UnlinkRequest parent name => respond UnitResponse id (unlink_impl parent name)
  | SymlinkRequest parent name link => respond AttrResponse attr_ok (symlink_impl parent name link)
  | RmdirRequest parent name => respond UnitResponse id (rmdir_impl parent name)
  | RenameRequest oparent oname parent name _ =>
      respond UnitResponse id (rename_impl oparent oname parent name)
  | OpendirRequest path flags => respond HandleResponse id (opendir_impl path flags)
  | ReleasedirRequest fh _ _ => respond UnitResponse id (releasedir_impl fh)
  | ReaddirRequest _ fh offset _ => respond ReaddirResponse id (readdir_impl fh offset)
  | OpenRequest path flags => respond HandleResponse id (open_impl path flags)
  | ReadRequest fh offset size => respond ReadResponse id (read_impl fh offset size)
  | WriteRequest fh offset data _ => respond WriteResponse id (write_impl fh offset data)
  | ReleaseRequest fh _ _ flush => respond UnitResponse id (release_impl fh flush)
  | FsyncRequest fh _ => respond UnitResponse id (fsync_impl fh)
  | AccessRequest path mask => respond UnitResponse id (access_impl path mask)
  | FlushRequest fh _ => respond UnitResponse id (flush_impl fh)
  | CreateRequest parent name mode flags =>
      respond CreateResponse id (create_impl parent name mode flags)
  | FallocateRequest fh offset length mode =>
      respond UnitResponse id (fallocate_impl fh mode offset length)
  | LseekRequest fh offset whence => respond LseekResponse id (lseek_impl fh whence offset)
  | ReadlinkRequest path => respond ReadlinkResponse id (readlink_impl path)
  | CopyFileRangeRequest fh_in offset_in fh_out offset_out length _ =>
      respond CopyFileRangeResponse id
        (copy_file_range_impl fh_in fh_out offset_in offset_out length)
  end.

End server.
