(* ===== verification/DistfsFacts.v ===== *)
(** * What the requests of [distfs] do to the server and to the system

    One pass over the handlers, for any invariant that the calls of the operating system
    keep on the paths and files the server gives them. *)

From S2P Require Export DistfsServer PathsProps.
Open Scope Z_scope.
Open Scope prog_scope.

(** [m] keeps [J] and waits only if [B]. *)
Abbreviation ok J B m := (safe J B m (λ _, True)).

Section handlers.
Context `{Os} `{Profile}.

(** [Calls J B P G]: the calls keep [J] when their paths are in [P] and their files in
    [G], which is where the server takes them from; waiting is for [B] only. *)
Class Calls (J : World → Prop) (B : Prop) (P : PathBuf → Prop) (G : fd → Prop) := {
  real_in w p : J w → P (real_path (root_path (server w)) p);
  handle_in w h f : J w → fh (server w) !! h = Some f → G f.1;
  ok_fh_read : ok J B fh_read;
  ok_fh_write : ok J B fh_write;
  ok_handle_lock h : ok J B (handle_lock h);
  ok_handle_lock_in h h' : ok J B (handle_lock_in h h');
  ok_metadata p : P p → ok J B (call (os_metadata p));
  ok_set_owner p z : P p → ok J B (call_owner (os_set_owner p z));
  ok_set_group p z : P p → ok J B (call_owner (os_set_group p z));
  ok_set_mtime p t : P p → ok J B (call (os_set_mtime p t));
  ok_set_atime p t : P p → ok J B (call (os_set_atime p t));
  ok_set_permissions p z : P p → ok J B (call (os_set_permissions p z));
  ok_mkdir p z : P p → ok J B (call_nix (os_mkdir p z));
  ok_unlink p : P p → ok J B (call_nix (os_unlink p));
  ok_symlink p q : P p → P q → ok J B (call (os_symlink p q));
  ok_remove_dir p : P p → ok J B (call (os_remove_dir p));
  ok_rename p q : P p → P q → ok J B (call (os_rename p q));
  ok_read_dir p : P p → ok J B (call (os_read_dir p));
  ok_read_link p : P p → ok J B (call (os_read_link p));
  ok_access p m : P p → ok J B (call_nix (os_access p m));
  ok_open p o : P p → safe J B (call (os_open p o)) G;
  ok_close f : G f → ok J B (close f);
  ok_fd_metadata f : G f → ok J B (call (fd_metadata f));
  ok_set_len f z : G f → ok J B (call (fd_set_len f z));
  ok_seek f s : G f → ok J B (call (fd_seek f s));
  ok_read f n : G f → safe J B (call (fd_read f n)) (λ b, B ∨ len b ≤ n)%N;
  ok_write f b : G f → ok J B (call (fd_write f b));
  ok_flush f : G f → ok J B (call (fd_flush f));
  ok_fsync f : G f → ok J B (call_nix (fd_fsync f));
  ok_fallocate f m z n : G f → ok J B (call_nix (fd_fallocate f m z n));
  ok_copy_range f a g b n : G f → G g → ok J B (call_nix (fd_copy_range f a g b n))
}.

Context {J : World → Prop} {B : Prop} {P : PathBuf → Prop} {G : fd → Prop} `{!Calls J B P G}.

Lemma ok_ret {A} (a : A) : ok J B (@ret World Z A a).
Proof. by apply safe_ret. Qed.
Lemma ok_fail {A} (e : Z) : ok J B (@fail World Z A e).
Proof. apply safe_fail. Qed.
Lemma ok_if_some {A} (o : option A) (m : A → Run unit) :
  (∀ a, o = Some a → ok J B (m a)) → ok J B (if_some o m).
Proof. intros Hm. destruct o; [by apply Hm|apply ok_ret]. Qed.
Lemma ok_real path : safe J B (real path) P.
Proof. apply safe_gets. intros w. apply real_in. Qed.
(** What [entry] joins is in [P]: all the requests on names need. *)
Definition entry_in (J : World → Prop) (P : PathBuf → Prop) (parent name : string) : Prop :=
  ∀ w, J w → P (entry_path (root_path (server w)) parent name).
Lemma ok_entry parent name : entry_in J P parent name → safe J B (entry parent name) P.
Proof. intros Hin. by apply safe_gets. Qed.
Lemma ok_gets {A} (f : World → A) : ok J B (@gets World Z A f).
Proof. by apply safe_gets. Qed.
Lemma ok_to_attr m : ok J B (to_attr m).
Proof. by apply safe_or_panic. Qed.
Lemma ok_or_fail {A} e (o : option A) : ok J B (@or_fail World Z A e o).
Proof. by apply safe_or_fail. Qed.
Lemma ok_or_panic {A} (o : option A) : ok J B (@or_panic World Z A o).
Proof. by apply safe_or_panic. Qed.
Lemma ok_shifted k mask : ok J B (shifted k mask).
Proof. unfold shifted. repeat case_match; by (apply safe_ret || apply safe_panic). Qed.
Lemma ok_owning {A} f (m : Run A) : G f → ok J B m → ok J B (owning f m).
Proof.
  intros Hf Hm w Hw. destruct (Hm w Hw) as (HJ & HB & _). unfold owning.
  destruct (m w) as [[a|e| |] w']; simpl in *;
    split_and!; try done; by destruct (ok_close f Hf w' HJ).
Qed.

End handlers.

#[export] Hint Resolve ok_ret ok_fail ok_to_attr ok_or_fail ok_or_panic ok_gets ok_shifted
  ok_fh_read ok_fh_write ok_handle_lock ok_handle_lock_in ok_metadata ok_set_owner ok_set_group ok_set_mtime ok_set_atime
  ok_set_permissions ok_mkdir ok_unlink ok_symlink ok_remove_dir ok_rename ok_read_dir ok_read_link
  ok_access ok_close ok_fd_metadata ok_set_len ok_seek ok_write ok_flush ok_fsync ok_fallocate
  ok_copy_range : safe.

Section requests.
Context `{Os} `{Profile} {J : World → Prop} {B : Prop} {P : PathBuf → Prop} {G : fd → Prop}.
Context `{!Calls J B P G}.

Lemma ok_with_handle h : safe J B (with_handle h) (λ f, G f.1).
Proof.
  eapply (safe_bind _ _ _ _ (λ _, True)); [apply ok_fh_read|intros _ _].
  apply (safe_bind _ _ _ _ (λ t, ∀ h f, t !! h = Some f → G f.1)).
  { apply safe_gets. intros w Hw h' f. by apply handle_in. }
  intros t Ht. apply (safe_bind _ _ _ _ (λ f, G f.1)).
  { apply safe_or_fail. eauto. }
  intros f Hf. apply (safe_bind _ _ _ _ (λ _, True)); [apply ok_handle_lock|intros _ _].
  by apply safe_ret.
Qed.

End requests.

(** One statement of a handler: a [let] by the rule of its right-hand side. *)
Ltac ok_step :=
  lazymatch goal with
  | |- safe _ _ (bind (entry _ _) _) _ =>
      eapply safe_bind; [apply ok_entry; eassumption|intros ? ?; cbn beta in *]
  | |- safe _ _ (bind (with_handle _) _) _ =>
      eapply safe_bind; [eapply ok_with_handle; eauto|intros ? ?; cbn beta in *]
  | |- safe _ _ (bind (real _) _) _ => eapply safe_bind; [apply ok_real|intros ? ?; cbn beta in *]
  | |- safe _ _ (bind (call (os_open _ _)) _) _ =>
      eapply safe_bind; [apply ok_open; by eauto|intros ? ?; cbn beta in *]
  | |- safe _ _ (bind _ _) _ => apply (safe_bind _ _ _ _ (λ _, True)); [|intros ? _]
  | |- safe _ _ (if_some _ _) _ => apply ok_if_some; intros ? ?
  | |- safe _ _ (owning _ _) _ => apply ok_owning; [by eauto|]
  | |- safe _ _ (if ?b then _ else _) _ => destruct b eqn:?
  | |- _ => solve [eauto with safe]
  end.
Ltac ok_steps := repeat ok_step.

Section handlers_ok.
Context `{Os} `{Profile} {J : World → Prop} {B : Prop} {P : PathBuf → Prop} {G : fd → Prop}.
Context `{!Calls J B P G}.

Lemma ok_get_attr_from_path p : P p → ok J B (get_attr_from_path p).
Proof. intros. unfold get_attr_from_path. ok_steps. Qed.

Lemma ok_set_attr_by_path p a : P p → ok J B (set_attr_by_path p a).
Proof. intros. unfold set_attr_by_path. ok_steps. Qed.

Hint Resolve ok_get_attr_from_path ok_set_attr_by_path : safe.

Lemma ok_lookup parent name : entry_in J P parent name → ok J B (lookup_impl parent name).
Proof. intros. unfold lookup_impl. ok_steps. Qed.
Lemma ok_get_attr path h : ok J B (get_attr_impl path h).
Proof. unfold get_attr_impl. destruct path, h; ok_steps. Qed.
Lemma ok_set_attr path h a : ok J B (set_attr_impl path h a).
Proof.
  unfold set_attr_impl. ok_step; [ok_step|]. destruct path, h; ok_steps.
Qed.

Lemma ok_mkdir_impl parent name mode :
  entry_in J P parent name → ok J B (mkdir_impl parent name mode).
Proof. intros. unfold mkdir_impl. ok_steps. Qed.
Lemma ok_unlink_impl parent name : entry_in J P parent name → ok J B (unlink_impl parent name).
Proof. intros. unfold unlink_impl. ok_steps. Qed.
Lemma ok_symlink_impl parent name link :
  entry_in J P parent name → ok J B (symlink_impl parent name link).
Proof. intros. unfold symlink_impl. ok_steps. Qed.
Lemma ok_rmdir_impl parent name : entry_in J P parent name → ok J B (rmdir_impl parent name).
Proof. intros. unfold rmdir_impl. ok_steps. Qed.
Lemma ok_rename_impl oparent oname parent name :
  entry_in J P oparent oname → entry_in J P parent name →
  ok J B (rename_impl oparent oname parent name).
Proof. intros. unfold rename_impl. ok_steps. Qed.
Lemma ok_readlink_impl path : P (components path) → ok J B (readlink_impl path).
Proof. intros. unfold readlink_impl. ok_steps. Qed.
Lemma ok_readdir_impl h offset : ok J B (readdir_impl h offset).
Proof. unfold readdir_impl. ok_steps. Qed.
Lemma ok_access_impl path mask : ok J B (access_impl path mask).
Proof. unfold access_impl. ok_steps. Qed.

Lemma ok_read_loop f fuel : ∀ room data,
  G f → B ∨ (room < N.of_nat fuel)%N → ok J B (read_loop fuel f room data).
Proof.
  induction fuel as [|fuel IH]; intros room data Hf Hroom; simpl.
  { apply safe_blocked. destruct Hroom; [done|lia]. }
  eapply safe_bind; [by apply ok_read|]. intros b Hb; simpl in Hb.
  case_decide as Hnil; [apply ok_ret|]. apply IH; [done|].
  destruct Hroom as [|Hroom], Hb as [|Hb]; [by left..|right].
  destruct b; [done|]. len_lia.
Qed.

Lemma ok_read_impl h offset size : ok J B (read_impl h offset size).
Proof.
  unfold read_impl. ok_step. ok_step; [ok_step|]. ok_step; [|ok_steps].
  apply ok_read_loop; [done|]. right. lia.
Qed.
Lemma ok_write_impl h offset data : ok J B (write_impl h offset data).
Proof. unfold write_impl. ok_steps. Qed.
Lemma ok_flush_impl h : ok J B (flush_impl h).
Proof. unfold flush_impl. ok_steps. Qed.
Lemma ok_fallocate_impl h mode offset length : ok J B (fallocate_impl h mode offset length).
Proof. unfold fallocate_impl. ok_steps. Qed.
Lemma ok_lseek_impl h whence offset : ok J B (lseek_impl h whence offset).
Proof. unfold lseek_impl. ok_step. repeat case_match; ok_steps. Qed.

(** The two requests that ask again for a guard they hold. *)
Lemma ok_fsync_impl h : ok J B (lock_again h) → ok J B (fsync_impl h).
Proof. intros. unfold fsync_impl. ok_steps. Qed.
Lemma ok_copy_file_range_impl h_in h_out a b n :
  (h_in = h_out → ok J B (lock_again h_out)) → ok J B (copy_file_range_impl h_in h_out a b n).
Proof.
  intros Hagain. unfold copy_file_range_impl. ok_step.
  apply (safe_bind _ _ _ _ (λ t, ∀ h f, t !! h = Some f → G f.1)).
  { apply safe_gets. intros w Hw h' f. by apply handle_in. }
  intros t Ht. apply (safe_bind _ _ _ _ (λ f, G f.1)).
  { apply safe_or_fail. eauto. }
  intros f Hf. ok_step; [|ok_steps]. case_decide; [by apply Hagain|ok_step].
Qed.

Lemma ok_dir_entries es : ∀ offset, ok J B (dir_entries offset es).
Proof.
  induction es as [|e es IH]; intros offset; simpl; [apply ok_ret|].
  ok_step; [|ok_step; [apply IH|apply ok_ret]].
  unfold dir_entry. repeat case_match; ok_steps.
Qed.

Lemma ok_dir_listing path :
  (path ≠ "/" → ∀ w up, J w →
     parent (real_path (root_path (server w)) (components path)) = Some up → P up) →
  ok J B (dir_listing path).
Proof.
  intros Hup. unfold dir_listing.
  apply (safe_bind _ _ _ _ (λ p, P p ∧ (path ≠ "/" → ∀ up, parent p = Some up → P up))).
  { apply safe_gets. intros w Hw. split; [by apply real_in|eauto]. }
  intros p [Hp Hparent]. ok_step; [ok_step|]. ok_step; [apply ok_dir_entries|].
  case_decide; [apply ok_ret|]. ok_step; [ok_step|].
  apply (safe_bind _ _ _ _ P); [apply safe_or_panic; by apply Hparent|].
  intros up Hin. ok_steps.
Qed.

(** ** Any request but those that open and close *)

(** The paths of [r] that [real_path] does not confine are in [P]. *)
Definition admissible (r : Request) : Prop :=
  match r with
  | LookupRequest parent name | MkdirRequest parent name _ _ | UnlinkRequest parent name
  | SymlinkRequest parent name _ | RmdirRequest parent name | CreateRequest parent name _ _ =>
      entry_in J P parent name
  | RenameRequest oparent oname parent name _ => entry_in J P oparent oname ∧ entry_in J P parent name
  | OpendirRequest path _ =>
      path ≠ "/" → ∀ w up, J w →
        Paths.parent (real_path (root_path (server w)) (components path)) = Some up → P up
  | ReadlinkRequest path => P (components path)
  | _ => True
  end.

(** The requests that may ask again for a guard they hold. *)
Definition asks_again (r : Request) : Prop :=
  match r with
  | FsyncRequest _ _ => True
  | CopyFileRangeRequest h_in _ h_out _ _ _ => h_in = h_out
  | _ => False
  end.

Lemma safe_respond {A C} wrap (f : A → C) (m : Run A) :
  ok J B m → ok J B (respond wrap f m).
Proof.
  intros Hm w Hw. destruct (Hm w Hw) as (HJ & HB & _). unfold respond.
  destruct (m w) as [[a|e| |] w']; simpl in *; split_and!; try done. intros _. by apply HB.
Qed.

(** The tables stay as they are. *)
Definition keeps_tables (r : Request) : Prop :=
  match r with
  | OpendirRequest _ _ | ReleasedirRequest _ _ _ | OpenRequest _ _ | ReleaseRequest _ _ _ _
  | CreateRequest _ _ _ _ => False
  | _ => True
  end.

Lemma ok_serve_keep r :
  keeps_tables r → admissible r → (asks_again r → ∀ h, ok J B (lock_again h)) → ok J B (serve r).
Proof.
  intros Hk Hin Hagain. destruct r; simpl in *; try done; apply safe_respond;
    eauto using ok_lookup, ok_get_attr, ok_set_attr, ok_mkdir_impl, ok_unlink_impl, ok_symlink_impl,
      ok_rmdir_impl, ok_readdir_impl, ok_read_impl, ok_write_impl, ok_fsync_impl, ok_access_impl,
      ok_flush_impl, ok_fallocate_impl, ok_lseek_impl, ok_readlink_impl, ok_copy_file_range_impl.
  destruct Hin. by apply ok_rename_impl.
Qed.

End handlers_ok.

(** ** The requests that open and close *)

Section tables.
Context `{Os} `{Profile}.

(** [J] survives a change of the tables as long as the open files stay in [G]. *)
Class Tables (J : World → Prop) (B : Prop) (G : fd → Prop) := {
  ok_alloc_fh : ok J B alloc_fh;
  update_fh w t : J w → (∀ h f, t !! h = Some f → G f.1) →
    J (mkWorld (with_fh t (server w)) (sys w));
  update_dh w t : J w → J (mkWorld (with_dh t (server w)) (sys w))
}.

Context {J : World → Prop} {B : Prop} {P : PathBuf → Prop} {G : fd → Prop}.
Context `{!Calls J B P G} `{!Tables J B G}.
Hint Resolve ok_get_attr_from_path ok_set_attr_by_path ok_alloc_fh : safe.

Lemma ok_fh_table : safe J B (gets (λ w, fh (server w)) : Run _) (λ t, ∀ h f, t !! h = Some f → G f.1).
Proof. apply safe_gets. intros w Hw h f. by apply handle_in. Qed.
Lemma ok_with_fh t : (∀ h f, t !! h = Some f → G f.1) → ok J B (set_server (with_fh t)).
Proof. intros Ht. apply safe_modify; [|done]. intros w Hw. by apply update_fh. Qed.
Lemma ok_with_dh t : ok J B (set_server (with_dh t)).
Proof. apply safe_modify; [|done]. intros w Hw. by apply update_dh. Qed.
Hint Resolve ok_with_dh : safe.

Lemma ok_insert_handle h f : G f.1 → ok J B (insert_handle h f).
Proof.
  intros Hf. unfold insert_handle. ok_step; [ok_step|].
  eapply safe_bind; [apply ok_fh_table|intros t Ht; simpl in Ht].
  ok_step; [|ok_steps].
  apply ok_with_fh. intros h' f' [[<- <-]|[_ ?]]%lookup_insert_Some; eauto.
Qed.

Lemma ok_open_impl path flags : ok J B (open_impl path flags).
Proof. unfold open_impl. ok_steps. by apply ok_insert_handle. Qed.

Lemma ok_create_impl parent name mode flags :
  entry_in J P parent name → ok J B (create_impl parent name mode flags).
Proof.
  intros. unfold create_impl. ok_steps.
  - eapply safe_attempt; [by apply ok_fd_metadata|done..].
  - case_match; ok_steps.
  - by apply ok_insert_handle.
Qed.

Lemma ok_release_impl h flush : ok J B (release_impl h flush).
Proof.
  unfold release_impl. ok_step; [ok_step|].
  eapply safe_bind; [apply ok_fh_table|intros t Ht; simpl in Ht].
  ok_step; [|ok_steps].
  apply ok_with_fh. intros h' f' [_ ?]%lookup_delete_Some. eauto.
Qed.

Lemma ok_opendir_impl path flags :
  (path ≠ "/" → ∀ w up, J w →
     parent (real_path (root_path (server w)) (components path)) = Some up → P up) →
  ok J B (opendir_impl path flags).
Proof.
  intros Hup. unfold opendir_impl. ok_step; [ok_step|]. ok_step; [by apply ok_dir_listing|].
  ok_steps.
Qed.

Lemma ok_releasedir_impl h : ok J B (releasedir_impl h).
Proof. unfold releasedir_impl. ok_steps. Qed.

Lemma ok_serve r :
  admissible (J := J) (P := P) r → (asks_again r → ∀ h, ok J B (lock_again h)) → ok J B (serve r).
Proof.
  intros Hin Hagain. destruct r; try (by apply ok_serve_keep); simpl in *; apply safe_respond;
    eauto using ok_opendir_impl, ok_releasedir_impl, ok_open_impl, ok_release_impl, ok_create_impl.
Qed.

End tables.
