(* ===== verification/DistfsMemOs.v ===== *)
(** * Regular files, and an operating system in memory

    [FileLaws] says what the server relies on when it reads and writes a regular file.
    [mem_os] is a small operating system that keeps it; it makes the server run. *)

From S2P Require Export DistfsServer.
From Stdlib Require Import Strings.Byte.
Open Scope Z_scope.

(** ** Laws of regular files *)

(** Reads are of at most the room given; a file not opened with [O_APPEND] has bytes and
    a position: reads and writes may be short, but a read is empty only at the end. *)
Class FileLaws `{Os} := {
  read_bound f n o b o' : fd_read f n o = (inl b, o') → (len b ≤ n)%N;
  plain : fd → os → Prop;
  contents : fd → os → bytes;
  position : fd → os → N;
  seek_law f p o : plain f o → 0 ≤ p < 2 ^ 63 → ∃ o',
    fd_seek f (SeekStart p) o = (inl p, o') ∧
    plain f o' ∧ contents f o' = contents f o ∧ position f o' = Z.to_N p;
  read_law f n o : plain f o → ∃ b o',
    fd_read f n o = (inl b, o') ∧
    plain f o' ∧ contents f o' = contents f o ∧ position f o' = (position f o + len b)%N ∧
    b = take (length b) (drop (N.to_nat (position f o)) (contents f o)) ∧
    (b = [] → n = 0%N ∨ (len (contents f o) ≤ position f o)%N);
  write_law f d o : plain f o → ∃ n o',
    fd_write f d o = (inl n, o') ∧ (n ≤ len d)%N ∧
    plain f o' ∧ position f o' = (position f o + n)%N ∧
    contents f o' =
      if decide (n = 0%N) then contents f o
      else splice x00 (contents f o) (N.to_nat (position f o)) (take (N.to_nat n) d);
  metadata_law f o : plain f o → ∃ m o',
    fd_metadata f o = (inl m, o') ∧ plain f o' ∧ contents f o' = contents f o
}.

(** ** A file system in memory *)

Module Mem.

(** A node is a regular file, or a directory. *)
Definition node : Type := option bytes.
Record open_file := mkOpen { o_path : PathBuf; o_pos : N; o_writable : bool; o_appends : bool }.
Record state := mkState { nodes : list (PathBuf * node); opened : list open_file }.

Definition find (p : PathBuf) (s : state) : option node :=
  snd <$> List.find (λ x, bool_decide (x.1 = p)) (nodes s).
Definition put (p : PathBuf) (n : node) (s : state) : state :=
  mkState ((p, n) :: List.filter (λ x, bool_decide (x.1 ≠ p)) (nodes s)) (opened s).
Definition remove (p : PathBuf) (s : state) : state :=
  mkState (List.filter (λ x, bool_decide (x.1 ≠ p)) (nodes s)) (opened s).

Definition ENOENT : Z := 2.
Definition EBADF : Z := 9.

Definition node_metadata (n : node) : Metadata :=
  match n with
  | None => mkMetadata 0 0 7 8 9 0x41ED 1 0 0 0 512
  | Some b => mkMetadata (Z.of_N (len b)) 1 7 8 9 0x81A4 1 0 0 0 512
  end.

Definition on {A E} (p : PathBuf) (missing : E) (f : node → A * state) (s : state) :
    (A + E) * state :=
  match find p s with
  | Some n => let '(a, s') := f n in (inl a, s')
  | None => (inr missing, s)
  end.

Definition io : IoError := Some ENOENT.

Definition open_ (p : PathBuf) (fl : OpenFlags) (s : state) : (nat + IoError) * state :=
  let s := match find p s with
           | None => if o_create fl then put p (Some []) s else s
           | Some _ => s
           end in
  match find p s with
  | Some _ => (inl (length (opened s)),
      mkState (nodes s) (opened s ++ [mkOpen p 0 (o_write fl || o_append fl) (o_append fl)]))
  | None => (inr io, s)
  end.

(** The file behind a descriptor. *)
Definition file (f : nat) (s : state) : option (open_file * bytes) :=
  o ← opened s !! f; n ← find (o_path o) s; b ← n; Some (o, b).

Definition move (f : nat) (o : open_file) (p : N) (s : state) : state :=
  mkState (nodes s) (<[f := mkOpen (o_path o) p (o_writable o) (o_appends o)]> (opened s)).

Definition seek (f : nat) (k : Seek) (s : state) : (Z + IoError) * state :=
  match file f s with
  | Some (o, b) =>
      let p := match k with
               | SeekStart n => n
               | SeekCurrent n => Z.of_N (o_pos o) + n
               | SeekEnd n => Z.of_N (len b) + n
               end in
      if (0 <=? p) && (p <? 2 ^ 63) then (inl p, move f o (Z.to_N p) s) else (inr (Some EINVAL), s)
  | None => (inr (Some EBADF), s)
  end.

(** At most two bytes at a time. *)
Definition read (f : nat) (n : N) (s : state) : (bytes + IoError) * state :=
  match file f s with
  | Some (o, b) =>
      let got := take (N.to_nat (N.min n 2)) (drop (N.to_nat (o_pos o)) b) in
      (inl got, move f o (o_pos o + len got) s)
  | None => (inr (Some EBADF), s)
  end.

Definition write (f : nat) (d : bytes) (s : state) : (N + IoError) * state :=
  match file f s with
  | Some (o, b) =>
      if o_writable o then
        let p := if o_appends o then len b else o_pos o in
        let s' := if decide (d = []) then s
                  else put (o_path o) (Some (splice x00 b (N.to_nat p) d)) s in
        (inl (len d), move f o (p + len d) s')
      else (inr (Some EBADF), s)
  | None => (inr (Some EBADF), s)
  end.

Definition set_len (f : nat) (n : Z) (s : state) : (unit + IoError) * state :=
  match file f s with
  | Some (o, b) =>
      if o_writable o
      then (inl tt, put (o_path o)
             (Some (take (Z.to_nat n) (b ++ replicate (Z.to_nat n - length b) x00))) s)
      else (inr (Some EINVAL), s)
  | None => (inr (Some EBADF), s)
  end.

Definition fd_metadata_ (f : nat) (s : state) : (Metadata + IoError) * state :=
  match file f s with
  | Some (_, b) => (inl (node_metadata (Some b)), s)
  | None => (inr (Some EBADF), s)
  end.

Definition read_dir (p : PathBuf) (s : state) : (list (OsDirEntry + IoError) + IoError) * state :=
  on p io (λ _,
    (omap (λ x, match last x.1 with
                | Some (Normal name) =>
                    if decide (Paths.parent x.1 = Some p)
                    then Some (inl (mkOsDirEntry name (inl (m_mode (node_metadata x.2)))
                                      (inl (node_metadata x.2))))
                    else None
                | _ => None
                end) (nodes s), s)) s.

End Mem.

#[export] Instance mem_os : Os := {|
  os := Mem.state;
  fd := nat;
  fd_close _ s := s;
  os_canonicalize t s := (inl (components t), s);
  os_metadata p s := Mem.on p Mem.io (λ n, (Mem.node_metadata n, s)) s;
  os_set_owner p _ s := Mem.on p (OwnerIoError Mem.io) (λ _, (tt, s)) s;
  os_set_group p _ s := Mem.on p (OwnerIoError Mem.io) (λ _, (tt, s)) s;
  os_set_mtime p _ s := Mem.on p Mem.io (λ _, (tt, s)) s;
  os_set_atime p _ s := Mem.on p Mem.io (λ _, (tt, s)) s;
  os_set_permissions p _ s := Mem.on p Mem.io (λ _, (tt, s)) s;
  mode_bits := 0xFFF;
  os_mkdir p _ s := match Mem.find p s with
                    | Some _ => (inr EEXIST, s)
                    | None => (inl tt, Mem.put p None s)
                    end;
  os_unlink p s := Mem.on p Mem.ENOENT (λ _, (tt, Mem.remove p s)) s;
  os_symlink _ _ s := (inr (Some ENOSYS), s);
  os_remove_dir p s := Mem.on p Mem.io (λ _, (tt, Mem.remove p s)) s;
  os_rename p q s := Mem.on p Mem.io (λ n, (tt, Mem.put q n (Mem.remove p s))) s;
  os_read_dir := Mem.read_dir;
  os_read_link _ s := (inr (Some EINVAL), s);
  os_access p _ s := Mem.on p Mem.ENOENT (λ _, (tt, s)) s;
  os_open := Mem.open_;
  fd_metadata := Mem.fd_metadata_;
  fd_set_len := Mem.set_len;
  fd_seek := Mem.seek;
  fd_read := Mem.read;
  fd_write := Mem.write;
  fd_flush _ s := (inl tt, s);
  fd_fsync _ s := (inl tt, s);
  fallocate_bits := 0x7B;
  fd_fallocate _ _ _ _ s := (inl tt, s);
  fd_copy_range _ _ _ _ _ s := (inr ENOSYS, s)
|}.

(** ** It keeps the laws *)

Lemma mem_find_put p n s : Mem.find p (Mem.put p n s) = Some n.
Proof. unfold Mem.find, Mem.put. simpl. by rewrite bool_decide_eq_true_2. Qed.

Lemma mem_file_move f o b p s :
  Mem.file f s = Some (o, b) →
  Mem.file f (Mem.move f o p s) =
    Some (Mem.mkOpen (Mem.o_path o) p (Mem.o_writable o) (Mem.o_appends o), b).
Proof.
  unfold Mem.file, Mem.move. intros Hf. simpl.
  destruct (Mem.opened s !! f) as [o'|] eqn:Ho; simplify_eq/=.
  rewrite list_lookup_insert_eq by by eapply lookup_lt_Some. simpl.
  destruct (Mem.find (Mem.o_path o') s) as [[]|] eqn:Hn; simplify_eq/=.
  unfold Mem.find in *. simpl. rewrite Hn. done.
Qed.

Lemma mem_file_put f o b b' s :
  Mem.file f s = Some (o, b) →
  Mem.file f (Mem.put (Mem.o_path o) (Some b') s) = Some (o, b').
Proof.
  unfold Mem.file. intros Hf.
  change (Mem.opened (Mem.put (Mem.o_path o) (Some b') s)) with (Mem.opened s).
  destruct (Mem.opened s !! f) as [o'|]; simplify_eq/=.
  destruct (Mem.find (Mem.o_path o') s) as [[]|]; simplify_eq/=.
  by rewrite mem_find_put.
Qed.

#[export] Instance mem_file_laws : FileLaws (H := mem_os).
Proof.
  refine {|
    plain (f : @fd mem_os) (s : @os mem_os) := ∃ o b, Mem.file f s = Some (o, b) ∧
      Mem.o_writable o = true ∧ Mem.o_appends o = false;
    contents (f : @fd mem_os) (s : @os mem_os) := default [] (snd <$> Mem.file f s);
    position (f : @fd mem_os) (s : @os mem_os) :=
      match Mem.file f s with Some (o, _) => Mem.o_pos o | None => 0%N end
  |}.
  - intros f n s b s'. simpl. unfold Mem.read. destruct (Mem.file f s) as [[o b']|]; [|done].
    intros [= <- _]. unfold len. rewrite length_take, length_drop. lia.
  - intros f p s (o & b & Hf & Hw & Ha) Hp. simpl. unfold Mem.seek. rewrite Hf.
    destruct (Z.leb_spec 0 p), (Z.ltb_spec p (2 ^ 63)); simpl; try lia.
    eexists. split; [done|]. rewrite (mem_file_move _ _ _ _ _ Hf). simpl.
    split; [by eexists _, _|done].
  - intros f n s (o & b & Hf & Hw & Ha). simpl. unfold Mem.read. rewrite Hf.
    eexists _, _. split; [done|]. rewrite (mem_file_move _ _ _ _ _ Hf). simpl.
    split_and!; [by eexists _, _|done|done| |].
    + by rewrite length_take, <- take_take, firstn_all.
    + intros Hnil%(f_equal length). rewrite length_take, length_drop in Hnil. unfold len.
      simpl in Hnil. lia.
  - intros f d s (o & b & Hf & Hw & Ha). simpl. unfold Mem.write. rewrite Hf, Hw, Ha.
    eexists _, _. split; [done|]. split; [lia|]. unfold len. rewrite Nat2N.id, firstn_all.
    destruct (decide (d = [])) as [->|Hd].
    + rewrite (mem_file_move _ _ _ _ _ Hf). simpl. split_and!; [by eexists _, _|done|done].
    + rewrite (mem_file_move _ _ _ _ _ (mem_file_put _ _ _ _ _ Hf)). simpl.
      rewrite decide_False by (destruct d; simpl; [done|lia]).
      split_and!; [by eexists _, _|done|done].
  - intros f s (o & b & Hf & Hw & Ha). simpl. unfold Mem.fd_metadata_. rewrite Hf.
    eexists _, _. split_and!; [done|by eexists _, _|by rewrite Hf].
Defined.
