(* ===== verification/DistfsLocks.v ===== *)
(** * The locks of the file server

    Which requests are answered: one that asks again for a lock it holds never is, and
    then the requests behind it are not either. *)

From S2P Require Import DistfsFacts DistfsMemOs.
From Stdlib Require Import Strings.Byte.
Open Scope Z_scope.
Open Scope prog_scope.

(** ** Calls only change the system *)

Section calls.
Context `{Os} `{Profile} (I : Server → Prop) (B : Prop).

Lemma call_server {A} (f : os → (A + IoError) * os) (Φ : A → Prop) :
  (∀ o a o', f o = (inl a, o') → Φ a) → safe (λ w, I (server w)) B (call f) Φ.
Proof.
  intros HΦ w Hw. unfold call. destruct (f (sys w)) as [[a|e] o] eqn:Hf; split_and!; try done.
  intros ? [= <-]. eauto.
Qed.
Lemma call_nix_server {A} (f : os → (A + Z) * os) : ok (λ w, I (server w)) B (call_nix f).
Proof. intros w Hw. unfold call_nix. by destruct (f (sys w)) as [[a|e] o]. Qed.
Lemma call_owner_server {A} (f : os → (A + FileOwnerError) * os) :
  ok (λ w, I (server w)) B (call_owner f).
Proof. intros w Hw. unfold call_owner. by destruct (f (sys w)) as [[a|e] o]. Qed.
Lemma close_server f : ok (λ w, I (server w)) B (close f).
Proof. by apply safe_modify. Qed.
End calls.

(** An invariant of the server that taking locks keeps: the calls are no concern. *)
Lemma server_calls `{Os} `{Profile} (I : Server → Prop) (B : Prop) :
  (B ∨ ∀ f n o b o', fd_read f n o = (inl b, o') → (len b ≤ n)%N) →
  ok (λ w, I (server w)) B fh_read → ok (λ w, I (server w)) B fh_write →
  (∀ h, ok (λ w, I (server w)) B (handle_lock h)) →
  (∀ h h', ok (λ w, I (server w)) B (handle_lock_in h h')) →
  Calls (λ w, I (server w)) B (λ _, True) (λ _, True).
Proof.
  intros Hb Hr Hw Hl Hi.
  split; intros; try done;
    first [ by apply call_nix_server | by apply call_owner_server | by apply close_server
          | apply call_server; try done; intros; destruct Hb; eauto ].
Qed.

(** ** Requests that are answered *)

Section locks.
Context `{Os} `{Profile}.

Definition unlocked (s : Server) : Prop := locks s = no_locks.

Lemma unlocked_handle_lock h : ok (λ w, unlocked (server w)) False (handle_lock h).
Proof.
  intros w Hw. unfold handle_lock, bind, gets. simpl. rewrite Hw. simpl.
  rewrite decide_False by set_solver. by split_and!.
Qed.

Lemma unlocked_handle_lock_in h h' : ok (λ w, unlocked (server w)) False (handle_lock_in h h').
Proof.
  intros w Hw. unfold handle_lock_in, bind, gets. simpl. rewrite Hw. simpl.
  rewrite decide_False by set_solver. by split_and!.
Qed.

#[export] Instance unlocked_calls `{!FileLaws} :
  Calls (λ w, unlocked (server w)) False (λ _, True) (λ _, True).
Proof.
  apply server_calls; auto using unlocked_handle_lock, unlocked_handle_lock_in;
    [right; apply read_bound|..]; intros w Hw; unfold fh_read, fh_write, bind, gets; simpl; rewrite Hw; by split_and!.
Qed.

#[export] Instance unlocked_tables : Tables (λ w, unlocked (server w)) False (λ _, True).
Proof. by split. Qed.

(** The open file whose lock is the first thing a request asks for. *)
Definition uses (r : Request) : option N :=
  match r with
  | GetAttrRequest _ h _ => h
  | SetAttrRequest _ h (Some _) => h
  | ReadRequest h _ _ | WriteRequest h _ _ _ | FsyncRequest h _ | FlushRequest h _
  | FallocateRequest h _ _ _ | LseekRequest h _ _ | CopyFileRangeRequest h _ _ _ _ _ => Some h
  | _ => None
  end.

(** A request that locks a file twice. *)
Definition self_deadlock (r : Request) (w : World) : Prop :=
  match r with
  | FsyncRequest h _ => is_Some (fh (server w) !! h)
  | CopyFileRangeRequest h_in _ h_out _ _ _ => h_in = h_out ∧ is_Some (fh (server w) !! h_in)
  | _ => False
  end.

#[export] Instance self_deadlock_dec r w : Decision (self_deadlock r w).
Proof. destruct r; simpl; apply _. Defined.

(** [with_handle] of a server whose locks are free. *)
Lemma with_handle_unlocked h w :
  unlocked (server w) →
  with_handle h w = match fh (server w) !! h with
                    | Some f => (Done f, w)
                    | None => (Fail EEXIST, w)
                    end.
Proof.
  intros Hw. unfold with_handle, fh_read, handle_lock, bind, gets. simpl. rewrite Hw. simpl.
  destruct (fh (server w) !! h); simpl; [|done]. rewrite Hw. simpl.
  by rewrite decide_False by set_solver.
Qed.

Lemma self_deadlock_blocks r h w :
  unlocked (server w) → self_deadlock r w → uses r = Some h →
  serve r w = (Blocked, mkWorld (with_locks (mkLocks {[h]} true false) (server w)) (sys w)).
Proof.
  intros Hw Hr Hh. destruct r; simpl in Hr, Hh; try done; simplify_eq.
  - destruct Hr as [f Hf]. simpl. unfold respond, fsync_impl, bind.
    rewrite (with_handle_unlocked _ _ Hw), Hf. simpl. rewrite Hw. simpl.
    by rewrite (right_id_L ∅ (∪)).
  - destruct Hr as [<- [f Hf]]. simpl. unfold respond, copy_file_range_impl, bind at 1.
    rewrite (with_handle_unlocked _ _ Hw), Hf. unfold bind, gets. simpl. rewrite Hf. simpl.
    rewrite decide_True by done. simpl. rewrite Hw. simpl. by rewrite (right_id_L ∅ (∪)).
Qed.

(** The two requests without a file to lock twice. *)
Lemma no_self_deadlock_fsync h w :
  unlocked (server w) → fh (server w) !! h = None → fsync_impl h w = (Fail EEXIST, w).
Proof. intros Hw Hf. unfold fsync_impl, bind. by rewrite (with_handle_unlocked _ _ Hw), Hf. Qed.
Lemma no_self_deadlock_copy h h' a b n w :
  unlocked (server w) → fh (server w) !! h = None →
  copy_file_range_impl h h' a b n w = (Fail EEXIST, w).
Proof.
  intros Hw Hf. unfold copy_file_range_impl, bind at 1.
  by rewrite (with_handle_unlocked _ _ Hw), Hf.
Qed.

Lemma admissible_any r : admissible (J := λ w, unlocked (server w)) (P := λ _, True) r.
Proof. destruct r; simpl; try done; by intros. Qed.

Lemma unlocked_serve `{!FileLaws} r w :
  unlocked (server w) → ¬ self_deadlock r w →
  (serve r w).1 ≠ Blocked ∧ unlocked (server (serve r w).2).
Proof.
  intros Hw Hr.
  assert (¬ asks_again r → (serve r w).1 ≠ Blocked ∧ unlocked (server (serve r w).2)) as Hrest.
  { intros Hno.
    destruct (ok_serve (J := λ w, unlocked (server w)) (B := False) (P := λ _, True)
                (G := λ _, True) r (admissible_any r) (λ Ha, match Hno Ha with end) w Hw)
      as (HJ & HB & _). by split. }
  destruct r; try (apply Hrest; by intros []).
  - simpl in *. unfold respond.
    rewrite no_self_deadlock_fsync; [done|done|by apply eq_None_not_Some].
  - destruct (decide (fh_in = fh_out)) as [<-|]; [|by apply Hrest].
    simpl in *. unfold respond. rewrite no_self_deadlock_copy; [done|done|].
    apply eq_None_not_Some. naive_solver.
Qed.

End locks.

(** C13. The requests that are never answered.  From free locks, a request waits for ever
    exactly when it is an [fsync] of an open file, or a copy from a file to itself: both
    ask for a write guard they hold.  Every other request ends, and leaves the locks
    free: the read loop, too, whatever the lengths of the reads. *)
Theorem only_self_deadlocks_block `{Os} `{Profile} `{!FileLaws} r w :
  locks (server w) = no_locks →
  ((serve r w).1 = Blocked ↔ self_deadlock r w) ∧
  (¬ self_deadlock r w → locks (server (serve r w).2) = no_locks).
Proof.
  intros Hw. split; [split|].
  - intros Hb. destruct (decide (self_deadlock r w)) as [|Hno]; [done|].
    by destruct (unlocked_serve r w Hw Hno).
  - intros Hr. assert (is_Some (uses r)) as [h Hh] by by destruct r.
    by rewrite (self_deadlock_blocks r h w Hw Hr Hh).
  - intros Hno. apply (unlocked_serve r w Hw Hno).
Qed.

#[local] Existing Instance dev_profile.

Definition mem_root : PathBuf := components "/srv".
Definition mem_start (o : Mem.state) : World (H := mem_os) :=
  mkWorld (mkServer mem_root ∅ ∅ 0 no_locks) o.

(** A directory with a file of five bytes and one of none. *)
Definition mem_disk : Mem.state :=
  Mem.mkState [(mem_root, None);
               (components "/srv/a", Some ([x01; x02; x03; x04; x05]));
               (components "/srv/b", Some [])] [].

Lemma only_self_deadlocks_block_witness :
  let w := (serve (OpenRequest "/a" 2) (mem_start mem_disk)).2 in
  (serve (FsyncRequest 0 false) w).1 = Blocked ∧ (serve (ReadRequest 0 1 100) w).1 ≠ Blocked.
Proof.
  split.
  - apply (only_self_deadlocks_block (FsyncRequest 0 false)); [reflexivity|]. simpl.
    vm_compute. by eexists.
  - intros Hb. apply (only_self_deadlocks_block (ReadRequest 0 1 100)) in Hb; [done|reflexivity].
Defined.

(** ** Behind a request that waits for ever *)

Definition errno_response (r : Response) : option Z :=
  match r with
  | AttrResponse (Some (inr e)) | UnitResponse (Some (inr e)) | HandleResponse (Some (inr e))
  | ReaddirResponse (Some (inr e)) | ReadResponse (Some (inr e)) | WriteResponse (Some (inr e))
  | CreateResponse (Some (inr e)) | LseekResponse (Some (inr e)) | ReadlinkResponse (Some (inr e))
  | CopyFileRangeResponse (Some (inr e)) => Some e
  | _ => None
  end.

Section uses.
Context `{Os} `{Profile}.

(** What the lock gives, [r] gives: [r] is a [bind] of it. *)
Lemma uses_serve r h :
  uses r = Some h →
  ∃ A C wrap (f : A → C) (k : fd * PathBuf → Run A), (∀ e, errno_response (wrap (Some (inr e))) = Some e) ∧
    ∀ w, serve r w = respond wrap f (bind (with_handle h) k) w.
Proof.
  intros Hr. destruct r; simpl in Hr; simplify_eq; [destruct path|destruct attr, path|..];
    simplify_eq; eexists _, _, _, _, _; (split; [|intros w; reflexivity]); done.
Qed.

Lemma uses_blocked r h w w' :
  uses r = Some h → with_handle h w = (Blocked, w') → serve r w = (Blocked, w').
Proof.
  intros Hr Hh. destruct (uses_serve r h Hr) as (A & C & wrap & f & k & _ & ->).
  unfold respond. by rewrite (bind_blocked _ _ _ _ Hh).
Qed.

Lemma uses_fail r h w e w' :
  uses r = Some h → with_handle h w = (Fail e, w') →
  ∃ a, serve r w = (Done a, w') ∧ errno_response a = Some e.
Proof.
  intros Hr Hh. destruct (uses_serve r h Hr) as (A & C & wrap & f & k & He & ->).
  unfold respond. rewrite (bind_fail _ _ _ _ _ Hh). eauto.
Qed.
End uses.

Section wedge.
Context `{Os} `{Profile}.

Lemma with_handle_stuck h w :
  is_Some (fh (server w) !! h) → h ∈ stuck (locks (server w)) → (with_handle h w).1 = Blocked.
Proof.
  intros [f Hf] Hs. unfold with_handle, fh_read, handle_lock, bind, gets. simpl.
  destruct (fh_queued (locks (server w))); [done|]. simpl. rewrite Hf. simpl.
  by rewrite decide_True.
Qed.

Lemma with_handle_queued h w : fh_queued (locks (server w)) = true → with_handle h w = (Blocked, w).
Proof. intros Hq. unfold with_handle, fh_read, bind, gets. simpl. by rewrite Hq. Qed.

Lemma release_held h fl lo flush w :
  fh_held (locks (server w)) = true →
  (serve (ReleaseRequest h fl lo flush) w).1 = Blocked ∧
  fh_queued (locks (server (serve (ReleaseRequest h fl lo flush) w).2)) = true.
Proof.
  intros Hh. simpl. unfold respond, release_impl, fh_write, bind, gets. simpl.
  destruct (fh_queued (locks (server w))) eqn:Hq; simpl; [done|]. by rewrite Hh.
Qed.
End wedge.

(** C28. What one such request does.  Nothing of the file is written out; every later
    request on the same open file waits for ever; so does the next request that closes
    any file, and from then on every request on any open file, known or not. *)
Theorem self_deadlock_wedges_server `{Os} `{Profile} r h w :
  locks (server w) = no_locks → self_deadlock r w → uses r = Some h →
  let w1 := (serve r w).2 in
  sys w1 = sys w ∧
  (∀ r', uses r' = Some h → (serve r' w1).1 = Blocked) ∧
  ∀ h' fl lo flush, let '(o, w2) := serve (ReleaseRequest h' fl lo flush) w1 in
    o = Blocked ∧ ∀ r' h'', uses r' = Some h'' → (serve r' w2).1 = Blocked.
Proof.
  intros Hw Hr Hh.
  assert (is_Some (fh (server w) !! h)) as Hf by (destruct r; simpl in *; naive_solver).
  rewrite (self_deadlock_blocks r h w Hw Hr Hh). cbn [snd].
  set (w1 := mkWorld (with_locks (mkLocks {[h]} true false) (server w)) (sys w)).
  split_and!; [done| |].
  - intros r' Hr'. destruct (with_handle h w1) as [o w'] eqn:Hl.
    assert ((with_handle h w1).1 = Blocked) as Hb by (apply with_handle_stuck; [done|set_solver]).
    rewrite Hl in Hb. simpl in Hb. subst o. by rewrite (uses_blocked r' h _ _ Hr' Hl).
  - intros h' fl lo flush. destruct (release_held h' fl lo flush w1 eq_refl) as [Ho Hq].
    destruct (serve (ReleaseRequest h' fl lo flush) w1) as [o w2].
    split; [done|]. intros r' h'' Hr'.
    by rewrite (uses_blocked r' h'' _ _ Hr' (with_handle_queued h'' _ Hq)).
Qed.

Lemma self_deadlock_wedges_server_witness :
  let w := (serve (OpenRequest "/b" 2) (serve (OpenRequest "/a" 2) (mem_start mem_disk)).2).2 in
  let w1 := (serve (FsyncRequest 0 false) w).2 in
  (serve (ReadRequest 0 0 1) w1).1 = Blocked ∧
  (serve (ReadRequest 1 0 1) w1).1 ≠ Blocked ∧
  (serve (ReadRequest 1 0 1) (serve (ReleaseRequest 0 0 0 false) w1).2).1 = Blocked.
Proof.
  set (w := (serve (OpenRequest "/b" 2) (serve (OpenRequest "/a" 2) (mem_start mem_disk)).2).2).
  assert (self_deadlock (FsyncRequest 0 false) w) as Hr by (vm_compute; by eexists).
  destruct (self_deadlock_wedges_server (FsyncRequest 0 false) 0 w eq_refl Hr eq_refl) as (_ & Hs & Hq).
  split_and!; [by apply Hs|vm_compute; discriminate|].
  specialize (Hq 0%N 0 0%N false). destruct (serve (ReleaseRequest 0 0 0 false) _) as [o w2].
  destruct Hq as [_ Hq]. by apply (Hq _ 1%N).
Defined.

(** ** Handles that are not open *)

(** A request on a handle that is not open is answered [EEXIST], not [EBADF], and
    changes nothing, on the server or in the system. *)
Theorem unknown_handle_eexist `{Os} `{Profile} r h w :
  uses r = Some h → fh (server w) !! h = None → fh_queued (locks (server w)) = false →
  ∃ a, serve r w = (Done a, w) ∧ errno_response a = Some EEXIST.
Proof.
  intros Hr Hf Hq. apply (uses_fail r h); [done|].
  unfold with_handle, fh_read, bind, gets. simpl. rewrite Hq. simpl. by rewrite Hf.
Qed.

Lemma unknown_handle_eexist_witness :
  let w := (serve (ReleaseRequest 0 0 0 true) (serve (OpenRequest "/a" 2) (mem_start mem_disk)).2).2 in
  ∃ a, serve (FsyncRequest 0 false) w = (Done a, w) ∧ errno_response a = Some EEXIST.
Proof.
  intros w. apply (unknown_handle_eexist (FsyncRequest 0 false) 0 w); vm_compute; reflexivity.
Defined.
