(* ===== verification/DistfsFiles.v ===== *)
(** * Reading and writing through the file server

    What a read returns and a write leaves, against the bytes of a regular file. *)

From S2P Require Import DistfsMemOs DistfsLocks.
From Stdlib Require Import Strings.Byte.
Open Scope Z_scope.
Open Scope prog_scope.

(** ** Bytes of a slice *)

Lemma take_drop_app {A} (l : list A) p n k :
  take n (drop p l) ++ take k (drop (p + n) l) = take (n + k) (drop p l).
Proof. rewrite <- drop_drop. apply take_take_drop. Qed.

Lemma drop_past {A} (l : list A) p n : (length l ≤ p)%nat → take n (drop p l) = [].
Proof. intros. by rewrite drop_ge, take_nil. Qed.

Lemma splice_read {A} (zero : A) c p b :
  take (length b) (drop p (splice zero c p b)) = b.
Proof.
  unfold splice. rewrite drop_app_ge; rewrite length_take, length_app, length_replicate; [|lia].
  replace (p - _)%nat with O by lia. by rewrite drop_0, take_app_length.
Qed.

Lemma splice_before {A} (zero : A) c p b :
  (p ≤ length c)%nat → take p (splice zero c p b) = take p c.
Proof.
  intros. unfold splice. rewrite take_app_le by (rewrite length_take, length_app; lia).
  rewrite take_take, Nat.min_id. by rewrite take_app_le.
Qed.

Section files.
Context `{Os} `{Profile} `{!FileLaws}.

(** The server's world with a file open under [h], not locked. *)
Definition opens (h : N) (f : fd) (w : World) : Prop :=
  (∃ p, fh (server w) !! h = Some (f, p)) ∧ locks (server w) = no_locks ∧ plain f (sys w).

Lemma read_loop_exact f fuel : ∀ room data w,
  plain f (sys w) → (room < N.of_nat fuel)%N →
  ∃ o', read_loop fuel f room data w =
      (Done (data ++ take (N.to_nat room) (drop (N.to_nat (position f (sys w))) (contents f (sys w)))),
       mkWorld (server w) o') ∧
    plain f o' ∧ contents f o' = contents f (sys w).
Proof.
  induction fuel as [|fuel IH]; intros room data w Hf Hroom; [lia|]. simpl.
  destruct (read_law f room (sys w) Hf) as (b & o & Hr & Hp & Hc & Hpos & Hb & Hend).
  pose proof (read_bound _ _ _ _ _ Hr) as Hlen.
  assert (call (fd_read f room) w = (Done b, mkWorld (server w) o)) as Hcall
    by (unfold call; by rewrite Hr).
  rewrite (bind_done _ _ _ _ _ Hcall). case_decide as Hnil.
  - exists o. split_and!; [|done|done]. unfold ret. do 2 f_equal.
    destruct (Hend Hnil) as [->|Hge]; [by rewrite take_0, app_nil_r|].
    rewrite drop_past by len_lia. by rewrite app_nil_r.
  - destruct (IH (room - len b)%N (data ++ b) (mkWorld (server w) o)) as (o' & -> & Hp' & Hc');
      [done|destruct b; [done|]; len_lia|].
    exists o'. simpl in *. split_and!; [|done|congruence].
    do 2 f_equal. rewrite <- app_assoc. f_equal. rewrite Hc, Hpos, Hb at 1.
    replace (N.to_nat (position f (sys w) + len b)) with (N.to_nat (position f (sys w)) + length b)%nat
      by len_lia.
    rewrite take_drop_app. f_equal. len_lia.
Qed.

(** A read through [serve]: the bytes that are there, and the server unchanged. *)
Lemma serve_read h f off size w :
  opens h f w → 0 ≤ off < 2 ^ 63 →
  ∃ o', serve (ReadRequest h off size) w =
      (Done (ReadResponse (Some (inl
         (take (N.to_nat size) (drop (Z.to_nat off) (contents f (sys w))))))),
       mkWorld (server w) o') ∧
    plain f o' ∧ contents f o' = contents f (sys w).
Proof.
  intros ([p Hh] & Hl & Hf) Hoff.
  destruct (seek_law f off (sys w) Hf Hoff) as (o1 & Hs & Hp1 & Hc1 & Hpos1).
  destruct (read_loop_exact f (S (N.to_nat size)) size [] (mkWorld (server w) o1) Hp1 ltac:(lia))
    as (o2 & Hr & Hp2 & Hc2).
  destruct (metadata_law f o2 Hp2) as (m & o3 & Hm & Hp3 & Hc3).
  exists o3. simpl in *. split_and!; [|done|congruence].
  unfold respond, read_impl. rewrite (bind_done _ _ _ (f, p) w)
    by (rewrite with_handle_unlocked by done; by rewrite Hh).
  rewrite (bind_done _ _ _ off (mkWorld (server w) o1)) by (unfold call; simpl; by rewrite Hs).
  rewrite (bind_done _ _ _ _ _ Hr).
  rewrite (bind_done _ _ _ m (mkWorld (server w) o3)) by (unfold call; simpl; by rewrite Hm).
  simpl. rewrite Hc1, Hpos1. do 5 f_equal. by rewrite Z_N_nat.
Qed.

Lemma serve_write h f off data fl w :
  opens h f w → 0 ≤ off < 2 ^ 63 → (len data < 2 ^ 32)%N →
  ∃ n o', serve (WriteRequest h off data fl) w =
      (Done (WriteResponse (Some (inl (Z.of_N n)))), mkWorld (server w) o') ∧
    (n ≤ len data)%N ∧ plain f o' ∧
    contents f o' =
      if decide (n = 0%N) then contents f (sys w)
      else splice x00 (contents f (sys w)) (Z.to_nat off) (take (N.to_nat n) data).
Proof.
  intros ([p Hh] & Hl & Hf) Hoff Hdata.
  destruct (seek_law f off (sys w) Hf Hoff) as (o1 & Hs & Hp1 & Hc1 & Hpos1).
  destruct (write_law f data o1 Hp1) as (n & o2 & Hw & Hn & Hp2 & Hpos2 & Hc2).
  exists n, o2. split_and!; [|done|done|].
  - simpl. unfold respond, write_impl. rewrite (bind_done _ _ _ (f, p) w)
      by (rewrite with_handle_unlocked by done; by rewrite Hh).
    rewrite (bind_done _ _ _ off (mkWorld (server w) o1)) by (unfold call; simpl; by rewrite Hs).
    rewrite (bind_done _ _ _ n (mkWorld (server w) o2)) by (unfold call; simpl; by rewrite Hw).
    simpl. unfold to_u32. rewrite Z.mod_small by lia. done.
  - rewrite Hc2, Hc1, Hpos1. by rewrite Z_N_nat.
Qed.

End files.

(** C9. A read is exact.  However short the system's reads are, the answer holds the
    bytes of the file from [off], [size] of them or all up to the end, no more and no
    fewer; the tables and the file's bytes stay as they are. *)
Theorem read_exact `{Os} `{Profile} `{!FileLaws} h f off size w :
  opens h f w → 0 ≤ off < 2 ^ 63 →
  ∃ o', serve (ReadRequest h off size) w =
      (Done (ReadResponse (Some (inl
         (take (N.to_nat size) (drop (Z.to_nat off) (contents f (sys w))))))),
       mkWorld (server w) o') ∧
    contents f o' = contents f (sys w).
Proof.
  intros Ho Hoff. destruct (serve_read h f off size w Ho Hoff) as (o' & ? & ? & ?). eauto.
Qed.

#[local] Existing Instance dev_profile.

(** A server with [a], of five bytes, open for reading and writing. *)
Definition a_open : World (H := mem_os) := (serve (OpenRequest "/a" 2) (mem_start mem_disk)).2.

Lemma a_opens : opens (0 : N) (0%nat : @fd mem_os) a_open.
Proof.
  split_and!; [by eexists|done|]. eexists _, _. split_and!; [vm_compute; reflexivity|done|done].
Qed.

Lemma read_exact_witness :
  ∃ o', serve (ReadRequest 0 1 3) a_open =
    (Done (ReadResponse (Some (inl [x02; x03; x04]))), mkWorld (server a_open) o') ∧
  contents (0%nat : @fd mem_os) o' = [x01; x02; x03; x04; x05].
Proof. exact (read_exact 0 _ 1 3 a_open a_opens ltac:(lia)). Defined.

(** C15. Written bytes read back.  A write at [off] answers how many bytes it took; a
    read there returns exactly these, and what was before [off] is untouched.  *)
Theorem write_then_read `{Os} `{Profile} `{!FileLaws} h f off data fl w :
  opens h f w → 0 ≤ off < 2 ^ 63 → (len data < 2 ^ 32)%N →
  ∃ n w1 w2 o3,
    serve (WriteRequest h off data fl) w = (Done (WriteResponse (Some (inl (Z.of_N n)))), w1) ∧
    (n ≤ len data)%N ∧
    serve (ReadRequest h off n) w1 =
      (Done (ReadResponse (Some (inl (take (N.to_nat n) data)))), w2) ∧
    (off ≤ Z.of_N (len (contents f (sys w))) →
     serve (ReadRequest h 0 (Z.to_N off)) w2 =
       (Done (ReadResponse (Some (inl (take (Z.to_nat off) (contents f (sys w)))))),
        mkWorld (server w) o3)).
Proof.
  intros Ho Hoff Hdata. pose proof Ho as ([p Hh] & Hl & Hf).
  destruct (serve_write h f off data fl w Ho Hoff Hdata) as (n & o1 & Hw & Hn & Hp1 & Hc1).
  destruct (serve_read h f off n (mkWorld (server w) o1)) as (o2 & Hr & Hp2 & Hc2);
    [by split_and!; [exists p| |]|done|].
  destruct (serve_read h f 0 (Z.to_N off) (mkWorld (server w) o2)) as (o3 & Hr3 & _ & _);
    [by split_and!; [exists p| |]|lia|].
  exists n, (mkWorld (server w) o1), (mkWorld (server w) o2), o3. split_and!; [done|done| |].
  - rewrite Hr. do 5 f_equal. simpl. rewrite Hc1. case_decide as Hz; [by subst n|].
    rewrite <- (splice_read x00 (contents f (sys w)) (Z.to_nat off) (take (N.to_nat n) data)) at 2.
    f_equal. rewrite length_take. len_lia.
  - intros Hlen. rewrite Hr3. do 5 f_equal. simpl. rewrite Hc2. simpl. rewrite Hc1.
    rewrite drop_0, Z_N_nat. case_decide; [done|]. apply splice_before. len_lia.
Qed.

Lemma write_then_read_witness :
  ∃ n w1 w2,
    serve (WriteRequest 0 4 [x0a; x0b; x0c] 0) a_open =
      (Done (WriteResponse (Some (inl (Z.of_N n)))), w1) ∧
    serve (ReadRequest 0 4 n) w1 =
      (Done (ReadResponse (Some (inl (take (N.to_nat n) [x0a; x0b; x0c])))), w2).
Proof.
  destruct (write_then_read 0 _ 4 [x0a; x0b; x0c] 0 a_open a_opens) as (n & w1 & w2 & _ & Hw & _ & Hr & _);
    [lia|vm_compute; reflexivity|].
  by exists n, w1, w2.
Defined.

(** And as it runs: seven bytes, read two at a time. *)
Example write_read_runs :
  let w1 := (serve (WriteRequest 0 4 [x0a; x0b; x0c] 0) a_open).2 in
  (serve (ReadRequest 0 0 100) w1).1 =
    Done (ReadResponse (Some (inl [x01; x02; x03; x04; x0a; x0b; x0c]))).
Proof. vm_compute. reflexivity. Qed.
