(* ===== verification/DistfsTables.v ===== *)
(** * The handle tables of the file server

    Handles are given out once, and only the request that closes one takes it away. *)

From S2P Require Import DistfsLocks DistfsFacts DistfsMemOs.
Open Scope Z_scope.
Open Scope prog_scope.

Section tables.
Context `{Os} `{Profile}.

(** Locks apart. *)
Definition same_tables (s s' : Server) : Prop := with_locks no_locks s = with_locks no_locks s'.

Lemma with_locks_same l s : same_tables s (with_locks l s).
Proof. done. Qed.

Lemma same_tables_fields s s' :
  same_tables s s' ↔
  root_path s = root_path s' ∧ fh s = fh s' ∧ dh s = dh s' ∧ fh_src s = fh_src s'.
Proof.
  unfold same_tables, with_locks. split; [by intros [= -> -> -> ->]|].
  by intros (-> & -> & -> & ->).
Qed.

(** Whatever a request does about locks leaves the tables alone. *)
Lemma ok_set_locks s0 l : ok (λ w, same_tables s0 (server w)) True (set_server (with_locks l)).
Proof. apply safe_modify; [|done]. intros w Hw. unfold same_tables in *. by rewrite Hw. Qed.

#[export] Instance same_calls s0 :
  Calls (λ w, same_tables s0 (server w)) True (λ _, True) (λ _, True).
Proof.
  apply server_calls; [by left| | | |];
    intros; unfold fh_read, fh_write, handle_lock, handle_lock_in, lock_again;
    (apply (safe_bind _ _ _ _ (λ _, True)); [by apply safe_gets|intros l _]);
    repeat case_match; try (by apply safe_ret); try (by apply safe_blocked);
    repeat (apply (safe_bind _ _ _ _ (λ _, True)); [by apply ok_set_locks || by apply safe_gets|intros ? _]);
    by apply safe_blocked.
Qed.

Lemma ok_lock_again_same s0 h : ok (λ w, same_tables s0 (server w)) True (lock_again h).
Proof.
  unfold lock_again. apply (safe_bind _ _ _ _ (λ _, True)); [by apply safe_gets|intros l _].
  apply (safe_bind _ _ _ _ (λ _, True)); [apply ok_set_locks|intros _ _]. by apply safe_blocked.
Qed.

Lemma serve_keeps_tables r w : keeps_tables r → same_tables (server w) (server (serve r w).2).
Proof.
  intros Hk.
  assert (admissible (J := λ w', same_tables (server w) (server w')) (P := λ _, True) r) as Ha
    by (destruct r; simpl; try done; by intros).
  by destruct (ok_serve_keep (J := λ w', same_tables (server w) (server w')) (B := True)
    (P := λ _, True) (G := λ _, True) r Hk Ha (λ _ h, ok_lock_again_same _ h) w eq_refl).
Qed.

(** ** What one request does to the tables *)

Lemma same_call {A} (f : os → (A + IoError) * os) s0 :
  ok (λ w', same_tables s0 (server w')) True (call f).
Proof. by apply (call_server (same_tables s0)). Qed.
Lemma same_close f s0 : ok (λ w', same_tables s0 (server w')) True (close f).
Proof. by apply (close_server (same_tables s0)). Qed.
Lemma same_owning {A} f (m : Run A) s0 :
  ok (λ w', same_tables s0 (server w')) True m →
  ok (λ w', same_tables s0 (server w')) True (owning f m).
Proof. by apply ok_owning. Qed.

(** A computation that leaves the tables alone. *)
Lemma wp_same {A} (m : Run A) Q w :
  ok (λ w', same_tables (server w) (server w')) True m →
  (∀ o w', same_tables (server w) (server w') → Q o w') → wp m Q w.
Proof. intros Hm HQ. apply HQ. apply (Hm w eq_refl). Qed.

Lemma same_trans s1 s2 s3 : same_tables s1 s2 → same_tables s2 s3 → same_tables s1 s3.
Proof. unfold same_tables. congruence. Qed.

(** The server with its next handle taken, and with it put to use. *)
Definition burned (s : Server) : Server := with_fh_src ((fh_src s + 1) mod u64_modulus)%N s.
Definition opened (f : fd * PathBuf) (s : Server) : Server :=
  with_fh (<[fh_src s := f]> (fh s)) (burned s).
Definition dir_opened (d : list Entry * PathBuf) (s : Server) : Server :=
  with_dh (<[fh_src s := d]> (dh s)) (burned s).

(** What a request closes: an open file, or an open directory. *)
Definition closes (r : Request) : option (N + N) :=
  match r with
  | ReleaseRequest h _ _ _ => Some (inl h)
  | ReleasedirRequest h _ _ => Some (inr h)
  | _ => None
  end.

(** One step of the tables, of a request that closes [c], and the handle it answers with. *)
Inductive table_step (c : option (N + N)) (s : Server) : option N → Server → Prop :=
| step_same s' : same_tables s s' → table_step c s None s'
| step_burn s' : same_tables (burned s) s' → table_step c s None s'
| step_open f given s' :
    same_tables (opened f s) s' → given = None ∨ given = Some (fh_src s) → table_step c s given s'
| step_opendir d s' : same_tables (dir_opened d s) s' → table_step c s (Some (fh_src s)) s'
| step_release h s' : c = Some (inl h) → same_tables (with_fh (delete h (fh s)) s) s' → table_step c s None s'
| step_releasedir h s' : c = Some (inr h) → same_tables (with_dh (delete h (dh s)) s) s' → table_step c s None s'.

(** [m] as a step, [get] reading the handle off its value. *)
Definition steps {A} (c : option (N + N)) (get : A → option N) (m : Run A) : Prop :=
  ∀ w, wp m (λ o w', table_step c (server w) (outcome_ok o ≫= get) (server w')) w.

Lemma table_step_from c s0 s given s' :
  same_tables s0 s → table_step c s given s' → table_step c s0 given s'.
Proof.
  intros (Hr & Hf & Hd & Hs)%same_tables_fields Hstep.
  destruct Hstep as [s' Hs'|s' Hs'|f given s' Hs' Hg|d s' Hs'|h s' Hc Hs'|h s' Hc Hs']; rewrite <- ?Hs in *;
    [apply step_same|apply step_burn|apply (step_open _ _ f)|apply (step_opendir _ _ d)
    |apply (step_release _ _ h)|apply (step_releasedir _ _ h)]; try done;
    revert Hs'; rewrite !same_tables_fields; simpl; rewrite ?Hr, ?Hf, ?Hd, ?Hs; tauto.
Qed.

(** A first part that leaves the tables alone. *)
Lemma steps_bind {A C} c get (m : Run A) (k : A → Run C) :
  (∀ s0, ok (λ w', same_tables s0 (server w')) True m) → (∀ a, steps c get (k a)) →
  steps c get (bind m k).
Proof.
  intros Hm Hk w. apply wp_bind, wp_same; [apply Hm|].
  intros [a|e| |] w' Hs; simpl; try by apply step_same.
  eapply wp_mono; [apply Hk|]. intros o w2. by apply table_step_from.
Qed.

Lemma wp_alloc_fh (Q : outcome Z N → World → Prop) w :
  Q (Done (fh_src (server w))) (mkWorld (burned (server w)) (sys w)) → wp alloc_fh Q w.
Proof. done. Qed.

Lemma opendir_steps c path flags : steps c (λ a, Some (h_fh a)) (opendir_impl path flags).
Proof.
  intros w. unfold opendir_impl. apply wp_bind, wp_alloc_fh, wp_bind, wp_same.
  { by apply ok_dir_listing. }
  intros [d|e| |] w' Hs; simpl; try by apply step_burn.
  apply (step_opendir _ _ d). revert Hs. rewrite !same_tables_fields. simpl.
  by intros (-> & -> & <- & ->).
Qed.

Lemma releasedir_steps h : steps (Some (inr h)) (λ _, None) (releasedir_impl h).
Proof. intros w. by apply (step_releasedir _ _ h). Qed.

(** [fh_write] gives way, or waits. *)
Lemma wp_fh_write (Q : outcome Z unit → World → Prop) w :
  Q (Done tt) w → (∀ w', same_tables (server w) (server w') → Q Blocked w') → wp fh_write Q w.
Proof.
  intros HQ Hb. unfold wp, fh_write, bind, gets. simpl. repeat case_match; simpl; by try apply Hb.
Qed.

Lemma release_steps h flush : steps (Some (inl h)) (λ _, None) (release_impl h flush).
Proof.
  intros w. unfold release_impl. apply wp_bind, wp_fh_write; simpl; [|by intros; apply step_same].
  apply wp_bind, wp_gets, wp_bind. unfold wp at 1. simpl.
  apply wp_same.
  { apply ok_if_some. intros f _. apply same_owning. case_match; [apply same_call|by apply safe_ret]. }
  intros o w' Hs. destruct (outcome_ok o); by apply (step_release _ _ h).
Qed.

Lemma wp_insert_handle f (Q : outcome Z unit → World → Prop) w h :
  (∀ w', same_tables (with_fh (<[h := f]> (fh (server w))) (server w)) (server w') → ∀ o, Q o w') →
  (∀ w', same_tables (server w) (server w') → Q Blocked w') → wp (insert_handle h f) Q w.
Proof.
  intros HQ Hb. unfold insert_handle. apply wp_bind, wp_fh_write; [|done].
  apply wp_bind, wp_gets, wp_bind. unfold wp at 1. simpl.
  apply wp_same; [apply ok_if_some; intros; apply same_close|]. intros o w' Hs. by apply HQ.
Qed.

Lemma open_steps c path flags : steps c (λ a, Some (h_fh a)) (open_impl path flags).
Proof.
  unfold open_impl. apply steps_bind; [intros s0; by apply safe_gets|intros p].
  apply steps_bind; [intros s0; apply same_call|intros f].
  intros w. apply wp_bind, wp_alloc_fh, wp_bind, wp_insert_handle; simpl.
  - intros w' Hs [a|e| |]; simpl; apply (step_open _ _ (f, p)); auto.
  - intros w' Hs. by apply step_burn.
Qed.

Lemma create_steps c parent name mode flags :
  steps c (λ a, Some (c_fh a)) (create_impl parent name mode flags).
Proof.
  unfold create_impl. apply steps_bind; [intros s0; by apply safe_gets|intros p].
  apply steps_bind; [intros s0; apply same_call|intros f].
  intros w. apply wp_bind, wp_alloc_fh, wp_bind, wp_same.
  { eapply safe_attempt; [apply same_call|done..]. }
  intros [m|e| |] w1 Hs1; simpl; try by apply step_burn.
  destruct m as [m|e]; [|by apply step_burn].
  apply wp_bind, wp_bind, wp_insert_handle; simpl.
  - intros w' Hs.
    assert (same_tables (opened (f, p) (server w)) (server w')) as Hopen.
    { revert Hs1 Hs. rewrite !same_tables_fields. simpl. by intros (-> & <- & -> & ->). }
    intros [a|e| |]; [|by apply (step_open _ _ (f, p)); [|left]..].
    unfold wp, to_attr, or_panic, bind. destruct (metadata_to_grpc m); simpl;
      apply (step_open _ _ (f, p)); auto.
  - intros w' Hs. apply step_burn. by eapply same_trans.
Qed.

(** ** Any request *)

(** The handle of a response. *)
Definition given (a : Response) : option N :=
  match a with
  | HandleResponse (Some (inl a)) => Some (h_fh a)
  | CreateResponse (Some (inl a)) => Some (c_fh a)
  | _ => None
  end.

Lemma respond_given {A C} c wrap (f : A → C) (get : A → option N) (m : Run A) w :
  (∀ a, given (wrap (Some (inl (f a)))) = get a) → (∀ e, given (wrap (Some (inr e))) = None) →
  steps c get m →
  table_step c (server w) (outcome_ok (respond wrap f m w).1 ≫= given) (server (respond wrap f m w).2).
Proof.
  intros Hg He Hm. specialize (Hm w). unfold wp, respond in *.
  destruct (m w) as [[a|e| |] w']; simpl in *; by rewrite ?Hg, ?He.
Qed.

Lemma keeps_gives r w : keeps_tables r → outcome_ok (serve r w).1 ≫= given = None.
Proof.
  intros Hk. destruct r; try done; simpl; unfold respond; by repeat case_match; simplify_eq.
Qed.

Lemma serve_step r w :
  table_step (closes r) (server w) (outcome_ok (serve r w).1 ≫= given) (server (serve r w).2).
Proof.
  assert (keeps_tables r → table_step (closes r) (server w) (outcome_ok (serve r w).1 ≫= given)
    (server (serve r w).2)) as Hk.
  { intros Hk. rewrite (keeps_gives r w Hk). by apply step_same, serve_keeps_tables. }
  destruct r; try (by apply Hk).
  - by apply (respond_given _ _ _ (λ a, Some (h_fh a))); [..|apply opendir_steps].
  - by apply (respond_given _ _ _ (λ a, None)); [..|apply releasedir_steps].
  - by apply (respond_given _ _ _ (λ a, Some (h_fh a))); [..|apply open_steps].
  - by apply (respond_given _ _ _ (λ a, None)); [..|apply release_steps].
  - by apply (respond_given _ _ _ (λ a, Some (c_fh a))); [..|apply create_steps].
Qed.

(** ** Handles in use *)

Definition used (s : Server) (h : N) : Prop := is_Some (fh s !! h) ∨ is_Some (dh s !! h).

Definition handles_below (s : Server) : Prop := ∀ h, used s h → (h < fh_src s)%N.

Lemma burned_src s :
  (fh_src s + 1 < u64_modulus)%N → fh_src (burned s) = (fh_src s + 1)%N.
Proof. intros. by apply N.mod_small. Qed.

Lemma same_used s s' h : same_tables s s' → used s h ↔ used s' h.
Proof. rewrite same_tables_fields. unfold used. by intros (_ & -> & -> & _). Qed.

Lemma table_step_below c s g s' :
  table_step c s g s' → (fh_src s + 1 < u64_modulus)%N → handles_below s →
  handles_below s' ∧ (fh_src s' ≤ fh_src s + 1)%N.
Proof.
  intros Hstep Hsrc Hs. pose proof (burned_src s Hsrc) as Hb.
  destruct Hstep as [s' Hs'|s' Hs'|f given s' Hs' Hg|d s' Hs'|h s' Hc Hs'|h s' Hc Hs'];
    unfold handles_below; setoid_rewrite <- (same_used _ _ _ Hs');
    apply same_tables_fields in Hs' as (_ & _ & _ & <-); unfold used; simpl; simpl in Hb; rewrite ?Hb;
    (split; [|lia]); intros h'; unfold handles_below, used in Hs.
  - auto.
  - intros Hu%Hs. lia.
  - rewrite lookup_insert_is_Some. destruct (decide (fh_src s = h')) as [<-|]; [lia|].
    intros Hu. enough (h' < fh_src s)%N by lia. apply Hs. naive_solver.
  - rewrite lookup_insert_is_Some. destruct (decide (fh_src s = h')) as [<-|]; [lia|].
    intros Hu. enough (h' < fh_src s)%N by lia. apply Hs. naive_solver.
  - rewrite lookup_delete_is_Some. naive_solver.
  - rewrite lookup_delete_is_Some. naive_solver.
Qed.

Lemma table_step_given c s h s' :
  table_step c s (Some h) s' → handles_below s → ¬ used s h ∧ used s' h.
Proof.
  intros Hstep Hs. assert (¬ used s (fh_src s)) as Hno by (intros Hu%Hs; lia).
  inversion Hstep as [| |f g s1 Hs' Hg|d s1 Hs'| |]; simplify_eq;
    rewrite <- (same_used _ _ _ Hs'); [destruct Hg as [|[= ->]]; [done|]|];
    (split; [done|]); [left|right]; simpl; by rewrite lookup_insert_eq.
Qed.

Lemma table_step_file c s g s' h f :
  table_step c s g s' → handles_below s → c ≠ Some (inl h) →
  fh s !! h = Some f → fh s' !! h = Some f.
Proof.
  intros Hstep Hs Hc Hf. assert (h < fh_src s)%N by (apply Hs; left; eauto).
  destruct Hstep as [s' Hs'|s' Hs'|f' given s' Hs' Hg|d s' Hs'|h' s' Hc' Hs'|h' s' Hc' Hs'];
    apply same_tables_fields in Hs' as (_ & <- & _); simpl; [done|done| |done| |done].
  - by rewrite lookup_insert_ne by lia.
  - by rewrite lookup_delete_ne by congruence.
Qed.

Lemma table_step_dir c s g s' h d :
  table_step c s g s' → handles_below s → c ≠ Some (inr h) →
  dh s !! h = Some d → dh s' !! h = Some d.
Proof.
  intros Hstep Hs Hc Hf. assert (h < fh_src s)%N by (apply Hs; right; eauto).
  destruct Hstep as [s' Hs'|s' Hs'|f' given s' Hs' Hg|d' s' Hs'|h' s' Hc' Hs'|h' s' Hc' Hs'];
    apply same_tables_fields in Hs' as (_ & _ & <- & _); simpl; [done|done|done| |done|].
  - by rewrite lookup_insert_ne by lia.
  - by rewrite lookup_delete_ne by congruence.
Qed.

(** The requests a server has had. *)
Definition run (rs : list Request) (w : World) : World := fold_left (λ w r, (serve r w).2) rs w.

Lemma run_below rs : ∀ w,
  handles_below (server w) → (fh_src (server w) + N.of_nat (length rs) < u64_modulus)%N →
  handles_below (server (run rs w)) ∧
  (fh_src (server (run rs w)) ≤ fh_src (server w) + N.of_nat (length rs))%N.
Proof.
  induction rs as [|r rs IH]; intros w Hw Hlen; simpl in *; [split; [done|lia]|].
  destruct (table_step_below _ _ _ _ (serve_step r w)) as [Hb Hs]; [lia|done|].
  destruct (IH (serve r w).2 Hb) as [Hb' Hs']; [lia|]. split; [done|lia].
Qed.

End tables.

(** C5. Handles.  After any requests to a new server, fewer than [2^64], a handle that a
    request answers with is not one of an open file or directory, and is open then; and
    what is open stays as it is, unless the request is the one that closes it. *)
Theorem handles_fresh `{Os} `{Profile} target o s o' rs r :
  new target o = (inl s, o') → (N.of_nat (length rs) + 1 < u64_modulus)%N →
  let w := run rs (mkWorld s o') in
  let '(a, w') := serve r w in
  (∀ h, outcome_ok a ≫= given = Some h → ¬ used (server w) h ∧ used (server w') h) ∧
  (∀ h f, closes r ≠ Some (inl h) → fh (server w) !! h = Some f → fh (server w') !! h = Some f) ∧
  (∀ h d, closes r ≠ Some (inr h) → dh (server w) !! h = Some d → dh (server w') !! h = Some d).
Proof.
  intros Hnew Hlen w. unfold new in Hnew.
  destruct (os_canonicalize target o) as [[p|e] o1]; simplify_eq.
  destruct (run_below rs (mkWorld (mkServer p ∅ ∅ 0 no_locks) o')) as [Hb _]; [|simpl; lia|].
  { intros h. unfold used. simpl. rewrite !lookup_empty. by intros [[? ?]|[? ?]]. }
  pose proof (serve_step r w) as Hstep. destruct (serve r w) as [a w']. cbn [fst snd] in Hstep.
  split_and!.
  - intros h Hh. rewrite Hh in Hstep. by eapply table_step_given.
  - intros h f Hc. by apply (table_step_file _ _ _ _ _ _ Hstep Hb).
  - intros h d Hc. by apply (table_step_dir _ _ _ _ _ _ Hstep Hb).
Qed.

#[local] Existing Instance dev_profile.

Lemma handles_fresh_witness :
  let rs := [OpenRequest "/a" 0; OpendirRequest "/" 0; ReleaseRequest 0 0 0 false] in
  let w := run rs (mkWorld (mkServer mem_root ∅ ∅ 0 no_locks) mem_disk) in
  ¬ used (server w) 2 ∧ used (server (serve (OpenRequest "/b" 2) w).2) 2.
Proof.
  intros rs w.
  assert (new "/srv" mem_disk = (inl (mkServer mem_root ∅ ∅ 0 no_locks), mem_disk)) as Hnew
    by reflexivity.
  pose proof (handles_fresh "/srv" mem_disk _ _ rs (OpenRequest "/b" 2) Hnew eq_refl) as Hw.
  cbv zeta in Hw. fold w in Hw.
  destruct (serve (OpenRequest "/b" 2) w) as [a w'] eqn:Hs. destruct Hw as (Hg & _ & _).
  apply Hg. change a with (a, w').1. rewrite <- Hs. vm_compute. reflexivity.
Defined.
