(* ===== verification/DistfsConfined.v ===== *)
(** * What the file server touches

    The calls it makes name paths below the exported directory, and files opened there:
    whatever such calls leave alone, the server leaves alone. *)

From S2P Require Import DistfsLocks DistfsTables DistfsFacts DistfsMemOs PathsProps.
From Stdlib Require Import Strings.Byte.
Open Scope Z_scope.
Open Scope prog_scope.

(** [Respects I P good]: the system's calls keep [I] on paths in [P] and on good files;
    a file opened there is good. *)
Class Respects `{Os} (I : os → Prop) (P : PathBuf → Prop) (good : fd → Prop) := {
  keeps_metadata p o : P p → I o → I (os_metadata p o).2;
  keeps_set_owner p z o : P p → I o → I (os_set_owner p z o).2;
  keeps_set_group p z o : P p → I o → I (os_set_group p z o).2;
  keeps_set_mtime p t o : P p → I o → I (os_set_mtime p t o).2;
  keeps_set_atime p t o : P p → I o → I (os_set_atime p t o).2;
  keeps_set_permissions p z o : P p → I o → I (os_set_permissions p z o).2;
  keeps_mkdir p z o : P p → I o → I (os_mkdir p z o).2;
  keeps_unlink p o : P p → I o → I (os_unlink p o).2;
  keeps_symlink p q o : P p → P q → I o → I (os_symlink p q o).2;
  keeps_remove_dir p o : P p → I o → I (os_remove_dir p o).2;
  keeps_rename p q o : P p → P q → I o → I (os_rename p q o).2;
  keeps_read_dir p o : P p → I o → I (os_read_dir p o).2;
  keeps_read_link p o : P p → I o → I (os_read_link p o).2;
  keeps_access p m o : P p → I o → I (os_access p m o).2;
  keeps_open p fl o : P p → I o →
    I (os_open p fl o).2 ∧ ∀ f, (os_open p fl o).1 = inl f → good f;
  keeps_close f o : good f → I o → I (fd_close f o);
  keeps_fd_metadata f o : good f → I o → I (fd_metadata f o).2;
  keeps_set_len f z o : good f → I o → I (fd_set_len f z o).2;
  keeps_seek f s o : good f → I o → I (fd_seek f s o).2;
  keeps_read f n o : good f → I o → I (fd_read f n o).2;
  keeps_write f b o : good f → I o → I (fd_write f b o).2;
  keeps_flush f o : good f → I o → I (fd_flush f o).2;
  keeps_fsync f o : good f → I o → I (fd_fsync f o).2;
  keeps_fallocate f m a n o : good f → I o → I (fd_fallocate f m a n o).2;
  keeps_copy_range f a g b n o : good f → good g → I o → I (fd_copy_range f a g b n o).2
}.

Section confined.
Context `{Os} `{Profile} {I : os → Prop} {root : PathBuf} {good : fd → Prop}.
Context `{!Respects I (under root) good}.

Definition confined (w : World) : Prop :=
  root_path (server w) = root ∧ (∀ h f, fh (server w) !! h = Some f → good f.1) ∧ I (sys w).

Lemma confined_locks w l : confined w → confined (mkWorld (with_locks l (server w)) (sys w)).
Proof. done. Qed.

Lemma confined_call {A} (f : os → (A + IoError) * os) (Φ : A → Prop) :
  (∀ o, I o → I (f o).2 ∧ ∀ a, (f o).1 = inl a → Φ a) → safe confined True (call f) Φ.
Proof.
  intros Hf w (Hr & Ht & Hw). unfold call. destruct (Hf _ Hw) as [HI HΦ].
  destruct (f (sys w)) as [[a|e] o]; simpl in *; split_and!; try done. intros ? [= <-]. by apply HΦ.
Qed.
Lemma confined_call_nix {A} (f : os → (A + Z) * os) :
  (∀ o, I o → I (f o).2) → ok confined True (call_nix f).
Proof.
  intros Hf w (Hr & Ht & Hw). unfold call_nix. specialize (Hf _ Hw).
  destruct (f (sys w)) as [[a|e] o]; by split_and!.
Qed.
Lemma confined_call_owner {A} (f : os → (A + FileOwnerError) * os) :
  (∀ o, I o → I (f o).2) → ok confined True (call_owner f).
Proof.
  intros Hf w (Hr & Ht & Hw). unfold call_owner. specialize (Hf _ Hw).
  destruct (f (sys w)) as [[a|e] o]; by split_and!.
Qed.

Lemma confined_set_locks l : ok confined True (set_server (with_locks l)).
Proof. by apply safe_modify. Qed.

Lemma confined_lock_again h : ok confined True (lock_again h).
Proof.
  unfold lock_again. apply (safe_bind _ _ _ _ (λ _, True)); [by apply safe_gets|intros l _].
  apply (safe_bind _ _ _ _ (λ _, True)); [apply confined_set_locks|intros _ _]. by apply safe_blocked.
Qed.

#[export] Instance confined_calls : Calls confined True (under root) good.
Proof.
  split; intros;
    try (apply confined_call; intros; split; [|done]);
    try apply confined_call_nix; try apply confined_call_owner; intros;
    try (by destruct Respects0; eauto);
    unfold fh_read, fh_write, handle_lock, handle_lock_in;
    try (apply (safe_bind _ _ _ _ (λ _, True)); [by apply safe_gets|intros l _]);
    repeat case_match; try (by apply safe_ret); try (by apply safe_blocked);
    try apply confined_lock_again;
    try (apply (safe_bind _ _ _ _ (λ _, True)); [apply confined_set_locks|intros _ _];
         by apply safe_blocked).
  - destruct H1 as (-> & _). apply real_path_under.
  - destruct H1 as (_ & Ht & _). eauto.
  - apply confined_call. intros o' Ho. by apply keeps_open.
  - apply safe_modify; [|done]. intros w (Hr & Ht & Hw). split_and!; [done|done|]. by apply keeps_close.
  - apply confined_call. intros o Ho. split; [by apply keeps_read|by left].
Qed.

#[export] Instance confined_tables : Tables confined True good.
Proof.
  split.
  - intros w Hw. by split_and!.
  - intros w t (Hr & _ & Hw) Ht. by split_and!.
  - intros w t (Hr & Ht & Hw). by split_and!.
Qed.

(** A request whose names are names, that is, no path of several parts; links are not
    read; a directory is listed below the root, or as "/". *)
Definition plain_name (name : string) : Prop := ∃ n, components name = [Normal n].

Definition plain_request (r : Request) : Prop :=
  match r with
  | LookupRequest _ name | MkdirRequest _ name _ _ | UnlinkRequest _ name | SymlinkRequest _ name _
  | RmdirRequest _ name | CreateRequest _ name _ _ => plain_name name
  | RenameRequest _ oname _ name _ => plain_name oname ∧ plain_name name
  | OpendirRequest path _ => path = "/" ∨ real_path root (components path) ≠ root
  | ReadlinkRequest path => under root (components path)
  | _ => True
  end.

Lemma plain_entry parent name : plain_name name → entry_in confined (under root) parent name.
Proof.
  intros [n Hn] w (-> & _). unfold entry_path. rewrite Hn. apply under_snoc, real_path_under.
Qed.

Lemma plain_admissible r :
  plain_request r → admissible (J := confined) (P := under root) r.
Proof.
  destruct r; simpl; try done; try apply plain_entry.
  - intros [? ?]. split; by apply plain_entry.
  - intros [->|Hne] Hpath w up (-> & _) Hup; [done|].
    destruct (under_parent root (real_path root (components path))) as (q & Hq & Hin);
      [apply real_path_under|done|]. congruence.
Qed.

Lemma serve_confined r w : plain_request r → confined w → confined (serve r w).2.
Proof.
  intros Hr Hw. by destruct (ok_serve (J := confined) (B := True) (P := under root) (G := good) r
    (plain_admissible r Hr) (λ _ h, confined_lock_again h) w Hw).
Qed.

Lemma run_confined rs : ∀ w, Forall plain_request rs → confined w → confined (run rs w).
Proof.
  induction rs as [|r rs IH]; intros w Hrs Hw; [done|]. inversion Hrs; simplify_eq.
  apply IH; [done|by apply serve_confined].
Qed.

End confined.

(** C7. Confinement of the server.  What calls on paths below the exported directory,
    and on files opened there, leave alone, any sequence of requests leaves alone:
    whatever the texts of their paths, as long as names are names and no link is read. *)
Theorem requests_confined `{Os} `{Profile} (I : os → Prop) root good target o o' rs s
    `{!Respects I (under root) good} :
  new target o = (inl s, o') → root_path s = root → I o' →
  Forall (plain_request (root := root)) rs →
  I (sys (run rs (mkWorld s o'))).
Proof.
  intros Hnew Hroot HI Hrs. unfold new in Hnew.
  destruct (os_canonicalize target o) as [[p|e] o1]; simplify_eq.
  simpl in *. assert (confined (I := I) (root := p) (good := good)
    (run rs (mkWorld (mkServer p ∅ ∅ 0 no_locks) o'))) as (_ & _ & HI'); [|done].
  apply run_confined; [done|]. by split_and!.
Qed.

(** ** On the system in memory *)

(** A node outside the root, and every open file below it. *)
Definition untouched (root secret : PathBuf) (b : Mem.node) (s : Mem.state) : Prop :=
  Mem.find secret s = Some b ∧ Forall (λ o, under root (Mem.o_path o)) (Mem.opened s).

Lemma find_filter p q (l : list (PathBuf * Mem.node)) :
  p ≠ q →
  List.find (λ x, bool_decide (x.1 = q)) (List.filter (λ x, bool_decide (x.1 ≠ p)) l) =
    List.find (λ x, bool_decide (x.1 = q)) l.
Proof.
  intros Hne. induction l as [|[p' n] l IH]; simpl; [done|].
  destruct (decide (p' = p)) as [->|Hp].
  - rewrite bool_decide_eq_false_2 by auto. by rewrite IH, (bool_decide_eq_false_2 (p = q)).
  - rewrite bool_decide_eq_true_2 by done. simpl. by rewrite IH.
Qed.

Lemma find_put_ne p q n s : p ≠ q → Mem.find q (Mem.put p n s) = Mem.find q s.
Proof.
  intros Hne. unfold Mem.find, Mem.put. simpl. rewrite bool_decide_eq_false_2 by done.
  by rewrite find_filter.
Qed.

Lemma find_remove_ne p q s : p ≠ q → Mem.find q (Mem.remove p s) = Mem.find q s.
Proof. intros Hne. unfold Mem.find, Mem.remove. simpl. by rewrite find_filter. Qed.

Section untouched.
Context (root secret : PathBuf) (b : Mem.node) (Hout : ¬ under root secret).

Lemma untouched_put p n s :
  under root p → untouched root secret b s → untouched root secret b (Mem.put p n s).
Proof. intros Hp [Hs Ho]. split; [|done]. rewrite find_put_ne; [done|]. by intros ->. Qed.

Lemma untouched_remove p s :
  under root p → untouched root secret b s → untouched root secret b (Mem.remove p s).
Proof. intros Hp [Hs Ho]. split; [|done]. rewrite find_remove_ne; [done|]. by intros ->. Qed.

Lemma untouched_on {A E} p (e : E) (f : Mem.node → A * Mem.state) s :
  untouched root secret b s → (∀ n, untouched root secret b (f n).2) →
  untouched root secret b (Mem.on p e f s).2.
Proof.
  intros Hs Hf. unfold Mem.on. case_match; [|done]. specialize (Hf n). by destruct (f n).
Qed.

Lemma untouched_file f o c s :
  Mem.file f s = Some (o, c) → untouched root secret b s → under root (Mem.o_path o).
Proof.
  intros Hf [_ Ho]. unfold Mem.file in Hf.
  destruct (Mem.opened s !! f) as [o'|] eqn:Hl; simplify_eq/=.
  destruct (Mem.find (Mem.o_path o') s) as [[]|]; simplify_eq/=.
  by eapply (Forall_lookup_1 _ _ _ _ Ho).
Qed.

Lemma untouched_move f o p s :
  under root (Mem.o_path o) → untouched root secret b s →
  untouched root secret b (Mem.move f o p s).
Proof. intros Hp [Hs Ho]. split; [done|]. by apply Forall_insert. Qed.

Lemma untouched_open p fl s :
  under root p → untouched root secret b s → untouched root secret b (Mem.open_ p fl s).2.
Proof.
  intros Hp Hs. unfold Mem.open_.
  assert (untouched root secret b (match Mem.find p s with
    | Some _ => s | None => if o_create fl then Mem.put p (Some []) s else s end)) as Hs'.
  { repeat case_match; [done|by apply untouched_put|done]. }
  revert Hs'. generalize (match Mem.find p s with
    | Some _ => s | None => if o_create fl then Mem.put p (Some []) s else s end).
  intros s' [Hf Ho]. case_match; [|by split]. split; [done|]. simpl.
  apply Forall_app. split; [done|]. by constructor.
Qed.

Ltac untouched_file_op Hs := destruct (Mem.file _ _) as [[? ?]|] eqn:Hf; [|done];
  pose proof (untouched_file _ _ _ _ Hf Hs); repeat case_match; simpl;
  auto using untouched_move, untouched_put.

#[export] Instance mem_respects :
  Respects (H := mem_os) (untouched root secret b) (under root) (λ _, True).
Proof.
  split; intros; try done;
    try (by apply untouched_on; intros; simpl; auto using untouched_put, untouched_remove); simpl.
  - case_match; [done|]. by apply untouched_put.
  - split; [by apply untouched_open|done].
  - unfold Mem.fd_metadata_. by repeat case_match.
  - unfold Mem.set_len. untouched_file_op H0.
  - unfold Mem.seek. untouched_file_op H0.
  - unfold Mem.read. untouched_file_op H0.
  - unfold Mem.write. untouched_file_op H0.
Qed.
End untouched.

#[local] Existing Instance dev_profile.

Lemma requests_confined_witness :
  let rs := [OpenRequest "/../../etc/passwd" 66; WriteRequest 0 0 [x01] 0; UnlinkRequest "/.." "etc";
             RenameRequest "/" "a" "/../.." "etc" 0; OpendirRequest "/" 0] in
  let disk := Mem.mkState ((components "/etc/passwd", Some [x2a]) :: Mem.nodes mem_disk) [] in
  Mem.find (components "/etc/passwd")
    (sys (run rs (mkWorld (mkServer mem_root ∅ ∅ 0 no_locks) disk))) = Some (Some [x2a]).
Proof.
  intros rs disk.
  assert (¬ under mem_root (components "/etc/passwd")) as Hout by (intros [? ?]; done).
  pose proof (mem_respects mem_root (components "/etc/passwd") (Some [x2a]) Hout) as Hres.
  apply (requests_confined (H := mem_os) (untouched mem_root (components "/etc/passwd") (Some [x2a]))
    mem_root (λ _, True) "/srv" disk disk rs (mkServer mem_root ∅ ∅ 0 no_locks)); try reflexivity.
  - split; [reflexivity|by constructor].
  - unfold rs. rewrite !Forall_cons. cbn [plain_request].
    split_and!; try done; try (by eexists); by left.
Defined.
