(* ===== verification/DistfsRequests.v ===== *)
(** * Directories, access checks and attributes on the file server *)

From S2P Require Import DistfsLocks DistfsMemOs PathsProps.
From Stdlib Require Import Strings.Byte.
Open Scope Z_scope.
Open Scope prog_scope.

(** ** Listings and their offsets *)

Section listings.
Context `{Os} `{Profile}.

(** Inversion of a computation that returned. *)
Lemma bind_inv {A C} (m : Run A) (k : A → Run C) w c w2 :
  bind m k w = (Done c, w2) → ∃ a w1, m w = (Done a, w1) ∧ k a w1 = (Done c, w2).
Proof. unfold bind. destruct (m w) as [[a|e| |] w1]; [|done..]. eauto. Qed.

(** The entry at place [i] of a plain listing has the offset [base + i]. *)
Definition numbered (base : Z) (l : list Entry) : Prop :=
  ∀ i e, l !! i = Some (Some (EntryInner e)) → d_offset e = base + Z.of_nat i.

Lemma dir_entry_offset offset e w x w' :
  dir_entry offset e w = (Done x, w') →
  x ≠ None ∧ ∀ d, x = Some (EntryInner d) → d_offset d = 1 + offset.
Proof.
  unfold dir_entry. destruct e as [e|e]; [|intros [= <- <-]; by split].
  destruct (e_file_type e) as [ty|err]; [|intros [= <- <-]; by split].
  intros (kind & w1 & _ & Hk)%bind_inv.
  destruct (e_metadata e) as [m|err]; [|injection Hk as <- <-; by split].
  apply bind_inv in Hk as (a & w2 & _ & Hk). injection Hk as <- <-. split; [done|].
  by intros d [= <-].
Qed.

Lemma dir_entries_numbered es : ∀ offset w l w',
  dir_entries offset es w = (Done l, w') → numbered (1 + offset) l ∧ length l = length es.
Proof.
  induction es as [|e es IH]; intros offset w l w' Hl; simpl in Hl.
  { injection Hl as <- _. by split. }
  apply bind_inv in Hl as (x & w1 & Hx & Hl). apply bind_inv in Hl as (xs & w2 & Hxs & Hl).
  injection Hl as <- _. destruct (IH _ _ _ _ Hxs) as [Hnum Hlen]. split; [|simpl; by rewrite Hlen].
  intros [|i] d Hi; simpl in Hi.
  - injection Hi as ->. destruct (dir_entry_offset _ _ _ _ _ Hx) as [_ Hd].
    rewrite (Hd d eq_refl). lia.
  - rewrite (Hnum i d Hi). lia.
Qed.

Lemma shifted_numbered base l : numbered base l → numbered (base + 2) (map shift_entry l).
Proof.
  intros Hl i d Hi. rewrite list_lookup_fmap in Hi.
  destruct (l !! i) as [[[e|e]|]|] eqn:He; simplify_eq/=. rewrite (Hl i e He). lia.
Qed.

(** The listing an [opendir] keeps: its entries are numbered from 1, but for "..". *)
Lemma dir_listing_numbered path w l p w' :
  dir_listing path w = (Done (l, p), w') →
  ∀ i d, l !! i = Some (Some (EntryInner d)) →
    d_offset d = if decide (path ≠ "/" ∧ i = 1%nat) then 1 else 1 + Z.of_nat i.
Proof.
  unfold dir_listing. intros (p' & w1 & _ & Hl)%bind_inv.
  apply bind_inv in Hl as (es & w2 & _ & Hl). apply bind_inv in Hl as (inner & w3 & Hin & Hl).
  apply dir_entries_numbered in Hin as [Hnum _]. case_decide as Hroot.
  - injection Hl as <- _ _. intros i d Hi. rewrite decide_False by tauto. by apply Hnum.
  - apply bind_inv in Hl as (a & w4 & _ & Hl). apply bind_inv in Hl as (up & w5 & _ & Hl).
    apply bind_inv in Hl as (b & w6 & _ & Hl). injection Hl as <- _ _.
    intros [|[|i]] d Hi; simpl in Hi.
    + injection Hi as <-. by rewrite decide_False by naive_solver.
    + injection Hi as <-. by rewrite decide_True.
    + rewrite decide_False by naive_solver. apply shifted_numbered in Hnum.
      rewrite (Hnum i d Hi). lia.
Qed.

End listings.

(** C27. Reading a directory in pieces.  After an [opendir], [readdir] at an offset answers
    the rest of one fixed listing; to go on at the offset of an entry gives exactly what
    comes after it, nothing twice and nothing missed.  The one exception is "..": to
    go on at its offset gives ".." again. *)
Theorem readdir_resumes `{Os} `{Profile} path flags w a w' :
  opendir_impl path flags w = (Done a, w') →
  ∃ l, (∀ offset, readdir_impl (h_fh a) offset w' = (Done (drop (N.to_nat offset) l), w')) ∧
    ∀ i d, l !! i = Some (Some (EntryInner d)) →
      readdir_impl (h_fh a) (Z.to_N (d_offset d)) w' =
        (Done (if decide (path ≠ "/" ∧ i = 1%nat) then drop 1 l else drop (S i) l), w').
Proof.
  unfold opendir_impl. intros (h & w1 & _ & Ha)%bind_inv.
  apply bind_inv in Ha as ([l p] & w2 & Hl & Ha). unfold bind, gets, ret in Ha. simpl in Ha.
  injection Ha as <- <-. simpl. exists l.
  assert (∀ offset, readdir_impl h offset
      (mkWorld (with_dh (<[h := (l, p)]> (dh (server w2))) (server w2)) (sys w2)) =
    (Done (drop (N.to_nat offset) l),
     mkWorld (with_dh (<[h := (l, p)]> (dh (server w2))) (server w2)) (sys w2))) as Hread.
  { intros offset. unfold readdir_impl, bind, gets. simpl. by rewrite lookup_insert_eq. }
  split; [done|]. intros i d Hi. rewrite Hread, (dir_listing_numbered _ _ _ _ _ Hl i d Hi).
  case_decide; [done|]. do 3 f_equal. lia.
Qed.

#[local] Existing Instance dev_profile.

Lemma readdir_resumes_witness :
  let disk := Mem.mkState [(components "/srv", None); (components "/srv/d", None);
    (components "/srv/d/x", Some []); (components "/srv/d/y", Some [])] [] in
  let w := mkWorld (mkServer mem_root ∅ ∅ 0 no_locks) disk in
  let w' := (opendir_impl "/d" 0 w).2 in
  ∃ l, length l = 4%nat ∧ (∃ d, l !! 2%nat = Some (Some (EntryInner d)) ∧ d_name d = "x" ∧
    readdir_impl 0 (Z.to_N (d_offset d)) w' = (Done (drop 3 l), w')) ∧
  (∃ d, l !! 1%nat = Some (Some (EntryInner d)) ∧ d_name d = ".." ∧
    readdir_impl 0 (Z.to_N (d_offset d)) w' = (Done (drop 1 l), w')).
Proof.
  intros disk w w'.
  destruct (opendir_impl "/d" 0 w) as [o w2] eqn:Ho. 
  assert (o = Done (mkHandleOk 0 0)) as -> by (change o with (o, w2).1; rewrite <- Ho; reflexivity).
  destruct (readdir_resumes "/d" 0 w _ w2 Ho) as (l & Hall & Hl).
  simpl in Hall, Hl. assert (Done l = (readdir_impl 0 0 w2).1) as Hlist by (by rewrite Hall).
  assert (w2 = (opendir_impl "/d" 0 w).2) as Hw2 by (by rewrite Ho).
  exists l. rewrite Hw2 in Hlist. vm_compute in Hlist. injection Hlist as ->.
  change w' with w2. split; [done|]. split.
  - eexists. split; [reflexivity|]. split; [reflexivity|]. exact (Hl 2%nat _ eq_refl).
  - eexists. split; [reflexivity|]. split; [reflexivity|]. exact (Hl 1%nat _ eq_refl).
Defined.

(** ** Access checks *)

(** The right of bit [b] survives the shift by [m] when [m <= b]. *)
Lemma shiftr_bit b m : 0 ≤ b → 0 ≤ m → negb (Z.shiftr (2 ^ b) m =? 0) = (m <=? b).
Proof.
  intros Hb Hm. rewrite Z.shiftr_div_pow2 by done.
  destruct (Z.leb_spec m b).
  - rewrite <- Z.pow_sub_r by lia. pose proof (Z.pow_pos_nonneg 2 (b - m)).
    destruct (Z.eqb_spec (2 ^ (b - m)) 0); [lia|done].
  - rewrite Z.div_small; [done|]. split; [lia|]. apply Z.pow_lt_mono_r; lia.
Qed.

Lemma low_bits_bound mask : 0 ≤ Z.land mask 31 < 32.
Proof. change 31 with (Z.ones 5). rewrite Z.land_ones by lia. apply Z.mod_pos_bound. lia. Qed.

Lemma to_i32_cases mask :
  0 ≤ mask < 2 ^ 32 →
  to_i32 mask = if mask <? 2 ^ 31 then mask else mask - 2 ^ 32.
Proof.
  intros Hm. unfold to_i32. destruct (Z.ltb_spec mask (2 ^ 31)).
  - rewrite Z.mod_small; lia.
  - rewrite <- (Z.mod_unique (mask + 2 ^ 31) (2 ^ 32) 1 (mask - 2 ^ 31)); lia.
Qed.

(** The cast to [i32] keeps the bits that count, and is negative from [2 ^ 31] on. *)
Lemma to_i32_mask mask :
  0 ≤ mask < 2 ^ 32 →
  Z.land (to_i32 mask) 31 = Z.land mask 31 ∧
  (0 <=? to_i32 mask) && (to_i32 mask <? 32) = (mask <? 32).
Proof.
  intros Hm. rewrite to_i32_cases by done. destruct (Z.ltb_spec mask (2 ^ 31)).
  - split; [done|]. by destruct (Z.leb_spec 0 mask); [|lia].
  - split.
    + change 31 with (Z.ones 5). rewrite !Z.land_ones by lia.
      rewrite <- (Z.mod_add (mask - 2 ^ 32) (2 ^ 27) (2 ^ 5)) by lia. f_equal. lia.
    + destruct (Z.leb_spec 0 (mask - 2 ^ 32)), (Z.ltb_spec mask 32); simpl; lia || done.
Qed.

Lemma shifted_bit `{Os} `{Profile} b mask w :
  0 ≤ b → 0 ≤ mask < 2 ^ 32 →
  shifted (2 ^ b) (to_i32 mask) w =
    if overflow_checks && (32 <=? mask) then (Panic, w) else (Done (Z.land mask 31 <=? b), w).
Proof.
  intros Hb Hm. destruct (to_i32_mask mask Hm) as [Hland Hrange].
  pose proof (low_bits_bound mask). unfold shifted. rewrite Hrange, Hland.
  destruct (Z.ltb_spec mask 32), (Z.leb_spec 32 mask); try lia.
  - rewrite andb_false_r. unfold ret. rewrite to_i32_cases by done.
    destruct (Z.ltb_spec mask (2 ^ 31)); [|lia]. rewrite shiftr_bit by lia.
    change 31 with (Z.ones 5). by rewrite Z.land_ones, Z.mod_small by lia.
  - rewrite andb_true_r. destruct overflow_checks; [done|]. unfold ret. by rewrite shiftr_bit by lia.
Qed.

Lemma eqb_leb_0 m : 0 ≤ m → (m =? 0) = (m <=? 0).
Proof. intros Hm. destruct (Z.leb_spec m 0), (Z.eqb_spec m 0); done || lia. Qed.

(** C39. The access check asks for the wrong rights.  For every mask of a request, with
    [m] its low five bits, the system is asked for execution only if [m] is 0, for reading
    if it is at most 2, for writing if it is at most 1; a mask of 32 or more panics where
    overflow is checked.  None of the eight masks of the three rights asks for the rights
    it names: a check for reading, 4, asks for nothing, and the check whether the file
    exists, 0, asks for all three. *)
Theorem access_mask `{Os} `{Profile} path mask w :
  0 ≤ mask < 2 ^ 32 →
  let m := Z.land mask 31 in
  let asked := mkAccessMask (m =? 0) (m <=? 2) (m <=? 1) in
  let named := mkAccessMask (Z.testbit mask 0) (Z.testbit mask 2) (Z.testbit mask 1) in
  access_impl path mask w =
    (if overflow_checks && (32 <=? mask) then (Panic, w)
     else call_nix (os_access (real_path (root_path (server w)) (components path)) asked) w) ∧
  (mask < 8 → asked ≠ named).
Proof.
  intros Hm m asked named. split.
  - unfold access_impl, bind. change X_OK with (2 ^ 0). change R_OK with (2 ^ 2).
    change W_OK with (2 ^ 1).
    rewrite shifted_bit by lia. destruct (overflow_checks && _)%bool eqn:Hover; [done|].
    do 2 (rewrite shifted_bit, Hover by lia).
    pose proof (low_bits_bound mask). unfold asked. subst m.
    rewrite (eqb_leb_0 (Z.land mask 31)) by lia. done.
  - intros H8. assert (mask ∈ seqZ 0 8) as Hin by (apply elem_of_seqZ; lia).
    unfold asked, named, m. clear -Hin. revert mask Hin. apply Forall_forall.
    by repeat constructor.
Qed.

Lemma access_mask_witness :
  access_impl "/a" 4 (mem_start mem_disk) =
    call_nix (os_access (components "/srv/a") (mkAccessMask false false false)) (mem_start mem_disk) ∧
  (access_impl "/a" (2 ^ 32 - 4) (mem_start mem_disk)).1 = Panic.
Proof.
  split; [exact (proj1 (access_mask "/a" 4 (mem_start mem_disk) ltac:(lia)))|].
  by rewrite (proj1 (access_mask "/a" (2 ^ 32 - 4) (mem_start mem_disk) ltac:(lia))).
Defined.

(** ** Attributes of an open file *)

(** C37. Attributes are set at the wrong path.  The path kept with an open file is below
    the root already, and is mapped below the root again: for a file [names] of a root
    that is not "/", the attributes go to [root/root/names].  The answer, though, is of
    the open file. *)
Theorem set_attr_by_handle_misses `{Os} `{Profile} path h attr f (p : PathBuf) names w :
  locks (server w) = no_locks → normalized (root_path (server w)) →
  fh (server w) !! h = Some (f, p) → p = root_path (server w) ++ map Normal names →
  set_attr_impl path (Some h) (Some attr) w =
    (let root := root_path (server w) in
     set_attr_by_path (root ++ tail root ++ map Normal names) attr ;;
     let! m := call (fd_metadata f) in to_attr m) w.
Proof.
  intros Hl Hroot Hf Hp.
  trans ((let! f := with_handle h in
          let! p := real f.2 in
          set_attr_by_path p attr ;;
          let! m := call (fd_metadata f.1) in to_attr m) w); [by destruct path|].
  assert (with_handle h w = (Done (f, p), w)) as Hh
    by (rewrite with_handle_unlocked by done; by rewrite Hf).
  rewrite (bind_done _ _ _ _ _ Hh).
  rewrite (bind_done (real p) _ w (real_path (root_path (server w)) p) w eq_refl).
  cbn [fst]. by rewrite Hp, real_path_twice.
Qed.

Lemma set_attr_by_handle_misses_witness :
  let w := (serve (OpenRequest "/a" 2) (mem_start mem_disk)).2 in
  let touch := mkSettableAttr (Some 0x1A4) None None None None None None None in
  (set_attr_impl None (Some 0%N) (Some touch) w).1 = Fail 2 ∧
  components "/srv" ++ tail (components "/srv") ++ [Normal "a"] = components "/srv/srv/a".
Proof.
  intros w touch. split; [|reflexivity].
  rewrite (set_attr_by_handle_misses None 0 touch (0%nat : @fd mem_os) (components "/srv/a") ["a"] w);
    [vm_compute; reflexivity|reflexivity|by exists ["srv"]|reflexivity..].
Defined.
