(* ===== verification/DistfsClient.v ===== *)
(** * The client of [distfs]

    Models [src/distfs/src/client.rs]: the operations the kernel asks of the mounted file
    system, each a request to the server.  Names are UTF-8, so [to_string_lossy] is the
    identity; the lease of a connection from [mux::Pool] is part of the [call]. *)

From S2P Require Export FsProto.
Open Scope Z_scope.
Open Scope prog_scope.

(** ** Replies to the kernel *)

Record ReplyAttr := mkReplyAttr { ra_ttl : N; ra_attr : FileAttr }.
Record ReplyOpen := mkReplyOpen { ro_fh : N; ro_flags : Z }.
Record ReplyCreated := mkReplyCreated {
  rc_ttl : N; rc_attr : FileAttr; rc_generation : N; rc_fh : N; rc_flags : Z
}.
Record DirectoryEntryPlus := mkDirectoryEntryPlus {
  de_attr : FileAttr; de_kind : Fuse3FileType; de_name : string; de_offset : Z;
  de_attr_ttl : N; de_entry_ttl : N
}.

Definition EIO : ConvError := ConvErrno 5.

(** [tonic::Status], the error of a remote call: the client does not look at it. *)
Inductive Status := TonicStatus.

(** ** The operations *)

Section client.
Context {S : Type} (call : Request → M S Status Response).

Definition Fuse (A : Type) : Type := M S ConvError A.

(** [.await.map_err(|_| EIO)?] *)
Definition rpc (r : Request) : Fuse Response := λ s,
  match call r s with
  | (Done a, s) => (Done a, s)
  | (Fail _, s) => (Fail EIO, s)
  | (Panic, s) => (Panic, s)
  | (Blocked, s) => (Blocked, s)
  end.

(** [result.ok_or(EIO)?], and the reply or the server's error. *)
Definition result {A} (r : oneof A) : Fuse A :=
  let! r := or_fail EIO r in
  match r with inl a => ret a | inr e => fail (ConvErrno e) end.

(** The response type of each method is the one its service declares. *)
Definition attr_result (a : Response) : oneof AttrOk :=
  match a with AttrResponse r => r | _ => None end.
Definition unit_result (a : Response) : oneof unit :=
  match a with UnitResponse r => r | _ => None end.
Definition handle_result (a : Response) : oneof HandleOk :=
  match a with HandleResponse r => r | _ => None end.
Definition readdir_result (a : Response) : oneof (list Entry) :=
  match a with ReaddirResponse r => r | _ => None end.
Definition read_result (a : Response) : oneof bytes :=
  match a with ReadResponse r => r | _ => None end.
Definition write_result (a : Response) : oneof Z :=
  match a with WriteResponse r => r | _ => None end.
Definition create_result (a : Response) : oneof CreateOk :=
  match a with CreateResponse r => r | _ => None end.
Definition lseek_result (a : Response) : oneof Z :=
  match a with LseekResponse r => r | _ => None end.
Definition readlink_result (a : Response) : oneof string :=
  match a with ReadlinkResponse r => r | _ => None end.
Definition copied_result (a : Response) : oneof Z :=
  match a with CopyFileRangeResponse r => r | _ => None end.

(** [ReplyEntry] and [ReplyAttr] hold the same. *)
Definition reply_attr (a : Response) : Fuse ReplyAttr :=
  let! ok := result (attr_result a) in
  let! attr := or_fail EIO (attr ok) in
  let! attr := attr_grpc_to_fuse3 attr in
  ret (mkReplyAttr (ttl_ms ok) attr).

Definition lookup (parent name : string) : Fuse ReplyAttr :=
  let! a := rpc (LookupRequest parent name) in reply_attr a.

Definition getattr (path : option string) (fh : option N) (flags : Z) : Fuse ReplyAttr :=
  let! a := rpc (GetAttrRequest path fh flags) in reply_attr a.

Definition setattr (path : option string) (fh : option N) (set_attr : SetAttr) : Fuse ReplyAttr :=
  let! a := rpc (SetAttrRequest path fh (Some (set_attr_fuse3_to_grpc set_attr))) in reply_attr a.

Definition mkdir (parent name : string) (mode umask : Z) : Fuse ReplyAttr :=
  let! a := rpc (MkdirRequest parent name mode umask) in reply_attr a.

Definition unlink (parent name : string) : Fuse unit :=
  let! a := rpc (UnlinkRequest parent name) in result (unit_result a).

(** [CString::new] refuses a text with a zero byte. *)
Definition c_string (path : string) : option string :=
  match String.index 0 (String (Ascii.ascii_of_nat 0) "") path with
  | Some _ => None
  | None => Some path
  end.

Definition readlink (path : string) : Fuse string :=
  let! a := rpc (ReadlinkRequest path) in
  let! path := result (readlink_result a) in
  or_fail EIO (c_string path).

Definition symlink (parent name link_path : string) : Fuse ReplyAttr :=
  let! a := rpc (SymlinkRequest parent name link_path) in reply_attr a.

Definition rmdir (parent name : string) : Fuse unit :=
  let! a := rpc (RmdirRequest parent name) in result (unit_result a).

Definition rename2 (origin_parent origin_name parent name : string) (flags : Z) : Fuse unit :=
  let! a := rpc (RenameRequest origin_parent origin_name parent name flags) in
  result (unit_result a).

Definition rename (origin_parent origin_name parent name : string) : Fuse unit :=
  rename2 origin_parent origin_name parent name 0.

Definition reply_open (a : Response) : Fuse ReplyOpen :=
  let! h := result (handle_result a) in ret (mkReplyOpen (h_fh h) (h_flag h)).

Definition open (path : string) (flags : Z) : Fuse ReplyOpen :=
  let! a := rpc (OpenRequest path flags) in reply_open a.

Definition read (fh : N) (offset : Z) (size : N) : Fuse bytes :=
  let! a := rpc (ReadRequest fh offset size) in result (read_result a).

Definition write (fh : N) (offset : Z) (data : bytes) (flags : Z) : Fuse Z :=
  let! a := rpc (WriteRequest fh offset data flags) in result (write_result a).

Definition release (fh : N) (flags : Z) (lock_owner : N) (flush : bool) : Fuse unit :=
  let! a := rpc (ReleaseRequest fh flags lock_owner flush) in result (unit_result a).

Definition fsync (fh : N) (datasync : bool) : Fuse unit :=
  let! a := rpc (FsyncRequest fh datasync) in result (unit_result a).

Definition flush (fh lock_owner : N) : Fuse unit :=
  let! a := rpc (FlushRequest fh lock_owner) in result (unit_result a).

Definition access (path : string) (mask : Z) : Fuse unit :=
  let! a := rpc (AccessRequest path mask) in result (unit_result a).

Definition create (parent name : string) (mode flags : Z) : Fuse ReplyCreated :=
  let! a := rpc (CreateRequest parent name mode flags) in
  let! ok := result (create_result a) in
  let! attr := or_fail EIO (c_attr ok) in
  let! attr := attr_grpc_to_fuse3 attr in
  ret (mkReplyCreated (c_ttl_ms ok) attr (c_generation ok) (c_fh ok) (c_flags ok)).

Definition fallocate (fh : N) (offset length mode : Z) : Fuse unit :=
  let! a := rpc (FallocateRequest fh offset length mode) in result (unit_result a).

Definition opendir (path : string) (flags : Z) : Fuse ReplyOpen :=
  let! a := rpc (OpendirRequest path flags) in reply_open a.

Definition releasedir (path : string) (fh : N) (flags : Z) : Fuse unit :=
  let! a := rpc (ReleasedirRequest fh flags path) in result (unit_result a).

(** One entry of a listing: its error is the entry's, not the reply's. *)
Definition plus_entry (e : Entry) : Fuse DirectoryEntryPlus :=
  let! inner := or_fail EIO e in
  match inner with
  | ErrnoInner e => fail (ConvErrno e)
  | EntryInner e =>
      let! attr := or_fail EIO (d_attr e) in
      let! attr := attr_grpc_to_fuse3 attr in
      ret (mkDirectoryEntryPlus attr (filetype_grpc_to_fuse3 (filetype_of_i32 (d_kind e)))
             (d_name e) (d_offset e) (attr_ttl_ms e) (entry_ttl_ms e))
  end.

Fixpoint plus_entries (es : list Entry) : Fuse (list (DirectoryEntryPlus + ConvError)) :=
  match es with
  | [] => ret []
  | e :: es =>
      let! x := attempt (plus_entry e) in
      let! xs := plus_entries es in
      ret (x :: xs)
  end.

Definition readdirplus (parent : string) (fh offset lock_owner : N) :
    Fuse (list (DirectoryEntryPlus + ConvError)) :=
  let! a := rpc (ReaddirRequest parent fh offset lock_owner) in
  let! es := result (readdir_result a) in
  plus_entries es.

Definition lseek (fh : N) (offset whence : Z) : Fuse Z :=
  let! a := rpc (LseekRequest fh offset whence) in result (lseek_result a).

Definition copy_file_range (fh_in : N) (offset_in : Z) (fh_out : N) (offset_out length flags : Z) :
    Fuse Z :=
  let! a := rpc (CopyFileRangeRequest fh_in offset_in fh_out offset_out length flags) in
  result (copied_result a).

End client.
