(* ===== verification/DistfsEndToEnd.v ===== *)
(** * From the client's kernel to the server's file system

    The client and the server put together by a network that delivers. *)

From S2P Require Import DistfsServer DistfsClient DistfsMemOs DistfsLocks DistfsFiles.
From Stdlib Require Import Strings.Byte.
Open Scope Z_scope.
Open Scope prog_scope.

Section relay.
Context `{Os} `{Profile}.

(** A network without losses: a request whose task panics is reset, with a status. *)
Definition network (r : Request) : M World Status Response := λ w,
  match serve r w with
  | (Done a, w) => (Done a, w)
  | (Fail e, w) => match e with end
  | (Panic, w) => (Fail TonicStatus, w)
  | (Blocked, w) => (Blocked, w)
  end.

(** The end of [m] on the server, at the client: [conv] of its value, its errno, and [EIO]
    for a panic. *)
Definition relayed {A B} (conv : A → M World ConvError B) (m : Run A) : M World ConvError B := λ w,
  match m w with
  | (Done a, w) => conv a w
  | (Fail e, w) => (Fail (ConvErrno e), w)
  | (Panic, w) => (Fail EIO, w)
  | (Blocked, w) => (Blocked, w)
  end.

Definition to_reply (a : Attr) : M World ConvError ReplyAttr :=
  let! a := attr_grpc_to_fuse3 a in ret (mkReplyAttr 1000 a).
Definition to_open (h : HandleOk) : M World ConvError ReplyOpen :=
  ret (mkReplyOpen (h_fh h) (h_flag h)).
Definition to_created (c : CreateOk) : M World ConvError ReplyCreated :=
  let! a := or_fail EIO (c_attr c) in
  let! a := attr_grpc_to_fuse3 a in
  ret (mkReplyCreated (c_ttl_ms c) a (c_generation c) (c_fh c) (c_flags c)).
Definition to_link (path : string) : M World ConvError string := or_fail EIO (c_string path).

(** What the client does with a response of the right type. *)
Lemma rpc_respond {A C B} (wrap : oneof C → Response) (f : A → C) (m : Run A) r
    (k : Response → M World ConvError B) (conv : A → M World ConvError B) w :
  serve r = respond wrap f m →
  (∀ a w', k (wrap (Some (inl (f a)))) w' = conv a w') →
  (∀ e w', k (wrap (Some (inr e))) w' = (Fail (ConvErrno e), w')) →
  (let! a := rpc network r in k a) w = relayed conv m w.
Proof.
  intros Hr Hok Herr. unfold bind, rpc, network, relayed. rewrite Hr. unfold respond.
  by destruct (m w) as [[a|e| |] w'].
Qed.

End relay.

(** C22. The client relays.  Over a network that delivers, every operation of the mounted
    file system ends as the server's handler of it ends: with its value, converted for the
    kernel; with its errno; with [EIO] if it panics; and waits if it waits.  *)
Theorem client_relays `{Os} `{Profile} w :
  (∀ p n, DistfsClient.lookup network p n w = relayed to_reply (lookup_impl p n) w) ∧
  (∀ p h fl, getattr network p h fl w = relayed to_reply (get_attr_impl p h) w) ∧
  (∀ p h a, setattr network p h a w =
     relayed to_reply (set_attr_impl p h (Some (set_attr_fuse3_to_grpc a))) w) ∧
  (∀ p n m u, mkdir network p n m u w = relayed to_reply (mkdir_impl p n m) w) ∧
  (∀ p n, unlink network p n w = relayed ret (unlink_impl p n) w) ∧
  (∀ p, readlink network p w = relayed to_link (readlink_impl p) w) ∧
  (∀ p n l, symlink network p n l w = relayed to_reply (symlink_impl p n l) w) ∧
  (∀ p n, rmdir network p n w = relayed ret (rmdir_impl p n) w) ∧
  (∀ p n q m fl, rename2 network p n q m fl w = relayed ret (rename_impl p n q m) w) ∧
  (∀ p fl, open network p fl w = relayed to_open (open_impl p fl) w) ∧
  (∀ h o n, read network h o n w = relayed ret (read_impl h o n) w) ∧
  (∀ h o d fl, write network h o d fl w = relayed ret (write_impl h o d) w) ∧
  (∀ h fl l b, release network h fl l b w = relayed ret (release_impl h b) w) ∧
  (∀ h d, fsync network h d w = relayed ret (fsync_impl h) w) ∧
  (∀ h l, flush network h l w = relayed ret (flush_impl h) w) ∧
  (∀ p m, access network p m w = relayed ret (access_impl p m) w) ∧
  (∀ p n m fl, create network p n m fl w = relayed to_created (create_impl p n m fl) w) ∧
  (∀ h o n m, fallocate network h o n m w = relayed ret (fallocate_impl h m o n) w) ∧
  (∀ p fl, opendir network p fl w = relayed to_open (opendir_impl p fl) w) ∧
  (∀ p h fl, releasedir network p h fl w = relayed ret (releasedir_impl h) w) ∧
  (∀ p h o l, readdirplus network p h o l w = relayed plus_entries (readdir_impl h o) w) ∧
  (∀ h o wh, lseek network h o wh w = relayed ret (lseek_impl h wh o) w) ∧
  (∀ h o h' o' n fl, copy_file_range network h o h' o' n fl w =
     relayed ret (copy_file_range_impl h h' o o' n) w).
Proof. split_and!; intros; by eapply rpc_respond. Qed.
