(* ===== verification/IpSd.v ===== *)
(** * Service discovery over UDP

    Models [src/ip-sd/src/main.rs]: one loop over the datagrams of a socket, one buffer
    for all of them, and the set of the addresses registered. *)

From S2P Require Export Prelude.

(** [Request] and [Response] of the program. *)
Inductive Request := Query | Register (address : string).

(** MessagePack.  The set is written in the order of its iteration, which the source
    leaves open. *)
Class RmpSerde := {
  from_slice : bytes → option Request;
  to_vec : list string → bytes
}.

(** [let mut buf = [0u8; 2048]] and [addresses] *)
Record State := mkState { buf : bytes; addresses : gset string }.
Definition start : State := mkState (replicate 2048 Byte.x00) ∅.

(** What the socket gives to a turn of the loop: a datagram, or an error. *)
Inductive Event := Datagram (data : bytes) (sender : SocketAddr) | RecvError.

(** What a turn sends. *)
Inductive Reply := Send (data : bytes) (receiver : SocketAddr) | NoReply.

(** [recv_from] writes over the start of the buffer; what does not fit is lost. *)
Definition recv_from (data b : bytes) : bytes :=
  take (length b) data ++ drop (length data) b.

(** A turn of the loop.  The whole buffer is decoded, however long the datagram was;
    an error of [send_to] is logged only. *)
Inductive turn `{RmpSerde} : State → Event → Reply → State → Prop :=
| turn_query s d a order :
    from_slice (recv_from d (buf s)) = Some Query →
    order ≡ₚ elements (addresses s) →
    turn s (Datagram d a) (Send (to_vec order) a) (mkState (recv_from d (buf s)) (addresses s))
| turn_register s d a address :
    from_slice (recv_from d (buf s)) = Some (Register address) →
    turn s (Datagram d a) NoReply
      (mkState (recv_from d (buf s)) ({[address]} ∪ addresses s))
| turn_refused s d a :
    from_slice (recv_from d (buf s)) = None →
    turn s (Datagram d a) NoReply (mkState (recv_from d (buf s)) (addresses s))
| turn_error s : turn s RecvError NoReply s.

(** The loop: its events in order, each with what it sent. *)
Inductive loop `{RmpSerde} : State → list (Event * Reply) → State → Prop :=
| loop_nil s : loop s [] s
| loop_snoc s es s1 e r s2 : loop s es s1 → turn s1 e r s2 → loop s (es ++ [(e, r)]) s2.
