(* ===== verification/IpSdProps.v ===== *)
(** * The registry answers with what was registered *)

From S2P Require Import IpSd.
From Stdlib Require Import Strings.Byte.

(** ** Laws of the encoding *)

(** A message is decoded from the start of the bytes given, whatever follows it; the
    addresses of a response can be read back. *)
Class RmpSerdeLaws `{RmpSerde} := {
  encode_request : Request → bytes;
  decode_response : bytes → option (list string);
  from_slice_encode r rest :
    (length (encode_request r) ≤ 2048)%nat → from_slice (encode_request r ++ rest) = Some r;
  decode_to_vec l : decode_response (to_vec l) = Some l
}.

(** The addresses that the messages of [es] registered. *)
Definition registered `{RmpSerdeLaws} (es : list (Event * Reply)) (address : string) : Prop :=
  ∃ a r, (Datagram (encode_request (Register address)) a, r) ∈ es.

(** Events of whole messages, short enough for the buffer. *)
Definition whole `{RmpSerdeLaws} (e : Event) : Prop :=
  match e with
  | Datagram d _ => (∃ r, d = encode_request r) ∧ length d ≤ 2048
  | RecvError => True
  end.

Section registry.
Context `{RmpSerdeLaws}.

Lemma length_recv_from d b : length (recv_from d b) = length b.
Proof. unfold recv_from. rewrite length_app, length_take, length_drop. lia. Qed.

Lemma from_slice_recv r b :
  length (encode_request r) ≤ length b → length b = 2048 → from_slice (recv_from (encode_request r) b) = Some r.
Proof.
  intros Hlen Hb. unfold recv_from. rewrite take_ge by done.
  apply from_slice_encode. lia.
Qed.

(** One turn on whole messages. *)
Lemma turn_buf s e r s' : turn s e r s' → length (buf s') = length (buf s).
Proof. by destruct 1; simpl; rewrite ?length_recv_from. Qed.

Lemma encode_inj r r' : length (encode_request r) ≤ 2048 → encode_request r = encode_request r' → r = r'.
Proof.
  intros Hlen He. pose proof (from_slice_encode r [] Hlen) as Hr.
  rewrite He, from_slice_encode in Hr by (by rewrite <- He). by injection Hr.
Qed.

Lemma turn_addresses s e r s' address :
  turn s e r s' → whole e → length (buf s) = 2048 →
  address ∈ addresses s' ↔
    address ∈ addresses s ∨ ∃ a, e = Datagram (encode_request (Register address)) a.
Proof.
  intros Ht He Hb.
  destruct Ht as [s d a order Hd _|s d a address' Hd|s d a Hd|s]; simpl in *;
    [destruct He as [[q ->] Hlen]; rewrite from_slice_recv in Hd by lia; simplify_eq..|naive_solver].
  - split; [by left|]. intros [|[a' [= Hq _]]]; [done|]. by apply encode_inj in Hq; [|done].
  - rewrite elem_of_union, elem_of_singleton. split; [naive_solver|].
    intros [|[a' [= Hq _]]]; [by right|]. apply encode_inj in Hq; [|done]. simplify_eq. by left.
Qed.

Lemma loop_registers es s :
  loop start es s → Forall (λ x, whole x.1) es →
  length (buf s) = 2048 ∧ ∀ address, address ∈ addresses s ↔ registered es address.
Proof.
  remember start as s0 eqn:Hs0. induction 1 as [s|s es s1 e r s2 Hl IH Ht]; intros Hes.
  - subst s. split; [by vm_compute|]. intros address. unfold registered. simpl. set_solver.
  - apply Forall_app in Hes as [Hes He]. rewrite Forall_singleton in He. destruct (IH Hs0 Hes) as [Hb Ha].
    split; [by rewrite (turn_buf _ _ _ _ Ht)|]. intros address.
    rewrite (turn_addresses _ _ _ _ address Ht He Hb), Ha. unfold registered. simpl.
    setoid_rewrite elem_of_app. setoid_rewrite list_elem_of_singleton. naive_solver.
Qed.

End registry.

(** C24. The registry.  As long as datagrams are whole messages that fit the buffer, a
    query is answered, to its sender, with exactly the addresses registered before it,
    each once; every query is, and nothing else is answered. *)
Theorem registry_answers `{RmpSerdeLaws} es s e r s' :
  loop start es s → turn s e r s' → Forall (λ x, whole x.1) es → whole e →
  (∀ a, e = Datagram (encode_request Query) a →
     ∃ data l, r = Send data a ∧ decode_response data = Some l ∧ NoDup l ∧
       ∀ address, address ∈ l ↔ registered es address) ∧
  (∀ data a, r = Send data a → e = Datagram (encode_request Query) a).
Proof.
  intros Hl Ht Hes He. destruct (loop_registers es s Hl Hes) as [Hb Ha].
  destruct Ht as [s d a order Hd Ho|s d a address Hd|s d a Hd|s]; simpl in *;
    [destruct He as [[q ->] Hlen]; rewrite from_slice_recv in Hd by lia; simplify_eq..|];
    (split; [|naive_solver]); intros a' Hq; simplify_eq.
  - exists (to_vec order), order. split_and!; [done|apply decode_to_vec| |].
    + rewrite Ho. apply NoDup_elements.
    + intros address. by rewrite Ho, elem_of_elements, Ha.
  - by apply encode_inj in Hq; [|done].
Qed.

(** ** MessagePack, as far as it is used *)

(** [Query] is a string and [Register(s)] a map of one entry; strings carry their length in
    two bytes. *)
Module Pack.

Definition byte (n : nat) : Byte.byte := default x00 (Byte.of_N (N.of_nat n)).

Definition str (s : string) : bytes :=
  let b := String.list_byte_of_string s in
  xda :: byte (length b / 256) :: byte (length b mod 256) :: b.

Definition un_str (b : bytes) : option (string * bytes) :=
  match b with
  | xda :: hi :: lo :: b =>
      let n := N.to_nat (Byte.to_N hi) * 256 + N.to_nat (Byte.to_N lo) in
      if decide (length b < n) then None
      else Some (String.string_of_list_byte (take n b), drop n b)
  | _ => None
  end.

Definition decode (b : bytes) : option Request :=
  match b with
  | x81 :: b =>
      '(variant, b) ← un_str b; '(s, _) ← un_str b;
      if decide (variant = "Register") then Some (Register s) else None
  | _ => '(variant, _) ← un_str b; if decide (variant = "Query") then Some Query else None
  end.

Definition encode (r : Request) : bytes :=
  match r with
  | Query => str "Query"
  | Register s => x81 :: str "Register" ++ str s
  end.

Lemma to_byte n : n < 256 → N.to_nat (Byte.to_N (byte n)) = n.
Proof.
  intros Hn. unfold byte. destruct (Byte.of_N (N.of_nat n)) as [b|] eqn:Hb; simpl.
  - apply Byte.to_of_N in Hb. lia.
  - apply Byte.of_N_None_iff in Hb. lia.
Qed.

Lemma un_str_str s rest : length (str s) ≤ 2048 → un_str (str s ++ rest) = Some (s, rest).
Proof.
  unfold str. set (b := String.list_byte_of_string s). intros Hlen.
  cbn [app un_str]. cbn [length] in Hlen.
  pose proof (Nat.div_mod_eq (length b) 256). pose proof (Nat.mod_upper_bound (length b) 256).
  rewrite !to_byte by lia.
  replace (length b / 256 * 256 + length b mod 256) with (length b) by lia.
  rewrite decide_False by (rewrite length_app; lia).
  rewrite take_app_length, drop_app_length. unfold b.
  by rewrite String.string_of_list_byte_of_string.
Qed.

Lemma decode_encode r rest : length (encode r) ≤ 2048 → decode (encode r ++ rest) = Some r.
Proof.
  destruct r as [|s]; intros Hlen; [done|].
  change (encode (Register s) ++ rest) with (x81 :: (str "Register" ++ str s) ++ rest).
  assert (length (encode (Register s)) = S (length (str "Register") + length (str s))) as Heq
    by (simpl; lia).
  unfold decode. cbv beta iota. rewrite <- app_assoc, un_str_str by lia.
  cbn [mbind option_bind]. by rewrite un_str_str by lia.
Qed.

End Pack.

#[local] Instance pack : RmpSerde := {|
  from_slice := Pack.decode;
  to_vec l := bytes_of_pos (encode l)
|}.

#[local] Instance pack_laws : RmpSerdeLaws (H := pack).
Proof.
  refine {| encode_request := Pack.encode; decode_response b := decode (pos_of_bytes b) |}.
  - apply Pack.decode_encode.
  - intros l. simpl. rewrite pos_of_bytes_of. apply decode_encode.
Defined.

(** ** Runs *)

Lemma registry_answers_witness :
  let host := V4 1 1 in
  let d r := Datagram (Pack.encode r) host in
  ∃ s s' data l, turn s (d Query) (Send data host) s' ∧ decode_response data = Some l ∧
    (∀ address, address ∈ l ↔ registered [(d (Register "b"), NoReply); (RecvError, NoReply)] address).
Proof.
  intros host d.
  set (b1 := recv_from (Pack.encode (Register "b")) (buf start)).
  set (s1 := mkState b1 ({["b"]} ∪ addresses start)).
  assert (turn start (d (Register "b")) NoReply s1) as Ht1
    by (apply turn_register; vm_compute; reflexivity).
  assert (turn s1 (d Query) (Send (to_vec ["b"]) host)
            (mkState (recv_from (Pack.encode Query) b1) (addresses s1))) as Ht2.
  { apply (turn_query s1); [vm_compute; reflexivity|].
    assert (addresses s1 = {["b"]}) as -> by set_solver. by rewrite elements_singleton. }
  assert (loop start [(d (Register "b"), NoReply); (RecvError, NoReply)] s1) as Hl.
  { apply (loop_snoc _ [_] s1); [|apply turn_error].
    apply (loop_snoc _ [] start); [apply loop_nil|done]. }
  destruct (registry_answers _ _ _ _ _ Hl Ht2) as [Hq _].
  - repeat constructor. exists (Register "b"). reflexivity.
  - split; [by exists Query|]. vm_compute. lia.
  - destruct (Hq host eq_refl) as (data & l & [= <-] & Hd & _ & Hr).
    by exists s1, (mkState (recv_from (Pack.encode Query) b1) (addresses s1)), (to_vec ["b"]), l.
Defined.

(** A datagram cut short is completed by what an earlier one left in the buffer: an
    address nobody sent is registered. *)
Example truncated_datagram_registers_stale :
  let host := V4 1 1 in
  let first := Pack.encode (Register "10.0.0.1") in
  let second := take 17 (Pack.encode (Register "19.0.0.7")) in
  let b1 := recv_from first (buf start) in
  turn start (Datagram first host) NoReply (mkState b1 ({["10.0.0.1"]} ∪ ∅)) ∧
  turn (mkState b1 ({["10.0.0.1"]} ∪ ∅)) (Datagram second host) NoReply
    (mkState (recv_from second b1) ({["19.0.0.1"]} ∪ ({["10.0.0.1"]} ∪ ∅))).
Proof.
  split.
  - apply turn_register. vm_compute. reflexivity.
  - apply (turn_register (mkState _ _)). vm_compute. reflexivity.
Qed.
